(** * The client batcher of yb/client/batcher.cc

    A shallow embedding of [yb::client::internal::Batcher] and the properties
    of its life cycle: ingress ([Add]), tablet lookup completion, flush,
    grouping, dispatch, response handling, completion and abort.

    Conventions of the embedding.
    - The batcher's mutex serialises every member function, so a member
      function is a function on the state and a life cycle is a sequence of
      completed calls.
    - A failed [CHECK] terminates the process: such a call returns [None].
      [LOG(DFATAL)] is modelled as in a release build: it logs and goes on.
    - [InFlightOp] objects are shared between [ops_], [ops_queue_], the
      lookup callbacks and the RPCs through [shared_ptr]: they live in a heap
      and are named by their address, a [Handle].
    - Calls into collaborators (session, transaction, meta cache, RPC layer,
      callback pool) are recorded in a trace of [Effect]s; what the
      collaborators answer is given by an [Oracle].
    - [ops_] is an unordered set: the order in which a loop walks it is not
      fixed by the program and is given by the [Oracle].
    - [int] counters are [Z]; signed overflow is undefined in C++ and needs
      2^31 operations in one batcher, so no wrap-around is written. *)

From stdpp Require Import gmap strings pretty list sorting.
From Stdlib Require Import ZArith Ascii Floats.SpecFloat.

Open Scope Z_scope.

Set Warnings "-clear-no-such-hyp".


(** ** Status *)

(** The status codes this file produces or tests, and some of those it
    relays from the meta cache and the tablet servers. *)
Inductive StatusCode :=
  | OK | NotFound | Corruption | InvalidArgument | IOError | IllegalState
  | Aborted | RemoteError | ServiceUnavailable | TimedOut | TryAgain
  | InternalError | Expired | Combined.

Inductive ClientErrorCode :=
  | kNone
  | kTablePartitionListIsStale
  | kAbortedBatchDueToFailedTabletLookup
  | kTablePartitionListVersionDoesNotMatch
  | kTabletNotYetRunning.

#[global] Instance StatusCode_eq_dec : EqDecision StatusCode.
Proof. solve_decision. Defined.
#[global] Instance ClientErrorCode_eq_dec : EqDecision ClientErrorCode.
Proof. solve_decision. Defined.

Record Status := mkStatus {
  code : StatusCode;
  message : string;
  client_error : ClientErrorCode;
}.

#[global] Instance Status_eq_dec : EqDecision Status.
Proof. solve_decision. Defined.

(** [Status::OK()] and the [STATUS] / [STATUS_EC_FORMAT] macros. *)
Definition Status_OK : Status := mkStatus OK "" kNone.
Definition STATUS (c : StatusCode) (msg : string) : Status := mkStatus c msg kNone.
Definition STATUS_EC (c : StatusCode) (msg : string) (ec : ClientErrorCode) : Status :=
  mkStatus c msg ec.

Definition ok (s : Status) : bool := bool_decide (code s = OK).
Definition IsCombined (s : Status) : bool := bool_decide (code s = Combined).
(** [ClientError(s)]: the client error code carried by a status. *)
Definition ClientError (s : Status) : ClientErrorCode := client_error s.
(** [Status::CloneAndPrepend]. *)
Definition CloneAndPrepend (s : Status) (msg : string) : Status :=
  mkStatus (code s) (msg +:+ ": " +:+ message s) (client_error s).

Inductive Result (A : Type) :=
  | ROk (a : A)
  | RErr (s : Status).
Arguments ROk {A} a.
Arguments RErr {A} s.

Definition result_ok {A} (r : Result A) : bool :=
  match r with ROk _ => true | RErr _ => false end.

(** [Batcher::kErrorReachingOutToTServersMsg]. *)
Definition kErrorReachingOutToTServersMsg : string :=
  "Errors occurred while reaching out to the tablet servers".

(** [Substitute] / [Format]: [$i] is replaced by the i-th argument. *)
Definition digit_of (c : ascii) : option nat :=
  let n := nat_of_ascii c in
  if bool_decide (48 <= n)%nat && bool_decide (n <= 57)%nat then Some (n - 48)%nat else None.

Fixpoint Format (tpl : string) (args : list string) : string :=
  match tpl with
  | EmptyString => EmptyString
  | String c rest =>
      match rest with
      | String d rest' =>
          if bool_decide (c = "$"%char) then
            match digit_of d with
            | Some i => default "" (args !! i) +:+ Format rest' args
            | None => String c (Format rest args)
            end
          else String c (Format rest args)
      | EmptyString => String c EmptyString
      end
  end.

(** ** Operations, tablets and in-flight operations *)

Inductive BatcherState :=
  | kGatheringOps | kResolvingTablets | kTransactionPrepare
  | kTransactionReady | kComplete | kAborted.

Inductive InFlightOpState :=
  | kLookingUpTablet | kBufferedToTabletServer | kCompleted.

(** [YBOperation::Type]. *)
Inductive OpType :=
  | QL_READ | QL_WRITE | REDIS_READ | REDIS_WRITE | PGSQL_READ | PGSQL_WRITE.

Inductive OpGroup := kWrite | kLeaderRead | kConsistentPrefixRead.

#[global] Instance BatcherState_eq_dec : EqDecision BatcherState.
Proof. solve_decision. Defined.
#[global] Instance InFlightOpState_eq_dec : EqDecision InFlightOpState.
Proof. solve_decision. Defined.
#[global] Instance OpType_eq_dec : EqDecision OpType.
Proof. solve_decision. Defined.
#[global] Instance OpGroup_eq_dec : EqDecision OpGroup.
Proof. solve_decision. Defined.

(** The enumerators in declaration order, for [lgroup < rgroup]. *)
Definition OpGroup_rank (g : OpGroup) : nat :=
  match g with kWrite => 0 | kLeaderRead => 1 | kConsistentPrefixRead => 2 end.

Record Partition := mkPartition {
  partition_key_start : string;
  partition_key_end : string;
}.

(** A [RemoteTablet] object; [tablet_addr] is what [tablet.get()] returns. *)
Record RemoteTablet := mkRemoteTablet {
  tablet_addr : N;
  tablet_id : string;
  partition : Partition;
  tablet_partition_list_version : N;
}.

(** What the batcher reads from a [YBOperation]. The operation is owned by
    the user; its two mutators, [SetHashCode] and
    [MarkTablePartitionListAsStale], write to the store of the [World]
    below, under the operation's address [op_addr]. *)
Record YBOperation := mkYBOperation {
  op_addr : nat;
  type : OpType;
  group : OpGroup;
  (* GetPartitionKey(&key): the status returned and the key written *)
  GetPartitionKey : Status * string;
  MaybeRefreshTablePartitionList : Result bool;
  (* table()->partition_schema().IsHashPartitioning() *)
  IsHashPartitioning : bool;
  (* table()->name() *)
  table_name : string;
  namespace_name : string;
  (* tablet(): a tablet preselected by the caller *)
  op_tablet : option RemoteTablet;
  partition_list_version : option N;
}.

Definition Handle := nat.

Record InFlightOp := mkInFlightOp {
  yb_op : YBOperation;
  partition_key : string;
  tablet : option RemoteTablet;
  state : InFlightOpState;
  sequence_number_ : Z;
}.

(** [std::make_shared<InFlightOp>(yb_op)]. *)
Definition new_InFlightOp (op : YBOperation) : InFlightOp :=
  mkInFlightOp op "" None kLookingUpTablet 0.

(** [tablet.get()] as an address; the null pointer is 0. *)
Definition tablet_get (op : InFlightOp) : N :=
  match tablet op with Some t => tablet_addr t | None => 0%N end.

(** A group of [ops_info_.groups]: the iterators [begin], [end] as indices
    into [ops_queue_]. *)
Record InFlightOpsGroup := mkGroup {
  g_begin : nat;
  g_end : nat;
  need_metadata : bool;
}.

Inductive RpcKind := WriteRpc | ReadRpc_STRONG | ReadRpc_CONSISTENT_PREFIX.

(** [AsyncRpcData], with the kind of RPC built from it. *)
Record AsyncRpc := mkAsyncRpc {
  rpc_kind : RpcKind;
  rpc_tablet : N;
  allow_local_calls_in_curr_thread : bool;
  need_consistent_read : bool;
  rpc_ops : list Handle;
  rpc_need_metadata : bool;
}.

(** The part of a [WriteResponsePB] the batcher reads; a per-row error is
    its row index and [StatusFromPB] of its error. *)
Record WriteResponse := mkWriteResponse {
  propagated_hybrid_time : option N;
  per_row_errors : list (nat * Status);
}.

Definition StatusFunctor := nat.

(** ** Collaborators *)

(** Functions of the repository that this file calls and does not define. *)
Class Collaborators := {
  (* PartitionSchema::DecodeMultiColumnHashValue *)
  DecodeMultiColumnHashValue : string -> N;
  (* Partition::ContainsKey *)
  ContainsKey : Partition -> string -> bool;
  ShouldSessionRetryError : Status -> bool;
  (* text for log and status messages *)
  BatcherStateToString : BatcherState -> string;
  YBOperationToString : YBOperation -> string;
  InFlightOpToString : InFlightOp -> string;
  PartitionDebugString : Partition -> string;
  ToDebugHexString : string -> string;
  VersionToString : N -> string;
}.

(** Calls into collaborators, in the order they are made. *)
Inductive Effect :=
  | FlushStarted
  | FlushFinished
  | ExpectOperations (n : nat)
  | InvalidateTableCache (table : string)
  | LookupTabletByKey (table : string) (key : string) (deadline : Z) (h : Handle)
  | Prepare (groups : list InFlightOpsGroup) (force_consistent_read : bool)
            (deadline : Z) (initial : bool)
  | AddChildTrace
  | SendRpc (rpc : AsyncRpc)
  | Flushed (ops : list Handle) (st : Status)
  | UpdateClock
  | UpdateLatestObservedHybridTime (ht : N)
  (* the flush callback run with a status, in the pool or inline *)
  | RunFlushCallback (cb : StatusFunctor) (st : Status) (in_pool : bool).

(** What the collaborators answer during one call into the batcher. *)
Record Oracle := mkOracle {
  (* weak_session_.lock() is not null *)
  session_alive : bool;
  (* callback_threadpool()->Submit(runnable).ok() *)
  submit_ok : bool;
  (* RandomActWithProbability(FLAGS_TEST_simulate_..._probability) *)
  random_act : bool;
  (* the value returned by YBTransaction::Prepare *)
  prepare_ready : bool;
  (* the need_metadata flag Prepare leaves in the i-th group *)
  prepare_need_metadata : nat -> bool;
  (* the place of an operation in the iteration order of ops_ *)
  ops_rank : Handle -> nat;
}.

(** ** The batcher and its surroundings *)

(** What the constructor and the client fix for the life of a batcher. *)
Record Config := mkConfig {
  (* transaction_ is not null *)
  has_transaction : bool;
  (* read_point_ is not null *)
  has_read_point : bool;
  force_consistent_read_ : bool;
  allow_local_calls_in_curr_thread_ : bool;
  rejection_score_source_ : option (Z -> spec_float);
  (* client_->callback_threadpool() is not null *)
  has_callback_threadpool : bool;
  FLAGS_TEST_combine_batcher_errors : bool;
}.

Record Batcher := mkBatcher {
  config : Config;
  state_ : BatcherState;
  ops_ : gset Handle;
  ops_queue_ : list Handle;
  (* ops_info_.groups *)
  ops_info_groups : list InFlightOpsGroup;
  outstanding_lookups_ : Z;
  had_errors_ : bool;
  combined_error_ : Status;
  flush_callback_ : option StatusFunctor;
  next_op_sequence_number_ : Z;
  error_collector_ : list (YBOperation * Status);
  deadline_ : Z;
}.

(** The batcher, the heap of in-flight operations, the mutable part of the
    user's operations, and the collaborators: the lookups the meta cache
    still owes a callback for, the RPCs sent and not yet answered, whether
    the transaction owes a call of the ready callback, and the trace of
    calls made so far. *)
Record World := mkWorld {
  batcher : Batcher;
  heap : list InFlightOp;
  (* YBOperation: the hash code set by SetHashCode, by op_addr *)
  hash_code : gmap nat N;
  (* YBOperation: marked by MarkTablePartitionListAsStale, by op_addr *)
  partition_list_stale : gset nat;
  lookups : list Handle;
  rpcs : list AsyncRpc;
  prepare_waiting : bool;
  trace : list Effect;
}.

Definition set_state_ (v : BatcherState) (b : Batcher) : Batcher :=
  mkBatcher (config b) v (ops_ b) (ops_queue_ b) (ops_info_groups b)
    (outstanding_lookups_ b) (had_errors_ b) (combined_error_ b) (flush_callback_ b)
    (next_op_sequence_number_ b) (error_collector_ b) (deadline_ b).

Definition set_ops_ (v : gset Handle) (b : Batcher) : Batcher :=
  mkBatcher (config b) (state_ b) v (ops_queue_ b) (ops_info_groups b)
    (outstanding_lookups_ b) (had_errors_ b) (combined_error_ b) (flush_callback_ b)
    (next_op_sequence_number_ b) (error_collector_ b) (deadline_ b).

Definition set_ops_queue_ (v : list Handle) (b : Batcher) : Batcher :=
  mkBatcher (config b) (state_ b) (ops_ b) v (ops_info_groups b) (outstanding_lookups_
    b) (had_errors_ b) (combined_error_ b) (flush_callback_ b) (next_op_sequence_number_
    b) (error_collector_ b) (deadline_ b).

Definition set_ops_info_groups (v : list InFlightOpsGroup) (b : Batcher) : Batcher :=
  mkBatcher (config b) (state_ b) (ops_ b) (ops_queue_ b) v (outstanding_lookups_ b)
    (had_errors_ b) (combined_error_ b) (flush_callback_ b) (next_op_sequence_number_ b)
    (error_collector_ b) (deadline_ b).

Definition set_outstanding_lookups_ (v : Z) (b : Batcher) : Batcher :=
  mkBatcher (config b) (state_ b) (ops_ b) (ops_queue_ b) (ops_info_groups b) v
    (had_errors_ b) (combined_error_ b) (flush_callback_ b) (next_op_sequence_number_ b)
    (error_collector_ b) (deadline_ b).

Definition set_had_errors_ (v : bool) (b : Batcher) : Batcher :=
  mkBatcher (config b) (state_ b) (ops_ b) (ops_queue_ b) (ops_info_groups b)
    (outstanding_lookups_ b) v (combined_error_ b) (flush_callback_ b)
    (next_op_sequence_number_ b) (error_collector_ b) (deadline_ b).

Definition set_combined_error_ (v : Status) (b : Batcher) : Batcher :=
  mkBatcher (config b) (state_ b) (ops_ b) (ops_queue_ b) (ops_info_groups b)
    (outstanding_lookups_ b) (had_errors_ b) v (flush_callback_ b)
    (next_op_sequence_number_ b) (error_collector_ b) (deadline_ b).

Definition set_flush_callback_ (v : option StatusFunctor) (b : Batcher) : Batcher :=
  mkBatcher (config b) (state_ b) (ops_ b) (ops_queue_ b) (ops_info_groups b)
    (outstanding_lookups_ b) (had_errors_ b) (combined_error_ b) v
    (next_op_sequence_number_ b) (error_collector_ b) (deadline_ b).

Definition set_next_op_sequence_number_ (v : Z) (b : Batcher) : Batcher :=
  mkBatcher (config b) (state_ b) (ops_ b) (ops_queue_ b) (ops_info_groups b)
    (outstanding_lookups_ b) (had_errors_ b) (combined_error_ b) (flush_callback_ b) v
    (error_collector_ b) (deadline_ b).

Definition set_error_collector_ (v : list (YBOperation * Status)) (b : Batcher) : Batcher :=
  mkBatcher (config b) (state_ b) (ops_ b) (ops_queue_ b) (ops_info_groups b)
    (outstanding_lookups_ b) (had_errors_ b) (combined_error_ b) (flush_callback_ b)
    (next_op_sequence_number_ b) v (deadline_ b).

Definition set_deadline_ (v : Z) (b : Batcher) : Batcher :=
  mkBatcher (config b) (state_ b) (ops_ b) (ops_queue_ b) (ops_info_groups b)
    (outstanding_lookups_ b) (had_errors_ b) (combined_error_ b) (flush_callback_ b)
    (next_op_sequence_number_ b) (error_collector_ b) v.

Definition set_batcher (v : Batcher) (w : World) : World :=
  mkWorld v (heap w) (hash_code w) (partition_list_stale w) (lookups w) (rpcs w)
    (prepare_waiting w) (trace w).

Definition set_heap (v : list InFlightOp) (w : World) : World :=
  mkWorld (batcher w) v (hash_code w) (partition_list_stale w) (lookups w) (rpcs w)
    (prepare_waiting w) (trace w).

Definition set_hash_code (v : gmap nat N) (w : World) : World :=
  mkWorld (batcher w) (heap w) v (partition_list_stale w) (lookups w) (rpcs w)
    (prepare_waiting w) (trace w).

Definition set_partition_list_stale (v : gset nat) (w : World) : World :=
  mkWorld (batcher w) (heap w) (hash_code w) v (lookups w) (rpcs w) (prepare_waiting w)
    (trace w).

Definition set_lookups (v : list Handle) (w : World) : World :=
  mkWorld (batcher w) (heap w) (hash_code w) (partition_list_stale w) v (rpcs w)
    (prepare_waiting w) (trace w).

Definition set_rpcs (v : list AsyncRpc) (w : World) : World :=
  mkWorld (batcher w) (heap w) (hash_code w) (partition_list_stale w) (lookups w) v
    (prepare_waiting w) (trace w).

Definition set_prepare_waiting (v : bool) (w : World) : World :=
  mkWorld (batcher w) (heap w) (hash_code w) (partition_list_stale w) (lookups w) (rpcs
    w) v (trace w).

Definition set_trace (v : list Effect) (w : World) : World :=
  mkWorld (batcher w) (heap w) (hash_code w) (partition_list_stale w) (lookups w) (rpcs
    w) (prepare_waiting w) v.

Definition upd_batcher (f : Batcher -> Batcher) (w : World) : World :=
  set_batcher (f (batcher w)) w.

Definition emit (e : Effect) (w : World) : World := set_trace (trace w ++ [e]) w.

(** [Batcher::Batcher]: the constructor leaves the state [kGatheringOps]. *)
Definition new_Batcher (cfg : Config) : Batcher :=
  mkBatcher cfg kGatheringOps ∅ [] [] 0 false Status_OK None 0 [] 0.

Definition new_World (cfg : Config) : World :=
  mkWorld (new_Batcher cfg) [] ∅ ∅ [] [] false [].

(** A loop body run over a list, stopping at the first failed [CHECK]. *)
Fixpoint for_each {A S : Type} (body : A -> S -> option S) (l : list A) (s : S) : option S :=
  match l with
  | [] => Some s
  | x :: l' => match body x s with Some s' => for_each body l' s' | None => None end
  end.

(** ** Sorting and grouping the queue *)

(** The comparator passed to [std::sort] in [FlushBuffersIfReady]. *)
Definition InFlightOp_less (lhs rhs : InFlightOp) : bool :=
  if bool_decide (tablet_get lhs = tablet_get rhs) then
    let lgroup := group (yb_op lhs) in
    let rgroup := group (yb_op rhs) in
    if bool_decide (lgroup ≠ rgroup) then
      bool_decide (OpGroup_rank lgroup < OpGroup_rank rgroup)%nat
    else bool_decide (sequence_number_ lhs < sequence_number_ rhs)
  else bool_decide (tablet_get lhs < tablet_get rhs)%N.

(** [std::sort]: the standard fixes the result up to the order of elements
    that the comparator does not tell apart; this is one such result, by
    insertion. Two in-flight operations the comparator does not tell apart
    have the same tablet, group and sequence number. *)
Fixpoint sort_insert {A} (less : A -> A -> bool) (x : A) (l : list A) : list A :=
  match l with
  | [] => [x]
  | y :: l' => if less x y then x :: y :: l' else y :: sort_insert less x l'
  end.

Definition std_sort {A} (less : A -> A -> bool) (l : list A) : list A :=
  foldr (sort_insert less) [] l.

(** The elements of [[b, e)]. *)
Definition slice {A} (l : list A) (b e : nat) : list A := take (e - b) (drop b l).

Section BatcherOps.
Context `{Collaborators}.

(** The status of the abort for a stale partition list version. *)
Definition version_mismatch_status (op : InFlightOp) (requested ours : N) : Status :=
  STATUS_EC Aborted
    (Format "Operation $0 requested table partition list version $1, but ours is: $2"
       [YBOperationToString (yb_op op); VersionToString requested; VersionToString ours])
    kTablePartitionListVersionDoesNotMatch.

Inductive GroupLoop :=
  (* a null tablet is dereferenced *)
  | LoopFault
  (* Abort(status); return, with the groups closed so far *)
  | LoopAbort (status : Status) (groups : list InFlightOpsGroup)
  (* the loop ran to the end: the groups closed so far and group_start *)
  | LoopDone (groups : list InFlightOpsGroup) (group_start : nat).

(** The [for] loop of [FlushBuffersIfReady] from iterator [it] on, over the
    operations from [it] to the end of the sorted queue. *)
Fixpoint group_loop (its : list InFlightOp) (it group_start : nat)
    (current_group : OpGroup) (current_tablet : N)
    (groups : list InFlightOpsGroup) : GroupLoop :=
  match its with
  | [] => LoopDone groups group_start
  | op :: rest =>
      let it_group := group (yb_op op) in
      let it_tablet := tablet_get op in
      let next (_ : unit) :=
        if bool_decide (current_tablet ≠ it_tablet) || bool_decide (current_group ≠ it_group)
        then group_loop rest (S it) it it_group it_tablet
               (groups ++ [mkGroup group_start it false])
        else group_loop rest (S it) group_start current_group current_tablet groups in
      match partition_list_version (yb_op op) with
      | Some requested =>
          match tablet op with
          | None => LoopFault
          | Some t =>
              if bool_decide (requested ≠ tablet_partition_list_version t)
              then LoopAbort
                     (version_mismatch_status op requested (tablet_partition_list_version t))
                     groups
              else next tt
          end
      | None => next tt
      end
  end.

(** The grouping of [FlushBuffersIfReady] on a sorted, non-empty queue:
    the loop and the last [emplace_back]. *)
Definition make_groups (sorted : list InFlightOp) (groups0 : list InFlightOpsGroup) : GroupLoop :=
  match sorted with
  | [] => LoopFault
  | first :: _ =>
      match group_loop sorted 0 0 (group (yb_op first)) (tablet_get first) groups0 with
      | LoopDone groups group_start =>
          LoopDone (groups ++ [mkGroup group_start (length sorted) false]) group_start
      | r => r
      end
  end.

(** ** Member functions *)

Definition cfg (w : World) : Config := config (batcher w).

(** [Batcher::state]. *)
Definition Batcher_state (w : World) : BatcherState := state_ (batcher w).

(** [Batcher::SetDeadline]. *)
Definition SetDeadline (deadline : Z) (w : World) : World :=
  upd_batcher (set_deadline_ deadline) w.


(** [Batcher::CountBufferedOperations]. *)
Definition CountBufferedOperations (w : World) : nat :=
  if bool_decide (state_ (batcher w) = kGatheringOps) then size (ops_ (batcher w)) else 0%nat.

(** [Batcher::RejectionScore]. *)
Definition RejectionScore (attempt_num : Z) (w : World) : spec_float :=
  match rejection_score_source_ (cfg w) with
  | None => S754_zero false
  | Some source => source attempt_num
  end.

(** [Batcher::GetAndClearPendingErrors]. *)
Definition GetAndClearPendingErrors (w : World) : list (YBOperation * Status) * World :=
  (error_collector_ (batcher w), upd_batcher (set_error_collector_ []) w).

(** [Batcher::RunCallback]. The lambda takes the callback by
    [std::move(flush_callback_)], which leaves the member empty; the
    runnable is run once, by the pool or inline. Calling an empty
    [std::function] throws. *)
Definition RunCallback (o : Oracle) (status : Status) (w : World) : option World :=
  match flush_callback_ (batcher w) with
  | None => None
  | Some cb =>
      let w := upd_batcher (set_flush_callback_ None) w in
      let in_pool := has_callback_threadpool (cfg w) && submit_ok o in
      Some (emit (RunFlushCallback cb status in_pool) w)
  end.

(** [Batcher::CombineErrorUnlocked]. *)
Definition CombineErrorUnlocked (h : Handle) (status : Status) (w : World) : option World :=
  match heap w !! h with
  | None => None
  | Some in_flight_op =>
      let b := batcher w in
      let b := set_error_collector_ (error_collector_ b ++ [(yb_op in_flight_op, status)]) b in
      let b :=
        if FLAGS_TEST_combine_batcher_errors (config b) then
          if ok (combined_error_ b) then
            set_combined_error_ (CloneAndPrepend status (InFlightOpToString in_flight_op)) b
          else if negb (IsCombined (combined_error_ b))
                  && bool_decide (code (combined_error_ b) ≠ code status) then
            set_combined_error_ (STATUS Combined "Multiple failures") b
          else b
        else b in
      Some (set_batcher (set_had_errors_ true b) w)
  end.

(** [Batcher::MarkInFlightOpFailedUnlocked]. *)
Definition MarkInFlightOpFailedUnlocked (h : Handle) (s : Status) (w : World) : option World :=
  (* CHECK_EQ(1, ops_.erase(in_flight_op)) *)
  if bool_decide (h ∈ ops_ (batcher w)) then
    let w := upd_batcher (set_ops_ (ops_ (batcher w) ∖ {[h]})) w in
    match heap w !! h with
    | None => None
    | Some in_flight_op =>
        let w :=
          if bool_decide (ClientError s = kTablePartitionListIsStale) then
            set_partition_list_stale
              ({[op_addr (yb_op in_flight_op)]} ∪ partition_list_stale w) w
          else w in
        CombineErrorUnlocked h s w
    end
  else None.

(** [for (auto& op : ops_)]: the operations of [ops_], each once, in the
    order of the ranks the oracle gives them. Every order of the operations
    is the order of some ranks ([ops_in_order_any] below). *)
Definition ops_in_order (o : Oracle) (w : World) : list Handle :=
  std_sort (λ a b, bool_decide (ops_rank o a < ops_rank o b)%nat)
    (elements (ops_ (batcher w))).

(** [Batcher::Abort]. *)
Definition Abort (o : Oracle) (status : Status) (w : World) : option World :=
  let w := upd_batcher (set_state_ kAborted) w in
  let to_abort :=
    filter (λ h, state <$> heap w !! h = Some kBufferedToTabletServer)
           (ops_in_order o w) in
  match for_each (λ h, MarkInFlightOpFailedUnlocked h status) to_abort w with
  | None => None
  | Some w =>
      let run_callback := bool_decide (is_Some (flush_callback_ (batcher w))) in
      if run_callback then RunCallback o status w else Some w
  end.


(** [Batcher::CheckForFinishedFlush]. *)
Definition CheckForFinishedFlush (o : Oracle) (w : World) : option World :=
  let b := batcher w in
  if negb (bool_decide (ops_ b = ∅)) then Some w
  else if bool_decide (state_ b = kComplete) || bool_decide (state_ b = kGatheringOps)
          || bool_decide (state_ b = kAborted) then Some w
  else if bool_decide (state_ b ≠ kResolvingTablets)
          && bool_decide (state_ b ≠ kTransactionReady) then Some w
  else
    let w := upd_batcher (set_state_ kComplete) w in
    let w := if session_alive o then emit FlushFinished w else w in
    let s :=
      if negb (ok (combined_error_ b)) then combined_error_ b
      else if had_errors_ b then STATUS IOError kErrorReachingOutToTServersMsg
      else Status_OK in
    RunCallback o s w.

(** [Batcher::CreateRpc], called with [group.begin->get()->tablet.get()]. *)
Definition CreateRpc (w : World) (g : InFlightOpsGroup)
    (allow_local_calls need_consistent_read : bool) : option AsyncRpc :=
  let queue := ops_queue_ (batcher w) in
  match queue !! g_begin g with
  | None => None
  | Some h =>
      match heap w !! h with
      | None => None
      | Some first =>
          (* CHECK(group.begin != group.end) *)
          if bool_decide (g_begin g = g_end g) then None
          else
            let kind :=
              match group (yb_op first) with
              | kWrite => WriteRpc
              | kLeaderRead => ReadRpc_STRONG
              | kConsistentPrefixRead => ReadRpc_CONSISTENT_PREFIX
              end in
            Some (mkAsyncRpc kind (tablet_get first) allow_local_calls need_consistent_read
                    (slice queue (g_begin g) (g_end g)) (need_metadata g))
      end
  end.

(** The first loop of [ExecuteOperations]: one RPC per group, local calls
    allowed for [ops_info_.groups.back()] only. *)
Fixpoint create_rpcs (w : World) (need_consistent_read : bool)
    (groups : list InFlightOpsGroup) : option (list AsyncRpc) :=
  match groups with
  | [] => Some []
  | g :: rest =>
      let allow_local_calls :=
        allow_local_calls_in_curr_thread_ (cfg w) && bool_decide (rest = []) in
      match CreateRpc w g allow_local_calls need_consistent_read with
      | None => None
      | Some rpc =>
          match create_rpcs w need_consistent_read rest with
          | None => None
          | Some rpcs => Some (rpc :: rpcs)
          end
      end
  end.

Definition set_op_tablet (t : RemoteTablet) (op : InFlightOp) : InFlightOp :=
  mkInFlightOp (yb_op op) (partition_key op) (Some t) (state op) (sequence_number_ op).
Definition set_op_state (s : InFlightOpState) (op : InFlightOp) : InFlightOp :=
  mkInFlightOp (yb_op op) (partition_key op) (tablet op) s (sequence_number_ op).

(** Modelled from the spec: the RPC layer (yb/client/async_rpc.cc) is
    missing. An RPC that is sent owns its operations (section 4.5) and
    answers for them later; [RemoveInFlightOpsAfterFlushing] then finds
    each of them in [ops_], also after an [Abort] (section 5: an RPC
    completion that arrives after the abort discards or fails its
    operation), and [Abort] fails every operation of [ops_] that is
    BufferedToTabletServer (section 4.8). So an operation handed to an RPC
    has left that state; the state after it in section 3 is Completed. *)
Definition take_ops (ops : list Handle) (heap : list InFlightOp) : list InFlightOp :=
  imap (λ h op, if bool_decide (h ∈ ops) then set_op_state kCompleted op else op) heap.

(** The second loop of [ExecuteOperations]; a sent RPC takes its operations
    and is owed an answer. *)
Definition send_rpc (w : World) (rpc : AsyncRpc) : World :=
  let w := if has_transaction (cfg w) then emit AddChildTrace w else w in
  set_heap (take_ops (rpc_ops rpc) (heap w))
    (set_rpcs (rpcs w ++ [rpc]) (emit (SendRpc rpc) w)).

(** [Batcher::ExecuteOperations]. *)
Definition ExecuteOperations (o : Oracle) (initial : bool) (w : World) : option World :=
  let prepared : World + World :=
    if has_transaction (cfg w) then
      let b := batcher w in
      let w := emit (Prepare (ops_info_groups b) (force_consistent_read_ (config b))
                       (deadline_ b) initial) w in
      let w := upd_batcher
                 (set_ops_info_groups
                    (imap (λ i g, mkGroup (g_begin g) (g_end g) (prepare_need_metadata o i))
                          (ops_info_groups b))) w in
      if negb (prepare_ready o) then inl (set_prepare_waiting true w) else inr w
    else inr w in
  match prepared with
  | inl w => Some w
  | inr w =>
      if bool_decide (state_ (batcher w) ≠ kTransactionPrepare) then Some w
      else
        let w := upd_batcher (set_state_ kTransactionReady) w in
        if bool_decide (ops_queue_ (batcher w) = []) then Some w
        else
          let force_consistent_read :=
            force_consistent_read_ (cfg w) || has_transaction (cfg w) in
          let groups := ops_info_groups (batcher w) in
          let need_consistent_read :=
            force_consistent_read || bool_decide (1 < length groups)%nat in
          match create_rpcs w need_consistent_read groups with
          | None => None
          | Some new_rpcs =>
              let w := upd_batcher (set_ops_queue_ []) w in
              Some (foldl send_rpc w new_rpcs)
          end
  end.

(** [Batcher::TransactionReady]. *)
Definition TransactionReady (o : Oracle) (status : Status) (w : World) : option World :=
  if ok status then ExecuteOperations o false w else Abort o status w.

Definition tablet_resolution_failed : Status :=
  STATUS_EC Aborted "Tablet resolution failed for some ops, aborted the whole batch."
    kAbortedBatchDueToFailedTabletLookup.

(** [Batcher::FlushBuffersIfReady]. *)
Definition FlushBuffersIfReady (o : Oracle) (w : World) : option World :=
  let b := batcher w in
  if bool_decide (outstanding_lookups_ b ≠ 0) then Some w
  else if bool_decide (state_ b ≠ kResolvingTablets) then Some w
  else if bool_decide (ops_queue_ b = []) then
    Some (upd_batcher (set_state_ kTransactionReady) w)
  else
    let w := upd_batcher (set_state_ kTransactionPrepare) w in
    if had_errors_ (batcher w) then Abort o tablet_resolution_failed w
    else
      (* the operations the queue points to *)
      match mapM (λ h, pair h <$> heap w !! h) (ops_queue_ (batcher w)) with
      | None => None
      | Some items =>
          let sorted := std_sort (λ lhs rhs, InFlightOp_less lhs.2 rhs.2) items in
          let w := upd_batcher (set_ops_queue_ (sorted.*1)) w in
          match make_groups (sorted.*2) (ops_info_groups (batcher w)) with
          | LoopFault => None
          | LoopAbort status groups =>
              Abort o status (upd_batcher (set_ops_info_groups groups) w)
          | LoopDone groups _ =>
              ExecuteOperations o true (upd_batcher (set_ops_info_groups groups) w)
          end
      end.

Definition row_not_in_partition_status (op : InFlightOp) (t : RemoteTablet) : Status :=
  STATUS InternalError
    (Format "Row $0 not in partition $1, partition key: $2"
       [YBOperationToString (yb_op op); PartitionDebugString (partition t);
        ToDebugHexString (partition_key op)]).

(** [Batcher::TabletLookupFinished]. *)
Definition TabletLookupFinished (o : Oracle) (h : Handle)
    (lookup_result : Result RemoteTablet) (w : World) : option World :=
  let w := upd_batcher (λ b, set_outstanding_lookups_ (outstanding_lookups_ b - 1) b) w in
  let all_lookups_finished := bool_decide (outstanding_lookups_ (batcher w) = 0) in
  if bool_decide (state_ (batcher w) = kAborted) then
    MarkInFlightOpFailedUnlocked h (STATUS Aborted "Batch aborted") w
  else if bool_decide (state_ (batcher w) ≠ kResolvingTablets)
          && bool_decide (state_ (batcher w) ≠ kGatheringOps) then Some w
  else
    match heap w !! h with
    | None => None
    | Some op =>
        let '(lookup_result, w) :=
          match lookup_result with
          | ROk t =>
              let partition_contains_row := ContainsKey (partition t) (partition_key op) in
              if negb partition_contains_row
                 || (random_act o && bool_decide (namespace_name (yb_op op) = "yb_test"))
              then (RErr (row_not_in_partition_status op t), w)
              else (ROk t, set_heap (<[h := set_op_tablet t op]> (heap w)) w)
          | RErr s => (RErr s, w)
          end in
        let locked :=
          match lookup_result with
          | ROk _ =>
              match heap w !! h with
              | None => None
              | Some op =>
                  (* op->state.compare_exchange_strong(kLookingUpTablet, kBuffered...) *)
                  if bool_decide (state op = kLookingUpTablet) then
                    let w := set_heap
                               (<[h := set_op_state kBufferedToTabletServer op]> (heap w)) w in
                    Some (upd_batcher (λ b, set_ops_queue_ (ops_queue_ b ++ [h]) b) w)
                  else Some w
              end
          | RErr s => MarkInFlightOpFailedUnlocked h s w
          end in
        match locked with
        | None => None
        | Some w =>
            match (if result_ok lookup_result then Some w else CheckForFinishedFlush o w) with
            | None => None
            | Some w => if all_lookups_finished then FlushBuffersIfReady o w else Some w
            end
        end
    end.

(** [Batcher::AddInFlightOp]. The object made by [std::make_shared] in [Add]
    enters the heap here, at a fresh address, which is returned. *)
Definition AddInFlightOp (op : InFlightOp) (w : World) : option (Handle * World) :=
  let b := batcher w in
  (* CHECK_EQ(state_, BatcherState::kGatheringOps) *)
  if bool_decide (state_ b ≠ kGatheringOps) then None
  else
    let h := length (heap w) in
    (* CHECK(ops_.insert(op).second) *)
    if bool_decide (h ∈ ops_ b) then None
    else
      let op := mkInFlightOp (yb_op op) (partition_key op) (tablet op) (state op)
                  (next_op_sequence_number_ b) in
      let b := set_ops_ ({[h]} ∪ ops_ b) b in
      let b := set_next_op_sequence_number_ (next_op_sequence_number_ b + 1) b in
      let b := set_outstanding_lookups_ (outstanding_lookups_ b + 1) b in
      Some (h, set_batcher b (set_heap (heap w ++ [op]) w)).

(** [SetHashCode] on the user's operation. *)
Definition SetHashCode (op : YBOperation) (hash : N) (w : World) : World :=
  set_hash_code (<[op_addr op := hash]> (hash_code w)) w.

(** The [switch] of [Add] for a hash partitioned table. *)
Definition stamp_hash_code (op : YBOperation) (partition_key : string) (w : World) : World :=
  match type op with
  | QL_READ =>
      if negb (bool_decide (partition_key = "")) then
        SetHashCode op (DecodeMultiColumnHashValue partition_key) w
      else w
  | QL_WRITE => SetHashCode op (DecodeMultiColumnHashValue partition_key) w
  | REDIS_READ => SetHashCode op (DecodeMultiColumnHashValue partition_key) w
  | REDIS_WRITE => SetHashCode op (DecodeMultiColumnHashValue partition_key) w
  | PGSQL_READ =>
      if negb (bool_decide (partition_key = "")) then
        SetHashCode op (DecodeMultiColumnHashValue partition_key) w
      else w
  | PGSQL_WRITE => SetHashCode op (DecodeMultiColumnHashValue partition_key) w
  end.

Definition wrong_state_status (s : BatcherState) : Status :=
  STATUS InternalError
    (Format "Adding op to batcher in a wrong state: $0" [BatcherStateToString s]).

(** [Batcher::Add]: the status returned and the state left. *)
Definition Add (o : Oracle) (op : YBOperation) (w : World) : option (Status * World) :=
  if bool_decide (Batcher_state w ≠ kGatheringOps) then
    Some (wrong_state_status (state_ (batcher w)), w)
  else
    let in_flight_op := new_InFlightOp op in
    (* RETURN_NOT_OK(yb_op->GetPartitionKey(&in_flight_op->partition_key)) *)
    let '(s, key) := GetPartitionKey op in
    if negb (ok s) then Some (s, w)
    else
      let in_flight_op :=
        mkInFlightOp (yb_op in_flight_op) key (tablet in_flight_op) (state in_flight_op)
          (sequence_number_ in_flight_op) in
      (* VERIFY_RESULT(yb_op->MaybeRefreshTablePartitionList()) *)
      match MaybeRefreshTablePartitionList op with
      | RErr s => Some (s, w)
      | ROk refreshed =>
          let w := if refreshed then emit (InvalidateTableCache (table_name op)) w else w in
          let w := if IsHashPartitioning op then stamp_hash_code op key w else w in
          match AddInFlightOp in_flight_op w with
          | None => None
          | Some (h, w) =>
              let started :=
                match op_tablet op with
                | Some t => TabletLookupFinished o h (ROk t) w
                | None =>
                    Some (set_lookups (lookups w ++ [h])
                            (emit (LookupTabletByKey (table_name op) key
                                     (deadline_ (batcher w)) h) w))
                end in
              match started with
              | None => None
              | Some w => Some (Status_OK, w)
              end
          end
      end.

(** [Batcher::FlushAsync]. *)
Definition FlushAsync (o : Oracle) (callback : StatusFunctor)
    (is_within_transaction_retry : bool) (w : World) : option World :=
  (* CHECK_EQ(state_, BatcherState::kGatheringOps) *)
  if bool_decide (state_ (batcher w) ≠ kGatheringOps) then None
  else
    let w := upd_batcher (set_state_ kResolvingTablets) w in
    let w := upd_batcher (set_flush_callback_ (Some callback)) w in
    let operations_count := size (ops_ (batcher w)) in
    let w := if session_alive o then emit FlushStarted w else w in
    let w :=
      if has_transaction (cfg w) && negb is_within_transaction_retry
      then emit (ExpectOperations operations_count) w else w in
    match CheckForFinishedFlush o w with
    | None => None
    | Some w => FlushBuffersIfReady o w
    end.

(** [Batcher::ProcessRpcStatus]. *)
Definition ProcessRpcStatus (rpc : AsyncRpc) (s : Status) (w : World) : option World :=
  if bool_decide (state_ (batcher w) ≠ kTransactionReady) then Some w
  else if negb (ok s) then for_each (λ h, CombineErrorUnlocked h s) (rpc_ops rpc) w
  else Some w.

(** [Batcher::ProcessReadResponse]. *)
Definition ProcessReadResponse (rpc : AsyncRpc) (s : Status) (w : World) : option World :=
  ProcessRpcStatus rpc s w.

(** [Batcher::ProcessWriteResponse]. *)
Definition ProcessWriteResponse (rpc : AsyncRpc) (s : Status) (resp : WriteResponse)
    (w : World) : option World :=
  match ProcessRpcStatus rpc s w with
  | None => None
  | Some w =>
      let w :=
        match propagated_hybrid_time resp with
        | Some ht => if ok s then emit (UpdateLatestObservedHybridTime ht) w else w
        | None => w
        end in
      for_each
        (λ (err_pb : nat * Status) w,
           if bool_decide (length (rpc_ops rpc) <= err_pb.1)%nat then Some w
           else
             match rpc_ops rpc !! err_pb.1 with
             | None => None
             | Some h => CombineErrorUnlocked h err_pb.2 w
             end)
        (per_row_errors resp) w
  end.

(** [Batcher::RemoveInFlightOpsAfterFlushing]. *)
Definition RemoveInFlightOpsAfterFlushing (ops : list Handle) (status : Status)
    (w : World) : option World :=
  let w :=
    if has_transaction (cfg w) then
      let ops_will_be_retried := negb (ok status) && ShouldSessionRetryError status in
      if negb ops_will_be_retried then emit (Flushed ops status) w else w
    else w in
  let w := if ok status && has_read_point (cfg w) then emit UpdateClock w else w in
  for_each
    (λ h w,
       (* CHECK_EQ(1, ops_.erase(op)) *)
       if bool_decide (h ∈ ops_ (batcher w))
       then Some (upd_batcher (set_ops_ (ops_ (batcher w) ∖ {[h]})) w)
       else None)
    ops w.

(** ** Life cycles *)

(** Modelled from the spec: the RPC layer (yb/client/async_rpc.cc) that calls
    back into the batcher is missing. By section 4.6 a finished RPC has its
    response handled ([ProcessWriteResponse] for a write,
    [ProcessReadResponse] for a read), then calls
    [RemoveInFlightOpsAfterFlushing] with its operations and status, then the
    finish check. [k] is the position of the RPC among those not yet
    answered. *)
Definition RpcFinished (o : Oracle) (k : nat) (s : Status) (resp : WriteResponse)
    (w : World) : option World :=
  match rpcs w !! k with
  | None => None
  | Some rpc =>
      let w := set_rpcs (delete k (rpcs w)) w in
      let handled :=
        match rpc_kind rpc with
        | WriteRpc => ProcessWriteResponse rpc s resp w
        | _ => ProcessReadResponse rpc s w
        end in
      match handled with
      | None => None
      | Some w =>
          match RemoveInFlightOpsAfterFlushing (rpc_ops rpc) s w with
          | None => None
          | Some w => CheckForFinishedFlush o w
          end
      end
  end.

(** Modelled from the spec: the meta cache is missing. By section 4.2 it
    calls the callback bound in [Add] once per lookup, with a tablet or with
    a failure. *)
Definition LookupCallback (o : Oracle) (h : Handle) (r : Result RemoteTablet)
    (w : World) : option World :=
  if bool_decide (h ∈ lookups w) then
    TabletLookupFinished o h r (set_lookups (filter (λ h', h' ≠ h) (lookups w)) w)
  else None.

(** Modelled from the spec: the transaction is missing. By section 4.4, when
    [Prepare] has answered "not yet" it calls the continuation later, with a
    status. *)
Definition ReadyCallback (o : Oracle) (s : Status) (w : World) : option World :=
  if prepare_waiting w then TransactionReady o s (set_prepare_waiting false w) else None.

(** The calls that make up a life cycle of a batcher. *)
Inductive Event :=
  | EvAdd (op : YBOperation)
  | EvFlushAsync (callback : StatusFunctor) (is_within_transaction_retry : bool)
  | EvLookup (h : Handle) (r : Result RemoteTablet)
  | EvTransactionReady (s : Status)
  | EvRpc (k : nat) (s : Status) (resp : WriteResponse)
  | EvAbort (s : Status)
  | EvSetDeadline (deadline : Z)
  | EvGetAndClearPendingErrors.

(** One call, with the answers of the collaborators during it. [None]: the
    call cannot be made (no such lookup or RPC is owed) or a [CHECK] fails. *)
Definition step (w : World) (oe : Oracle * Event) : option World :=
  let o := oe.1 in
  match oe.2 with
  | EvAdd op => snd <$> Add o op w
  | EvFlushAsync cb retry => FlushAsync o cb retry w
  | EvLookup h r => LookupCallback o h r w
  | EvTransactionReady s => ReadyCallback o s w
  | EvRpc k s resp => RpcFinished o k s resp w
  | EvAbort s => Abort o s w
  | EvSetDeadline d => Some (SetDeadline d w)
  | EvGetAndClearPendingErrors => Some (GetAndClearPendingErrors w).2
  end.

Fixpoint run (w : World) (evs : list (Oracle * Event)) : option World :=
  match evs with
  | [] => Some w
  | e :: evs' => match step w e with Some w' => run w' evs' | None => None end
  end.

(** The errors a call returns to the session. *)
Definition errors_taken (w : World) (e : Event) : list (YBOperation * Status) :=
  match e with
  | EvGetAndClearPendingErrors => (GetAndClearPendingErrors w).1
  | _ => []
  end.

(** The errors [GetAndClearPendingErrors] has returned to the session during
    the calls [evs], made from [w] on, oldest first. *)
Fixpoint returned_errors (w : World) (evs : list (Oracle * Event))
    : list (YBOperation * Status) :=
  match evs with
  | [] => []
  | oe :: evs' =>
      errors_taken w oe.2
      ++ match step w oe with Some w' => returned_errors w' evs' | None => [] end
  end.

(** The statuses the flush callback was run with, oldest first. *)
Definition callback_runs (w : World) : list Status :=
  omap (λ e, match e with RunFlushCallback _ st _ => Some st | _ => None end) (trace w).

(** The RPCs sent, oldest first. *)
Definition sent_rpcs (w : World) : list AsyncRpc :=
  omap (λ e, match e with SendRpc rpc => Some rpc | _ => None end) (trace w).

(** The lookups started, oldest first. *)
Definition started_lookups (w : World) : list Handle :=
  omap (λ e, match e with LookupTabletByKey _ _ _ h => Some h | _ => None end) (trace w).

(** Nothing is owed to the batcher: no lookup, no RPC answer, no ready
    callback. *)
Definition quiescent (w : World) : Prop :=
  lookups w = [] ∧ rpcs w = [] ∧ prepare_waiting w = false.

End BatcherOps.

(** ** A concrete instance of the collaborators, for examples *)

Module Demo.

Definition state_name (s : BatcherState) : string :=
  match s with
  | kGatheringOps => "kGatheringOps"
  | kResolvingTablets => "kResolvingTablets"
  | kTransactionPrepare => "kTransactionPrepare"
  | kTransactionReady => "kTransactionReady"
  | kComplete => "kComplete"
  | kAborted => "kAborted"
  end.

(** A partition holds the keys from its start up to its end, an empty end
    being unbounded; the hash value is the first two bytes, big endian. *)
Definition contains (p : Partition) (key : string) : bool :=
  String.leb (partition_key_start p) key
  && (bool_decide (partition_key_end p = "") || String.ltb key (partition_key_end p)).

Definition decode (key : string) : N :=
  match key with
  | String a (String b _) => (N_of_ascii a * 256 + N_of_ascii b)%N
  | String a EmptyString => (N_of_ascii a * 256)%N
  | EmptyString => 0%N
  end.

#[export] Instance collaborators : Collaborators := {|
  DecodeMultiColumnHashValue := decode;
  ContainsKey := contains;
  ShouldSessionRetryError s :=
    bool_decide (ClientError s = kAbortedBatchDueToFailedTabletLookup);
  BatcherStateToString := state_name;
  YBOperationToString op := table_name op;
  InFlightOpToString op := table_name (yb_op op);
  PartitionDebugString p := partition_key_start p +:+ ".." +:+ partition_key_end p;
  ToDebugHexString s := s;
  VersionToString v := pretty v;
|}.

Definition cfg0 : Config := mkConfig false false false true None false false.
Definition oracle0 : Oracle := mkOracle true true false true (λ _, false) (λ h, h).

Definition tabletA : RemoteTablet := mkRemoteTablet 100 "A" (mkPartition "" "m") 4.
Definition tabletB : RemoteTablet := mkRemoteTablet 200 "B" (mkPartition "m" "") 4.

Definition write_op (addr : nat) (key : string) : YBOperation :=
  mkYBOperation addr QL_WRITE kWrite (Status_OK, key) (ROk false) true "t" "ns" None None.

End Demo.

(** * Vocabulary of the properties *)

Section Vocabulary.
Context `{Collaborators}.

(** The part of the world that recording an error does not touch: all but
    [ops_], the error fields and the stale marks. *)
Definition skel (w : World) :=
  let b := batcher w in
  (config b, state_ b, ops_queue_ b, ops_info_groups b, outstanding_lookups_ b,
   flush_callback_ b, next_op_sequence_number_ b, deadline_ b,
   heap w, hash_code w, lookups w, rpcs w, prepare_waiting w, trace w).

(** What [Abort] does apart from recording errors. *)
Definition abort_skel (o : Oracle) (status : Status) (w : World) : World :=
  let w1 := upd_batcher (set_state_ kAborted) w in
  match flush_callback_ (batcher w) with
  | Some cb =>
      emit (RunFlushCallback cb status (has_callback_threadpool (cfg w) && submit_ok o))
        (upd_batcher (set_flush_callback_ None) w1)
  | None => w1
  end.

(** The status [CheckForFinishedFlush] computes for the callback. *)
Definition final_status (b : Batcher) : Status :=
  if negb (ok (combined_error_ b)) then combined_error_ b
  else if had_errors_ b then STATUS IOError kErrorReachingOutToTServersMsg
  else Status_OK.

(** The world [CheckForFinishedFlush] leaves when it completes the flush. *)
Definition finish_world (o : Oracle) (cb : StatusFunctor) (w : World) : World :=
  let w1 := upd_batcher (set_state_ kComplete) w in
  let w2 := if session_alive o then emit FlushFinished w1 else w1 in
  emit (RunFlushCallback cb (final_status (batcher w))
          (has_callback_threadpool (cfg w) && submit_ok o))
    (upd_batcher (set_flush_callback_ None) w2).

Definition finishes (w : World) : Prop :=
  ops_ (batcher w) = ∅
  ∧ (state_ (batcher w) = kResolvingTablets ∨ state_ (batcher w) = kTransactionReady).

(** An in-flight operation apart from its state. *)
Definition op_data (x : InFlightOp) : YBOperation * string * option RemoteTablet * Z :=
  (yb_op x, partition_key x, tablet x, sequence_number_ x).

(** The part of the world that dispatch does not touch: of the in-flight
    operations it changes the state only. *)
Definition data_view (w : World) :=
  let b := batcher w in
  (config b, ops_ b, outstanding_lookups_ b, had_errors_ b, combined_error_ b,
   flush_callback_ b, next_op_sequence_number_ b, error_collector_ b, deadline_ b,
   op_data <$> heap w, hash_code w, partition_list_stale w, lookups w).

(** The groups as [Prepare] leaves them. *)
Definition prepared_groups (o : Oracle) (w : World) : list InFlightOpsGroup :=
  if has_transaction (cfg w) then
    imap (λ i g, mkGroup (g_begin g) (g_end g) (prepare_need_metadata o i))
         (ops_info_groups (batcher w))
  else ops_info_groups (batcher w).

(** The queue of [w] resolved and sorted, as [FlushBuffersIfReady] does. *)
Definition sorted_items (w : World) : option (list (Handle * InFlightOp)) :=
  std_sort (λ lhs rhs, InFlightOp_less lhs.2 rhs.2)
    <$> mapM (λ h, pair h <$> heap w !! h) (ops_queue_ (batcher w)).

(** The world when the loop of [FlushBuffersIfReady] is left. *)
Definition grouped_world (w : World) (sorted : list (Handle * InFlightOp))
    (groups : list InFlightOpsGroup) : World :=
  upd_batcher (set_ops_info_groups groups)
    (upd_batcher (set_ops_queue_ (sorted.*1))
       (upd_batcher (set_state_ kTransactionPrepare) w)).

(** What only [Add] and [SetDeadline] change. *)
Definition user_view (w : World) :=
  (config (batcher w), next_op_sequence_number_ (batcher w), hash_code w, length (heap w)).

(** The lookup result after the check that the partition holds the key. *)
Definition lookup_verdict (o : Oracle) (op : InFlightOp) (r : Result RemoteTablet)
    : Result RemoteTablet :=
  match r with
  | ROk t =>
      if negb (ContainsKey (partition t) (partition_key op))
         || (random_act o && bool_decide (namespace_name (yb_op op) = "yb_test"))
      then RErr (row_not_in_partition_status op t)
      else ROk t
  | RErr s => RErr s
  end.

(** The world after a lookup that is accepted for the operation at [h]. *)
Definition accept_world (h : Handle) (t : RemoteTablet) (op : InFlightOp) (w : World)
    : World :=
  let w2 := set_heap (<[h := set_op_tablet t op]> (heap w)) w in
  if bool_decide (state op = kLookingUpTablet) then
    upd_batcher (λ b, set_ops_queue_ (ops_queue_ b ++ [h]) b)
      (set_heap (<[h := set_op_state kBufferedToTabletServer (set_op_tablet t op)]>
                   (heap w2)) w2)
  else w2.

Definition lookup_counted (w : World) : World :=
  upd_batcher (λ b, set_outstanding_lookups_ (outstanding_lookups_ b - 1) b) w.

(** The end of [TabletLookupFinished]: the readiness check, if this was the
    last lookup. *)
Definition finish_lookup (o : Oracle) (w w3 w' : World) : Prop :=
  if bool_decide (outstanding_lookups_ (batcher w) - 1 = 0)
  then FlushBuffersIfReady o w3 = Some w' else w' = w3.

(** The world of [Add] when it calls [AddInFlightOp]. *)
Definition ingress_world (refreshed : bool) (op : YBOperation) (key : string) (w : World)
    : World :=
  let w := if refreshed then emit (InvalidateTableCache (table_name op)) w else w in
  if IsHashPartitioning op then stamp_hash_code op key w else w.

Definition keyed_InFlightOp (op : YBOperation) (key : string) : InFlightOp :=
  mkInFlightOp op key None kLookingUpTablet 0.

Definition lookup_started (op : YBOperation) (key : string) (h : Handle) (w : World)
    : World :=
  set_lookups (lookups w ++ [h])
    (emit (LookupTabletByKey (table_name op) key (deadline_ (batcher w)) h) w).

(** The kinds of operation whose hash code [Add] sets whatever the key. *)
Definition stamped_always (t : OpType) : bool :=
  match t with
  | QL_WRITE | PGSQL_WRITE | REDIS_WRITE | REDIS_READ => true
  | QL_READ | PGSQL_READ => false
  end.

(** The tuple the queue is sorted by, and the order of such tuples. *)
Definition sort_key (op : InFlightOp) : N * nat * Z :=
  (tablet_get op, OpGroup_rank (group (yb_op op)), sequence_number_ op).

Definition key_lt (x y : N * nat * Z) : Prop :=
  (x.1.1 < y.1.1)%N
  ∨ (x.1.1 = y.1.1 ∧ ((x.1.2 < y.1.2)%nat ∨ (x.1.2 = y.1.2 ∧ x.2 < y.2))).

(** [a] is not after [b]. *)
Definition key_le (a b : InFlightOp) : Prop := ¬ key_lt (sort_key b) (sort_key a).

(** What a group is made by: the tablet and the operation class. *)
Definition op_key (op : InFlightOp) : N * OpGroup := (tablet_get op, group (yb_op op)).

(** [groups] cuts [l] from [start] on into maximal runs of one key: each
    group starts where the one before ends, is not empty, holds operations
    of one key, and is followed by an operation of another key or by the end
    of the list. *)
Fixpoint grouped (l : list InFlightOp) (start : nat) (groups : list InFlightOpsGroup)
    : Prop :=
  match groups with
  | [] => start = length l
  | g :: rest =>
      g_begin g = start ∧ (start < g_end g)%nat ∧ (g_end g <= length l)%nat
      ∧ (∀ i a b, (start <= i < g_end g)%nat -> l !! i = Some a -> l !! start = Some b ->
                  op_key a = op_key b)
      ∧ (∀ a b, l !! g_end g = Some a -> l !! start = Some b -> op_key a ≠ op_key b)
      ∧ grouped l (g_end g) rest
  end.

(** [groups] cuts the indices from [start] to [n] into non-empty intervals. *)
Fixpoint tiles (start : nat) (groups : list InFlightOpsGroup) (n : nat) : Prop :=
  match groups with
  | [] => start = n
  | g :: rest => g_begin g = start ∧ (start < g_end g)%nat ∧ tiles (g_end g) rest n
  end.

(** An operation whose recorded partition list version is present and is
    not the version of its tablet. *)
Definition version_mismatch (op : InFlightOp) : Prop :=
  ∃ requested t, partition_list_version (yb_op op) = Some requested
                 ∧ tablet op = Some t
                 ∧ requested ≠ tablet_partition_list_version t.

(** The operations of a group: the elements of the queue from [begin] to
    [end]. *)
Definition group_slice {A} (queue : list A) (g : InFlightOpsGroup) : list A :=
  slice queue (g_begin g) (g_end g).

Definition bounds (g : InFlightOpsGroup) : nat * nat := (g_begin g, g_end g).

(** While operations are gathered and tablets resolved: the lookups owed
    and the queue are the operations of [ops_], each once; an operation
    whose lookup is owed is in state [kLookingUpTablet]; nothing was sent
    and the callback was not run. *)
Definition gathering (w : World) : Prop :=
  let b := batcher w in
  outstanding_lookups_ b = Z.of_nat (length (lookups w))
  ∧ NoDup (lookups w ++ ops_queue_ b)
  ∧ ops_ b = list_to_set (lookups w ++ ops_queue_ b)
  ∧ (∀ h, h ∈ lookups w -> ∃ op, heap w !! h = Some op ∧ state op = kLookingUpTablet)
  ∧ (∀ h, h ∈ ops_queue_ b -> (h < length (heap w))%nat)
  ∧ ops_info_groups b = []
  ∧ rpcs w = [] ∧ prepare_waiting w = false
  ∧ sent_rpcs w = [] ∧ callback_runs w = [].

(** While the transaction prepares: the groups cut the queue, which holds
    the operations of [ops_], each once; no lookup failed. *)
Definition preparing (w : World) : Prop :=
  let b := batcher w in
  state_ b = kTransactionPrepare
  ∧ is_Some (flush_callback_ b)
  ∧ callback_runs w = [] ∧ sent_rpcs w = [] ∧ rpcs w = [] ∧ lookups w = []
  ∧ had_errors_ b = false
  ∧ ops_queue_ b ≠ [] ∧ NoDup (ops_queue_ b) ∧ ops_ b = list_to_set (ops_queue_ b)
  ∧ tiles 0 (ops_info_groups b) (length (ops_queue_ b)).

(** After dispatch: the RPCs not yet answered carry the operations of
    [ops_], each once, and none is empty. *)
Definition dispatched (w : World) : Prop :=
  let b := batcher w in
  is_Some (flush_callback_ b)
  ∧ callback_runs w = [] ∧ prepare_waiting w = false ∧ lookups w = []
  ∧ rpcs w ≠ []
  ∧ Forall (λ ops, ops ≠ []) (rpc_ops <$> rpcs w)
  ∧ NoDup (concat (rpc_ops <$> rpcs w))
  ∧ ops_ b = list_to_set (concat (rpc_ops <$> rpcs w)).

(** The invariant, by state. [flushed]: [FlushAsync] was called;
    [lookup_failed]: a lookup was answered with a failure. *)
Definition Inv (flushed lookup_failed : bool) (w : World) : Prop :=
  let b := batcher w in
  match state_ b with
  | kGatheringOps =>
      flushed = false ∧ flush_callback_ b = None ∧ gathering w
      ∧ (lookup_failed = true -> had_errors_ b = true)
  | kResolvingTablets =>
      flushed = true ∧ is_Some (flush_callback_ b) ∧ gathering w
      ∧ (lookup_failed = true -> had_errors_ b = true)
      ∧ lookups w ≠ []
  | kTransactionPrepare =>
      flushed = true ∧ lookup_failed = false ∧ preparing w ∧ prepare_waiting w = true
  | kTransactionReady =>
      flushed = true ∧ lookup_failed = false ∧ dispatched w
  | kComplete =>
      flushed = true ∧ flush_callback_ b = None
      ∧ callback_runs w = [final_status b]
      ∧ quiescent w
      ∧ (lookup_failed = true -> sent_rpcs w = [])
  | kAborted =>
      flush_callback_ b = None
      ∧ length (callback_runs w) = (if flushed then 1 else 0)%nat
      ∧ (lookup_failed = true ∨ lookups w ≠ [] -> sent_rpcs w = [])
  end.

(** Inside [FlushAsync] and [TabletLookupFinished]: as in
    [kResolvingTablets], but the last lookup may just have been answered. *)
Definition resolving (lookup_failed : bool) (w : World) : Prop :=
  let b := batcher w in
  state_ b = kResolvingTablets ∧ is_Some (flush_callback_ b) ∧ gathering w
  ∧ (lookup_failed = true -> had_errors_ b = true).

Definition is_flush (e : Event) : bool :=
  match e with EvFlushAsync _ _ => true | _ => false end.

Definition is_failed_lookup (e : Event) : bool :=
  match e with EvLookup _ (RErr _) => true | _ => false end.

(** The world in which the meta cache answers the lookup of [h]. *)
Definition answered (h : Handle) (w : World) : World :=
  lookup_counted (set_lookups (filter (λ h', h' ≠ h) (lookups w)) w).

(** What the invariant reads. *)
Definition inv_view (w : World) :=
  let b := batcher w in
  (state_ b, flush_callback_ b, had_errors_ b, combined_error_ b, ops_ b, ops_queue_ b,
   ops_info_groups b, outstanding_lookups_ b, heap w, lookups w, rpcs w,
   prepare_waiting w, callback_runs w, sent_rpcs w).

(** What [gathering] reads. *)
Definition gathering_view (w : World) :=
  let b := batcher w in
  (ops_ b, ops_queue_ b, ops_info_groups b, outstanding_lookups_ b, heap w, lookups w,
   rpcs w, prepare_waiting w, callback_runs w, sent_rpcs w).

(** What answering an RPC does not touch, apart from [ops_]. *)
Definition rpc_view (w : World) :=
  let b := batcher w in
  (state_ b, flush_callback_ b, ops_queue_ b, ops_info_groups b, outstanding_lookups_ b,
   heap w, lookups w, rpcs w, prepare_waiting w, callback_runs w, sent_rpcs w).

Definition flushed_in (evs : list (Oracle * Event)) : bool :=
  existsb (λ oe, is_flush oe.2) evs.

Definition lookup_failed_in (evs : list (Oracle * Event)) : bool :=
  existsb (λ oe, is_failed_lookup oe.2) evs.

Definition is_abort (e : Event) : bool :=
  match e with EvAbort _ => true | _ => false end.

Definition abort_in (evs : list (Oracle * Event)) : bool :=
  existsb (λ oe, is_abort oe.2) evs.

(** Ranks that put the operations of [l] in the order of [l]: an operation
    of [l] has its place in [l] as rank. *)
Definition place (l : list Handle) (h : Handle) : nat :=
  match list_find (λ x, x = h) l with
  | Some (i, _) => i
  | None => (length l + h)%nat
  end.

(** The operations [Abort] fails, in the order in which it fails them: those
    of [ops_] that are buffered, as the loop over [ops_] meets them. *)
Definition buffered_ops (o : Oracle) (w : World) : list Handle :=
  filter (λ h, state <$> heap w !! h = Some kBufferedToTabletServer)
         (ops_in_order o w).

(** The entries the error collector gets when the operations [l] fail with
    [status]. *)
Definition errors_of (w : World) (status : Status) (l : list Handle)
    : list (YBOperation * Status) :=
  omap (λ h, (λ op, (yb_op op, status)) <$> heap w !! h) l.

(** The entries the error collector gets for the per-row errors of a write
    response: one for each error whose row index is an index of the RPC's
    operations. *)
Definition row_errors (w : World) (rpc : AsyncRpc) (resp : WriteResponse)
    : list (YBOperation * Status) :=
  omap (λ err_pb : nat * Status,
          h ← rpc_ops rpc !! err_pb.1;
          (λ op, (yb_op op, err_pb.2)) <$> heap w !! h)
       (per_row_errors resp).

(** The entries the error collector gets for the status of an RPC. *)
Definition rpc_errors (w : World) (rpc : AsyncRpc) (s : Status)
    : list (YBOperation * Status) :=
  if bool_decide (state_ (batcher w) = kTransactionReady) && negb (ok s)
  then errors_of w s (rpc_ops rpc) else [].

(** The calls [RemoveInFlightOpsAfterFlushing] makes. *)
Definition flushed_effects (w : World) (ops : list Handle) (status : Status) : list Effect :=
  (if has_transaction (cfg w) && negb (negb (ok status) && ShouldSessionRetryError status)
   then [Flushed ops status] else [])
  ++ (if ok status && has_read_point (cfg w) then [UpdateClock] else []).

(** All of the batcher but [ops_]. *)
Definition but_ops (w : World) :=
  let b := batcher w in
  (config b, state_ b, ops_queue_ b, ops_info_groups b, outstanding_lookups_ b,
   had_errors_ b, combined_error_ b, flush_callback_ b, next_op_sequence_number_ b,
   error_collector_ b, deadline_ b,
   heap w, hash_code w, partition_list_stale w, lookups w, rpcs w, prepare_waiting w).

(** The kind of RPC [CreateRpc] builds for a group of operations. *)
Definition rpc_kind_of (g : OpGroup) : RpcKind :=
  match g with
  | kWrite => WriteRpc
  | kLeaderRead => ReadRpc_STRONG
  | kConsistentPrefixRead => ReadRpc_CONSISTENT_PREFIX
  end.

(** [need_consistent_read] of [ExecuteOperations]. *)
Definition consistent_read_needed (o : Oracle) (w : World) : bool :=
  force_consistent_read_ (cfg w) || has_transaction (cfg w)
  || bool_decide (1 < length (prepared_groups o w))%nat.

(** The order in which a batcher goes through its states. *)
Definition BatcherState_rank (s : BatcherState) : nat :=
  match s with
  | kGatheringOps => 0
  | kResolvingTablets => 1
  | kTransactionPrepare => 2
  | kTransactionReady => 3
  | kComplete => 4
  | kAborted => 5
  end.

(** The state of [w'] is the state of [w] or a later one. *)
Definition forward (w w' : World) : Prop :=
  (BatcherState_rank (state_ (batcher w)) <= BatcherState_rank (state_ (batcher w')))%nat.

(** What an in-flight operation is made with and keeps: the user's
    operation, the partition key and the sequence number. *)
Definition op_id (x : InFlightOp) : YBOperation * string * Z :=
  (yb_op x, partition_key x, sequence_number_ x).

(** What only an accepted [Add] changes. *)
Definition added (w : World) :=
  (config (batcher w), next_op_sequence_number_ (batcher w), op_id <$> heap w).

(** [Add] passes its three checks. *)
Definition accepts (w : World) (op : YBOperation) : bool :=
  bool_decide (state_ (batcher w) = kGatheringOps)
  && ok (GetPartitionKey op).1 && result_ok (MaybeRefreshTablePartitionList op).

(** The in-flight operations a call adds. *)
Definition adds (w : World) (e : Event) : list (YBOperation * string * Z) :=
  match e with
  | EvAdd op =>
      if accepts w op
      then [(op, (GetPartitionKey op).2, next_op_sequence_number_ (batcher w))]
      else []
  | _ => []
  end.

(** The sequence numbers are 0, 1, 2, ... in the order of the heap. *)
Definition numbered (w : World) : Prop :=
  next_op_sequence_number_ (batcher w) = Z.of_nat (length (heap w))
  ∧ ∀ h x, heap w !! h = Some x -> sequence_number_ x = Z.of_nat h.

(** The error fields agree: [had_errors_] is set exactly when an error was
    collected, the combined error is set only then, and only under the test
    flag. [past]: the errors the session has taken out of the collector. *)
Definition errors_accounted (past : list (YBOperation * Status)) (w : World) : Prop :=
  let b := batcher w in
  (had_errors_ b = true ↔ past ++ error_collector_ b ≠ [])
  ∧ (ok (combined_error_ b) = false -> had_errors_ b = true)
  ∧ (FLAGS_TEST_combine_batcher_errors (config b) = false -> combined_error_ b = Status_OK).

Definition is_failed_rpc (e : Event) : bool :=
  match e with EvRpc _ s _ => negb (ok s) | _ => false end.

Definition rpc_failed_in (evs : list (Oracle * Event)) : bool :=
  existsb (λ oe, is_failed_rpc oe.2) evs.

(** Unless the batch was aborted, a failure of a lookup or of an RPC has
    set [had_errors_]. *)
Definition failures_recorded (failed : bool) (w : World) : Prop :=
  state_ (batcher w) ≠ kAborted -> failed = true -> had_errors_ (batcher w) = true.

(** What [errors_accounted] reads. *)
Definition errors_view (w : World) :=
  let b := batcher w in
  (config b, had_errors_ b, combined_error_ b, error_collector_ b).

(** The operations handed to the RPCs that are owed an answer. *)
Definition in_flight (w : World) : list Handle := concat (rpc_ops <$> rpcs w).

(** Who holds the operations of [ops_]: an operation whose lookup is owed
    is looking up its tablet; an operation of an RPC that is owed an answer
    is in [ops_], in that RPC only, and no longer buffered; every other
    operation of [ops_] is buffered; none is left at completion, and after
    an abort only those of the lookups and RPCs that are owed. [skip]: an
    operation whose lookup is being answered. *)
Definition owned_but (skip : option Handle) (w : World) : Prop :=
  NoDup (in_flight w)
  ∧ Forall (λ ops, ops ≠ []) (rpc_ops <$> rpcs w)
  ∧ (∀ h, h ∈ in_flight w ->
       h ∈ ops_ (batcher w) ∧ state <$> heap w !! h = Some kCompleted)
  ∧ (∀ h, h ∈ lookups w ->
       h ∈ ops_ (batcher w) ∧ state <$> heap w !! h = Some kLookingUpTablet)
  ∧ (∀ h, h ∈ ops_ (batcher w) -> Some h ≠ skip ->
       h ∈ lookups w ∨ h ∈ in_flight w
       ∨ state <$> heap w !! h = Some kBufferedToTabletServer)
  ∧ (state_ (batcher w) = kComplete -> ops_ (batcher w) = ∅)
  ∧ (state_ (batcher w) = kAborted ->
     ∀ h, h ∈ ops_ (batcher w) -> Some h ≠ skip -> h ∈ lookups w ∨ h ∈ in_flight w).

Definition owned (w : World) : Prop := owned_but None w.

(** The operation at [h] is resolved: it is buffered and has a tablet whose
    partition holds its partition key. *)
Definition resolved (w : World) (h : Handle) : Prop :=
  ∃ op t, heap w !! h = Some op ∧ state op = kBufferedToTabletServer
          ∧ tablet op = Some t
          ∧ ContainsKey (partition t) (partition_key op) = true.

(** The RPC [rpc] suits the operation at [h]: it goes to the tablet of the
    operation, whose partition holds the key, and is of the kind of the
    operation's group. *)
Definition suits (w : World) (rpc : AsyncRpc) (h : Handle) : Prop :=
  ∃ op t, heap w !! h = Some op ∧ tablet op = Some t
          ∧ tablet_addr t = rpc_tablet rpc
          ∧ ContainsKey (partition t) (partition_key op) = true
          ∧ rpc_kind rpc = rpc_kind_of (group (yb_op op)).

(** The queued operations are resolved and the RPCs sent suit their
    operations. *)
Definition placed (w : World) : Prop :=
  (∀ h, h ∈ ops_queue_ (batcher w) -> resolved w h)
  ∧ (∀ rpc h, rpc ∈ sent_rpcs w -> h ∈ rpc_ops rpc -> suits w rpc h).

(** The groups of [ops_info_] cut the queue into runs of one tablet and one
    group of operations. *)
Definition queue_grouped (w : World) : Prop :=
  ∃ l, Forall2 (λ h op, heap w !! h = Some op) (ops_queue_ (batcher w)) l
       ∧ grouped l 0 (ops_info_groups (batcher w)).

(** [placed], and the queue is grouped while the transaction prepares. *)
Definition dispatchable (w : World) : Prop :=
  placed w ∧ (state_ (batcher w) = kTransactionPrepare -> queue_grouped w).

(** What [dispatchable] reads. *)
Definition dispatch_view (w : World) :=
  (state_ (batcher w), ops_queue_ (batcher w), ops_info_groups (batcher w), heap w,
   sent_rpcs w).


(** What stays, and what only grows, when errors are recorded, the flush
    finished or the readiness check made. *)
Definition settles (w w' : World) : Prop :=
  heap w' = heap w
  ∧ ops_ (batcher w') ⊆ ops_ (batcher w)
  ∧ error_collector_ (batcher w) `prefix_of` error_collector_ (batcher w')
  ∧ partition_list_stale w ⊆ partition_list_stale w'
  ∧ (had_errors_ (batcher w) = true -> had_errors_ (batcher w') = true).

(** The calls that can be made in [w]: [FlushAsync] while operations are
    gathered (its [CHECK] of the state is the caller's duty), the answer of
    a lookup or of an RPC that is owed one, the ready callback of a
    transaction that was not ready; every other call at any time. *)
Definition enabled (w : World) (e : Event) : bool :=
  match e with
  | EvFlushAsync _ _ => bool_decide (state_ (batcher w) = kGatheringOps)
  | EvLookup h _ => bool_decide (h ∈ lookups w)
  | EvTransactionReady _ => prepare_waiting w
  | EvRpc k _ _ => bool_decide (k < length (rpcs w))%nat
  | _ => true
  end.





End Vocabulary.

(** Modelled from the spec: the error kinds of section 7 of the
    specification, which lists [InternalError] and [WrongState] as two
    kinds. *)
Inductive ErrorKind :=
  | Kind_Aborted | Kind_TablePartitionListIsStale | Kind_InternalError
  | Kind_IOError | Kind_Combined | Kind_WrongState.

(** The kind a status of the code falls under. No [STATUS] of the batcher
    has a code of its own for a wrong state; [IllegalState] is the code of
    [Status] for a call made in a state that does not allow it. *)
Definition error_kind (s : Status) : option ErrorKind :=
  if bool_decide (ClientError s = kTablePartitionListIsStale)
  then Some Kind_TablePartitionListIsStale
  else match code s with
       | Aborted => Some Kind_Aborted
       | InternalError => Some Kind_InternalError
       | IOError => Some Kind_IOError
       | Combined => Some Kind_Combined
       | IllegalState => Some Kind_WrongState
       | _ => None
       end.

(** ** Concrete life cycles *)

Module Runs.
Import Demo.

Definition at_oracle0 (evs : list Event) : list (Oracle * Event) := pair oracle0 <$> evs.

Definition after (evs : list Event) : World :=
  default (new_World cfg0) (run (new_World cfg0) (at_oracle0 evs)).

(** A batcher flushed with nothing added. *)
Definition flushed_empty : World := after [EvFlushAsync 7%nat false].

(** An operation whose partition key cannot be computed. *)
Definition keyless_op : YBOperation :=
  mkYBOperation 9 QL_WRITE kWrite (STATUS InvalidArgument "no key", "") (ROk false)
    true "t" "ns" None None.

(** A Redis read with an empty partition key, on a hash partitioned table. *)
Definition redis_read_empty_key : YBOperation :=
  mkYBOperation 5 REDIS_READ kLeaderRead (Status_OK, "") (ROk false) true "t" "ns"
    None None.

Definition one_added : World := after [EvAdd (write_op 1 "a")].

Definition with_source : World :=
  new_World (mkConfig false false false true (Some (λ n, S754_finite false 3 n)) false false).

Definition not_found : Status := STATUS NotFound "tablet not found".
Definition ok_response : WriteResponse := mkWriteResponse None [].

(** The batcher inside [FlushAsync], after the finish check and before the
    readiness check. *)
Definition mid_flush (w : World) : World :=
  upd_batcher (set_flush_callback_ (Some 7%nat))
    (upd_batcher (set_state_ kResolvingTablets) w).

Definition readiness (w : World) : World :=
  default w (FlushBuffersIfReady oracle0 w).

(** Scenario S1: three writes, the first and third on tablet A, the second
    on tablet B, all lookups answered. *)
Definition three_resolved : list Event :=
  [EvAdd (write_op 1 "a"); EvAdd (write_op 2 "x"); EvAdd (write_op 3 "c");
   EvLookup 0%nat (ROk tabletA); EvLookup 1%nat (ROk tabletB);
   EvLookup 2%nat (ROk tabletA)].

(** S1 to its end, followed by two calls of [Abort]. *)
Definition full_life_cycle : list Event :=
  three_resolved
  ++ [EvFlushAsync 7%nat false; EvRpc 0%nat Status_OK ok_response;
      EvRpc 0%nat Status_OK ok_response;
      EvAbort (STATUS Aborted "late"); EvAbort (STATUS Aborted "later")].


(** One write, flushed, whose lookup then fails. *)
Definition only_lookup_fails : list Event :=
  [EvAdd (write_op 1 "a"); EvFlushAsync 7%nat false; EvLookup 0%nat (RErr not_found)].

(** A write that records version 3 of the partition list; the tablets have
    version 4 (scenario S3). *)
Definition versioned_op (addr : nat) (key : string) : YBOperation :=
  mkYBOperation addr QL_WRITE kWrite (Status_OK, key) (ROk false) true "t" "ns" None
    (Some 3%N).

Definition stale_version : list Event :=
  [EvAdd (versioned_op 1 "a"); EvLookup 0%nat (ROk tabletA)].

(** A failed lookup and an operation with a stale version in one batch. *)
Definition failed_and_stale : list Event :=
  [EvAdd (write_op 1 "x"); EvAdd (versioned_op 2 "a");
   EvLookup 0%nat (RErr not_found); EvLookup 1%nat (ROk tabletA)].

Definition two_added : World := after [EvAdd (write_op 1 "a"); EvAdd (write_op 2 "x")].

(** The configuration of a test that combines errors. *)
Definition cfg_combining : Config := mkConfig false false false true None false true.

Definition two_added_combining : World :=
  default (new_World cfg_combining)
    (run (new_World cfg_combining)
       (at_oracle0 [EvAdd (write_op 1 "a"); EvAdd (write_op 2 "x")])).

Definition timed_out : Status := STATUS TimedOut "timed out".

(** S1 flushed: two RPCs are owed an answer. *)
Definition dispatched3 : list Event := three_resolved ++ [EvFlushAsync 7%nat false].

Definition first_rpc (w : World) : AsyncRpc :=
  default (mkAsyncRpc WriteRpc 0 false false [] false) (head (rpcs w)).

(** A write response with an error for row 1 and one for a row that was
    not sent. *)
Definition row_response : WriteResponse :=
  mkWriteResponse (Some 9%N) [(1%nat, not_found); (5%nat, not_found)].

(** S1 inside [FlushBuffersIfReady], sorted and grouped, when
    [ExecuteOperations] is called. *)
Definition prepared3 : World :=
  upd_batcher (set_ops_info_groups [mkGroup 0 2 false; mkGroup 2 3 false])
    (upd_batcher (set_ops_queue_ [0; 2; 1]%nat)
       (upd_batcher (set_state_ kTransactionPrepare) (mid_flush (after three_resolved)))).

(** S1 flushed, then [Abort] while the two RPCs are owed an answer. *)
Definition aborted_in_flight : list Event := dispatched3 ++ [EvAbort timed_out].

(** The same, then the answers of the two RPCs and a second [Abort]. *)
Definition abort_in_flight : list Event :=
  aborted_in_flight
  ++ [EvRpc 0%nat Status_OK ok_response; EvRpc 0%nat timed_out ok_response;
      EvAbort (STATUS Aborted "again")].

(** Two writes; the lookup of the first fails and the session takes the
    error out of the collector. *)
Definition failed_then_drained : list Event :=
  [EvAdd (write_op 1 "a"); EvAdd (write_op 2 "x"); EvLookup 0%nat (RErr not_found);
   EvGetAndClearPendingErrors].


(** One write, then [Abort] before its lookup is answered. *)
Definition aborted_early : list Event :=
  [EvAdd (write_op 1 "a"); EvAbort (STATUS Aborted "stop")].

(** A write that comes with its tablet. *)
Definition placed_op : YBOperation :=
  mkYBOperation 4 QL_WRITE kWrite (Status_OK, "a") (ROk false) true "t" "ns"
    (Some tabletA) None.

(** A batcher of a transaction whose [Prepare] answers "not yet". *)
Definition cfg_transaction : Config := mkConfig true false false true None false false.
Definition oracle_not_ready : Oracle :=
  mkOracle true true false false (λ _, true) (λ h, h).

Definition waiting_for_transaction : World :=
  default (new_World cfg_transaction)
    (run (new_World cfg_transaction)
       [(oracle0, EvAdd (write_op 1 "a")); (oracle0, EvLookup 0%nat (ROk tabletA));
        (oracle_not_ready, EvFlushAsync 7%nat false)]).

End Runs.

Import Demo Runs.

(** * Properties *)

Lemma sort_insert_perm {A} (less : A -> A -> bool) x l : sort_insert less x l ≡ₚ x :: l.
Proof.
  induction l as [|y l IH]; simpl; [done|].
  destruct (less x y); [done|]. rewrite IH. apply Permutation_swap.
Qed.

Lemma std_sort_perm {A} (less : A -> A -> bool) l : std_sort less l ≡ₚ l.
Proof.
  induction l as [|x l IH]; simpl; [done|].
  rewrite sort_insert_perm. by rewrite IH.
Qed.

Ltac trace_simpl :=
  unfold sent_rpcs, callback_runs, started_lookups, emit in *; simpl in *;
  rewrite ?omap_app in *; simpl in *; rewrite ?app_nil_r in *.

Section Properties.
Context `{Collaborators}.

(** ** Bookkeeping *)

Lemma for_each_inv {A S} (P : S -> Prop) (body : A -> S -> option S) l s s' :
  (∀ x s s', body x s = Some s' -> P s -> P s') ->
  for_each body l s = Some s' -> P s -> P s'.
Proof.
  intros Hbody. revert s. induction l as [|x l IH]; simpl; intros s Hrun Hs.
  - by simplify_eq.
  - destruct (body x s) as [s1|] eqn:Hx; [|done]. eauto.
Qed.

Lemma for_each_app {A S} (body : A -> S -> option S) l1 l2 s :
  for_each body (l1 ++ l2) s =
  match for_each body l1 s with Some s' => for_each body l2 s' | None => None end.
Proof.
  revert s. induction l1 as [|x l1 IH]; simpl; intros s; [done|].
  destruct (body x s); [apply IH|done].
Qed.

Lemma callback_runs_emit e w :
  callback_runs (emit e w) =
  callback_runs w ++ match e with RunFlushCallback _ st _ => [st] | _ => [] end.
Proof.
  unfold callback_runs, emit. simpl. rewrite omap_app. simpl.
  by destruct e.
Qed.

Lemma sent_rpcs_emit e w :
  sent_rpcs (emit e w) = sent_rpcs w ++ match e with SendRpc rpc => [rpc] | _ => [] end.
Proof.
  unfold sent_rpcs, emit. simpl. rewrite omap_app. simpl.
  by destruct e.
Qed.

Lemma CombineErrorUnlocked_spec h s w w' :
  CombineErrorUnlocked h s w = Some w' ->
  skel w' = skel w ∧ ops_ (batcher w') = ops_ (batcher w)
  ∧ partition_list_stale w' = partition_list_stale w
  ∧ had_errors_ (batcher w') = true.
Proof.
  unfold CombineErrorUnlocked. intros Hc.
  destruct (heap w !! h); [|done]. simplify_eq.
  repeat case_match; done.
Qed.

Lemma MarkInFlightOpFailedUnlocked_spec h s w w' :
  MarkInFlightOpFailedUnlocked h s w = Some w' ->
  skel w' = skel w ∧ h ∈ ops_ (batcher w)
  ∧ ops_ (batcher w') = ops_ (batcher w) ∖ {[h]}
  ∧ had_errors_ (batcher w') = true.
Proof.
  unfold MarkInFlightOpFailedUnlocked. intros Hm.
  case_bool_decide; [|done].
  simpl in Hm. destruct (heap w !! h); [|done].
  case_bool_decide; apply CombineErrorUnlocked_spec in Hm; simpl in Hm;
    destruct Hm as (? & ? & ? & ?); done.
Qed.

Lemma MarkInFlightOpFailedUnlocked_total h s w :
  h ∈ ops_ (batcher w) -> is_Some (heap w !! h) ->
  is_Some (MarkInFlightOpFailedUnlocked h s w).
Proof.
  intros Hin [op Hop]. unfold MarkInFlightOpFailedUnlocked.
  rewrite bool_decide_eq_true_2 by done. simpl. rewrite Hop.
  unfold CombineErrorUnlocked. case_bool_decide; simpl; rewrite Hop; eauto.
Qed.

Lemma for_each_Mark_spec status l w w' :
  for_each (λ h, MarkInFlightOpFailedUnlocked h status) l w = Some w' ->
  skel w' = skel w ∧ ops_ (batcher w') ⊆ ops_ (batcher w)
  ∧ (l ≠ [] -> had_errors_ (batcher w') = true)
  ∧ (l = [] -> w' = w).
Proof.
  revert w. induction l as [|h l IH]; simpl; intros w Hrun.
  - simplify_eq. split_and!; done.
  - destruct (MarkInFlightOpFailedUnlocked h status w) as [w1|] eqn:Hm; [|done].
    apply MarkInFlightOpFailedUnlocked_spec in Hm as (Hs & _ & Hops & Herr).
    destruct (IH _ Hrun) as (Hs' & Hsub & Herr' & Hnil).
    split_and!; [congruence| | |done].
    { intros x Hx. apply Hsub in Hx. rewrite Hops in Hx.
      by apply elem_of_difference in Hx as [? _]. }
    intros _. destruct l; [|by apply Herr'].
    by rewrite (Hnil eq_refl).
Qed.

Lemma Abort_spec o status w w' :
  Abort o status w = Some w' ->
  skel w' = skel (abort_skel o status w) ∧ ops_ (batcher w') ⊆ ops_ (batcher w).
Proof.
  unfold Abort, abort_skel. intros Ha.
  match type of Ha with
  | match for_each ?body ?l ?w1 with _ => _ end = _ =>
      destruct (for_each body l w1) as [w2|] eqn:Hfe; [|done]
  end.
  apply for_each_Mark_spec in Hfe as (Hs & Hsub & _).
  assert (Hcb : flush_callback_ (batcher w2) = flush_callback_ (batcher w)).
  { unfold skel in Hs. simpl in Hs. by simplify_eq. }
  assert (Hcfg : config (batcher w2) = config (batcher w)).
  { unfold skel in Hs. simpl in Hs. by simplify_eq. }
  simpl in Hsub. rewrite Hcb in Ha.
  destruct (flush_callback_ (batcher w)) as [cb|] eqn:Hcb0.
  - rewrite bool_decide_eq_true_2 in Ha by eauto.
    unfold RunCallback in Ha. rewrite Hcb in Ha. simplify_eq.
    split; [|done]. unfold skel, cfg in *. simpl in *. congruence.
  - rewrite bool_decide_eq_false_2 in Ha by (intros [? ?]; done).
    simplify_eq. split; [|done]. unfold skel in *. simpl in *. congruence.
Qed.

Lemma for_each_Mark_total status l w :
  NoDup l ->
  (∀ h, h ∈ l -> h ∈ ops_ (batcher w) ∧ is_Some (heap w !! h)) ->
  is_Some (for_each (λ h, MarkInFlightOpFailedUnlocked h status) l w).
Proof.
  revert w. induction l as [|h l IH]; simpl; intros w Hnd Hall; [eauto|].
  apply NoDup_cons in Hnd as [Hnotin Hnd].
  destruct (Hall h) as [Hin Hheap]; [set_solver|].
  destruct (MarkInFlightOpFailedUnlocked_total h status w Hin Hheap) as [w1 Hw1].
  rewrite Hw1. apply IH; [done|].
  apply MarkInFlightOpFailedUnlocked_spec in Hw1 as (Hs & _ & Hops & _).
  intros h' Hin'. destruct (Hall h') as [? ?]; [set_solver|].
  assert (heap w1 = heap w) as -> by (unfold skel in Hs; by simplify_eq).
  rewrite Hops. split; [|done]. set_solver.
Qed.

Lemma ops_in_order_perm o w : ops_in_order o w ≡ₚ elements (ops_ (batcher w)).
Proof. apply std_sort_perm. Qed.

Lemma NoDup_ops_in_order o w : NoDup (ops_in_order o w).
Proof. rewrite ops_in_order_perm. apply NoDup_elements. Qed.

Lemma elem_of_ops_in_order o w h : h ∈ ops_in_order o w ↔ h ∈ ops_ (batcher w).
Proof. rewrite ops_in_order_perm. apply elem_of_elements. Qed.

(** [Abort] always returns. *)
Lemma Abort_total o status w : is_Some (Abort o status w).
Proof.
  unfold Abort.
  match goal with
  | |- is_Some (match for_each ?body ?l ?w1 with _ => _ end) =>
      destruct (for_each_Mark_total status l w1) as [w2 Hw2]
  end.
  - apply NoDup_filter, NoDup_ops_in_order.
  - intros h [Hst Hin]%list_elem_of_filter. apply elem_of_ops_in_order in Hin.
    split; [done|]. simpl in *. destruct (heap w !! h); [eauto|done].
  - rewrite Hw2. case_bool_decide as Hcb; [|eauto].
    unfold RunCallback. destruct Hcb as [cb ->]. eauto.
Qed.

Lemma CheckForFinishedFlush_spec o w w' :
  CheckForFinishedFlush o w = Some w' ->
  (¬ finishes w ∧ w' = w)
  ∨ (finishes w ∧ ∃ cb, flush_callback_ (batcher w) = Some cb ∧ w' = finish_world o cb w).
Proof.
  unfold CheckForFinishedFlush, finishes. intros Hc.
  destruct (decide (ops_ (batcher w) = ∅)) as [Hops|Hops].
  2:{ rewrite bool_decide_eq_false_2 in Hc by done. simpl in Hc. simplify_eq.
      left. split; [|done]. intros [? _]; done. }
  rewrite bool_decide_eq_true_2 in Hc by done. simpl in Hc.
  destruct (state_ (batcher w)) eqn:Hst; simpl in Hc; simplify_eq;
    try (left; split; [intros [_ [?|?]]; done|done]).
  - right. split; [auto|]. unfold RunCallback in Hc.
    unfold finish_world, final_status, cfg.
    destruct (session_alive o); simpl in Hc;
      destruct (flush_callback_ (batcher w)) as [cb|] eqn:Hcb; simplify_eq; eauto.
  - right. split; [auto|]. unfold RunCallback in Hc.
    unfold finish_world, final_status, cfg.
    destruct (session_alive o); simpl in Hc;
      destruct (flush_callback_ (batcher w)) as [cb|] eqn:Hcb; simplify_eq; eauto.
Qed.


Lemma take_ops_lookup ops hp h :
  take_ops ops hp !! h
  = (λ op, if bool_decide (h ∈ ops) then set_op_state kCompleted op else op) <$> hp !! h.
Proof. apply list_lookup_imap. Qed.

Lemma length_take_ops ops hp : length (take_ops ops hp) = length hp.
Proof. apply length_imap. Qed.

Lemma take_ops_nil hp : take_ops [] hp = hp.
Proof.
  apply list_eq. intros h. rewrite take_ops_lookup.
  by destruct (hp !! h).
Qed.

Lemma take_ops_app l1 l2 hp : take_ops l2 (take_ops l1 hp) = take_ops (l1 ++ l2) hp.
Proof.
  apply list_eq. intros h. rewrite !take_ops_lookup.
  destruct (hp !! h) as [op|]; simpl; [|done]. f_equal.
  destruct (decide (h ∈ l1)) as [H1|H1], (decide (h ∈ l2)) as [H2|H2].
  - rewrite !bool_decide_eq_true_2; [done|set_solver|done|done].
  - rewrite (bool_decide_eq_true_2 _ H1), (bool_decide_eq_false_2 _ H2).
    rewrite bool_decide_eq_true_2; [done|set_solver].
  - rewrite (bool_decide_eq_false_2 _ H1), (bool_decide_eq_true_2 _ H2).
    rewrite bool_decide_eq_true_2; [done|set_solver].
  - rewrite (bool_decide_eq_false_2 _ H1), (bool_decide_eq_false_2 _ H2).
    rewrite bool_decide_eq_false_2; [done|set_solver].
Qed.

Lemma op_data_take_ops ops hp : op_data <$> take_ops ops hp = op_data <$> hp.
Proof.
  apply list_eq. intros h. rewrite !list_lookup_fmap, take_ops_lookup.
  destruct (hp !! h); simpl; [|done]. by case_bool_decide.
Qed.

Lemma foldl_send_rpc_heap w l :
  heap (foldl send_rpc w l) = take_ops (concat (rpc_ops <$> l)) (heap w).
Proof.
  revert w. induction l as [|rpc l IH]; intros w.
  - simpl. by rewrite take_ops_nil.
  - change (foldl send_rpc w (rpc :: l)) with (foldl send_rpc (send_rpc w rpc) l).
    rewrite IH. unfold send_rpc. simpl. rewrite take_ops_app.
    by destruct (has_transaction (cfg w)).
Qed.

Lemma foldl_send_rpc w l :
  batcher (foldl send_rpc w l) = batcher w
  ∧ data_view (foldl send_rpc w l) = data_view w
  ∧ prepare_waiting (foldl send_rpc w l) = prepare_waiting w
  ∧ rpcs (foldl send_rpc w l) = rpcs w ++ l
  ∧ sent_rpcs (foldl send_rpc w l) = sent_rpcs w ++ l
  ∧ callback_runs (foldl send_rpc w l) = callback_runs w.
Proof.
  revert w. induction l as [|rpc l IH]; intros w.
  - simpl. rewrite !app_nil_r. done.
  - change (foldl send_rpc w (rpc :: l)) with (foldl send_rpc (send_rpc w rpc) l).
    destruct (IH (send_rpc w rpc)) as (Hb & Hd & Hp & Hr & Hs & Hc).
    rewrite Hb, Hd, Hp, Hr, Hs, Hc. unfold send_rpc, cfg, data_view.
    destruct (has_transaction (config (batcher w))); trace_simpl;
      rewrite <- ?app_assoc, ?op_data_take_ops; done.
Qed.

Lemma ExecuteOperations_spec o initial w w' :
  ExecuteOperations o initial w = Some w' ->
  data_view w' = data_view w
  ∧ callback_runs w' = callback_runs w
  ∧ ops_info_groups (batcher w') = prepared_groups o w
  ∧ ((* Prepare answers "not yet" *)
     (has_transaction (cfg w) = true ∧ prepare_ready o = false
      ∧ prepare_waiting w' = true ∧ state_ (batcher w') = state_ (batcher w)
      ∧ ops_queue_ (batcher w') = ops_queue_ (batcher w)
      ∧ rpcs w' = rpcs w ∧ sent_rpcs w' = sent_rpcs w)
     ∨ (* the batcher is not in kTransactionPrepare *)
     (state_ (batcher w) ≠ kTransactionPrepare
      ∧ prepare_waiting w' = prepare_waiting w ∧ state_ (batcher w') = state_ (batcher w)
      ∧ ops_queue_ (batcher w') = ops_queue_ (batcher w)
      ∧ rpcs w' = rpcs w ∧ sent_rpcs w' = sent_rpcs w)
     ∨ (* the RPCs are built and sent *)
     (state_ (batcher w) = kTransactionPrepare
      ∧ prepare_waiting w' = prepare_waiting w ∧ state_ (batcher w') = kTransactionReady
      ∧ ops_queue_ (batcher w') = []
      ∧ ∃ new_rpcs,
          rpcs w' = rpcs w ++ new_rpcs ∧ sent_rpcs w' = sent_rpcs w ++ new_rpcs
          ∧ (ops_queue_ (batcher w) = [] -> new_rpcs = [])
          ∧ (ops_queue_ (batcher w) ≠ [] ->
             ∃ w0 need, ops_queue_ (batcher w0) = ops_queue_ (batcher w)
                        ∧ heap w0 = heap w ∧ cfg w0 = cfg w
                        ∧ create_rpcs w0 need (prepared_groups o w) = Some new_rpcs))).
Proof.
  unfold ExecuteOperations, prepared_groups, cfg. intros He.
  destruct (has_transaction (config (batcher w))) eqn:Htx; simpl in He.
  - destruct (prepare_ready o) eqn:Hready; simpl in He.
    + case_bool_decide as Hst; simpl in He.
      * simplify_eq. trace_simpl.
        split_and!; try done. right. left. done.
      * case_bool_decide as Hq; simpl in *.
        -- simplify_eq. trace_simpl.
           split_and!; try done. right. right. split_and!; try done.
           exists []. rewrite !app_nil_r. split_and!; done.
        -- match type of He with
           | match create_rpcs ?w0 ?need ?gs with _ => _ end = _ =>
               destruct (create_rpcs w0 need gs) as [new_rpcs|] eqn:Hcr; [|done]
           end.
           simplify_eq.
           match goal with
           | |- context [foldl send_rpc ?w1 new_rpcs] =>
               destruct (foldl_send_rpc w1 new_rpcs) as (Hb & Hd & Hp & Hr & Hs & Hc)
           end.
           rewrite Hd, Hc, Hb, Hp, Hr, Hs. trace_simpl.
           split_and!; try done. right. right. split_and!; try done.
           exists new_rpcs. split_and!; try done.
           intros _. eexists _, _. split_and!; [| | |exact Hcr]; done.
    + simplify_eq. trace_simpl.
      split_and!; try done. left. done.
  - case_bool_decide as Hst; simpl in He.
    + simplify_eq. split_and!; try done. right. left. done.
    + case_bool_decide as Hq; simpl in *.
      * simplify_eq. split_and!; try done. right. right. split_and!; try done.
        exists []. rewrite !app_nil_r. split_and!; done.
      * match type of He with
        | match create_rpcs ?w0 ?need ?gs with _ => _ end = _ =>
            destruct (create_rpcs w0 need gs) as [new_rpcs|] eqn:Hcr; [|done]
        end.
        simplify_eq.
        match goal with
        | |- context [foldl send_rpc ?w1 new_rpcs] =>
            destruct (foldl_send_rpc w1 new_rpcs) as (Hb & Hd & Hp & Hr & Hs & Hc)
        end.
        rewrite Hd, Hc, Hb, Hp, Hr, Hs. trace_simpl.
        split_and!; try done. right. right. split_and!; try done.
        exists new_rpcs. split_and!; try done.
        intros _. eexists _, _. split_and!; [| | |exact Hcr]; done.
Qed.

(** Of the heap, [ExecuteOperations] changes the state of the operations it
    hands to the RPCs it sends. *)
Lemma ExecuteOperations_heap o initial w w' :
  ExecuteOperations o initial w = Some w' ->
  heap w' = take_ops (concat (rpc_ops <$> drop (length (rpcs w)) (rpcs w'))) (heap w).
Proof.
  assert (Hsame : ∀ v : World, rpcs v = rpcs w -> heap v = heap w ->
            heap v = take_ops (concat (rpc_ops <$> drop (length (rpcs w)) (rpcs v))) (heap w)).
  { intros v -> ->. by rewrite drop_all, take_ops_nil. }
  unfold ExecuteOperations, cfg. intros He.
  destruct (has_transaction (config (batcher w))) eqn:Htx; simpl in He.
  - destruct (prepare_ready o) eqn:Hready; simpl in He.
    + case_bool_decide as Hst; simpl in He; [simplify_eq; by apply Hsame|].
      case_bool_decide as Hq; simpl in *; [simplify_eq; by apply Hsame|].
      match type of He with
      | match create_rpcs ?w0 ?need ?gs with _ => _ end = _ =>
          destruct (create_rpcs w0 need gs) as [new_rpcs|] eqn:Hcr; [|done]
      end.
      simplify_eq. rewrite foldl_send_rpc_heap.
      match goal with
      | |- context [foldl send_rpc ?w1 new_rpcs] =>
          destruct (foldl_send_rpc w1 new_rpcs) as (_ & _ & _ & Hr & _)
      end.
      rewrite Hr. simpl. by rewrite drop_app_length.
    + simplify_eq. by apply Hsame.
  - case_bool_decide as Hst; simpl in He; [simplify_eq; by apply Hsame|].
    case_bool_decide as Hq; simpl in *; [simplify_eq; by apply Hsame|].
    match type of He with
    | match create_rpcs ?w0 ?need ?gs with _ => _ end = _ =>
        destruct (create_rpcs w0 need gs) as [new_rpcs|] eqn:Hcr; [|done]
    end.
    simplify_eq. rewrite foldl_send_rpc_heap.
    match goal with
    | |- context [foldl send_rpc ?w1 new_rpcs] =>
        destruct (foldl_send_rpc w1 new_rpcs) as (_ & _ & _ & Hr & _)
    end.
    rewrite Hr. simpl. by rewrite drop_app_length.
Qed.

Lemma FlushBuffersIfReady_inv o w w' :
  FlushBuffersIfReady o w = Some w' ->
  ((outstanding_lookups_ (batcher w) ≠ 0 ∨ state_ (batcher w) ≠ kResolvingTablets)
   ∧ w' = w)
  ∨ (outstanding_lookups_ (batcher w) = 0 ∧ state_ (batcher w) = kResolvingTablets
     ∧ ((ops_queue_ (batcher w) = [] ∧ w' = upd_batcher (set_state_ kTransactionReady) w)
        ∨ (ops_queue_ (batcher w) ≠ [] ∧ had_errors_ (batcher w) = true
           ∧ Abort o tablet_resolution_failed
               (upd_batcher (set_state_ kTransactionPrepare) w) = Some w')
        ∨ (ops_queue_ (batcher w) ≠ [] ∧ had_errors_ (batcher w) = false
           ∧ ∃ sorted, sorted_items w = Some sorted
             ∧ ((∃ status groups,
                   make_groups (sorted.*2) (ops_info_groups (batcher w))
                   = LoopAbort status groups
                   ∧ Abort o status (grouped_world w sorted groups) = Some w')
                ∨ (∃ groups n,
                     make_groups (sorted.*2) (ops_info_groups (batcher w))
                     = LoopDone groups n
                     ∧ ExecuteOperations o true (grouped_world w sorted groups)
                       = Some w'))))).
Proof.
  unfold FlushBuffersIfReady, sorted_items, grouped_world. intros Hf.
  case_bool_decide as Hout; [simplify_eq; left; auto|].
  case_bool_decide as Hst; [simplify_eq; left; auto|].
  right. split_and!; [done..|].
  case_bool_decide as Hq; [simplify_eq; left; auto|]. right.
  simpl in Hf. destruct (had_errors_ (batcher w)) eqn:Herr; [left; auto|].
  right. split_and!; [done..|].
  destruct (mapM _ (ops_queue_ (batcher w))) as [items|]; [|done]. simpl in *.
  eexists. split; [done|].
  destruct (make_groups _ _) as [|status groups|groups n] eqn:Hg; [done| |].
  - left. eauto.
  - right. eauto.
Qed.

Lemma FlushBuffersIfReady_not_resolving o w :
  state_ (batcher w) ≠ kResolvingTablets -> FlushBuffersIfReady o w = Some w.
Proof.
  intros Hst. unfold FlushBuffersIfReady.
  case_bool_decide; [done|]. by rewrite bool_decide_eq_true_2.
Qed.

Lemma user_view_skel w w' : skel w' = skel w -> user_view w' = user_view w.
Proof. unfold skel, user_view. intros Hs. simplify_eq. congruence. Qed.

Lemma data_view_heap w w' :
  data_view w' = data_view w ->
  op_data <$> heap w' = op_data <$> heap w ∧ length (heap w') = length (heap w).
Proof.
  unfold data_view. intros Hs.
  assert (op_data <$> heap w' = op_data <$> heap w) as Hh by (by simplify_eq).
  split; [done|]. apply (f_equal length) in Hh. by rewrite !length_fmap in Hh.
Qed.

Lemma user_view_data w w' : data_view w' = data_view w -> user_view w' = user_view w.
Proof.
  intros Hs. destruct (data_view_heap _ _ Hs) as [_ Hl].
  unfold data_view, user_view in *. simplify_eq. congruence.
Qed.

Lemma user_view_Abort o status w w' :
  Abort o status w = Some w' -> user_view w' = user_view w.
Proof.
  intros [Hs _]%Abort_spec. apply user_view_skel in Hs. rewrite Hs.
  unfold abort_skel. by destruct (flush_callback_ (batcher w)).
Qed.

Lemma user_view_CheckForFinishedFlush o w w' :
  CheckForFinishedFlush o w = Some w' -> user_view w' = user_view w.
Proof.
  intros [[_ ->]|[_ (cb & _ & ->)]]%CheckForFinishedFlush_spec; [done|].
  unfold finish_world. by destruct (session_alive o).
Qed.

Lemma user_view_FlushBuffersIfReady o w w' :
  FlushBuffersIfReady o w = Some w' -> user_view w' = user_view w.
Proof.
  intros Hf. apply FlushBuffersIfReady_inv in Hf
    as [[_ ->]|(_ & _ & [[_ ->]|[(_ & _ & Ha)|(_ & _ & sorted & _ & Hs)]])]; try done.
  - by apply user_view_Abort in Ha.
  - destruct Hs as [(st & gs & _ & Ha)|(gs & n & _ & He)].
    + by apply user_view_Abort in Ha.
    + apply ExecuteOperations_spec in He as (Hd & _). by apply user_view_data in Hd.
Qed.

Lemma TabletLookupFinished_inv o h r w w' :
  TabletLookupFinished o h r w = Some w' ->
  (state_ (batcher w) = kAborted
   ∧ MarkInFlightOpFailedUnlocked h (STATUS Aborted "Batch aborted") (lookup_counted w)
     = Some w')
  ∨ (state_ (batcher w) ≠ kAborted ∧ state_ (batcher w) ≠ kResolvingTablets
     ∧ state_ (batcher w) ≠ kGatheringOps ∧ w' = lookup_counted w)
  ∨ ((state_ (batcher w) = kResolvingTablets ∨ state_ (batcher w) = kGatheringOps)
     ∧ ∃ op, heap w !! h = Some op
       ∧ ((∃ t, lookup_verdict o op r = ROk t
                ∧ finish_lookup o w (accept_world h t op (lookup_counted w)) w')
          ∨ (∃ s w2 w3, lookup_verdict o op r = RErr s
                ∧ MarkInFlightOpFailedUnlocked h s (lookup_counted w) = Some w2
                ∧ CheckForFinishedFlush o w2 = Some w3
                ∧ finish_lookup o w w3 w'))).
Proof.
  unfold TabletLookupFinished, finish_lookup. fold (lookup_counted w).
  change (state_ (batcher (lookup_counted w))) with (state_ (batcher w)).
  change (heap (lookup_counted w)) with (heap w).
  change (outstanding_lookups_ (batcher (lookup_counted w)))
    with (outstanding_lookups_ (batcher w) - 1).
  intros Ht.
  destruct (decide (state_ (batcher w) = kAborted)) as [Hab|Hab].
  { rewrite bool_decide_eq_true_2 in Ht by done. left. done. }
  rewrite bool_decide_eq_false_2 in Ht by done. right.
  destruct (decide (state_ (batcher w) = kResolvingTablets)) as [Hres|Hres].
  2: destruct (decide (state_ (batcher w) = kGatheringOps)) as [Hga|Hga].
  3: { rewrite !bool_decide_eq_true_2 in Ht by done. simpl in Ht. simplify_eq.
       left. done. }
  all: right; split; [auto|].
  all: match type of Ht with
       | (if ?c then _ else _) = _ =>
           replace c with false in Ht
             by (symmetry; apply andb_false_iff;
                 rewrite !bool_decide_eq_false; tauto)
       end.
  all: destruct (heap w !! h) as [op|] eqn:Hop; [|done].
  all: exists op; split; [done|].
  all: unfold lookup_verdict, accept_world.
  all: destruct r as [t|s]; simpl in Ht.
  all: try (destruct (negb (ContainsKey (partition t) (partition_key op))
                      || random_act o
                         && bool_decide (namespace_name (yb_op op) = "yb_test"));
            simpl in Ht).
  all: try (destruct (MarkInFlightOpFailedUnlocked _ _ (lookup_counted w))
              as [w2|] eqn:Hm; [|done];
            destruct (CheckForFinishedFlush o w2) as [w3|] eqn:Hc; [|done];
            right; eexists _, w2, w3; split_and!; try done;
            by (case_bool_decide; simplify_eq)).
  all: left; exists t; split; [done|].
  all: rewrite list_lookup_insert_eq in Ht by (by eapply lookup_lt_Some).
  all: simpl in Ht; destruct (bool_decide (state op = kLookingUpTablet));
    simpl in Ht; by (case_bool_decide; simplify_eq).
Qed.

Lemma user_view_TabletLookupFinished o h r w w' :
  TabletLookupFinished o h r w = Some w' -> user_view w' = user_view w.
Proof.
  intros Ht. apply TabletLookupFinished_inv in Ht
    as [[_ Hm]|[(_ & _ & _ & ->)|[_ (op & Hop & Hcase)]]]; [|done|].
  { apply MarkInFlightOpFailedUnlocked_spec in Hm as (Hs & _).
    by apply user_view_skel in Hs. }
  assert (∀ w3, user_view w3 = user_view w -> finish_lookup o w w3 w' ->
                user_view w' = user_view w) as Hfin.
  { unfold finish_lookup. intros w3 Hw3 Hf. case_bool_decide; [|by subst].
    apply user_view_FlushBuffersIfReady in Hf. congruence. }
  destruct Hcase as [(t & _ & Hf)|(s & w2 & w3 & _ & Hm & Hc & Hf)].
  - eapply Hfin; [|exact Hf]. unfold accept_world, user_view.
    case_bool_decide; simpl; by rewrite ?length_insert.
  - apply MarkInFlightOpFailedUnlocked_spec in Hm as (Hs & _).
    apply user_view_skel in Hs. apply user_view_CheckForFinishedFlush in Hc.
    apply (Hfin w3); [by rewrite Hc, Hs|done].
Qed.

(** ** Ingress *)

Lemma Add_inv o op w st w' :
  Add o op w = Some (st, w') ->
  (state_ (batcher w) ≠ kGatheringOps
   ∧ st = wrong_state_status (state_ (batcher w)) ∧ w' = w)
  ∨ (state_ (batcher w) = kGatheringOps ∧ ok (GetPartitionKey op).1 = false
     ∧ st = (GetPartitionKey op).1 ∧ w' = w)
  ∨ (state_ (batcher w) = kGatheringOps ∧ ok (GetPartitionKey op).1 = true
     ∧ MaybeRefreshTablePartitionList op = RErr st ∧ w' = w)
  ∨ (state_ (batcher w) = kGatheringOps ∧ ok (GetPartitionKey op).1 = true
     ∧ st = Status_OK
     ∧ ∃ refreshed h w2,
         MaybeRefreshTablePartitionList op = ROk refreshed
         ∧ AddInFlightOp (keyed_InFlightOp op (GetPartitionKey op).2)
             (ingress_world refreshed op (GetPartitionKey op).2 w) = Some (h, w2)
         ∧ match op_tablet op with
           | Some t => TabletLookupFinished o h (ROk t) w2 = Some w'
           | None => w' = lookup_started op (GetPartitionKey op).2 h w2
           end).
Proof.
  unfold Add, Batcher_state, ingress_world, keyed_InFlightOp, lookup_started. intros Ha.
  case_bool_decide as Hst; [simplify_eq; left; done|]. right.
  destruct (GetPartitionKey op) as [s key]. simpl in *.
  destruct (ok s) eqn:Hok; simpl in Ha; [|simplify_eq; left; done]. right.
  destruct (MaybeRefreshTablePartitionList op) as [refreshed|s'];
    [|simplify_eq; left; done]. right.
  destruct (AddInFlightOp _ _) as [[h w2]|] eqn:Hadd; [|done].
  destruct (op_tablet op) as [t|].
  - destruct (TabletLookupFinished o h (ROk t) w2) as [w3|] eqn:Ht; [|done].
    simplify_eq. split_and!; try done. eexists _, _, _. split_and!; done.
  - simplify_eq. split_and!; try done. eexists _, _, _. split_and!; done.
Qed.

Lemma AddInFlightOp_spec op w h w' :
  AddInFlightOp op w = Some (h, w') ->
  state_ (batcher w) = kGatheringOps ∧ h = length (heap w) ∧ (h ∉ ops_ (batcher w))
  ∧ w' = set_batcher
           (set_outstanding_lookups_ (outstanding_lookups_ (batcher w) + 1)
              (set_next_op_sequence_number_ (next_op_sequence_number_ (batcher w) + 1)
                 (set_ops_ ({[h]} ∪ ops_ (batcher w)) (batcher w))))
           (set_heap
              (heap w ++ [mkInFlightOp (yb_op op) (partition_key op) (tablet op) (state op)
                            (next_op_sequence_number_ (batcher w))]) w).
Proof.
  unfold AddInFlightOp. intros Ha.
  case_bool_decide; [done|]. case_bool_decide; [done|]. by simplify_eq.
Qed.

Lemma hash_code_ingress_world refreshed op key w :
  hash_code (ingress_world refreshed op key w) =
  if IsHashPartitioning op
     && (stamped_always (type op) || negb (bool_decide (key = "")))
  then <[op_addr op := DecodeMultiColumnHashValue key]> (hash_code w)
  else hash_code w.
Proof.
  unfold ingress_world, stamp_hash_code, SetHashCode.
  destruct (IsHashPartitioning op), refreshed, (type op); simpl; try done;
    by case_bool_decide.
Qed.

(** C9: when [Add] returns a status that is not OK (wrong state, no partition
    key, or a failed refresh of the partition list), it leaves everything as
    it was: nothing is inserted into [ops_], no sequence number is used,
    [outstanding_lookups_] is not incremented and no lookup is started. *)
Theorem Add_not_ok_changes_nothing o op w st w' :
  Add o op w = Some (st, w') -> ok st = false ->
  w' = w
  ∧ ops_ (batcher w') = ops_ (batcher w)
  ∧ heap w' = heap w
  ∧ next_op_sequence_number_ (batcher w') = next_op_sequence_number_ (batcher w)
  ∧ outstanding_lookups_ (batcher w') = outstanding_lookups_ (batcher w)
  ∧ lookups w' = lookups w
  ∧ started_lookups w' = started_lookups w.
Proof.
  intros Ha Hok.
  assert (w' = w) as ->; [|done].
  apply Add_inv in Ha as [(_ & _ & ->)|[(_ & _ & _ & ->)|[(_ & _ & _ & ->)|Hadded]]];
    try done.
  destruct Hadded as (_ & _ & -> & _). done.
Qed.

(** C4, as the code has it: [Add] in a state other than [kGatheringOps]
    returns the status [InternalError] with the message "Adding op to batcher
    in a wrong state: <state>", and leaves everything as it was. *)
Theorem Add_in_wrong_state o op w :
  Batcher_state w ≠ kGatheringOps ->
  Add o op w = Some (wrong_state_status (Batcher_state w), w)
  ∧ code (wrong_state_status (Batcher_state w)) = InternalError
  ∧ ok (wrong_state_status (Batcher_state w)) = false
  ∧ message (wrong_state_status (Batcher_state w)) =
    Format "Adding op to batcher in a wrong state: $0"
      [BatcherStateToString (Batcher_state w)].
Proof.
  intros Hst. unfold Add. by rewrite bool_decide_eq_true_2.
Qed.

(** C7, as the code has it: when [Add] passes its checks on a hash
    partitioned table, it sets the hash code decoded from the partition key
    on every write (QL, PGSQL, Redis) and on a Redis read whatever the key,
    and on a QL or PGSQL read only when the key is not empty; on a table
    that is not hash partitioned it sets none. *)
Theorem Add_stamps_hash_code o op w st w' :
  Batcher_state w = kGatheringOps ->
  ok (GetPartitionKey op).1 = true ->
  result_ok (MaybeRefreshTablePartitionList op) = true ->
  Add o op w = Some (st, w') ->
  let key := (GetPartitionKey op).2 in
  let stamped := <[op_addr op := DecodeMultiColumnHashValue key]> (hash_code w) in
  (IsHashPartitioning op = true ->
   type op ∈ [QL_WRITE; PGSQL_WRITE; REDIS_WRITE; REDIS_READ] -> hash_code w' = stamped)
  ∧ (IsHashPartitioning op = true -> type op ∈ [QL_READ; PGSQL_READ] ->
     key ≠ "" -> hash_code w' = stamped)
  ∧ (IsHashPartitioning op = true -> type op ∈ [QL_READ; PGSQL_READ] ->
     key = "" -> hash_code w' = hash_code w)
  ∧ (IsHashPartitioning op = false -> hash_code w' = hash_code w).
Proof.
  intros Hst Hkey Href Ha key stamped. unfold Batcher_state in Hst.
  apply Add_inv in Ha as [(? & _)|[(_ & ? & _)|[(_ & _ & Hr & _)|Hadded]]];
    [done|congruence|by rewrite Hr in Href|].
  destruct Hadded as (_ & _ & _ & refreshed & h & w2 & _ & Hadd & Hfin).
  assert (hash_code w' = hash_code (ingress_world refreshed op key w)) as ->.
  { apply AddInFlightOp_spec in Hadd as (_ & _ & _ & ->).
    destruct (op_tablet op) as [t|].
    - apply user_view_TabletLookupFinished in Hfin. unfold user_view in Hfin.
      by simplify_eq.
    - by subst. }
  rewrite hash_code_ingress_world. fold key. fold stamped.
  split_and!.
  - intros -> Hty. by repeat (apply elem_of_cons in Hty as [->|Hty]; [done|]);
      apply elem_of_nil in Hty.
  - intros -> Hty Hne. rewrite (bool_decide_eq_false_2 _ Hne). simpl.
    by rewrite orb_true_r.
  - intros -> Hty He. rewrite (bool_decide_eq_true_2 _ He). simpl.
    by repeat (apply elem_of_cons in Hty as [->|Hty]; [done|]);
      apply elem_of_nil in Hty.
  - by intros ->.
Qed.

(** C10: [RejectionScore] returns 0.0 for every attempt number when no
    source of rejection scores is set, and otherwise the value the source
    gives for that attempt number. *)
Theorem RejectionScore_delegates attempt_num w :
  (rejection_score_source_ (cfg w) = None ->
   RejectionScore attempt_num w = S754_zero false)
  ∧ (∀ source, rejection_score_source_ (cfg w) = Some source ->
               RejectionScore attempt_num w = source attempt_num).
Proof.
  unfold RejectionScore. split.
  - by intros ->.
  - by intros source ->.
Qed.


End Properties.

(** ** The ingress theorems at concrete inputs *)

Lemma Add_not_ok_changes_nothing_witness :
  Add oracle0 keyless_op one_added = Some (STATUS InvalidArgument "no key", one_added)
  ∧ lookups one_added = [0%nat]
  ∧ started_lookups one_added = started_lookups one_added.
Proof.
  assert (Hadd : Add oracle0 keyless_op one_added
                 = Some (STATUS InvalidArgument "no key", one_added))
    by (vm_compute; reflexivity).
  split; [exact Hadd|]. split; [vm_compute; reflexivity|].
  exact (proj2 (proj2 (proj2 (proj2 (proj2 (proj2
    (Add_not_ok_changes_nothing oracle0 keyless_op one_added _ _ Hadd eq_refl))))))).
Defined.

Lemma Add_in_wrong_state_witness :
  Add oracle0 (write_op 1 "a") flushed_empty
  = Some (wrong_state_status kComplete, flushed_empty).
Proof.
  refine (proj1 (Add_in_wrong_state oracle0 (write_op 1 "a") flushed_empty _)).
  vm_compute. discriminate.
Defined.

(** C4, as the claim states it, fails: the status is of the kind
    InternalError, not of a kind WrongState. *)
Lemma Add_in_wrong_state_counterexample :
  Batcher_state flushed_empty ≠ kGatheringOps
  ∧ ∃ st, Add oracle0 (write_op 1 "a") flushed_empty = Some (st, flushed_empty)
          ∧ code st = InternalError
          ∧ error_kind st = Some Kind_InternalError
          ∧ error_kind st ≠ Some Kind_WrongState.
Proof.
  split; [vm_compute; discriminate|].
  exists (wrong_state_status kComplete).
  split; [vm_compute; reflexivity|]. split; [reflexivity|].
  split; [reflexivity|]. vm_compute. discriminate.
Qed.

Lemma Add_stamps_hash_code_witness :
  hash_code (after [EvAdd redis_read_empty_key]) = {[ 5%nat := 0%N ]}.
Proof.
  assert (Hadd : Add oracle0 redis_read_empty_key (new_World cfg0)
                 = Some (Status_OK, after [EvAdd redis_read_empty_key]))
    by (vm_compute; reflexivity).
  pose proof (Add_stamps_hash_code oracle0 redis_read_empty_key (new_World cfg0) _ _
                eq_refl eq_refl eq_refl Hadd) as (Hw & _).
  rewrite Hw; [reflexivity|reflexivity|].
  apply list_elem_of_In. vm_compute. tauto.
Defined.

(** C7, as the claim states it, fails: a Redis read with an empty partition
    key has its hash code set. *)
Lemma Add_stamps_hash_code_counterexample :
  type redis_read_empty_key = REDIS_READ
  ∧ IsHashPartitioning redis_read_empty_key = true
  ∧ GetPartitionKey redis_read_empty_key = (Status_OK, "")
  ∧ hash_code (new_World cfg0) !! op_addr redis_read_empty_key = None
  ∧ ∃ w', Add oracle0 redis_read_empty_key (new_World cfg0) = Some (Status_OK, w')
          ∧ hash_code w' !! op_addr redis_read_empty_key
            = Some (DecodeMultiColumnHashValue "").
Proof.
  split_and!; try reflexivity.
  exists (after [EvAdd redis_read_empty_key]).
  split; vm_compute; reflexivity.
Qed.

Lemma RejectionScore_delegates_witness :
  RejectionScore 4 (new_World cfg0) = S754_zero false
  ∧ RejectionScore 4 with_source = S754_finite false 3 4.
Proof.
  split.
  - exact (proj1 (RejectionScore_delegates 4 (new_World cfg0)) eq_refl).
  - exact (proj2 (RejectionScore_delegates 4 with_source) _ eq_refl).
Defined.

(** ** Sorting and grouping *)

Lemma OpGroup_rank_inj g1 g2 : OpGroup_rank g1 = OpGroup_rank g2 -> g1 = g2.
Proof. by destruct g1, g2. Qed.

Lemma InFlightOp_less_spec a b :
  InFlightOp_less a b = true ↔ key_lt (sort_key a) (sort_key b).
Proof.
  unfold InFlightOp_less, key_lt, sort_key. simpl.
  destruct (decide (tablet_get a = tablet_get b)) as [Ht|Ht].
  - rewrite (bool_decide_eq_true_2 _ Ht).
    destruct (decide (group (yb_op a) = group (yb_op b))) as [Hg|Hg].
    + rewrite bool_decide_eq_false_2 by (by intros ?).
      rewrite bool_decide_eq_true, Hg. lia.
    + rewrite (bool_decide_eq_true_2 _ Hg), bool_decide_eq_true.
      assert (OpGroup_rank (group (yb_op a)) ≠ OpGroup_rank (group (yb_op b)))
        by (by intros ?%OpGroup_rank_inj).
      lia.
  - rewrite (bool_decide_eq_false_2 _ Ht), bool_decide_eq_true. lia.
Qed.

Lemma key_le_spec a b : InFlightOp_less b a = false ↔ key_le a b.
Proof.
  unfold key_le. rewrite <- InFlightOp_less_spec.
  destruct (InFlightOp_less b a); split; done.
Qed.

Lemma key_le_trans a b c : key_le a b -> key_le b c -> key_le a c.
Proof. unfold key_le, key_lt, sort_key. simpl. lia. Qed.

Lemma key_lt_le a b : key_lt (sort_key a) (sort_key b) -> key_le a b.
Proof. unfold key_le, key_lt, sort_key. simpl. lia. Qed.

Lemma sort_insert_fmap {A B} (f : A -> B) (less : B -> B -> bool) x s :
  f <$> sort_insert (λ a b, less (f a) (f b)) x s = sort_insert less (f x) (f <$> s).
Proof.
  induction s as [|y s IHs]; simpl; [done|].
  destruct (less (f x) (f y)); simpl; [done|]. f_equal. exact IHs.
Qed.

Lemma std_sort_fmap {A B} (f : A -> B) (less : B -> B -> bool) l :
  f <$> std_sort (λ a b, less (f a) (f b)) l = std_sort less (f <$> l).
Proof.
  unfold std_sort. induction l as [|x l IH]; [done|].
  rewrite fmap_cons. cbn [foldr]. by rewrite sort_insert_fmap, IH.
Qed.

Lemma sort_insert_sorted x l :
  StronglySorted key_le l -> StronglySorted key_le (sort_insert InFlightOp_less x l).
Proof.
  induction 1 as [|y l Hs IH Hall]; simpl.
  - repeat constructor.
  - destruct (InFlightOp_less x y) eqn:Hlt.
    + apply InFlightOp_less_spec, key_lt_le in Hlt.
      constructor; [by constructor|]. constructor; [done|].
      eapply Forall_impl; [exact Hall|]. intros z Hz. by eapply key_le_trans.
    + constructor; [done|].
      rewrite sort_insert_perm. constructor; [|done]. by apply key_le_spec.
Qed.

Lemma std_sort_sorted l : StronglySorted key_le (std_sort InFlightOp_less l).
Proof.
  induction l as [|x l IH]; simpl; [constructor|]. by apply sort_insert_sorted.
Qed.

Section Grouping.
Context `{Collaborators}.

Lemma group_loop_step op rest it gs cg ct acc :
  group_loop (op :: rest) it gs cg ct acc =
  match partition_list_version (yb_op op), tablet op with
  | Some requested, None => LoopFault
  | Some requested, Some t =>
      if bool_decide (requested ≠ tablet_partition_list_version t)
      then LoopAbort
             (version_mismatch_status op requested (tablet_partition_list_version t)) acc
      else if bool_decide (op_key op = (ct, cg))
           then group_loop rest (S it) gs cg ct acc
           else group_loop rest (S it) it (group (yb_op op)) (tablet_get op)
                  (acc ++ [mkGroup gs it false])
  | None, _ =>
      if bool_decide (op_key op = (ct, cg))
      then group_loop rest (S it) gs cg ct acc
      else group_loop rest (S it) it (group (yb_op op)) (tablet_get op)
             (acc ++ [mkGroup gs it false])
  end.
Proof.
  assert (Hk : bool_decide (ct ≠ tablet_get op) || bool_decide (cg ≠ group (yb_op op))
               = negb (bool_decide (op_key op = (ct, cg)))).
  { unfold op_key. repeat case_bool_decide; simplify_eq; done. }
  simpl. rewrite Hk.
  destruct (partition_list_version (yb_op op)), (tablet op);
    repeat case_bool_decide; done.
Qed.

Lemma group_loop_grouped l its it gs cg ct acc groups' gs' :
  its = drop it l -> (it <= length l)%nat -> (gs <= it)%nat ->
  (∀ i a, (gs <= i < it)%nat -> l !! i = Some a -> op_key a = (ct, cg)) ->
  ((gs < it)%nat ∨ ∃ op, l !! it = Some op ∧ op_key op = (ct, cg)) ->
  group_loop its it gs cg ct acc = LoopDone groups' gs' ->
  ∃ added, groups' = acc ++ added
           ∧ grouped l gs (added ++ [mkGroup gs' (length l) false]).
Proof.
  revert it gs cg ct acc.
  induction its as [|op rest IH]; intros it gs cg ct acc Hits Hit Hgs Huni Hne Hloop.
  - simpl in Hloop. simplify_eq. exists []. rewrite app_nil_r. split; [done|].
    assert (it = length l) as ->.
    { apply (f_equal length) in Hits. rewrite length_drop in Hits. simpl in Hits. lia. }
    destruct Hne as [Hlt|(op & Hop & _)].
    2:{ apply lookup_lt_Some in Hop. lia. }
    simpl. split_and!; try done; try lia.
    + intros i a b Hi Ha Hb. rewrite (Huni i a), (Huni gs' b); try done; lia.
    + intros a b Ha. apply lookup_lt_Some in Ha. lia.
  - assert (l !! it = Some op) as Hop.
    { pose proof (lookup_drop l it 0) as Hd.
      rewrite <- Hits, Nat.add_0_r in Hd. by rewrite <- Hd. }
    assert (rest = drop (S it) l) as Hrest.
    { pose proof (drop_drop l 1 it) as Hd.
      rewrite <- Hits, Nat.add_1_r in Hd. by rewrite <- Hd. }
    assert (S it <= length l)%nat by (apply lookup_lt_Some in Hop; lia).
    rewrite group_loop_step in Hloop.
    assert (Hcont :
      (if bool_decide (op_key op = (ct, cg))
       then group_loop rest (S it) gs cg ct acc
       else group_loop rest (S it) it (group (yb_op op)) (tablet_get op)
              (acc ++ [mkGroup gs it false])) = LoopDone groups' gs').
    { destruct (partition_list_version (yb_op op)), (tablet op); try done.
      by case_bool_decide. }
    clear Hloop. case_bool_decide as Hkey.
    + apply IH in Hcont; try done; try lia.
      intros i a Hi Ha. destruct (decide (i = it)) as [->|]; [|apply (Huni i); [lia|done]].
      by simplify_eq.
    + apply IH in Hcont; try done; try lia.
      * destruct Hcont as (added & -> & Hg).
        exists (mkGroup gs it false :: added). rewrite <- app_assoc. split; [done|].
        destruct Hne as [Hlt|(op' & Hop' & Hk')]; [|by simplify_eq].
        simpl. split_and!; try done; try lia.
        -- intros i a b Hi Ha Hb. rewrite (Huni i a), (Huni gs b); try done; lia.
        -- intros a b Ha Hb. simplify_eq. rewrite (Huni gs b); [done|lia|done].
      * intros i a Hi Ha. assert (i = it) as -> by lia. by simplify_eq.
Qed.

Lemma make_groups_grouped l groups n :
  make_groups l [] = LoopDone groups n -> grouped l 0 groups.
Proof.
  unfold make_groups. destruct l as [|first l'] eqn:Hl; [done|]. rewrite <- Hl.
  intros Hm.
  destruct (group_loop l 0 0 (group (yb_op first)) (tablet_get first) [])
    as [| |groups0 gs] eqn:Hloop; try done.
  simplify_eq.
  eapply (group_loop_grouped (first :: l')) in Hloop as (added & Ha & Hg);
    try done; simpl; try lia.
  - simpl in Ha. by subst.
  - right. eauto.
Qed.

Lemma grouped_tiles l start groups : grouped l start groups -> tiles start groups (length l).
Proof.
  revert start. induction groups as [|g rest IH]; simpl; intros start; [done|].
  intros (? & ? & ? & _ & _ & Hrest). split_and!; [done..|]. by apply IH.
Qed.

Lemma group_loop_mismatch its it gs cg ct acc :
  Forall (λ op, is_Some (tablet op)) its ->
  Exists version_mismatch its ->
  ∃ status groups,
    group_loop its it gs cg ct acc = LoopAbort status groups
    ∧ code status = Aborted
    ∧ ClientError status = kTablePartitionListVersionDoesNotMatch.
Proof.
  revert it gs cg ct acc.
  induction its as [|op rest IH]; intros it gs cg ct acc Htab Hex.
  - by apply Exists_nil in Hex.
  - apply Forall_cons in Htab as [[t Ht] Htab].
    rewrite group_loop_step, Ht.
    destruct (partition_list_version (yb_op op)) as [requested|] eqn:Hv.
    + case_bool_decide as Hne; [eauto|].
      apply Exists_cons in Hex as [(r' & t' & Hr' & Ht' & Hne')|Hex].
      * simplify_eq.
      * case_bool_decide; by apply IH.
    + apply Exists_cons in Hex as [(r' & t' & Hr' & _)|Hex]; [congruence|].
      case_bool_decide; by apply IH.
Qed.

Lemma make_groups_mismatch l acc :
  l ≠ [] -> Forall (λ op, is_Some (tablet op)) l -> Exists version_mismatch l ->
  ∃ status groups,
    make_groups l acc = LoopAbort status groups
    ∧ code status = Aborted
    ∧ ClientError status = kTablePartitionListVersionDoesNotMatch.
Proof.
  intros Hne Htab Hex. unfold make_groups. destruct l as [|first l'] eqn:Hl; [done|].
  rewrite <- Hl in *.
  destruct (group_loop_mismatch l 0 0 (group (yb_op first)) (tablet_get first) acc
              Htab Hex) as (status & groups & -> & ? & ?).
  eauto.
Qed.

End Grouping.

Lemma group_slice_bounds {A} (queue : list A) (gs1 gs2 : list InFlightOpsGroup) :
  bounds <$> gs1 = bounds <$> gs2 -> group_slice queue <$> gs1 = group_slice queue <$> gs2.
Proof.
  revert gs2. induction gs1 as [|g1 gs1 IH]; intros [|g2 gs2]; simpl; try done.
  intros Hb. injection Hb as Hb1 Hb2 Hrest. unfold group_slice at 1 3.
  rewrite Hb1, Hb2. f_equal. by apply IH.
Qed.

Lemma grouped_bounds l start (gs1 gs2 : list InFlightOpsGroup) :
  bounds <$> gs1 = bounds <$> gs2 -> grouped l start gs1 -> grouped l start gs2.
Proof.
  revert start gs2. induction gs1 as [|g1 gs1 IH]; intros start [|g2 gs2]; simpl; try done.
  intros Hb. injection Hb as Hb1 Hb2 Hrest. rewrite Hb1, Hb2.
  intros (? & ? & ? & ? & ? & Hg). split_and!; try done. by apply IH.
Qed.

Lemma tiles_bounds start n (gs1 gs2 : list InFlightOpsGroup) :
  bounds <$> gs1 = bounds <$> gs2 -> tiles start gs1 n -> tiles start gs2 n.
Proof.
  revert start gs2. induction gs1 as [|g1 gs1 IH]; intros start [|g2 gs2]; simpl; try done.
  intros Hb. injection Hb as Hb1 Hb2 Hrest. rewrite Hb1, Hb2.
  intros (? & ? & Hg). split_and!; try done. by apply IH.
Qed.

Lemma imap_bounds (f : nat -> InFlightOpsGroup -> InFlightOpsGroup) (gs : list InFlightOpsGroup) :
  (∀ i g, bounds (f i g) = bounds g) -> bounds <$> imap f gs = bounds <$> gs.
Proof.
  revert f. induction gs as [|g gs IH]; intros f Hf; simpl; [done|].
  rewrite Hf. f_equal. apply IH. intros i g'. apply Hf.
Qed.

Lemma tiles_le start groups n : tiles start groups n -> (start <= n)%nat.
Proof.
  revert start. induction groups as [|g rest IH]; simpl; intros start; [lia|].
  intros (_ & ? & Hrest). apply IH in Hrest. lia.
Qed.

Lemma tiles_concat {A} (queue : list A) start groups :
  tiles start groups (length queue) ->
  concat (group_slice queue <$> groups) = drop start queue
  ∧ Forall (λ ops, ops ≠ []) (group_slice queue <$> groups).
Proof.
  revert start. induction groups as [|g rest IH]; intros start.
  - simpl. intros ->. by rewrite drop_all.
  - rewrite fmap_cons. cbn [tiles concat].
    intros (Hb & Hlt & Hrest). pose proof (tiles_le _ _ _ Hrest) as Hle.
    destruct (IH _ Hrest) as [Hc Hne]. rewrite Hc. split.
    + unfold group_slice, slice. rewrite Hb.
      replace (drop (g_end g) queue)
        with (drop (g_end g - start) (drop start queue))
        by (rewrite drop_drop; f_equal; lia).
      apply take_drop.
    + constructor; [|done]. unfold group_slice, slice. rewrite Hb.
      intros Hnil. apply (f_equal length) in Hnil.
      rewrite length_take, length_drop in Hnil. simpl in Hnil. lia.
Qed.

Lemma slice_lookup {A} (l : list A) b e i a :
  slice l b e !! i = Some a ↔ l !! (b + i)%nat = Some a ∧ (i < e - b)%nat.
Proof. unfold slice. by rewrite lookup_take_Some, lookup_drop. Qed.

Lemma StronglySorted_lookup {A} (R : relation A) l i j a b :
  StronglySorted R l -> (i < j)%nat -> l !! i = Some a -> l !! j = Some b -> R a b.
Proof.
  intros Hs. revert i j. induction Hs as [|x l Hs IH Hall]; intros i j Hij Ha Hb; [done|].
  destruct j as [|j]; [lia|]. simpl in Hb. destruct i as [|i]; simpl in Ha.
  - simplify_eq. rewrite Forall_forall in Hall. apply Hall.
    by eapply list_elem_of_lookup_2.
  - apply (IH i j); [lia|done..].
Qed.

Lemma grouped_elem l start groups g :
  grouped l start groups -> g ∈ groups ->
  (g_begin g < g_end g)%nat ∧ (g_end g <= length l)%nat
  ∧ ∀ i a b, (g_begin g <= i < g_end g)%nat -> l !! i = Some a ->
             l !! g_begin g = Some b -> op_key a = op_key b.
Proof.
  revert start. induction groups as [|g' rest IH]; simpl; intros start Hg Hin.
  - by apply elem_of_nil in Hin.
  - destruct Hg as (Hb & ? & ? & Huni & _ & Hrest).
    apply elem_of_cons in Hin as [->|Hin]; [|by eapply IH].
    rewrite Hb. split_and!; done.
Qed.

(** Within a group of a sorted queue, a smaller sequence number comes
    first. *)
Lemma group_in_sequence_order l groups g i j a b :
  StronglySorted key_le l -> grouped l 0 groups -> g ∈ groups ->
  group_slice l g !! i = Some a -> group_slice l g !! j = Some b ->
  sequence_number_ a < sequence_number_ b -> (i < j)%nat.
Proof.
  intros Hs Hg Hin [Ha Hi]%slice_lookup [Hb Hj]%slice_lookup Hseq.
  destruct (grouped_elem _ _ _ _ Hg Hin) as (Hlt & Hle & Huni).
  destruct (l !! g_begin g) as [first|] eqn:Hfirst.
  2:{ apply lookup_ge_None in Hfirst. lia. }
  assert (op_key a = op_key b) as Hkey.
  { rewrite (Huni (g_begin g + i)%nat a first), (Huni (g_begin g + j)%nat b first);
      try done; lia. }
  destruct (decide (i < j)%nat) as [|Hge]; [done|]. exfalso.
  destruct (decide (i = j)) as [->|Hne]; [simplify_eq; lia|].
  assert (key_le b a) as Hba.
  { eapply (StronglySorted_lookup key_le l (g_begin g + j) (g_begin g + i));
      [done|lia|done..]. }
  apply Hba. unfold op_key in Hkey. unfold key_lt, sort_key. simpl.
  simplify_eq. right. split; [done|]. right. split; [congruence|done].
Qed.

Section Dispatch.
Context `{Collaborators}.

Lemma sorted_items_spec w sorted :
  sorted_items w = Some sorted ->
  sorted.*1 ≡ₚ ops_queue_ (batcher w)
  ∧ (∀ h op, (h, op) ∈ sorted -> heap w !! h = Some op)
  ∧ StronglySorted key_le (sorted.*2).
Proof.
  unfold sorted_items. intros Hs.
  destruct (mapM _ (ops_queue_ (batcher w))) as [items|] eqn:Hm; [|done].
  simpl in Hs. simplify_eq.
  pose proof (std_sort_perm (λ lhs rhs, InFlightOp_less lhs.2 rhs.2) items) as Hperm.
  split_and!.
  - rewrite Hperm. erewrite (mapM_fmap_Some_inv _ fst); [done|exact Hm|].
    intros h [h' op]. destruct (heap w !! h); simpl; [|done]. by intros [= <- _].
  - intros h op Hin. rewrite Hperm in Hin.
    apply mapM_Some_1 in Hm. apply list_elem_of_lookup in Hin as [i Hi].
    destruct (Forall2_lookup_r _ _ _ _ _ Hm Hi) as (h' & _ & Hh').
    destruct (heap w !! h') eqn:Hheap; simpl in Hh'; by simplify_eq.
  - rewrite (std_sort_fmap snd InFlightOp_less). apply std_sort_sorted.
Qed.

Lemma create_rpcs_ops w need gs new_rpcs :
  create_rpcs w need gs = Some new_rpcs ->
  rpc_ops <$> new_rpcs = group_slice (ops_queue_ (batcher w)) <$> gs.
Proof.
  revert new_rpcs. induction gs as [|g rest IH]; simpl; intros new_rpcs Hc.
  - by simplify_eq.
  - destruct (CreateRpc w g _ need) as [rpc|] eqn:Hrpc; [|done].
    destruct (create_rpcs w need rest) as [rpcs'|]; [|done]. simplify_eq.
    rewrite !fmap_cons, (IH _ eq_refl). f_equal.
    unfold CreateRpc in Hrpc. repeat case_match; by simplify_eq.
Qed.

Lemma prepared_groups_bounds o w :
  bounds <$> prepared_groups o w = bounds <$> ops_info_groups (batcher w).
Proof.
  unfold prepared_groups. destruct (has_transaction (cfg w)); [|done].
  by apply imap_bounds.
Qed.

End Dispatch.

Section SortAndGroup.
Context `{Collaborators}.

Lemma group_slice_fmap {A B} (f : A -> B) (l : list A) g :
  f <$> group_slice l g = group_slice (f <$> l) g.
Proof. unfold group_slice, slice. by rewrite fmap_take, fmap_drop. Qed.

Lemma Abort_state o status w w' :
  Abort o status w = Some w' -> state_ (batcher w') = kAborted.
Proof.
  intros [Hs _]%Abort_spec. unfold skel, abort_skel in Hs.
  destruct (flush_callback_ (batcher w)); simpl in Hs; by simplify_eq.
Qed.

End SortAndGroup.

(** ** The invariant of a life cycle *)

Section Invariant.
Context `{Collaborators}.

Lemma Abort_facts o status w w' :
  Abort o status w = Some w' ->
  state_ (batcher w') = kAborted
  ∧ flush_callback_ (batcher w') = None
  ∧ callback_runs w'
    = callback_runs w
      ++ match flush_callback_ (batcher w) with Some _ => [status] | None => [] end
  ∧ sent_rpcs w' = sent_rpcs w
  ∧ rpcs w' = rpcs w ∧ lookups w' = lookups w
  ∧ prepare_waiting w' = prepare_waiting w.
Proof.
  intros [Hs _]%Abort_spec. unfold skel, abort_skel in Hs.
  destruct (flush_callback_ (batcher w)) eqn:Hcb; simpl in Hs.
  - assert (trace w' = trace w ++ [RunFlushCallback s status
              (has_callback_threadpool (cfg w) && submit_ok o)]) as Htr by (by simplify_eq).
    unfold callback_runs, sent_rpcs. rewrite Htr, !omap_app. simpl.
    rewrite app_nil_r. simplify_eq. split_and!; done.
  - assert (trace w' = trace w) as Htr by (by simplify_eq).
    unfold callback_runs, sent_rpcs. rewrite Htr, app_nil_r. simplify_eq.
    split_and!; try done. congruence.
Qed.

Lemma Inv_Abort f lf o status w w' :
  Inv f lf w -> Abort o status w = Some w' -> Inv f lf w'.
Proof.
  intros HI Ha. apply Abort_facts in Ha as (Hst & Hcb & Hruns & Hsent & Hr & Hl & Hp).
  unfold Inv in *. rewrite Hst, Hcb, Hruns, Hsent, Hl. split; [done|].
  destruct (state_ (batcher w)) eqn:Hst0.
  - destruct HI as (-> & -> & Hg & _). unfold gathering in Hg.
    destruct Hg as (_ & _ & _ & _ & _ & _ & _ & _ & -> & ->). done.
  - destruct HI as (-> & [cb ->] & Hg & _). unfold gathering in Hg.
    destruct Hg as (_ & _ & _ & _ & _ & _ & _ & _ & -> & ->). done.
  - destruct HI as (-> & _ & Hp' & _). unfold preparing in Hp'.
    destruct Hp' as (_ & [cb ->] & -> & -> & _). done.
  - destruct HI as (-> & -> & Hd). unfold dispatched in Hd.
    destruct Hd as ([cb ->] & -> & _ & -> & _). split; [done|]. by intros [?|?].
  - destruct HI as (-> & -> & -> & (-> & _) & Hs). split; [done|].
    intros [?|?]; [auto|done].
  - destruct HI as (-> & Hlen & Hs). rewrite app_nil_r. done.
Qed.

Lemma data_view_eq w w' :
  data_view w' = data_view w ->
  ops_ (batcher w') = ops_ (batcher w)
  ∧ outstanding_lookups_ (batcher w') = outstanding_lookups_ (batcher w)
  ∧ had_errors_ (batcher w') = had_errors_ (batcher w)
  ∧ combined_error_ (batcher w') = combined_error_ (batcher w)
  ∧ flush_callback_ (batcher w') = flush_callback_ (batcher w)
  ∧ op_data <$> heap w' = op_data <$> heap w
  ∧ lookups w' = lookups w.
Proof. unfold data_view. intros Hd. simplify_eq. done. Qed.

Lemma list_to_set_nil_inv (l : list Handle) : list_to_set (C := gset Handle) l = ∅ -> l = [].
Proof.
  destruct l as [|h l]; [done|]. simpl. intros He.
  assert (h ∈ (∅ : gset Handle)) as Hin by (rewrite <- He; set_solver).
  by apply not_elem_of_empty in Hin.
Qed.

Lemma CheckForFinishedFlush_resolving lf o w w2 :
  resolving lf w -> CheckForFinishedFlush o w = Some w2 ->
  (ops_ (batcher w) = ∅ ∧ state_ (batcher w2) = kComplete ∧ Inv true lf w2)
  ∨ (ops_ (batcher w) ≠ ∅ ∧ w2 = w).
Proof.
  intros (Hst & Hcb & Hg & Herr) Hc.
  apply CheckForFinishedFlush_spec in Hc as [[Hnf ->]|[[Hops _] (cb & Hcb' & ->)]].
  - right. split; [|done]. intros Hops. apply Hnf. split; auto.
  - left. split; [done|].
    destruct Hg as (_ & _ & Hset & _ & _ & _ & Hr & Hp & Hsent & Hruns).
    rewrite Hops in Hset. symmetry in Hset. apply list_to_set_nil_inv in Hset.
    apply app_eq_nil in Hset as [Hl Hq].
    assert (Hst' : state_ (batcher (finish_world o cb w)) = kComplete).
    { unfold finish_world. by destruct (session_alive o). }
    split; [done|]. unfold Inv. rewrite Hst'.
    unfold finish_world, quiescent, final_status.
    destruct (session_alive o); trace_simpl; rewrite Hruns, Hsent; split_and!; done.
Qed.

Lemma ExecuteOperations_preparing o initial w w' :
  preparing w -> prepare_waiting w = false ->
  ExecuteOperations o initial w = Some w' -> Inv true false w'.
Proof.
  intros (Hst & Hcb & Hruns & Hsent & Hr & Hl & Herr & Hq & Hnd & Hops & Ht) Hpw He.
  apply ExecuteOperations_spec in He as (Hd & Hruns' & Hgs & Hcase).
  apply data_view_eq in Hd as (Hops' & _ & Herr' & _ & Hcb' & _ & Hl').
  assert (Ht' : tiles 0 (prepared_groups o w) (length (ops_queue_ (batcher w)))).
  { eapply tiles_bounds; [|exact Ht]. symmetry. apply prepared_groups_bounds. }
  destruct Hcase as [(_ & _ & Hpw' & Hst' & Hq' & Hr' & Hsent')
                    |[(Hst' & _)|(_ & Hpw' & Hst' & Hq' & new_rpcs & Hr' & Hsent' & _ & Hnew)]].
  - unfold Inv. rewrite Hst', Hst. split_and!; try done.
    unfold preparing.
    rewrite Hst', Hcb', Hruns', Hsent', Hr', Hl', Herr', Hq', Hops', Hgs.
    split_and!; done.
  - done.
  - unfold Inv. rewrite Hst'. split_and!; try done.
    destruct (Hnew Hq) as (w0 & need & Hq0 & _ & _ & Hcr).
    apply create_rpcs_ops in Hcr. rewrite Hq0 in Hcr.
    destruct (tiles_concat (ops_queue_ (batcher w)) 0 _ Ht') as [Hconcat Hne].
    rewrite <- Hcr in Hconcat, Hne. simpl in Hconcat.
    unfold dispatched. rewrite Hcb', Hruns', Hpw', Hl', Hr', Hr, Hops'. simpl.
    rewrite Hconcat. split_and!; try done.
    intros ->. simpl in Hconcat. done.
Qed.

Lemma gathering_no_lookups w :
  gathering w -> outstanding_lookups_ (batcher w) = 0 -> lookups w = [].
Proof.
  intros (Hout & _) H0. rewrite H0 in Hout. destruct (lookups w); [done|].
  simpl in Hout. lia.
Qed.

Lemma Inv_aborted_resolving lf o status w1 w' :
  is_Some (flush_callback_ (batcher w1)) ->
  callback_runs w1 = [] -> sent_rpcs w1 = [] ->
  Abort o status w1 = Some w' -> Inv true lf w'.
Proof.
  intros [cb Hcb] Hruns Hsent Ha.
  apply Abort_facts in Ha as (Hst & Hcb' & Hruns' & Hsent' & _).
  unfold Inv. rewrite Hst, Hcb', Hruns', Hsent', Hruns, Hsent, Hcb. done.
Qed.

Lemma FlushBuffersIfReady_resolving lf o w w' :
  resolving lf w -> ops_ (batcher w) ≠ ∅ ->
  FlushBuffersIfReady o w = Some w' -> Inv true lf w'.
Proof.
  intros (Hst & Hcb & Hg & Herr) Hops Hf.
  pose proof Hg as (Hout & Hnd & Hset & Hlook & Hvalid & Hgroups & Hr & Hpw & Hsent & Hruns).
  apply FlushBuffersIfReady_inv in Hf as [[Hor ->]|(Hout0 & _ & Hcase)].
  { destruct Hor as [Hne|?]; [|done].
    unfold Inv. rewrite Hst. split_and!; try done.
    intros Hl. rewrite Hl in Hout. simpl in Hout. done. }
  pose proof (gathering_no_lookups _ Hg Hout0) as Hl.
  rewrite Hl in Hset, Hnd. simpl in Hset, Hnd.
  destruct Hcase as [[Hq _]|[(_ & _ & Ha)|(Hq & Herr0 & sorted & Hsorted & Hcase)]].
  - rewrite Hq in Hset. done.
  - eapply Inv_aborted_resolving; [| | |exact Ha]; done.
  - destruct Hcase as [(status & groups & _ & Ha)|(groups & n & Hmk & He)].
    { eapply Inv_aborted_resolving; [| | |exact Ha]; done. }
    assert (lf = false) as ->.
    { destruct lf; [|done]. rewrite Herr in Herr0; done. }
    destruct (sorted_items_spec _ _ Hsorted) as (Hperm & _ & _).
    rewrite Hgroups in Hmk. apply make_groups_grouped, grouped_tiles in Hmk.
    rewrite !length_fmap in Hmk.
    eapply (ExecuteOperations_preparing o true (grouped_world w sorted groups));
      [|exact Hpw|exact He].
    unfold preparing, grouped_world. simpl.
    rewrite length_fmap. split_and!; try done.
    + intros Hnil. rewrite Hnil in Hperm. by apply Permutation_nil_l in Hperm.
    + by rewrite Hperm.
    + rewrite Hset. apply list_to_set_perm_L. done.
Qed.

Lemma filter_ne_id (l : list Handle) h : h ∉ l -> filter (λ h', h' ≠ h) l = l.
Proof.
  induction l as [|x l IH]; [done|]. intros Hnotin.
  apply not_elem_of_cons in Hnotin as [Hne Hnotin].
  rewrite filter_cons_True by done. by rewrite IH.
Qed.

Lemma filter_ne_perm (l : list Handle) h :
  NoDup l -> h ∈ l -> l ≡ₚ h :: filter (λ h', h' ≠ h) l.
Proof.
  induction l as [|x l IH]; intros Hnd Hin; [by apply elem_of_nil in Hin|].
  apply NoDup_cons in Hnd as [Hx Hnd].
  destruct (decide (x = h)) as [->|Hne].
  - rewrite filter_cons_False by (by intros ?). by rewrite filter_ne_id.
  - apply elem_of_cons in Hin as [->|Hin]; [done|].
    rewrite filter_cons_True by done. rewrite (IH Hnd Hin) at 1. apply Permutation_swap.
Qed.

Lemma gathering_split w h :
  gathering w -> h ∈ lookups w ->
  let rest := filter (λ h', h' ≠ h) (lookups w) in
  lookups w ≡ₚ h :: rest
  ∧ outstanding_lookups_ (batcher w) - 1 = Z.of_nat (length rest)
  ∧ NoDup (h :: rest ++ ops_queue_ (batcher w))
  ∧ ops_ (batcher w) = {[h]} ∪ list_to_set (rest ++ ops_queue_ (batcher w)).
Proof.
  intros (Hout & Hnd & Hset & _) Hin rest.
  assert (Hperm : lookups w ≡ₚ h :: rest).
  { apply filter_ne_perm; [|done]. by apply NoDup_app in Hnd as [? _]. }
  split_and!; [done| | |].
  - rewrite Hout, Hperm. simpl. lia.
  - rewrite Hperm in Hnd. done.
  - rewrite Hset. rewrite Hperm. done.
Qed.

Lemma gathering_accept w h t op :
  gathering w -> h ∈ lookups w -> heap w !! h = Some op ->
  gathering (accept_world h t op (answered h w))
  ∧ h ∈ ops_ (batcher (accept_world h t op (answered h w)))
  ∧ batcher (accept_world h t op (answered h w))
    = set_ops_queue_ (ops_queue_ (batcher w) ++ [h])
        (set_outstanding_lookups_ (outstanding_lookups_ (batcher w) - 1) (batcher w)).
Proof.
  intros Hg Hin Hop.
  destruct (gathering_split w h Hg Hin) as (Hperm & Hout' & Hnd' & Hset').
  destruct Hg as (Hout & Hnd & Hset & Hlook & Hvalid & Hgroups & Hr & Hpw & Hsent & Hruns).
  destruct (Hlook h Hin) as (op' & Hop' & Hstate). simplify_eq.
  unfold accept_world, answered. rewrite bool_decide_eq_true_2 by done.
  split_and!; [|simpl; rewrite Hset'; set_solver|done].
  unfold gathering. simpl. rewrite !length_insert. split_and!; try done.
  - apply NoDup_cons in Hnd' as [Hnotin Hnd'].
    rewrite app_assoc. apply NoDup_app. split_and!; [done| |apply NoDup_singleton].
    intros x Hx Hx'. apply list_elem_of_singleton in Hx'. by subst.
  - rewrite Hset'. rewrite app_assoc, list_to_set_app_L. set_solver.
  - intros h' [Hne Hin']%list_elem_of_filter.
    rewrite !list_lookup_insert_ne by done. by apply Hlook.
  - intros h' [Hin'|Hin']%elem_of_app; [by apply Hvalid|].
    apply list_elem_of_singleton in Hin'. subst. by eapply lookup_lt_Some.
Qed.

Lemma skel_eq w w' :
  skel w' = skel w ->
  state_ (batcher w') = state_ (batcher w)
  ∧ ops_queue_ (batcher w') = ops_queue_ (batcher w)
  ∧ ops_info_groups (batcher w') = ops_info_groups (batcher w)
  ∧ outstanding_lookups_ (batcher w') = outstanding_lookups_ (batcher w)
  ∧ flush_callback_ (batcher w') = flush_callback_ (batcher w)
  ∧ heap w' = heap w ∧ lookups w' = lookups w ∧ rpcs w' = rpcs w
  ∧ prepare_waiting w' = prepare_waiting w ∧ trace w' = trace w.
Proof. unfold skel. intros Hs. simplify_eq. done. Qed.

Lemma gathering_reject w h s w2 :
  gathering w -> h ∈ lookups w ->
  MarkInFlightOpFailedUnlocked h s (answered h w) = Some w2 ->
  gathering w2
  ∧ had_errors_ (batcher w2) = true
  ∧ state_ (batcher w2) = state_ (batcher w)
  ∧ flush_callback_ (batcher w2) = flush_callback_ (batcher w)
  ∧ lookups w2 = filter (λ h', h' ≠ h) (lookups w)
  ∧ (ops_ (batcher w2) = ∅ ↔ lookups w2 ++ ops_queue_ (batcher w2) = []).
Proof.
  intros Hg Hin Hm.
  destruct (gathering_split w h Hg Hin) as (Hperm & Hout' & Hnd' & Hset').
  destruct Hg as (Hout & Hnd & Hset & Hlook & Hvalid & Hgroups & Hr & Hpw & Hsent & Hruns).
  apply MarkInFlightOpFailedUnlocked_spec in Hm as (Hs & _ & Hops & Herr).
  apply skel_eq in Hs as (Hst2 & Hq2 & Hg2 & Ho2 & Hcb2 & Hh2 & Hl2 & Hr2 & Hp2 & Htr).
  unfold answered in *. simpl in *.
  apply NoDup_cons in Hnd' as [Hnotin Hnd'].
  assert (Hset2 : ops_ (batcher w2)
                  = list_to_set (lookups w2 ++ ops_queue_ (batcher w2))).
  { rewrite Hops, Hset', Hl2, Hq2. set_solver. }
  split_and!; try done.
  - unfold gathering, sent_rpcs, callback_runs.
    rewrite Htr, Ho2, Hl2, Hq2, Hh2, Hg2, Hr2, Hp2. split_and!; try done.
    + by rewrite <- Hl2, <- Hq2.
    + intros h' [_ Hin']%list_elem_of_filter. by apply Hlook.
  - rewrite Hset2. split; [apply list_to_set_nil_inv|by intros ->].
Qed.

Lemma finish_lookup_Inv f lf o w0 w3 w' :
  (state_ (batcher w3) ≠ kResolvingTablets ∧ Inv f lf w3)
  ∨ (f = true ∧ resolving lf w3 ∧ ops_ (batcher w3) ≠ ∅
     ∧ outstanding_lookups_ (batcher w3) = outstanding_lookups_ (batcher w0) - 1) ->
  finish_lookup o w0 w3 w' -> Inv f lf w'.
Proof.
  unfold finish_lookup. intros [[Hst HI]|(-> & Hres & Hops & Hout)] Hfin.
  - case_bool_decide; [|by subst].
    rewrite FlushBuffersIfReady_not_resolving in Hfin by done. by simplify_eq.
  - case_bool_decide as H0; [by eapply FlushBuffersIfReady_resolving|]. subst.
    destruct Hres as (Hst & Hcb & Hg & Herr). unfold Inv. rewrite Hst.
    split_and!; try done. intros Hl. destruct Hg as (Hout' & _).
    rewrite Hl in Hout'. simpl in Hout'. lia.
Qed.

Lemma lookup_verdict_ok o op r t : lookup_verdict o op r = ROk t -> result_ok r = true.
Proof. by destruct r. Qed.

Lemma Inv_gathering f lf w :
  Inv f lf w ->
  state_ (batcher w) = kResolvingTablets ∨ state_ (batcher w) = kGatheringOps ->
  gathering w ∧ (lf = true -> had_errors_ (batcher w) = true)
  ∧ (state_ (batcher w) = kResolvingTablets -> f = true ∧ is_Some (flush_callback_ (batcher w)))
  ∧ (state_ (batcher w) = kGatheringOps -> f = false ∧ flush_callback_ (batcher w) = None).
Proof.
  unfold Inv. intros HI [Hst|Hst]; rewrite Hst in HI.
  - destruct HI as (? & ? & ? & ? & ?). split_and!; try done. by rewrite Hst.
  - destruct HI as (? & ? & ? & ?). split_and!; try done. by rewrite Hst.
Qed.

Lemma Inv_TabletLookupFinished f lf o h r w w' :
  Inv f lf w -> h ∈ lookups w ->
  TabletLookupFinished o h r (set_lookups (filter (λ h', h' ≠ h) (lookups w)) w) = Some w' ->
  Inv f (lf || negb (result_ok r)) w'.
Proof.
  intros HI Hin Ht.
  apply TabletLookupFinished_inv in Ht as [[Hst Hm]|[(Hst1 & Hst2 & Hst3 & ->)|Hcase]];
    simpl in *.
  - (* the batch was aborted *)
    apply MarkInFlightOpFailedUnlocked_spec in Hm as (Hs & _).
    apply skel_eq in Hs as (Hst' & _ & _ & _ & Hcb' & _ & Hl' & _ & _ & Htr).
    simpl in *. unfold Inv in *. rewrite Hst', Hst in *.
    unfold callback_runs, sent_rpcs in *. rewrite Htr, Hcb'.
    destruct HI as (? & ? & Hsent). split_and!; try done.
    intros _. apply Hsent. right. intros Hl. rewrite Hl in Hin. by apply elem_of_nil in Hin.
  - (* no lookup is owed in these states *)
    exfalso. unfold Inv in HI. destruct (state_ (batcher w)); try done.
    + destruct HI as (_ & _ & (_ & _ & _ & _ & _ & Hl & _) & _).
      rewrite Hl in Hin. by apply elem_of_nil in Hin.
    + destruct HI as (_ & _ & (_ & _ & _ & Hl & _)).
      rewrite Hl in Hin. by apply elem_of_nil in Hin.
    + destruct HI as (_ & _ & _ & (Hl & _) & _).
      rewrite Hl in Hin. by apply elem_of_nil in Hin.
  - destruct Hcase as (Hst & op & Hop & Hcase).
    destruct (Inv_gathering _ _ _ HI Hst) as (Hg & Herr & Hres & Hgath).
    fold (answered h w) in Hcase.
    destruct Hcase as [(t & Hv & Hfin)|(s & w2 & w3 & Hv & Hm & Hc & Hfin)].
    + (* the tablet is accepted *)
      rewrite (lookup_verdict_ok _ _ _ _ Hv), orb_false_r.
      destruct (gathering_accept w h t op Hg Hin Hop) as (Hg3 & Hin3 & Hb3).
      eapply finish_lookup_Inv; [|exact Hfin].
      destruct Hst as [Hst|Hst].
      * right. destruct (Hres Hst) as [-> Hcb].
        unfold resolving. rewrite Hb3. simpl. split_and!; try done.
        intros Hempty. rewrite Hb3 in Hin3. simpl in Hin3. rewrite Hempty in Hin3.
        by apply not_elem_of_empty in Hin3.
      * left. destruct (Hgath Hst) as [-> Hcb].
        unfold Inv. rewrite Hb3. simpl. rewrite Hst. split_and!; done.
    + (* the lookup failed, or the tablet does not hold the key *)
      destruct (gathering_reject w h s w2 Hg Hin Hm)
        as (Hg2 & Herr2 & Hst2 & Hcb2 & Hl2 & Hempty).
      set (lf' := lf || negb (result_ok r)).
      destruct Hst as [Hst|Hst].
      * destruct (Hres Hst) as [-> Hcb].
        assert (Hres2 : resolving lf' w2).
        { unfold resolving. rewrite Hst2, Hcb2. done. }
        destruct (CheckForFinishedFlush_resolving lf' o w2 w3 Hres2 Hc)
          as [(_ & Hst3 & HI3)|[Hne ->]].
        -- eapply finish_lookup_Inv; [|exact Hfin]. left. split; [congruence|done].
        -- eapply finish_lookup_Inv; [|exact Hfin]. right. split_and!; try done.
           apply MarkInFlightOpFailedUnlocked_spec in Hm as (Hs & _).
           by apply skel_eq in Hs as (_ & _ & _ & -> & _).
      * destruct (Hgath Hst) as [-> Hcb].
        apply CheckForFinishedFlush_spec in Hc as [[_ ->]|[[_ [?|?]] _]];
          [|congruence..].
        eapply finish_lookup_Inv; [|exact Hfin]. left. split; [congruence|].
        unfold Inv. rewrite Hst2, Hst, Hcb2. done.
Qed.

Lemma inv_view_eq w w' :
  inv_view w' = inv_view w ->
  state_ (batcher w') = state_ (batcher w)
  ∧ flush_callback_ (batcher w') = flush_callback_ (batcher w)
  ∧ had_errors_ (batcher w') = had_errors_ (batcher w)
  ∧ combined_error_ (batcher w') = combined_error_ (batcher w)
  ∧ ops_ (batcher w') = ops_ (batcher w)
  ∧ ops_queue_ (batcher w') = ops_queue_ (batcher w)
  ∧ ops_info_groups (batcher w') = ops_info_groups (batcher w)
  ∧ outstanding_lookups_ (batcher w') = outstanding_lookups_ (batcher w)
  ∧ heap w' = heap w ∧ lookups w' = lookups w ∧ rpcs w' = rpcs w
  ∧ prepare_waiting w' = prepare_waiting w
  ∧ callback_runs w' = callback_runs w ∧ sent_rpcs w' = sent_rpcs w.
Proof. unfold inv_view. intros Hv. simplify_eq. done. Qed.

Lemma gathering_same w w' :
  gathering_view w' = gathering_view w -> gathering w -> gathering w'.
Proof.
  unfold gathering_view. intros Hv.
  assert (ops_ (batcher w') = ops_ (batcher w)) as E5 by (by simplify_eq).
  assert (ops_queue_ (batcher w') = ops_queue_ (batcher w)) as E6 by (by simplify_eq).
  assert (ops_info_groups (batcher w') = ops_info_groups (batcher w)) as E7
    by (by simplify_eq).
  assert (outstanding_lookups_ (batcher w') = outstanding_lookups_ (batcher w)) as E8
    by (by simplify_eq).
  assert (heap w' = heap w) as E9 by (by simplify_eq).
  assert (lookups w' = lookups w) as E10 by (by simplify_eq).
  assert (rpcs w' = rpcs w) as E11 by (by simplify_eq).
  assert (prepare_waiting w' = prepare_waiting w) as E12 by (by simplify_eq).
  assert (callback_runs w' = callback_runs w) as E13 by (by simplify_eq).
  assert (sent_rpcs w' = sent_rpcs w) as E14 by (by simplify_eq).
  unfold gathering. by rewrite E5, E6, E7, E8, E9, E10, E11, E12, E13, E14.
Qed.

Lemma Inv_view f lf w w' : inv_view w' = inv_view w -> Inv f lf w -> Inv f lf w'.
Proof.
  intros Hv.
  apply inv_view_eq in Hv
    as (E1 & E2 & E3 & E4 & E5 & E6 & E7 & E8 & E9 & E10 & E11 & E12 & E13 & E14).
  assert (Hg : gathering w -> gathering w').
  { apply gathering_same. unfold gathering_view. congruence. }
  unfold Inv, preparing, dispatched, quiescent, final_status.
  rewrite E1, E2, E3, E4, E5, E6, E7, E10, E11, E12, E13, E14.
  destruct (state_ (batcher w)); try done.
  - intros (? & ? & ? & ?). auto.
  - intros (? & ? & ? & ? & ?). split_and!; auto.
Qed.

Lemma Inv_FlushAsync f lf o cb retry w w' :
  Inv f lf w -> FlushAsync o cb retry w = Some w' -> Inv true lf w'.
Proof.
  unfold FlushAsync. intros HI Hf.
  case_bool_decide as Hst; [done|].
  destruct (Inv_gathering _ _ _ HI (or_intror Hst)) as (Hg & Herr & _ & Hgath).
  destruct (Hgath Hst) as [-> Hcb].
  match type of Hf with
  | match CheckForFinishedFlush o ?x with _ => _ end = _ => set (w1 := x) in *
  end.
  destruct (CheckForFinishedFlush o w1) as [w2|] eqn:Hc; [|done].
  assert (Hres : resolving lf w1).
  { unfold resolving. split_and!.
    - subst w1. unfold cfg. simpl.
      by destruct (session_alive o); simpl;
        destruct (has_transaction (config (batcher w)) && negb retry).
    - subst w1. unfold cfg. simpl.
      destruct (session_alive o); simpl;
        destruct (has_transaction (config (batcher w)) && negb retry); simpl; eauto.
    - eapply gathering_same; [|exact Hg]. subst w1. unfold gathering_view, cfg. simpl.
      destruct (session_alive o); simpl;
        destruct (has_transaction (config (batcher w)) && negb retry); trace_simpl; done.
    - subst w1. unfold cfg. simpl.
      by destruct (session_alive o); simpl;
        destruct (has_transaction (config (batcher w)) && negb retry). }
  destruct (CheckForFinishedFlush_resolving lf o w1 w2 Hres Hc)
    as [(_ & Hst2 & HI2)|[Hne ->]].
  - rewrite FlushBuffersIfReady_not_resolving in Hf by congruence. by simplify_eq.
  - by eapply FlushBuffersIfReady_resolving.
Qed.

Lemma set_lookups_same w : set_lookups (lookups w) w = w.
Proof. by destruct w. Qed.

Lemma gathering_AddInFlightOp op wi h w2 :
  gathering wi -> state op = kLookingUpTablet ->
  AddInFlightOp op wi = Some (h, w2) ->
  gathering (set_lookups (lookups w2 ++ [h]) w2)
  ∧ (h ∉ lookups w2)
  ∧ state_ (batcher w2) = kGatheringOps
  ∧ flush_callback_ (batcher w2) = flush_callback_ (batcher wi)
  ∧ had_errors_ (batcher w2) = had_errors_ (batcher wi).
Proof.
  intros (Hout & Hnd & Hset & Hlook & Hvalid & Hgroups & Hr & Hpw & Hsent & Hruns) Hstate
         (Hst & -> & Hfresh & ->)%AddInFlightOp_spec.
  assert (Hnew : length (heap wi) ∉ lookups wi ++ ops_queue_ (batcher wi)).
  { intros [Hin|Hin]%elem_of_app.
    - destruct (Hlook _ Hin) as (op' & Hop' & _). apply lookup_lt_Some in Hop'. lia.
    - apply Hvalid in Hin. lia. }
  split_and!; try done.
  2:{ simpl. intros Hin. apply Hnew, elem_of_app. by left. }
  unfold gathering. simpl. rewrite !length_app. simpl. split_and!; try done.
  - rewrite Hout. lia.
  - rewrite <- app_assoc. simpl.
    apply NoDup_app in Hnd as (Hnd1 & Hdisj & Hnd2).
    apply NoDup_app. split_and!; [done| |].
    + intros x Hx [->|Hx']%elem_of_cons; [|by eapply Hdisj].
      apply Hnew, elem_of_app. by left.
    + apply NoDup_cons. split; [|done]. intros Hin. apply Hnew, elem_of_app. by right.
  - rewrite Hset, !list_to_set_app_L. simpl. set_solver.
  - intros h' [Hin|Hin]%elem_of_app.
    + destruct (Hlook _ Hin) as (op' & Hop' & Hst'). exists op'.
      split; [|done]. by apply lookup_app_l_Some.
    + apply list_elem_of_singleton in Hin. subst h'. eexists.
      split; [rewrite lookup_app_r by lia; by rewrite Nat.sub_diag|exact Hstate].
  - intros h' Hin. apply Hvalid in Hin. lia.
Qed.

Lemma Inv_Add f lf o op w st w' :
  Inv f lf w -> Add o op w = Some (st, w') -> Inv f lf w'.
Proof.
  intros HI Ha.
  apply Add_inv in Ha as [(_ & _ & ->)|[(_ & _ & _ & ->)|[(_ & _ & _ & ->)|Hadded]]];
    try done.
  destruct Hadded as (Hst & _ & _ & refreshed & h & w2 & _ & Hadd & Hfin).
  destruct (Inv_gathering _ _ _ HI (or_intror Hst)) as (Hg & Herr & _ & Hgath).
  destruct (Hgath Hst) as [-> Hcb].
  set (wi := ingress_world refreshed op (GetPartitionKey op).2 w) in *.
  assert (Hvi : inv_view wi = inv_view w).
  { subst wi. unfold ingress_world, stamp_hash_code, SetHashCode, inv_view.
    destruct refreshed, (IsHashPartitioning op), (type op); simpl;
      repeat case_bool_decide; trace_simpl; done. }
  assert (Hgi : gathering wi).
  { pose proof (Inv_view _ _ _ _ Hvi HI) as HIi. unfold Inv in HIi.
    apply inv_view_eq in Hvi as (E1 & _). rewrite E1, Hst in HIi. tauto. }
  apply inv_view_eq in Hvi as (_ & E2 & E3 & _).
  destruct (gathering_AddInFlightOp (keyed_InFlightOp op (GetPartitionKey op).2)
              wi h w2 Hgi eq_refl Hadd)
    as (Hgl & Hnotin & Hst2 & Hcb2 & Herr2).
  assert (HIl : Inv false lf (set_lookups (lookups w2 ++ [h]) w2)).
  { unfold Inv. simpl. rewrite Hst2, Hcb2, Herr2, E2, E3. done. }
  destruct (op_tablet op) as [t|].
  - assert (Hw2 : set_lookups
                    (filter (λ h', h' ≠ h) (lookups (set_lookups (lookups w2 ++ [h]) w2)))
                    (set_lookups (lookups w2 ++ [h]) w2) = w2).
    { simpl. rewrite filter_app, filter_ne_id by done.
      rewrite filter_cons_False, filter_nil, app_nil_r by (by intros ?).
      by destruct w2. }
    rewrite <- Hw2 in Hfin.
    apply (Inv_TabletLookupFinished false lf) in Hfin; [|done|].
    + simpl in Hfin. by rewrite orb_false_r in Hfin.
    + simpl. apply elem_of_app. right. by apply list_elem_of_singleton.
  - subst w'. eapply Inv_view; [|exact HIl].
    unfold lookup_started, inv_view. trace_simpl. done.
Qed.

Lemma Inv_ReadyCallback f lf o s w w' :
  Inv f lf w -> ReadyCallback o s w = Some w' -> Inv f lf w'.
Proof.
  unfold ReadyCallback, TransactionReady. intros HI Hr.
  destruct (prepare_waiting w) eqn:Hpw; [|done].
  set (w0 := set_prepare_waiting false w) in *.
  unfold Inv in HI. destruct (state_ (batcher w)) eqn:Hst.
  - destruct HI as (_ & _ & (_ & _ & _ & _ & _ & _ & _ & ? & _) & _). congruence.
  - destruct HI as (_ & _ & (_ & _ & _ & _ & _ & _ & _ & ? & _) & _). congruence.
  - destruct HI as (-> & -> & Hp & _).
    assert (Hp0 : preparing w0) by exact Hp.
    destruct (ok s).
    + by eapply ExecuteOperations_preparing.
    + destruct Hp0 as (_ & ? & ? & ? & _). by eapply Inv_aborted_resolving.
  - destruct HI as (_ & _ & (_ & _ & ? & _)). congruence.
  - destruct HI as (_ & _ & _ & (_ & _ & ?) & _). congruence.
  - assert (HI0 : Inv f lf w0) by (unfold Inv; simpl; by rewrite Hst).
    destruct (ok s); [|by eapply Inv_Abort].
    apply ExecuteOperations_spec in Hr as (Hd & Hruns & _ & Hcase).
    apply data_view_eq in Hd as (_ & _ & _ & _ & Hcb & _ & Hl).
    assert (state_ (batcher w') = kAborted ∧ sent_rpcs w' = sent_rpcs w) as [Hst' Hsent].
    { destruct Hcase as [(_ & _ & _ & Hs1 & _ & _ & Hs2)
                        |[(_ & _ & Hs1 & _ & _ & Hs2)|(Hp & _)]].
      - split; [by rewrite Hs1|by rewrite Hs2].
      - split; [by rewrite Hs1|by rewrite Hs2].
      - simpl in Hp. congruence. }
    unfold Inv. rewrite Hst', Hcb, Hruns, Hl, Hsent. simpl. done.
Qed.

Lemma rpc_view_skel w w' : skel w' = skel w -> rpc_view w' = rpc_view w.
Proof.
  intros (? & ? & ? & ? & ? & ? & ? & ? & ? & Htr)%skel_eq.
  unfold rpc_view, callback_runs, sent_rpcs. congruence.
Qed.

Lemma for_each_Combine_view (f : Handle -> Status) l w w' :
  for_each (λ h, CombineErrorUnlocked h (f h)) l w = Some w' ->
  rpc_view w' = rpc_view w ∧ ops_ (batcher w') = ops_ (batcher w).
Proof.
  intros Hfe.
  apply (for_each_inv
           (λ w1, rpc_view w1 = rpc_view w ∧ ops_ (batcher w1) = ops_ (batcher w)))
    in Hfe; [done| |done].
  intros h w1 w2 (Hs & Hops & _)%CombineErrorUnlocked_spec [Hv Ho].
  apply rpc_view_skel in Hs. split; congruence.
Qed.

Lemma ProcessRpcStatus_view rpc s w w' :
  ProcessRpcStatus rpc s w = Some w' ->
  rpc_view w' = rpc_view w ∧ ops_ (batcher w') = ops_ (batcher w).
Proof.
  unfold ProcessRpcStatus. intros Hp.
  case_bool_decide; [simplify_eq; by split|].
  destruct (ok s); simpl in Hp; [simplify_eq; by split|].
  by apply (for_each_Combine_view (λ _, s)) in Hp.
Qed.

Lemma ProcessWriteResponse_view rpc s resp w w' :
  ProcessWriteResponse rpc s resp w = Some w' ->
  rpc_view w' = rpc_view w ∧ ops_ (batcher w') = ops_ (batcher w).
Proof.
  unfold ProcessWriteResponse. intros Hp.
  destruct (ProcessRpcStatus rpc s w) as [w1|] eqn:Hp1; [|done].
  apply ProcessRpcStatus_view in Hp1 as [Hv1 Ho1].
  match type of Hp with
  | for_each _ _ ?x = _ => set (w2 := x) in *
  end.
  assert (rpc_view w2 = rpc_view w1 ∧ ops_ (batcher w2) = ops_ (batcher w1)) as [Hv2 Ho2].
  { subst w2. destruct (propagated_hybrid_time resp); [|done].
    destruct (ok s); [|done]. unfold rpc_view. trace_simpl. done. }
  apply (for_each_inv
           (λ w3, rpc_view w3 = rpc_view w ∧ ops_ (batcher w3) = ops_ (batcher w)))
    in Hp; [done| |split; congruence].
  intros [i st] w3 w4 Hbody [Hv Ho]. simpl in Hbody.
  case_bool_decide; [replace w4 with w3 by congruence; by split|].
  destruct (rpc_ops rpc !! i); [|done].
  apply CombineErrorUnlocked_spec in Hbody as (Hs & Hops & _).
  apply rpc_view_skel in Hs. split; congruence.
Qed.

Lemma RemoveInFlightOpsAfterFlushing_view ops status w w' :
  RemoveInFlightOpsAfterFlushing ops status w = Some w' ->
  rpc_view w' = rpc_view w
  ∧ ops_ (batcher w') = ops_ (batcher w) ∖ list_to_set ops
  ∧ had_errors_ (batcher w') = had_errors_ (batcher w)
  ∧ combined_error_ (batcher w') = combined_error_ (batcher w).
Proof.
  unfold RemoveInFlightOpsAfterFlushing. intros Hr.
  match type of Hr with
  | for_each _ _ ?x = _ => set (w1 := x) in *
  end.
  assert (rpc_view w1 = rpc_view w ∧ batcher w1 = batcher w) as [Hv1 Hb1].
  { subst w1. unfold rpc_view, cfg.
    destruct (has_transaction (config (batcher w))); simpl;
      destruct (negb (negb (ok status) && ShouldSessionRetryError status)); simpl;
      destruct (ok status && has_read_point (config (batcher w))); trace_simpl; done. }
  rewrite <- Hv1, <- Hb1. clear Hv1 Hb1. clearbody w1. revert w1 Hr.
  induction ops as [|h ops IH]; simpl; intros w1 Hr.
  - simplify_eq. split_and!; try done. set_solver.
  - case_bool_decide; [|done]. apply IH in Hr as (Hv & Hops & He & Hc). simpl in *.
    split_and!; try done. rewrite Hops. set_solver.
Qed.

Lemma rpc_view_eq w w' :
  rpc_view w' = rpc_view w ->
  state_ (batcher w') = state_ (batcher w)
  ∧ flush_callback_ (batcher w') = flush_callback_ (batcher w)
  ∧ lookups w' = lookups w ∧ rpcs w' = rpcs w
  ∧ prepare_waiting w' = prepare_waiting w
  ∧ callback_runs w' = callback_runs w ∧ sent_rpcs w' = sent_rpcs w.
Proof. unfold rpc_view. intros Hv. simplify_eq. done. Qed.

Lemma concat_delete (ls : list (list Handle)) k l :
  ls !! k = Some l -> NoDup (concat ls) ->
  NoDup (concat (delete k ls))
  ∧ list_to_set (C := gset Handle) (concat ls) ∖ list_to_set l
    = list_to_set (concat (delete k ls)).
Proof.
  intros Hk Hnd. rewrite delete_take_drop.
  pose proof (take_drop_middle ls k l Hk) as Hls. clear Hk.
  revert Hls. generalize (take k ls) (drop (S k) ls). intros As Bs <-.
  rewrite !concat_app, concat_cons in *.
  revert Hnd. generalize (concat As) (concat Bs). clear As Bs. intros A B Hnd.
  apply NoDup_app in Hnd as (HA & HAB & Hnd).
  apply NoDup_app in Hnd as (Hl & HlB & HB).
  split.
  - apply NoDup_app. split_and!; [done| |done].
    intros x Hx HxB. apply (HAB x Hx). apply elem_of_app. by right.
  - rewrite !list_to_set_app_L. apply set_eq. intros x.
    rewrite elem_of_difference, !elem_of_union, !elem_of_list_to_set.
    split.
    + intros [[?|[?|?]] Hnot]; [by left|done|by right].
    + intros [Hx|Hx].
      * split; [by left|]. intros Hxl. apply (HAB x Hx). apply elem_of_app. by left.
      * split; [by right; right|]. intros Hxl. by apply (HlB x Hxl).
Qed.

Lemma Inv_RpcFinished f lf o k s resp w w' :
  Inv f lf w -> RpcFinished o k s resp w = Some w' -> Inv f lf w'.
Proof.
  unfold RpcFinished. intros HI Hr.
  destruct (rpcs w !! k) as [rpc|] eqn:Hk; [|done].
  set (w0 := set_rpcs (delete k (rpcs w)) w) in *.
  match type of Hr with
  | match ?handled with _ => _ end = _ => destruct handled as [w1|] eqn:Hh; [|done]
  end.
  assert (rpc_view w1 = rpc_view w0 ∧ ops_ (batcher w1) = ops_ (batcher w0)) as [Hv1 Ho1].
  { destruct (rpc_kind rpc);
      [by apply ProcessWriteResponse_view in Hh
      |by apply ProcessRpcStatus_view in Hh..]. }
  destruct (RemoveInFlightOpsAfterFlushing (rpc_ops rpc) s w1) as [w2|] eqn:Hrm; [|done].
  apply RemoveInFlightOpsAfterFlushing_view in Hrm as (Hv2 & Ho2 & He2 & Hc2).
  rewrite Hv1 in Hv2. rewrite Ho1 in Ho2. clear Hv1 Ho1 Hh.
  apply rpc_view_eq in Hv2 as (Hst2 & Hcb2 & Hl2 & Hr2 & Hp2 & Hruns2 & Hsent2).
  simpl in *.
  assert (Hne : rpcs w ≠ []) by (intros Hnil; by rewrite Hnil in Hk).
  unfold Inv in HI. destruct (state_ (batcher w)) eqn:Hst.
  - destruct HI as (_ & _ & (_ & _ & _ & _ & _ & _ & ? & _) & _). done.
  - destruct HI as (_ & _ & (_ & _ & _ & _ & _ & _ & ? & _) & _). done.
  - destruct HI as (_ & _ & (_ & _ & _ & _ & ? & _) & _). done.
  - (* kTransactionReady *)
    destruct HI as (-> & -> & Hcb & Hruns & Hpw & Hl & _ & Hall & Hnd & Hset).
    destruct (concat_delete (rpc_ops <$> rpcs w) k (rpc_ops rpc))
      as [Hnd' Hset']; [by rewrite list_lookup_fmap, Hk|done|].
    rewrite <- list_fmap_delete in Hnd', Hset'.
    rewrite Hset, Hset' in Ho2.
    assert (Hall' : Forall (λ ops, ops ≠ []) (rpc_ops <$> delete k (rpcs w))).
    { rewrite list_fmap_delete, delete_take_drop. apply Forall_app.
      split; [by apply Forall_take|by apply Forall_drop]. }
    assert (Hempty : ops_ (batcher w2) = ∅ ↔ delete k (rpcs w) = []).
    { rewrite Ho2. split; [|by intros ->].
      intros He%list_to_set_nil_inv.
      destruct (delete k (rpcs w)) as [|r rest]; [done|].
      rewrite fmap_cons in Hall', He. apply Forall_cons in Hall' as [Hr' _].
      simpl in He. apply app_eq_nil in He as [? _]. done. }
    apply CheckForFinishedFlush_spec in Hr as [[Hnf ->]|[[Hops _] (cb & Hcb' & ->)]].
    + unfold Inv. rewrite Hst2. split_and!; try done.
      unfold dispatched. rewrite Hcb2, Hruns2, Hp2, Hl2, Hr2, Ho2.
      split_and!; try done.
      intros Hnil. apply Hnf. split; [by apply Hempty|right; congruence].
    + apply Hempty in Hops.
      assert (Hst' : state_ (batcher (finish_world o cb w2)) = kComplete).
      { unfold finish_world. by destruct (session_alive o). }
      unfold Inv. rewrite Hst'. unfold finish_world, quiescent, final_status.
      destruct (session_alive o); trace_simpl;
        rewrite Hruns2, Hruns, Hl2, Hr2, Hops, Hp2; split_and!; done.
  - destruct HI as (_ & _ & _ & (_ & ? & _) & _). done.
  - (* kAborted *)
    apply CheckForFinishedFlush_spec in Hr as [[_ ->]|[[_ [?|?]] _]]; [|congruence..].
    unfold Inv. rewrite Hst2, Hcb2, Hruns2, Hl2, Hsent2. done.
Qed.

Lemma Inv_step f lf w oe w' :
  Inv f lf w -> step w oe = Some w' ->
  Inv (f || is_flush oe.2) (lf || is_failed_lookup oe.2) w'.
Proof.
  destruct oe as [o e]. unfold step. simpl. intros HI Hs.
  destruct e as [op|cb retry|h r|s|k s resp|s|d|]; simpl.
  - rewrite !orb_false_r. destruct (Add o op w) as [[st w1]|] eqn:Ha; [|done].
    simpl in Hs. simplify_eq. by eapply Inv_Add.
  - rewrite orb_true_r, orb_false_r. by eapply Inv_FlushAsync.
  - rewrite orb_false_r. unfold LookupCallback in Hs.
    case_bool_decide as Hin; [|done].
    apply (Inv_TabletLookupFinished f lf) in Hs; [|done..].
    by destruct r.
  - rewrite !orb_false_r. by eapply Inv_ReadyCallback.
  - rewrite !orb_false_r. by eapply Inv_RpcFinished.
  - rewrite !orb_false_r. by eapply Inv_Abort.
  - rewrite !orb_false_r. simplify_eq. eapply Inv_view; [|exact HI]. done.
  - rewrite !orb_false_r. simplify_eq. eapply Inv_view; [|exact HI]. done.
Qed.

Lemma Inv_run evs f lf w w' :
  Inv f lf w -> run w evs = Some w' ->
  Inv (f || flushed_in evs) (lf || lookup_failed_in evs) w'.
Proof.
  revert f lf w. induction evs as [|oe evs IH]; simpl; intros f lf w HI Hr.
  - rewrite !orb_false_r. by simplify_eq.
  - destruct (step w oe) as [w1|] eqn:Hs; [|done].
    rewrite !orb_assoc. eapply IH; [|exact Hr]. by eapply Inv_step.
Qed.

Lemma Inv_new cfg0 : Inv false false (new_World cfg0).
Proof.
  unfold Inv, gathering. simpl.
  split_and!; try done; try (intros h Hh; by apply elem_of_nil in Hh).
  apply NoDup_nil_2.
Qed.

End Invariant.

(** ** Terminal states *)

Section Terminal.
Context `{Collaborators}.

(** From [kAborted] no call leaves the state or sends an RPC. *)
Lemma step_Aborted w oe w' :
  state_ (batcher w) = kAborted -> step w oe = Some w' ->
  state_ (batcher w') = kAborted ∧ sent_rpcs w' = sent_rpcs w.
Proof.
  destruct oe as [o e]. unfold step. simpl. intros Hst Hs.
  destruct e as [op|cb retry|h r|s|k s resp|s|d|].
  - destruct (Add o op w) as [[st w1]|] eqn:Ha; [|done]. simpl in Hs. simplify_eq.
    apply Add_inv in Ha as [(_ & _ & ->)|[(? & _)|[(? & _)|(? & _)]]]; [done|congruence..].
  - unfold FlushAsync in Hs. rewrite bool_decide_eq_true_2 in Hs by congruence. done.
  - unfold LookupCallback in Hs. case_bool_decide; [|done].
    apply TabletLookupFinished_inv in Hs as [[_ Hm]|[(? & _)|[[?|?] _]]];
      simpl in *; [|congruence..].
    apply MarkInFlightOpFailedUnlocked_spec in Hm as (Hs & _).
    apply skel_eq in Hs as (Hst' & _ & _ & _ & _ & _ & _ & _ & _ & Htr).
    simpl in *. unfold sent_rpcs. rewrite Htr. split; congruence.
  - unfold ReadyCallback, TransactionReady in Hs.
    destruct (prepare_waiting w); [|done]. destruct (ok s).
    + apply ExecuteOperations_spec in Hs as (_ & _ & _ & Hcase). simpl in Hcase.
      destruct Hcase as [(_ & _ & _ & Hs1 & _ & _ & Hs2)
                        |[(_ & _ & Hs1 & _ & _ & Hs2)|(? & _)]]; [| |congruence].
      * split; [by rewrite Hs1|by rewrite Hs2].
      * split; [by rewrite Hs1|by rewrite Hs2].
    + apply Abort_facts in Hs as (? & _ & _ & ? & _). done.
  - unfold RpcFinished in Hs. destruct (rpcs w !! k) as [rpc|]; [|done].
    match type of Hs with
    | match ?handled with _ => _ end = _ => destruct handled as [w1|] eqn:Hh; [|done]
    end.
    assert (rpc_view w1 = rpc_view (set_rpcs (delete k (rpcs w)) w)) as Hv1.
    { destruct (rpc_kind rpc);
        [by apply ProcessWriteResponse_view in Hh as [? _]
        |by apply ProcessRpcStatus_view in Hh as [? _]..]. }
    destruct (RemoveInFlightOpsAfterFlushing (rpc_ops rpc) s w1) as [w2|] eqn:Hrm; [|done].
    apply RemoveInFlightOpsAfterFlushing_view in Hrm as (Hv2 & _).
    rewrite Hv1 in Hv2. apply rpc_view_eq in Hv2 as (Hst2 & _ & _ & _ & _ & _ & Hsent2).
    simpl in *.
    apply CheckForFinishedFlush_spec in Hs as [[_ ->]|[[_ [?|?]] _]]; [|congruence..].
    split; [congruence|exact Hsent2].
  - apply Abort_facts in Hs as (? & _ & _ & ? & _). done.
  - by simplify_eq.
  - by simplify_eq.
Qed.

Lemma run_Aborted w evs w' :
  state_ (batcher w) = kAborted -> run w evs = Some w' ->
  state_ (batcher w') = kAborted ∧ sent_rpcs w' = sent_rpcs w.
Proof.
  revert w. induction evs as [|oe evs IH]; simpl; intros w Hst Hr.
  - by simplify_eq.
  - destruct (step w oe) as [w1|] eqn:Hs; [|done].
    apply step_Aborted in Hs as [Hst1 Hsent1]; [|done].
    destruct (IH _ Hst1 Hr) as [? ?]. split; congruence.
Qed.

(** From [kComplete] only [Abort] changes the state, to [kAborted]. *)
Lemma step_Complete f lf w oe w' :
  Inv f lf w -> state_ (batcher w) = kComplete -> step w oe = Some w' ->
  (is_abort oe.2 = false ∧ state_ (batcher w') = kComplete)
  ∨ (is_abort oe.2 = true ∧ state_ (batcher w') = kAborted).
Proof.
  destruct oe as [o e]. unfold step, Inv. simpl. intros HI Hst Hs.
  rewrite Hst in HI. destruct HI as (_ & _ & _ & (Hl & Hr & Hp) & _).
  destruct e as [op|cb retry|h r|s|k s resp|s|d|]; simpl.
  - left. split; [done|].
    destruct (Add o op w) as [[st w1]|] eqn:Ha; [|done]. simpl in Hs. simplify_eq.
    apply Add_inv in Ha as [(_ & _ & ->)|[(? & _)|[(? & _)|(? & _)]]]; [done|congruence..].
  - unfold FlushAsync in Hs. rewrite bool_decide_eq_true_2 in Hs by congruence. done.
  - unfold LookupCallback in Hs. rewrite Hl in Hs.
    rewrite bool_decide_eq_false_2 in Hs by apply not_elem_of_nil. done.
  - unfold ReadyCallback in Hs. by rewrite Hp in Hs.
  - unfold RpcFinished in Hs. by rewrite Hr in Hs.
  - right. split; [done|]. apply Abort_facts in Hs as (? & _). done.
  - left. by simplify_eq.
  - left. by simplify_eq.
Qed.

End Terminal.

(** ** Life cycles of a batcher *)

Section LifeCycle.
Context `{Collaborators}.

Lemma run_Complete f lf w evs w' :
  Inv f lf w -> state_ (batcher w) = kComplete -> run w evs = Some w' ->
  state_ (batcher w') = if abort_in evs then kAborted else kComplete.
Proof.
  revert f lf w. induction evs as [|oe evs IH]; simpl; intros f lf w HI Hst Hr.
  - by simplify_eq.
  - destruct (step w oe) as [w1|] eqn:Hs; [|done].
    destruct (step_Complete _ _ _ _ _ HI Hst Hs) as [[-> Hst1]|[-> Hst1]]; simpl.
    + eapply IH; [|done..]. by eapply Inv_step.
    + by apply (run_Aborted w1 evs).
Qed.

(** C2: when the readiness check dispatches, the queue is sorted by the
    tuple (tablet, operation class, sequence number) and cut into maximal
    runs of one (tablet, operation class); each RPC carries the operations
    of one group, in the order of the queue; so of two operations of one
    group, the one with the smaller sequence number comes first. *)
Theorem FlushBuffersIfReady_sorts_and_groups o w w' :
  state_ (batcher w) = kResolvingTablets ->
  outstanding_lookups_ (batcher w) = 0 ->
  ops_queue_ (batcher w) ≠ [] ->
  had_errors_ (batcher w) = false ->
  ops_info_groups (batcher w) = [] ->
  FlushBuffersIfReady o w = Some w' ->
  state_ (batcher w') ≠ kAborted ->
  ∃ sorted groups,
    sorted_items w = Some sorted
    ∧ sorted.*1 ≡ₚ ops_queue_ (batcher w)
    ∧ (∀ h op, (h, op) ∈ sorted -> heap w !! h = Some op)
    ∧ StronglySorted key_le (sorted.*2)
    ∧ grouped (sorted.*2) 0 groups
    ∧ concat (group_slice sorted <$> groups) = sorted
    ∧ bounds <$> ops_info_groups (batcher w') = bounds <$> groups
    ∧ ((state_ (batcher w') = kTransactionReady
        ∧ ∃ new_rpcs, sent_rpcs w' = sent_rpcs w ++ new_rpcs
                      ∧ rpc_ops <$> new_rpcs = (λ g, (group_slice sorted g).*1) <$> groups)
       ∨ (state_ (batcher w') = kTransactionPrepare ∧ prepare_waiting w' = true
          ∧ ops_queue_ (batcher w') = sorted.*1 ∧ sent_rpcs w' = sent_rpcs w))
    ∧ (∀ g i j ha a hb b, g ∈ groups ->
         group_slice sorted g !! i = Some (ha, a) ->
         group_slice sorted g !! j = Some (hb, b) ->
         sequence_number_ a < sequence_number_ b -> (i < j)%nat).
Proof.
  intros Hst Hout Hq Herr Hgroups Hf Hnab.
  apply FlushBuffersIfReady_inv in Hf
    as [[[?|?] _]|(_ & _ & [[? _]|[(_ & ? & _)|(_ & _ & sorted & Hsorted & Hcase)]])];
    try done; try congruence.
  destruct Hcase as [(status & groups & _ & Ha)|(groups & n & Hmk & He)].
  { apply Abort_state in Ha. done. }
  rewrite Hgroups in Hmk.
  destruct (sorted_items_spec _ _ Hsorted) as (Hperm & Hheap & Hss).
  pose proof (make_groups_grouped _ _ _ Hmk) as Hg.
  exists sorted, groups.
  assert (Hconcat : concat (group_slice sorted <$> groups) = sorted).
  { apply grouped_tiles in Hg. rewrite length_fmap in Hg.
    by destruct (tiles_concat sorted 0 groups Hg) as [-> _]. }
  apply ExecuteOperations_spec in He as (_ & _ & Hgs & Hcase).
  assert (Hb : bounds <$> ops_info_groups (batcher w') = bounds <$> groups).
  { rewrite Hgs, prepared_groups_bounds. done. }
  split_and!; try done.
  - destruct Hcase as [(_ & _ & Hpw & Hst' & Hq' & _ & Hsent)
                      |[(Hst' & _)|(_ & _ & Hst' & _ & new_rpcs & _ & Hsent & _ & Hnew)]].
    + right. done.
    + done.
    + left. split; [done|]. exists new_rpcs. split; [done|].
      destruct Hnew as (w0 & need & Hq0 & _ & _ & Hcr).
      { simpl. intros Hnil. apply fmap_nil_inv in Hnil. subst sorted.
        apply Permutation_nil_l in Hperm. done. }
      apply create_rpcs_ops in Hcr. rewrite Hcr, Hq0. simpl.
      rewrite (group_slice_bounds _ _ groups) by apply prepared_groups_bounds.
      apply list_fmap_ext. intros _ g _. by rewrite group_slice_fmap.
  - intros g i j ha a hb b Hin Hi Hj Hseq.
    eapply (group_in_sequence_order (sorted.*2) groups g i j a b); try done.
    + rewrite <- group_slice_fmap, list_lookup_fmap, Hi. done.
    + rewrite <- group_slice_fmap, list_lookup_fmap, Hj. done.
Qed.

(** C5, as the code has it: when the readiness check runs with no failure
    recorded ([had_errors_] not set) and an operation of the queue has a
    recorded partition list version that is present and is not the version
    of its tablet, the batch is aborted with
    TablePartitionListVersionDoesNotMatch: the callback is run with that
    status and no RPC is sent, then or later. *)
Theorem FlushBuffersIfReady_version_mismatch o w cb :
  state_ (batcher w) = kResolvingTablets ->
  outstanding_lookups_ (batcher w) = 0 ->
  had_errors_ (batcher w) = false ->
  flush_callback_ (batcher w) = Some cb ->
  Forall (λ h, ∃ op, heap w !! h = Some op ∧ is_Some (tablet op)) (ops_queue_ (batcher w)) ->
  Exists (λ h, ∃ op, heap w !! h = Some op ∧ version_mismatch op) (ops_queue_ (batcher w)) ->
  ∃ w' status,
    FlushBuffersIfReady o w = Some w'
    ∧ state_ (batcher w') = kAborted
    ∧ callback_runs w' = callback_runs w ++ [status]
    ∧ code status = Aborted
    ∧ ClientError status = kTablePartitionListVersionDoesNotMatch
    ∧ sent_rpcs w' = sent_rpcs w
    ∧ rpcs w' = rpcs w
    ∧ ∀ evs w'', run w' evs = Some w'' -> sent_rpcs w'' = sent_rpcs w.
Proof.
  intros Hst Hout Herr Hcb Htab Hex.
  assert (Hq : ops_queue_ (batcher w) ≠ []).
  { intros Hnil. rewrite Hnil in Hex. by apply Exists_nil in Hex. }
  destruct (mapM (λ h, pair h <$> heap w !! h) (ops_queue_ (batcher w)))
    as [items|] eqn:Hm.
  2:{ apply mapM_None_1, Exists_exists in Hm as (h & Hin & Hnone).
      rewrite Forall_forall in Htab. destruct (Htab h Hin) as (op & Hop & _).
      by rewrite Hop in Hnone. }
  assert (Hsorted : sorted_items w
                    = Some (std_sort (λ lhs rhs, InFlightOp_less lhs.2 rhs.2) items)).
  { unfold sorted_items. by rewrite Hm. }
  set (sorted := std_sort (λ lhs rhs, InFlightOp_less lhs.2 rhs.2) items) in *.
  destruct (sorted_items_spec _ _ Hsorted) as (Hperm & Hheap & _).
  assert (Hall : ∀ h op, (h, op) ∈ sorted -> h ∈ ops_queue_ (batcher w)).
  { intros h op Hin. rewrite <- Hperm. apply list_elem_of_fmap. by exists (h, op). }
  assert (Hin_sorted : ∀ h, h ∈ ops_queue_ (batcher w) ->
                            ∃ op, (h, op) ∈ sorted ∧ heap w !! h = Some op).
  { intros h Hin. rewrite <- Hperm in Hin.
    apply list_elem_of_fmap in Hin as ([h' op] & -> & Hin). eauto. }
  destruct (make_groups_mismatch (sorted.*2) (ops_info_groups (batcher w)))
    as (status & groups & Hmk & Hcode & Hce).
  { intros Hnil. apply fmap_nil_inv in Hnil. rewrite Hnil in Hperm.
    apply Permutation_nil_l in Hperm. done. }
  { apply Forall_fmap, Forall_forall. intros [h op] Hin. simpl.
    rewrite Forall_forall in Htab.
    destruct (Htab h (Hall _ _ Hin)) as (op' & Hop' & Ht).
    rewrite (Hheap _ _ Hin) in Hop'. by simplify_eq. }
  { apply Exists_exists in Hex as (h & Hin & op & Hop & Hmis).
    destruct (Hin_sorted h Hin) as (op' & Hin' & Hop').
    apply Exists_exists. exists op. split; [|done].
    apply list_elem_of_fmap. exists (h, op'). split; [simpl; congruence|done]. }
  destruct (Abort_total o status (grouped_world w sorted groups)) as [w' Ha].
  exists w', status.
  assert (Hf : FlushBuffersIfReady o w = Some w').
  { unfold FlushBuffersIfReady.
    rewrite bool_decide_eq_false_2 by (by intros ?).
    rewrite bool_decide_eq_false_2 by (by intros ?).
    rewrite bool_decide_eq_false_2 by done.
    simpl. rewrite Herr, Hm. simpl. fold sorted. rewrite Hmk. exact Ha. }
  split; [done|]. pose proof (Abort_state _ _ _ _ Ha) as Hst'.
  apply Abort_spec in Ha as [Hs _]. unfold skel, abort_skel in Hs. simpl in Hs.
  rewrite Hcb in Hs. simpl in Hs.
  assert (trace w' = trace w ++ [RunFlushCallback cb status
            (has_callback_threadpool (cfg w) && submit_ok o)]) as Htr by (by simplify_eq).
  assert (rpcs w' = rpcs w) as Hr by (by simplify_eq).
  assert (Hsent : sent_rpcs w' = sent_rpcs w).
  { unfold sent_rpcs. rewrite Htr, !omap_app. simpl. by rewrite app_nil_r. }
  split_and!; try done.
  - unfold callback_runs. rewrite Htr, !omap_app. done.
  - intros evs w'' Hr'. apply run_Aborted in Hr' as [_ ->]; done.
Qed.

(** C8, as the code has it: once the state is Aborted it never changes; once
    it is Complete it stays Complete under every call but [Abort], and
    [Abort] changes it to Aborted. *)
Theorem terminal_states cfg0 evs1 evs2 w1 w2 :
  run (new_World cfg0) evs1 = Some w1 -> run w1 evs2 = Some w2 ->
  (state_ (batcher w1) = kAborted -> state_ (batcher w2) = kAborted)
  ∧ (state_ (batcher w1) = kComplete -> abort_in evs2 = false ->
     state_ (batcher w2) = kComplete)
  ∧ (state_ (batcher w1) = kComplete -> abort_in evs2 = true ->
     state_ (batcher w2) = kAborted).
Proof.
  intros Hr1 Hr2.
  pose proof (Inv_run evs1 false false _ _ (Inv_new cfg0) Hr1) as HI.
  split_and!.
  - intros Hst. by apply (run_Aborted w1 evs2).
  - intros Hst Hab. rewrite (run_Complete _ _ _ _ _ HI Hst Hr2), Hab. done.
  - intros Hst Hab. rewrite (run_Complete _ _ _ _ _ HI Hst Hr2), Hab. done.
Qed.

End LifeCycle.

(** ** The theorems at concrete life cycles *)

Lemma run_after evs w :
  run (new_World cfg0) (at_oracle0 evs) = Some w -> after evs = w.
Proof. unfold after. by intros ->. Qed.

Lemma FlushBuffersIfReady_sorts_and_groups_witness :
  rpc_ops <$> sent_rpcs (readiness (mid_flush (after three_resolved)))
  = [[0%nat; 2%nat]; [1%nat]].
Proof.
  assert (Hf : FlushBuffersIfReady oracle0 (mid_flush (after three_resolved))
               = Some (readiness (mid_flush (after three_resolved))))
    by (vm_compute; reflexivity).
  destruct (FlushBuffersIfReady_sorts_and_groups oracle0
              (mid_flush (after three_resolved))
              (readiness (mid_flush (after three_resolved)))
              ltac:(vm_compute; reflexivity) ltac:(vm_compute; reflexivity)
              ltac:(vm_compute; discriminate) ltac:(vm_compute; reflexivity)
              ltac:(vm_compute; reflexivity) Hf ltac:(vm_compute; discriminate))
    as (sorted & groups & Hsorted & _ & _ & _ & _ & _ & _ & Hsent & _).
  vm_compute in Hsorted. injection Hsorted as <-.
  vm_compute. reflexivity.
Defined.

Lemma FlushBuffersIfReady_version_mismatch_witness :
  ∃ w' status,
    FlushBuffersIfReady oracle0 (mid_flush (after stale_version)) = Some w'
    ∧ callback_runs w' = [status]
    ∧ ClientError status = kTablePartitionListVersionDoesNotMatch
    ∧ sent_rpcs w' = [].
Proof.
  destruct (FlushBuffersIfReady_version_mismatch oracle0
              (mid_flush (after stale_version)) 7%nat
              ltac:(vm_compute; reflexivity) ltac:(vm_compute; reflexivity)
              ltac:(vm_compute; reflexivity) ltac:(vm_compute; reflexivity))
    as (w' & status & Hf & _ & Hruns & _ & Hce & Hsent & _).
  - vm_compute. repeat constructor. eexists. split; [reflexivity|]. eexists. reflexivity.
  - vm_compute. apply Exists_cons_hd. eexists. split; [reflexivity|].
    exists 3%N, tabletA. split_and!; [reflexivity..|]. vm_compute. discriminate.
  - exists w', status. split_and!; [exact Hf|exact Hruns|exact Hce|exact Hsent].
Defined.

(** C5, as the claim states it, fails: with a failure recorded, a batch that
    holds an operation with a stale partition list version is aborted with
    AbortedBatchDueToFailedTabletLookup. *)
Lemma FlushBuffersIfReady_version_mismatch_counterexample :
  Exists (λ h, ∃ op, heap (after failed_and_stale) !! h = Some op ∧ version_mismatch op)
    (ops_queue_ (batcher (mid_flush (after failed_and_stale))))
  ∧ ∃ w', FlushBuffersIfReady oracle0 (mid_flush (after failed_and_stale)) = Some w'
          ∧ state_ (batcher w') = kAborted
          ∧ callback_runs w' = [tablet_resolution_failed]
          ∧ ClientError tablet_resolution_failed
            ≠ kTablePartitionListVersionDoesNotMatch.
Proof.
  split.
  - vm_compute. apply Exists_cons_hd. eexists. split; [reflexivity|].
    exists 3%N, tabletA. split_and!; [reflexivity..|]. vm_compute. discriminate.
  - exists (readiness (mid_flush (after failed_and_stale))).
    split_and!; try (vm_compute; reflexivity). vm_compute. discriminate.
Qed.

Lemma terminal_states_witness :
  state_ (batcher (after (full_life_cycle ++ [EvAdd (write_op 4 "b")]))) = kAborted.
Proof.
  assert (Hr1 : run (new_World cfg0) (at_oracle0 full_life_cycle)
                = Some (after full_life_cycle)) by (vm_compute; reflexivity).
  assert (Hr2 : run (after full_life_cycle) (at_oracle0 [EvAdd (write_op 4 "b")])
                = Some (after (full_life_cycle ++ [EvAdd (write_op 4 "b")])))
    by (vm_compute; reflexivity).
  destruct (terminal_states cfg0 _ _ _ _ Hr1 Hr2) as (Hab & _).
  apply Hab. vm_compute. reflexivity.
Defined.

(** C8, as the claim states it, fails: [Abort] after completion changes the
    state from Complete to Aborted. *)
Lemma terminal_states_counterexample :
  state_ (batcher flushed_empty) = kComplete
  ∧ ∃ w', step flushed_empty (oracle0, EvAbort (STATUS Aborted "late")) = Some w'
          ∧ state_ (batcher w') = kAborted.
Proof.
  split; [vm_compute; reflexivity|].
  eexists. split; vm_compute; reflexivity.
Qed.

(** * Further properties *)

(** ** Abort *)

Section AbortProps.
Context `{Collaborators}.

Lemma CombineErrorUnlocked_errors h s w w' :
  CombineErrorUnlocked h s w = Some w' ->
  ∃ op, heap w !! h = Some op
        ∧ error_collector_ (batcher w') = error_collector_ (batcher w) ++ [(yb_op op, s)].
Proof.
  unfold CombineErrorUnlocked. intros Hc.
  destruct (heap w !! h) as [op|] eqn:Hh; [|done].
  exists op. split; [done|]. simplify_eq. simpl.
  repeat case_match; done.
Qed.

Lemma MarkInFlightOpFailedUnlocked_errors h s w w' :
  MarkInFlightOpFailedUnlocked h s w = Some w' ->
  ∃ op, heap w !! h = Some op
        ∧ error_collector_ (batcher w') = error_collector_ (batcher w) ++ [(yb_op op, s)].
Proof.
  unfold MarkInFlightOpFailedUnlocked. intros Hm.
  case_bool_decide; [|done]. simpl in Hm.
  destruct (heap w !! h) as [op|] eqn:Hh; [|done].
  apply CombineErrorUnlocked_errors in Hm as (op' & Hh' & ->).
  exists op. split; [done|].
  case_bool_decide; simpl in *; simplify_eq; done.
Qed.

Lemma for_each_Mark_exact status l w w' :
  for_each (λ h, MarkInFlightOpFailedUnlocked h status) l w = Some w' ->
  skel w' = skel w
  ∧ ops_ (batcher w') = ops_ (batcher w) ∖ list_to_set l
  ∧ error_collector_ (batcher w') = error_collector_ (batcher w) ++ errors_of w status l.
Proof.
  revert w. induction l as [|h l IH]; simpl; intros w Hf.
  - simplify_eq. split_and!; [done|set_solver|by rewrite app_nil_r].
  - destruct (MarkInFlightOpFailedUnlocked h status w) as [w1|] eqn:Hm; [|done].
    pose proof (MarkInFlightOpFailedUnlocked_spec _ _ _ _ Hm) as (Hs & _ & Ho & _).
    pose proof (MarkInFlightOpFailedUnlocked_errors _ _ _ _ Hm) as (op & Hh & He).
    destruct (IH _ Hf) as (Hs' & Ho' & He').
    pose proof (skel_eq _ _ Hs) as (_ & _ & _ & _ & _ & Hheap & _).
    split_and!.
    + congruence.
    + rewrite Ho', Ho. set_solver.
    + rewrite He', He, <- app_assoc. f_equal. unfold errors_of. simpl.
      rewrite Hh. simpl. by rewrite Hheap.
Qed.

Lemma filter_none {A} (P : A -> Prop) `{∀ x, Decision (P x)} (l : list A) :
  Forall (λ x, ¬ P x) l -> filter P l = [].
Proof.
  induction 1 as [|x l Hx _ IH]; [done|].
  by rewrite filter_cons_False.
Qed.

Lemma set_state_same (w : World) s :
  state_ (batcher w) = s -> upd_batcher (set_state_ s) w = w.
Proof. destruct w as [[] ?]. simpl. by intros ->. Qed.

Lemma errors_of_length w status l :
  (∀ h, h ∈ l -> is_Some (heap w !! h)) -> length (errors_of w status l) = length l.
Proof.
  induction l as [|h l IH]; intros Hl; [done|].
  unfold errors_of in *. simpl.
  destruct (Hl h) as [op Hop]; [left|]. rewrite Hop. simpl.
  f_equal. apply IH. intros h' Hh'. apply Hl. by right.
Qed.

Lemma place_lookup (l : list Handle) i h : NoDup l -> l !! i = Some h -> place l h = i.
Proof.
  intros Hnd Hi. unfold place.
  destruct (list_find_elem_of (λ x, x = h) l h) as [[i' y] Hf];
    [by eapply list_elem_of_lookup_2|done|].
  rewrite Hf. apply list_find_Some in Hf as (Hi' & -> & _).
  by eapply NoDup_lookup.
Qed.

Lemma sort_insert_ranked (rank : Handle -> nat) x l :
  StronglySorted (λ a b, rank a <= rank b)%nat l ->
  StronglySorted (λ a b, rank a <= rank b)%nat
    (sort_insert (λ a b, bool_decide (rank a < rank b)%nat) x l).
Proof.
  induction 1 as [|y l Hs IH Hall]; simpl.
  - repeat constructor.
  - case_bool_decide as Hlt.
    + constructor; [by constructor|]. constructor; [lia|].
      eapply Forall_impl; [exact Hall|]. intros z Hz. simpl in *. lia.
    + constructor; [done|].
      rewrite sort_insert_perm. constructor; [lia|done].
Qed.

Lemma std_sort_ranked (rank : Handle -> nat) l :
  StronglySorted (λ a b, rank a <= rank b)%nat
    (std_sort (λ a b, bool_decide (rank a < rank b)%nat) l).
Proof.
  induction l as [|x l IH]; simpl; [constructor|]. by apply sort_insert_ranked.
Qed.

Lemma place_sorted (l : list Handle) :
  NoDup l -> StronglySorted (λ a b, place l a <= place l b)%nat l.
Proof.
  intros Hnd.
  assert (Hgen : ∀ k, (∀ i a, k !! i = Some a -> ∃ j, l !! j = Some a) ->
            (∀ i j a b, (i < j)%nat -> k !! i = Some a -> k !! j = Some b ->
                        place l a <= place l b)%nat ->
            StronglySorted (λ a b, place l a <= place l b)%nat k).
  { induction k as [|x k IH]; intros Hin Hord; constructor.
    - apply IH.
      + intros i a Ha. by apply (Hin (S i)).
      + intros i j a b Hij Ha Hb. apply (Hord (S i) (S j)); [lia|done..].
    - apply Forall_forall. intros y Hy. apply list_elem_of_lookup in Hy as [j Hj].
      apply (Hord 0%nat (S j)); [lia|done..]. }
  apply Hgen; [eauto|].
  intros i j a b Hij Ha Hb.
  rewrite (place_lookup l i a), (place_lookup l j b) by done. lia.
Qed.

(** Every order of the operations of [ops_] is the order in which some
    oracle has the loop meet them. *)
Lemma ops_in_order_any o w l :
  l ≡ₚ elements (ops_ (batcher w)) -> ops_rank o = place l -> ops_in_order o w = l.
Proof.
  intros Hperm Hrank.
  assert (Hnd : NoDup l) by (rewrite Hperm; apply NoDup_elements).
  unfold ops_in_order. rewrite Hrank.
  apply (StronglySorted_unique_strong (λ a b, place l a <= place l b)%nat).
  - intros x1 x2 Hx1 Hx2 H12 H21.
    rewrite std_sort_perm, <- Hperm in Hx1.
    apply list_elem_of_lookup in Hx1 as [i1 Hi1].
    apply list_elem_of_lookup in Hx2 as [i2 Hi2].
    rewrite (place_lookup l i1 x1), (place_lookup l i2 x2) in * by done.
    assert (i1 = i2) by lia. congruence.
  - apply std_sort_ranked.
  - by apply place_sorted.
  - by rewrite std_sort_perm.
Qed.

Lemma Abort_exact o status w w' :
  Abort o status w = Some w' ->
  skel w' = skel (abort_skel o status w)
  ∧ ops_ (batcher w') = ops_ (batcher w) ∖ list_to_set (buffered_ops o w)
  ∧ error_collector_ (batcher w')
    = error_collector_ (batcher w) ++ errors_of w status (buffered_ops o w).
Proof.
  intros Ha. pose proof (Abort_spec _ _ _ _ Ha) as [Hs _]. split; [done|].
  unfold Abort in Ha.
  change (filter _ (ops_in_order o (upd_batcher (set_state_ kAborted) w)))
    with (buffered_ops o w) in Ha.
  destruct (for_each _ (buffered_ops o w) _) as [w1|] eqn:Hf; [|done].
  apply for_each_Mark_exact in Hf as (_ & Ho & He). simpl in Ho, He.
  assert (ops_ (batcher w') = ops_ (batcher w1)
          ∧ error_collector_ (batcher w') = error_collector_ (batcher w1)) as [-> ->].
  { case_bool_decide; [|by simplify_eq].
    unfold RunCallback in Ha. destruct (flush_callback_ (batcher w1)); by simplify_eq. }
  done.
Qed.

(** X1: [Abort] always returns. It leaves the state Aborted, takes out of
    [ops_] exactly the operations that are buffered and records one error
    with the given status for each of them, in the order in which its loop
    over [ops_] meets them; the heap and the queue stay as they are; the
    callback is run with the status if one is stored, and nothing is sent.
    The order of the loop is not fixed: the operations failed are those of
    [ops_] that are buffered, each once, and every order of [ops_] is the
    order of the loop under some oracle. *)
Theorem Abort_fails_buffered_ops o status w :
  (∃ w', Abort o status w = Some w'
         ∧ state_ (batcher w') = kAborted
         ∧ ops_ (batcher w') = ops_ (batcher w) ∖ list_to_set (buffered_ops o w)
         ∧ error_collector_ (batcher w')
           = error_collector_ (batcher w) ++ errors_of w status (buffered_ops o w)
         ∧ length (errors_of w status (buffered_ops o w)) = length (buffered_ops o w)
         ∧ heap w' = heap w
         ∧ ops_queue_ (batcher w') = ops_queue_ (batcher w)
         ∧ flush_callback_ (batcher w') = None
         ∧ callback_runs w'
           = callback_runs w
             ++ match flush_callback_ (batcher w) with Some _ => [status] | None => [] end
         ∧ sent_rpcs w' = sent_rpcs w)
  ∧ NoDup (buffered_ops o w)
  ∧ (∀ h, h ∈ buffered_ops o w
          ↔ h ∈ ops_ (batcher w)
            ∧ state <$> heap w !! h = Some kBufferedToTabletServer)
  ∧ (∀ l, l ≡ₚ elements (ops_ (batcher w)) ->
          ∃ o', ops_in_order o' w = l
                ∧ buffered_ops o' w
                  = filter (λ h, state <$> heap w !! h = Some kBufferedToTabletServer) l).
Proof.
  split_and!.
  - destruct (Abort_total o status w) as [w' Ha]. exists w'.
    pose proof (Abort_exact _ _ _ _ Ha) as (Hs & Ho & He).
    pose proof (Abort_facts _ _ _ _ Ha) as (Hst & Hcb & Hruns & Hsent & _).
    apply skel_eq in Hs as (_ & Hq & _ & _ & _ & Hheap & _).
    split_and!; try done.
    + apply errors_of_length. intros h Hh. unfold buffered_ops in Hh.
      apply list_elem_of_filter in Hh as [Hh _].
      destruct (heap w !! h); [eauto|done].
    + rewrite Hheap. unfold abort_skel. by destruct (flush_callback_ (batcher w)).
    + rewrite Hq. unfold abort_skel. by destruct (flush_callback_ (batcher w)).
  - apply NoDup_filter, NoDup_ops_in_order.
  - intros h. unfold buffered_ops. rewrite list_elem_of_filter, elem_of_ops_in_order.
    tauto.
  - intros l Hperm.
    set (o' := mkOracle (session_alive o) (submit_ok o) (random_act o) (prepare_ready o)
                 (prepare_need_metadata o) (place l)).
    assert (Ho' : ops_in_order o' w = l) by (by apply ops_in_order_any).
    exists o'. split; [done|]. unfold buffered_ops. by rewrite Ho'.
Qed.

(** X2: a second [Abort], whatever its status, changes nothing: no error is
    recorded and the callback is not run again. *)
Theorem Abort_twice o1 o2 status1 status2 w :
  ∃ w1, Abort o1 status1 w = Some w1 ∧ Abort o2 status2 w1 = Some w1.
Proof.
  destruct (Abort_total o1 status1 w) as [w1 Ha]. exists w1. split; [done|].
  pose proof (Abort_exact _ _ _ _ Ha) as (Hs & Ho & _).
  pose proof (Abort_facts _ _ _ _ Ha) as (Hst & Hcb & _).
  apply skel_eq in Hs as (_ & _ & _ & _ & _ & Hheap & _).
  assert (Hheap' : heap w1 = heap w).
  { rewrite Hheap. unfold abort_skel. by destruct (flush_callback_ (batcher w)). }
  unfold Abort. rewrite (set_state_same w1 kAborted Hst).
  rewrite filter_none.
  - simpl. rewrite Hcb. by rewrite bool_decide_eq_false_2 by (by intros [? ?]).
  - apply Forall_forall. intros h Hh Hb.
    apply elem_of_ops_in_order in Hh. rewrite Ho in Hh.
    apply elem_of_difference in Hh as [Hin Hnot]. apply Hnot.
    apply elem_of_list_to_set. unfold buffered_ops.
    apply list_elem_of_filter. split; [by rewrite <- Hheap'|].
    by apply elem_of_ops_in_order.
Qed.

End AbortProps.

(** ** The combined error *)

Section CombineProps.
Context `{Collaborators}.

Lemma CombineErrorUnlocked_combined h s w w' :
  CombineErrorUnlocked h s w = Some w' ->
  config (batcher w') = config (batcher w)
  ∧ ∃ op, heap w !! h = Some op
    ∧ combined_error_ (batcher w') =
      let c := combined_error_ (batcher w) in
      if FLAGS_TEST_combine_batcher_errors (cfg w) then
        if ok c then CloneAndPrepend s (InFlightOpToString op)
        else if negb (IsCombined c) && bool_decide (code c ≠ code s)
             then STATUS Combined "Multiple failures" else c
      else c.
Proof.
  unfold CombineErrorUnlocked, cfg. intros Hc.
  destruct (heap w !! h) as [op|] eqn:Hh; [|done]. simplify_eq. simpl.
  split; [by repeat case_match|]. exists op. split; [done|].
  by repeat case_match.
Qed.

Lemma combined_stays_Combined (errs : list (Handle * Status)) w w' :
  for_each (λ e, CombineErrorUnlocked e.1 e.2) errs w = Some w' ->
  code (combined_error_ (batcher w)) = Combined ->
  code (combined_error_ (batcher w')) = Combined.
Proof.
  revert w. induction errs as [|[h s] errs IH]; simpl; intros w Hf Hc; [by simplify_eq|].
  destruct (CombineErrorUnlocked h s w) as [w1|] eqn:Hc1; [|done].
  apply (IH w1 Hf).
  apply CombineErrorUnlocked_combined in Hc1 as (_ & op & _ & ->). simpl.
  unfold ok, IsCombined. rewrite Hc.
  destruct (FLAGS_TEST_combine_batcher_errors (cfg w)); simpl; done.
Qed.

Lemma combined_tail (errs : list (Handle * Status)) w w' :
  for_each (λ e, CombineErrorUnlocked e.1 e.2) errs w = Some w' ->
  FLAGS_TEST_combine_batcher_errors (cfg w) = true ->
  ok (combined_error_ (batcher w)) = false ->
  let c := code (combined_error_ (batcher w)) in
  (Forall (λ e, code e.2 = c) errs -> code (combined_error_ (batcher w')) = c)
  ∧ (Exists (λ e, code e.2 ≠ c) errs -> code (combined_error_ (batcher w')) = Combined).
Proof.
  revert w. induction errs as [|[h s] errs IH]; simpl; intros w Hf Hflag Hok.
  { simplify_eq. split; [done|]. intros He. by apply Exists_nil in He. }
  destruct (CombineErrorUnlocked h s w) as [w1|] eqn:Hc1; [|done].
  pose proof (CombineErrorUnlocked_combined _ _ _ _ Hc1) as (Hcfg & op & _ & Hc).
  simpl in Hc. rewrite Hflag, Hok in Hc.
  assert (Hflag1 : FLAGS_TEST_combine_batcher_errors (cfg w1) = true).
  { unfold cfg in *. by rewrite Hcfg. }
  destruct (negb (IsCombined (combined_error_ (batcher w)))
            && bool_decide (code (combined_error_ (batcher w)) ≠ code s)) eqn:Hd.
  - (* another code: the combined error becomes Combined *)
    apply andb_true_iff in Hd as [_ Hne]. apply bool_decide_eq_true in Hne.
    assert (code (combined_error_ (batcher w')) = Combined) as Hfin.
    { apply (combined_stays_Combined errs w1); [done|by rewrite Hc]. }
    split; [|done]. intros Hall. apply Forall_cons in Hall as [Hs _]. simpl in Hs. congruence.
  - rewrite <- Hc in *.
    destruct (IH w1 Hf Hflag1 Hok) as [IH1 IH2].
    split.
    + intros Hall. apply Forall_cons in Hall as [_ Hall]. auto.
    + intros Hex. apply Exists_cons in Hex as [Hs|Hex]; [|auto].
      simpl in Hs. apply andb_false_iff in Hd as [Hd|Hd].
      * apply negb_false_iff in Hd. unfold IsCombined in Hd. apply bool_decide_eq_true in Hd.
        by apply (combined_stays_Combined errs w1).
      * apply bool_decide_eq_false in Hd. destruct Hd. congruence.
Qed.

(** X3: the combined error after a sequence of calls of
    [CombineErrorUnlocked] that starts with no error combined. Without the
    test flag it stays as it is. With the flag, when the first status is not
    OK, it has the code of the first status if every later status has that
    code, and the code Combined if one has another code. *)
Theorem combined_error_code (errs : list (Handle * Status)) w w' :
  for_each (λ e, CombineErrorUnlocked e.1 e.2) errs w = Some w' ->
  ok (combined_error_ (batcher w)) = true ->
  (FLAGS_TEST_combine_batcher_errors (cfg w) = false ->
   combined_error_ (batcher w') = combined_error_ (batcher w))
  ∧ (FLAGS_TEST_combine_batcher_errors (cfg w) = true ->
     ∀ h s rest, errs = (h, s) :: rest -> ok s = false ->
       (Forall (λ e, code e.2 = code s) rest -> code (combined_error_ (batcher w')) = code s)
       ∧ (Exists (λ e, code e.2 ≠ code s) rest ->
          code (combined_error_ (batcher w')) = Combined)).
Proof.
  intros Hf Hok. split.
  - intros Hflag. revert w Hf Hok Hflag.
    induction errs as [|[h s] errs IH]; simpl; intros w Hf Hok Hflag; [by simplify_eq|].
    destruct (CombineErrorUnlocked h s w) as [w1|] eqn:Hc1; [|done].
    pose proof (CombineErrorUnlocked_combined _ _ _ _ Hc1) as (Hcfg & op & _ & Hc).
    simpl in Hc. rewrite Hflag in Hc. rewrite <- Hc. apply IH; [done|by rewrite Hc|].
    unfold cfg in *. by rewrite Hcfg.
  - intros Hflag h s rest -> Hs. simpl in Hf.
    destruct (CombineErrorUnlocked h s w) as [w1|] eqn:Hc1; [|done].
    pose proof (CombineErrorUnlocked_combined _ _ _ _ Hc1) as (Hcfg & op & _ & Hc).
    simpl in Hc. rewrite Hflag, Hok in Hc.
    assert (Hcode : code (combined_error_ (batcher w1)) = code s) by (by rewrite Hc).
    assert (Hflag1 : FLAGS_TEST_combine_batcher_errors (cfg w1) = true).
    { unfold cfg in *. by rewrite Hcfg. }
    assert (Hok1 : ok (combined_error_ (batcher w1)) = false).
    { unfold ok in *. by rewrite Hcode. }
    pose proof (combined_tail rest w1 w' Hf Hflag1 Hok1) as Ht. simpl in Ht.
    by rewrite Hcode in Ht.
Qed.

End CombineProps.

(** ** Responses *)

Section ResponseProps.
Context `{Collaborators}.

Lemma for_each_Combine_errors status l w w' :
  for_each (λ h, CombineErrorUnlocked h status) l w = Some w' ->
  skel w' = skel w
  ∧ error_collector_ (batcher w') = error_collector_ (batcher w) ++ errors_of w status l
  ∧ length (errors_of w status l) = length l.
Proof.
  revert w. induction l as [|h l IH]; simpl; intros w Hf.
  - simplify_eq. by rewrite app_nil_r.
  - destruct (CombineErrorUnlocked h status w) as [w1|] eqn:Hc; [|done].
    pose proof (CombineErrorUnlocked_spec _ _ _ _ Hc) as (Hs & _).
    pose proof (CombineErrorUnlocked_errors _ _ _ _ Hc) as (op & Hh & He).
    destruct (IH _ Hf) as (Hs' & He' & Hlen).
    pose proof (skel_eq _ _ Hs) as (_ & _ & _ & _ & _ & Hheap & _).
    unfold errors_of in *. simpl. rewrite Hh. simpl. rewrite Hheap in *.
    split_and!; [congruence| |by f_equal].
    rewrite He', He, <- app_assoc. done.
Qed.

Lemma ProcessRpcStatus_errors rpc s w w' :
  ProcessRpcStatus rpc s w = Some w' ->
  skel w' = skel w
  ∧ error_collector_ (batcher w') = error_collector_ (batcher w) ++ rpc_errors w rpc s.
Proof.
  unfold ProcessRpcStatus, rpc_errors. intros Hp.
  case_bool_decide as Hst.
  - simplify_eq. rewrite bool_decide_eq_false_2 by done. simpl. by rewrite app_nil_r.
  - rewrite bool_decide_eq_true_2 by done. simpl.
    destruct (ok s); simpl in *.
    + simplify_eq. by rewrite app_nil_r.
    + by apply for_each_Combine_errors in Hp as (? & ? & _).
Qed.

Lemma row_errors_loop rpc (errs : list (nat * Status)) w w' :
  for_each
    (λ (err_pb : nat * Status) w,
       if bool_decide (length (rpc_ops rpc) <= err_pb.1)%nat then Some w
       else match rpc_ops rpc !! err_pb.1 with
            | None => None
            | Some h => CombineErrorUnlocked h err_pb.2 w
            end) errs w = Some w' ->
  skel w' = skel w
  ∧ error_collector_ (batcher w')
    = error_collector_ (batcher w) ++ row_errors w rpc (mkWriteResponse None errs)
  ∧ length (row_errors w rpc (mkWriteResponse None errs))
    = length (filter (λ e, e.1 < length (rpc_ops rpc))%nat errs).
Proof.
  revert w. induction errs as [|[i st] errs IH]; simpl; intros w Hf.
  - simplify_eq. by rewrite app_nil_r.
  - unfold row_errors in *. simpl in *.
    destruct (rpc_ops rpc !! i) as [h|] eqn:Hh; simpl.
    + pose proof (lookup_lt_Some _ _ _ Hh) as Hlt.
      rewrite bool_decide_eq_false_2 in Hf by lia.
      destruct (CombineErrorUnlocked h st w) as [w1|] eqn:Hc; [|done].
      pose proof (CombineErrorUnlocked_spec _ _ _ _ Hc) as (Hs & _).
      pose proof (CombineErrorUnlocked_errors _ _ _ _ Hc) as (op & Hop & He).
      destruct (IH _ Hf) as (Hs' & He' & Hlen).
      pose proof (skel_eq _ _ Hs) as (_ & _ & _ & _ & _ & Hheap & _).
      unfold Handle in *. rewrite Hop. simpl. rewrite Hheap in *.
      rewrite filter_cons_True by (simpl; lia). simpl.
      split_and!; [congruence| |by f_equal].
      rewrite He', He, <- app_assoc. done.
    + pose proof (lookup_ge_None_1 _ _ Hh) as Hge.
      rewrite bool_decide_eq_true_2 in Hf by lia.
      destruct (IH _ Hf) as (Hs & He & Hlen).
      rewrite filter_cons_False by (simpl; lia). done.
Qed.


(** X7: what [ProcessWriteResponse] records. If the RPC failed and the
    state is TransactionReady, every operation of the RPC gets the status of
    the RPC as error; in another state the status of the RPC is dropped. A
    per-row error is recorded for the operation at its row index, in every
    state; those with an index past the operations of the RPC are skipped.
    The propagated hybrid time is passed on only when the RPC succeeded. *)
Theorem ProcessWriteResponse_records rpc s resp w w' :
  ProcessWriteResponse rpc s resp w = Some w' ->
  error_collector_ (batcher w')
  = error_collector_ (batcher w) ++ rpc_errors w rpc s ++ row_errors w rpc resp
  ∧ length (row_errors w rpc resp)
    = length (filter (λ e, e.1 < length (rpc_ops rpc))%nat (per_row_errors resp))
  ∧ (state_ (batcher w) = kTransactionReady -> ok s = false ->
     length (rpc_errors w rpc s) = length (rpc_ops rpc))
  ∧ (state_ (batcher w) ≠ kTransactionReady -> rpc_errors w rpc s = [])
  ∧ ops_ (batcher w') = ops_ (batcher w)
  ∧ state_ (batcher w') = state_ (batcher w)
  ∧ trace w'
    = trace w ++ match propagated_hybrid_time resp with
                 | Some ht => if ok s then [UpdateLatestObservedHybridTime ht] else []
                 | None => []
                 end.
Proof.
  unfold ProcessWriteResponse. intros Hp.
  destruct (ProcessRpcStatus rpc s w) as [w1|] eqn:Hp1; [|done].
  pose proof (ProcessRpcStatus_view _ _ _ _ Hp1) as [_ Hops1].
  pose proof (ProcessRpcStatus_errors _ _ _ _ Hp1) as [Hs1 He1].
  apply skel_eq in Hs1 as (Hst1 & _ & _ & _ & _ & Hheap1 & _ & _ & _ & Htr1).
  set (w2 := match propagated_hybrid_time resp with
             | Some ht => if ok s then emit (UpdateLatestObservedHybridTime ht) w1 else w1
             | None => w1
             end) in Hp.
  assert (batcher w2 = batcher w1 ∧ heap w2 = heap w1
          ∧ trace w2 = trace w1 ++ match propagated_hybrid_time resp with
                                   | Some ht =>
                                       if ok s then [UpdateLatestObservedHybridTime ht] else []
                                   | None => []
                                   end) as (Hb2 & Hheap2 & Htr2).
  { subst w2. destruct (propagated_hybrid_time resp); [destruct (ok s)|]; simpl;
      by rewrite ?app_nil_r. }
  pose proof (row_errors_loop rpc (per_row_errors resp) w2 w' Hp) as (Hs & He & Hlen).
  assert (row_errors w2 rpc (mkWriteResponse None (per_row_errors resp))
          = row_errors w rpc resp) as Hrow.
  { unfold row_errors. simpl. by rewrite Hheap2, Hheap1. }
  rewrite Hrow in He, Hlen.
  apply skel_eq in Hs as (Hst & _ & _ & _ & _ & _ & _ & _ & _ & Htr).
  assert (Hops : ops_ (batcher w') = ops_ (batcher w2)).
  { refine (for_each_inv (λ v, ops_ (batcher v) = ops_ (batcher w2)) _ _ _ _ _ Hp eq_refl).
    intros e v v' Hbody Hv. simpl in Hbody. case_bool_decide; [by simplify_eq|].
    destruct (rpc_ops rpc !! e.1); [|done].
    apply CombineErrorUnlocked_spec in Hbody as (_ & -> & _). done. }
  split_and!.
  - rewrite He, Hb2, He1, <- app_assoc. done.
  - done.
  - intros Hready Hnok. unfold rpc_errors.
    rewrite bool_decide_eq_true_2, Hnok by done. simpl.
    unfold ProcessRpcStatus in Hp1.
    rewrite bool_decide_eq_false_2, Hnok in Hp1 by (by intros ?). simpl in Hp1.
    by apply for_each_Combine_errors in Hp1 as (_ & _ & ?).
  - intros Hst'. unfold rpc_errors. by rewrite bool_decide_eq_false_2.
  - rewrite Hops, Hb2. done.
  - rewrite Hst, Hb2. done.
  - rewrite Htr, Htr2, Htr1. done.
Qed.

Lemma remove_loop_checks (ops : list Handle) w :
  is_Some (for_each
             (λ h w, if bool_decide (h ∈ ops_ (batcher w))
                     then Some (upd_batcher (set_ops_ (ops_ (batcher w) ∖ {[h]})) w)
                     else None) ops w)
  ↔ NoDup ops ∧ ∀ h, h ∈ ops -> h ∈ ops_ (batcher w).
Proof.
  revert w. induction ops as [|h l IH]; simpl; intros w.
  - split; [|by eauto]. intros _. split; [constructor|]. intros h Hh. by apply elem_of_nil in Hh.
  - case_bool_decide as Hin.
    + rewrite IH. simpl. rewrite NoDup_cons. split.
      * intros [Hnd Hall]. split_and!; [|done|].
        -- intros Hh. apply Hall in Hh. set_solver.
        -- intros h' Hh'. apply elem_of_cons in Hh' as [->|Hh']; [done|].
           apply Hall in Hh'. set_solver.
      * intros [[Hnot Hnd] Hall]. split; [done|]. intros h' Hh'.
        assert (h' ≠ h) by (intros ->; done).
        assert (h' ∈ ops_ (batcher w)) by (apply Hall; by right). set_solver.
    + split; [by intros [? ?]|]. intros [_ Hall]. destruct Hin. apply Hall. by left.
Qed.

Lemma remove_loop_frame (ops : list Handle) w w' :
  for_each
    (λ h w, if bool_decide (h ∈ ops_ (batcher w))
            then Some (upd_batcher (set_ops_ (ops_ (batcher w) ∖ {[h]})) w)
            else None) ops w = Some w' ->
  but_ops w' = but_ops w ∧ trace w' = trace w.
Proof.
  revert w. induction ops as [|h l IH]; simpl; intros w Hf; [by simplify_eq|].
  case_bool_decide; [|done]. by apply IH in Hf as [-> ->].
Qed.

Lemma RemoveInFlightOpsAfterFlushing_pre ops status w :
  ∃ w2, batcher w2 = batcher w ∧ but_ops w2 = but_ops w
        ∧ trace w2 = trace w ++ flushed_effects w ops status
        ∧ RemoveInFlightOpsAfterFlushing ops status w
          = for_each
              (λ h w, if bool_decide (h ∈ ops_ (batcher w))
                      then Some (upd_batcher (set_ops_ (ops_ (batcher w) ∖ {[h]})) w)
                      else None) ops w2.
Proof.
  unfold RemoveInFlightOpsAfterFlushing.
  set (w1 := if has_transaction (cfg w) then _ else w).
  set (w2 := if ok status && has_read_point (cfg w1) then _ else w1).
  exists w2. split_and!; [| | |done].
  all: assert (batcher w1 = batcher w ∧ but_ops w1 = but_ops w
            ∧ trace w1 = trace w
                ++ (if has_transaction (cfg w)
                       && negb (negb (ok status) && ShouldSessionRetryError status)
                    then [Flushed ops status] else [])) as (Hb1 & Hbut1 & Htr1)
    by (subst w1; destruct (has_transaction (cfg w)); simpl; [|by rewrite app_nil_r];
        destruct (negb (negb (ok status) && ShouldSessionRetryError status)); simpl;
        by rewrite ?app_nil_r).
  all: subst w2; unfold flushed_effects, cfg in *; rewrite Hb1;
    destruct (ok status && has_read_point (config (batcher w))); simpl;
    rewrite ?Htr1, <- ?app_assoc, ?app_nil_r; done.
Qed.

Lemma RemoveInFlightOpsAfterFlushing_frame ops status w w' :
  RemoveInFlightOpsAfterFlushing ops status w = Some w' ->
  but_ops w' = but_ops w ∧ trace w' = trace w ++ flushed_effects w ops status.
Proof.
  destruct (RemoveInFlightOpsAfterFlushing_pre ops status w) as (w2 & _ & Hbut & Htr & ->).
  intros Hf. apply remove_loop_frame in Hf as [-> ->]. done.
Qed.

(** X8: [RemoveInFlightOpsAfterFlushing] passes its checks exactly when the
    operations are in [ops_] and none is given twice; it then takes them out
    of [ops_] and touches nothing else; the transaction is told unless the
    status is a failure the session retries, and the clock of the read point
    is updated only for a status OK. *)
Theorem RemoveInFlightOpsAfterFlushing_checks ops status w :
  (is_Some (RemoveInFlightOpsAfterFlushing ops status w)
   ↔ NoDup ops ∧ ∀ h, h ∈ ops -> h ∈ ops_ (batcher w))
  ∧ ∀ w', RemoveInFlightOpsAfterFlushing ops status w = Some w' ->
          ops_ (batcher w') = ops_ (batcher w) ∖ list_to_set ops
          ∧ but_ops w' = but_ops w
          ∧ trace w' = trace w ++ flushed_effects w ops status.
Proof.
  split.
  - destruct (RemoveInFlightOpsAfterFlushing_pre ops status w) as (w2 & Hb & _ & _ & ->).
    rewrite remove_loop_checks, Hb. done.
  - intros w' Hf.
    pose proof (RemoveInFlightOpsAfterFlushing_view _ _ _ _ Hf) as (_ & Hops & _).
    apply RemoveInFlightOpsAfterFlushing_frame in Hf as [Hbut Htr]. done.
Qed.

End ResponseProps.

(** ** The RPCs of a dispatch *)

Section DispatchProps.
Context `{Collaborators}.

Lemma create_rpcs_each w need gs new_rpcs :
  create_rpcs w need gs = Some new_rpcs ->
  length new_rpcs = length gs
  ∧ ∀ i rpc, new_rpcs !! i = Some rpc ->
      need_consistent_read rpc = need
      ∧ allow_local_calls_in_curr_thread rpc
        = allow_local_calls_in_curr_thread_ (cfg w) && bool_decide (S i = length gs)
      ∧ ∃ g h first,
          gs !! i = Some g ∧ ops_queue_ (batcher w) !! g_begin g = Some h
          ∧ heap w !! h = Some first
          ∧ g_begin g ≠ g_end g
          ∧ rpc_tablet rpc = tablet_get first
          ∧ rpc_kind rpc = rpc_kind_of (group (yb_op first))
          ∧ rpc_ops rpc = group_slice (ops_queue_ (batcher w)) g
          ∧ rpc_need_metadata rpc = need_metadata g.
Proof.
  revert new_rpcs. induction gs as [|g gs IH]; simpl; intros new_rpcs Hc.
  { simplify_eq. split; [done|]. intros i rpc Hi. by rewrite lookup_nil in Hi. }
  destruct (CreateRpc w g _ need) as [rpc0|] eqn:Hc0; [|done].
  destruct (create_rpcs w need gs) as [rest|] eqn:Hrest; [|done].
  simplify_eq. destruct (IH _ eq_refl) as [Hlen IHi]. split; [simpl; by f_equal|].
  intros [|i] rpc Hi; simpl in Hi.
  - simplify_eq. unfold CreateRpc in Hc0.
    destruct (ops_queue_ (batcher w) !! g_begin g) as [h|] eqn:Hh; [|done].
    destruct (heap w !! h) as [first|] eqn:Hfirst; [|done].
    case_bool_decide as Hne; [done|]. simplify_eq. simpl.
    split_and!; [done| |].
    + f_equal. apply bool_decide_ext. destruct gs; simpl; split; intros; try done; lia.
    + exists g, h, first. split_and!; done.
  - destruct (IHi i rpc Hi) as (Hn & Ha & Hg). split_and!; [done| |done].
    rewrite Ha. f_equal. apply bool_decide_ext. simpl. lia.
Qed.

Lemma prepared_groups_length o w :
  length (prepared_groups o w) = length (ops_info_groups (batcher w)).
Proof. unfold prepared_groups. destruct (has_transaction (cfg w)); [apply length_imap|done]. Qed.

Lemma ExecuteOperations_dispatch o initial w w' :
  ExecuteOperations o initial w = Some w' ->
  state_ (batcher w) = kTransactionPrepare ->
  has_transaction (cfg w) = false ∨ prepare_ready o = true ->
  ops_queue_ (batcher w) ≠ [] ->
  ∃ w0 new_rpcs,
    ops_queue_ (batcher w0) = ops_queue_ (batcher w) ∧ heap w0 = heap w ∧ cfg w0 = cfg w
    ∧ create_rpcs w0 (consistent_read_needed o w) (prepared_groups o w) = Some new_rpcs
    ∧ sent_rpcs w' = sent_rpcs w ++ new_rpcs ∧ rpcs w' = rpcs w ++ new_rpcs
    ∧ state_ (batcher w') = kTransactionReady
    ∧ ops_queue_ (batcher w') = [].
Proof.
  unfold ExecuteOperations, consistent_read_needed, prepared_groups, cfg.
  intros He Hst Hready Hq.
  destruct (has_transaction (config (batcher w))) eqn:Htx; simpl in He.
  - destruct Hready as [?|Hready]; [done|]. rewrite Hready in He. simpl in He.
    rewrite bool_decide_eq_false_2 in He by (by intros ?). simpl in He.
    rewrite bool_decide_eq_false_2 in He by done.
    match type of He with
    | match create_rpcs ?w0 ?need ?gs with _ => _ end = _ =>
        destruct (create_rpcs w0 need gs) as [new_rpcs|] eqn:Hcr; [|done]
    end.
    simplify_eq.
    match goal with
    | |- context [foldl send_rpc ?w1 new_rpcs] =>
        destruct (foldl_send_rpc w1 new_rpcs) as (Hb & Hd & Hp & Hr & Hs & Hc)
    end.
    rewrite Hb, Hr, Hs. trace_simpl. rewrite ?Htx in Hcr.
    match type of Hcr with create_rpcs ?w0 _ _ = _ => exists w0, new_rpcs end.
    split_and!; [| | |exact Hcr|..]; try done.
  - rewrite bool_decide_eq_false_2 in He by (by intros ?). simpl in He.
    rewrite bool_decide_eq_false_2 in He by done.
    match type of He with
    | match create_rpcs ?w0 ?need ?gs with _ => _ end = _ =>
        destruct (create_rpcs w0 need gs) as [new_rpcs|] eqn:Hcr; [|done]
    end.
    simplify_eq.
    match goal with
    | |- context [foldl send_rpc ?w1 new_rpcs] =>
        destruct (foldl_send_rpc w1 new_rpcs) as (Hb & Hd & Hp & Hr & Hs & Hc)
    end.
    rewrite Hb, Hr, Hs. simpl in *. rewrite Htx in Hcr.
    match type of Hcr with create_rpcs ?w0 _ _ = _ => exists w0, new_rpcs end.
    split_and!; [| | |exact Hcr|..]; try done.
Qed.

(** X9: when [ExecuteOperations] dispatches, it sends one RPC per group,
    with the operations of that group; every RPC needs a consistent read
    exactly when that is forced, or there is a transaction, or more than one
    RPC is sent; and only the last RPC may be called locally. *)
Theorem ExecuteOperations_rpc_flags o initial w w' :
  ExecuteOperations o initial w = Some w' ->
  state_ (batcher w) = kTransactionPrepare ->
  has_transaction (cfg w) = false ∨ prepare_ready o = true ->
  ops_queue_ (batcher w) ≠ [] ->
  ∃ new_rpcs,
    sent_rpcs w' = sent_rpcs w ++ new_rpcs
    ∧ length new_rpcs = length (ops_info_groups (batcher w))
    ∧ ∀ i rpc, new_rpcs !! i = Some rpc ->
        need_consistent_read rpc
        = force_consistent_read_ (cfg w) || has_transaction (cfg w)
          || bool_decide (1 < length new_rpcs)%nat
        ∧ allow_local_calls_in_curr_thread rpc
          = allow_local_calls_in_curr_thread_ (cfg w) && bool_decide (S i = length new_rpcs)
        ∧ ∃ g, ops_info_groups (batcher w) !! i = Some g
               ∧ rpc_ops rpc = group_slice (ops_queue_ (batcher w)) g.
Proof.
  intros He Hst Hready Hq.
  destruct (ExecuteOperations_dispatch _ _ _ _ He Hst Hready Hq)
    as (w0 & new_rpcs & Hq0 & Hheap0 & Hcfg0 & Hcr & Hsent & _).
  exists new_rpcs. split; [done|].
  destruct (create_rpcs_each _ _ _ _ Hcr) as [Hlen Heach].
  rewrite prepared_groups_length in Hlen. split; [done|].
  intros i rpc Hi. destruct (Heach i rpc Hi) as (Hn & Ha & g & h & first & Hg & _ & _ & _ & _ & _ & Hops & _).
  rewrite Hn, Ha, Hcfg0, Hops, Hq0. unfold consistent_read_needed.
  rewrite prepared_groups_length, <- Hlen. split_and!; [done|done|].
  pose proof (prepared_groups_bounds o w) as Hb.
  apply (f_equal (λ l, l !! i)) in Hb. rewrite !list_lookup_fmap, Hg in Hb. simpl in Hb.
  destruct (ops_info_groups (batcher w) !! i) as [g'|]; [|done]. simpl in Hb.
  exists g'. split; [done|]. unfold group_slice, bounds in *.
  injection Hb as -> ->. done.
Qed.

End DispatchProps.

(** ** Lookups that fail or come late *)

Section LookupProps.
Context `{Collaborators}.

Lemma MarkInFlightOpFailedUnlocked_stale h s w w' :
  MarkInFlightOpFailedUnlocked h s w = Some w' ->
  hash_code w' = hash_code w
  ∧ ∃ op, heap w !! h = Some op
    ∧ partition_list_stale w'
      = if bool_decide (ClientError s = kTablePartitionListIsStale)
        then {[op_addr (yb_op op)]} ∪ partition_list_stale w
        else partition_list_stale w.
Proof.
  unfold MarkInFlightOpFailedUnlocked. intros Hm.
  case_bool_decide; [|done]. simpl in Hm.
  destruct (heap w !! h) as [op|] eqn:Hh; [|done].
  pose proof (CombineErrorUnlocked_spec _ _ _ _ Hm) as (Hs & _ & Hst & _).
  assert (Hhc : hash_code w' = hash_code w).
  { unfold skel in Hs. case_bool_decide; simpl in Hs; by simplify_eq. }
  split; [done|]. exists op. split; [done|]. rewrite Hst. by case_bool_decide.
Qed.

Lemma settles_refl w : settles w w.
Proof. unfold settles. split_and!; done. Qed.

Lemma settles_trans w1 w2 w3 : settles w1 w2 -> settles w2 w3 -> settles w1 w3.
Proof.
  unfold settles. intros (? & ? & ? & ? & ?) (? & ? & ? & ? & ?).
  split_and!; [congruence|set_solver|by etrans|set_solver|auto].
Qed.

Lemma settles_Mark h s w w' :
  MarkInFlightOpFailedUnlocked h s w = Some w' -> settles w w'.
Proof.
  intros Hm.
  pose proof (MarkInFlightOpFailedUnlocked_spec _ _ _ _ Hm) as (Hs & _ & Ho & He).
  pose proof (MarkInFlightOpFailedUnlocked_errors _ _ _ _ Hm) as (op & _ & Herr).
  pose proof (MarkInFlightOpFailedUnlocked_stale _ _ _ _ Hm) as (_ & op' & _ & Hst).
  apply skel_eq in Hs as (_ & _ & _ & _ & _ & Hheap & _).
  split_and!; [done|set_solver| |case_bool_decide; set_solver|done].
  rewrite Herr. by apply prefix_app_r.
Qed.

Lemma settles_for_each_Mark status l w w' :
  for_each (λ h, MarkInFlightOpFailedUnlocked h status) l w = Some w' -> settles w w'.
Proof.
  revert w. induction l as [|h l IH]; simpl; intros w Hf.
  - simplify_eq. apply settles_refl.
  - destruct (MarkInFlightOpFailedUnlocked h status w) as [w1|] eqn:Hm; [|done].
    eapply settles_trans; [by eapply settles_Mark|by apply IH].
Qed.

Lemma settles_view w w' :
  heap w' = heap w -> ops_ (batcher w') = ops_ (batcher w) ->
  error_collector_ (batcher w') = error_collector_ (batcher w) ->
  partition_list_stale w' = partition_list_stale w ->
  had_errors_ (batcher w') = had_errors_ (batcher w) ->
  settles w w'.
Proof. intros H1 H2 H3 H4 H5. unfold settles. rewrite H1, H2, H3, H4, H5. done. Qed.

Lemma settles_RunCallback o s w w' : RunCallback o s w = Some w' -> settles w w'.
Proof.
  unfold RunCallback. destruct (flush_callback_ (batcher w)); [|done].
  intros ?. simplify_eq. by apply settles_view.
Qed.

Lemma settles_Abort o status w w' : Abort o status w = Some w' -> settles w w'.
Proof.
  unfold Abort. intros Ha.
  destruct (for_each _ _ _) as [w1|] eqn:Hf; [|done].
  apply settles_for_each_Mark in Hf.
  assert (settles w (upd_batcher (set_state_ kAborted) w)) by (by apply settles_view).
  assert (settles w1 w').
  { case_bool_decide; [by eapply settles_RunCallback|simplify_eq; apply settles_refl]. }
  eauto using settles_trans.
Qed.

Lemma settles_CheckForFinishedFlush o w w' :
  CheckForFinishedFlush o w = Some w' -> settles w w'.
Proof.
  intros Hc. apply CheckForFinishedFlush_spec in Hc as [[_ ->]|(_ & cb & _ & ->)].
  - apply settles_refl.
  - apply settles_view; unfold finish_world; by destruct (session_alive o).
Qed.

Lemma settles_FlushBuffersIfReady o w w' :
  FlushBuffersIfReady o w = Some w' -> had_errors_ (batcher w) = true -> settles w w'.
Proof.
  intros Hf Herr. apply FlushBuffersIfReady_inv in Hf
    as [[_ ->]|(_ & _ & [[_ ->]|[(_ & _ & Ha)|(_ & ? & _)]])]; [| | |congruence].
  - apply settles_refl.
  - by apply settles_view.
  - apply settles_Abort in Ha. eapply settles_trans; [|exact Ha]. by apply settles_view.
Qed.

Lemma failed_sends_nothing o w w' :
  FlushBuffersIfReady o w = Some w' -> had_errors_ (batcher w) = true ->
  sent_rpcs w' = sent_rpcs w ∧ ops_queue_ (batcher w') = ops_queue_ (batcher w).
Proof.
  intros Hf Herr. apply FlushBuffersIfReady_inv in Hf
    as [[_ ->]|(_ & _ & [[_ ->]|[(_ & _ & Ha)|(_ & ? & _)]])]; [done|done| |congruence].
  pose proof (Abort_facts _ _ _ _ Ha) as (_ & _ & _ & Hs & _).
  apply Abort_spec in Ha as [Hk _]. apply skel_eq in Hk as (_ & Hq & _).
  split; [done|]. rewrite Hq. unfold abort_skel. by destruct (flush_callback_ _).
Qed.


Lemma finish_lookup_settles o w0 w3 w' :
  finish_lookup o w0 w3 w' -> had_errors_ (batcher w3) = true -> settles w3 w'.
Proof.
  unfold finish_lookup. case_bool_decide.
  - apply settles_FlushBuffersIfReady.
  - intros -> _. apply settles_refl.
Qed.

(** X4: a lookup that is answered with a failure, or with a tablet whose
    partition does not hold the partition key, while operations are gathered
    or tablets resolved: the operation leaves [ops_] and gets the failure as
    its error (an InternalError for the row outside the partition), no tablet
    is recorded for it, it is not queued, no RPC is sent, and a failure that
    carries TablePartitionListIsStale marks the operation's table stale. *)
Theorem failed_lookup_fails_the_op o h r s w w' op :
  TabletLookupFinished o h r w = Some w' ->
  state_ (batcher w) = kGatheringOps ∨ state_ (batcher w) = kResolvingTablets ->
  heap w !! h = Some op ->
  lookup_verdict o op r = RErr s ->
  (h ∉ ops_ (batcher w'))
  ∧ heap w' = heap w
  ∧ (yb_op op, s) ∈ error_collector_ (batcher w')
  ∧ had_errors_ (batcher w') = true
  ∧ (ClientError s = kTablePartitionListIsStale ->
     op_addr (yb_op op) ∈ partition_list_stale w')
  ∧ sent_rpcs w' = sent_rpcs w
  ∧ ops_queue_ (batcher w') = ops_queue_ (batcher w)
  ∧ (∀ t, r = ROk t -> ContainsKey (partition t) (partition_key op) = false ->
          s = row_not_in_partition_status op t ∧ code s = InternalError).
Proof.
  intros Ht Hst Hop Hv.
  apply TabletLookupFinished_inv in Ht
    as [(Hab & _)|[(_ & Hr & Hg & _)|(_ & op' & Hop' & Hacc)]].
  { destruct Hst; congruence. }
  { destruct Hst; congruence. }
  assert (op' = op) as -> by congruence.
  destruct Hacc as [(t & Hv' & _)|(s' & w2 & w3 & Hv' & Hm & Hc & Hfin)]; [congruence|].
  assert (s' = s) as -> by congruence.
  pose proof (MarkInFlightOpFailedUnlocked_spec _ _ _ _ Hm) as (Hs & _ & Ho & He).
  pose proof (MarkInFlightOpFailedUnlocked_errors _ _ _ _ Hm) as (op2 & Hop2 & Herr).
  pose proof (MarkInFlightOpFailedUnlocked_stale _ _ _ _ Hm) as (_ & op3 & Hop3 & Hstale).
  simpl in Hop2, Hop3. assert (op2 = op) as -> by congruence.
  assert (op3 = op) as -> by congruence.
  apply skel_eq in Hs as (_ & Hq2 & _ & _ & _ & Hheap2 & _ & _ & _ & Htr2).
  pose proof (settles_CheckForFinishedFlush _ _ _ Hc) as S23.
  pose proof (finish_lookup_settles _ _ _ _ Hfin
                (proj2 (proj2 (proj2 (proj2 S23))) He)) as S3.
  pose proof (settles_trans _ _ _ S23 S3) as (Hheap & Hops & Hpre & Hst' & Herr').
  assert (sent_rpcs w3 = sent_rpcs w2 ∧ ops_queue_ (batcher w3) = ops_queue_ (batcher w2)
          ∧ had_errors_ (batcher w3) = true) as (Hs3 & Hq3 & He3).
  { apply CheckForFinishedFlush_spec in Hc as [[_ ->]|(_ & cb & _ & ->)]; [done|].
    unfold finish_world. destruct (session_alive o); trace_simpl; done. }
  assert (sent_rpcs w' = sent_rpcs w3 ∧ ops_queue_ (batcher w') = ops_queue_ (batcher w3))
    as (Hs' & Hq').
  { unfold finish_lookup in Hfin.
    destruct (bool_decide (outstanding_lookups_ (batcher w) - 1 = 0)); [|by subst].
    by apply failed_sends_nothing in Hfin. }
  split_and!.
  - intros Hin. apply Hops in Hin. set_solver.
  - by rewrite Hheap, Hheap2.
  - eapply elem_of_prefix; [|exact Hpre]. rewrite Herr. set_solver.
  - auto.
  - intros Hce. apply Hst'. rewrite Hstale, bool_decide_eq_true_2 by done. set_solver.
  - rewrite Hs', Hs3. unfold sent_rpcs. by rewrite Htr2.
  - by rewrite Hq', Hq3, Hq2.
  - intros t -> Hck. simpl in Hv. rewrite Hck in Hv. simpl in Hv. by simplify_eq.
Qed.

(** X5: a lookup answered after [Abort] fails its operation with the status
    Aborted "Batch aborted", whatever the answer, and calls nobody; a lookup
    answered in the states TransactionPrepare, TransactionReady or Complete
    only decrements the count of lookups. *)
Theorem late_lookup o h r w :
  (state_ (batcher w) = kAborted -> h ∈ ops_ (batcher w) ->
   ∀ op, heap w !! h = Some op ->
     ∃ w', TabletLookupFinished o h r w = Some w'
           ∧ ops_ (batcher w') = ops_ (batcher w) ∖ {[h]}
           ∧ error_collector_ (batcher w')
             = error_collector_ (batcher w) ++ [(yb_op op, STATUS Aborted "Batch aborted")]
           ∧ outstanding_lookups_ (batcher w') = outstanding_lookups_ (batcher w) - 1
           ∧ state_ (batcher w') = kAborted
           ∧ heap w' = heap w ∧ ops_queue_ (batcher w') = ops_queue_ (batcher w)
           ∧ trace w' = trace w)
  ∧ (state_ (batcher w) = kTransactionPrepare ∨ state_ (batcher w) = kTransactionReady
     ∨ state_ (batcher w) = kComplete ->
     TabletLookupFinished o h r w = Some (lookup_counted w)).
Proof.
  split.
  - intros Hst Hin op Hop.
    assert (Hm : is_Some (MarkInFlightOpFailedUnlocked h (STATUS Aborted "Batch aborted")
                            (lookup_counted w))).
    { apply MarkInFlightOpFailedUnlocked_total; simpl; eauto. }
    destruct Hm as [w' Hm]. exists w'.
    assert (Ht : TabletLookupFinished o h r w = Some w').
    { unfold TabletLookupFinished. simpl. rewrite bool_decide_eq_true_2 by done. exact Hm. }
    pose proof (MarkInFlightOpFailedUnlocked_spec _ _ _ _ Hm) as (Hs & _ & Ho & _).
    pose proof (MarkInFlightOpFailedUnlocked_errors _ _ _ _ Hm) as (op2 & Hop2 & Herr).
    simpl in Hop2. assert (op2 = op) as -> by congruence.
    apply skel_eq in Hs as (Hst' & Hq & _ & Hout & _ & Hheap & _ & _ & _ & Htr).
    split_and!; try done. by rewrite Hst'.
  - intros Hst. unfold TabletLookupFinished. simpl.
    rewrite bool_decide_eq_false_2 by (destruct Hst as [?|[?|?]]; congruence).
    rewrite !bool_decide_eq_true_2 by (destruct Hst as [?|[?|?]]; congruence). done.
Qed.

End LookupProps.

(** ** Operations that come with their tablet *)

Section AddProps.
Context `{Collaborators}.

Lemma ingress_world_frame refreshed op key w :
  batcher (ingress_world refreshed op key w) = batcher w
  ∧ heap (ingress_world refreshed op key w) = heap w
  ∧ lookups (ingress_world refreshed op key w) = lookups w
  ∧ partition_list_stale (ingress_world refreshed op key w) = partition_list_stale w
  ∧ trace (ingress_world refreshed op key w)
    = trace w ++ (if refreshed then [InvalidateTableCache (table_name op)] else []).
Proof.
  unfold ingress_world, stamp_hash_code, SetHashCode.
  destruct refreshed, (IsHashPartitioning op), (type op); simpl;
    rewrite ?app_nil_r; try done; by case_bool_decide.
Qed.

Lemma skel_rest w w' :
  skel w' = skel w ->
  config (batcher w') = config (batcher w)
  ∧ next_op_sequence_number_ (batcher w') = next_op_sequence_number_ (batcher w)
  ∧ deadline_ (batcher w') = deadline_ (batcher w)
  ∧ hash_code w' = hash_code w.
Proof. unfold skel. intros Hs. simplify_eq. done. Qed.

(** X6: [Add] of an operation that comes with its tablet asks the meta
    cache for nothing and returns OK. If the tablet's partition holds the
    key the operation is queued at once, buffered, with that tablet; if not,
    the operation has already failed when [Add] returns OK: it is not in
    [ops_] and its error is in the collector. In both cases it has used a
    sequence number. *)
Theorem Add_with_tablet o op t w st w' :
  Add o op w = Some (st, w') ->
  ok (GetPartitionKey op).1 = true ->
  result_ok (MaybeRefreshTablePartitionList op) = true ->
  state_ (batcher w) = kGatheringOps ->
  op_tablet op = Some t ->
  let key := (GetPartitionKey op).2 in
  let h := length (heap w) in
  let seq := next_op_sequence_number_ (batcher w) in
  st = Status_OK
  ∧ state_ (batcher w') = kGatheringOps
  ∧ started_lookups w' = started_lookups w
  ∧ lookups w' = lookups w
  ∧ outstanding_lookups_ (batcher w') = outstanding_lookups_ (batcher w)
  ∧ next_op_sequence_number_ (batcher w') = seq + 1
  ∧ (ContainsKey (partition t) key = true ->
     random_act o && bool_decide (namespace_name op = "yb_test") = false ->
     heap w' = heap w ++ [mkInFlightOp op key (Some t) kBufferedToTabletServer seq]
     ∧ ops_ (batcher w') = {[h]} ∪ ops_ (batcher w)
     ∧ ops_queue_ (batcher w') = ops_queue_ (batcher w) ++ [h]
     ∧ error_collector_ (batcher w') = error_collector_ (batcher w))
  ∧ (ContainsKey (partition t) key = false ->
     heap w' = heap w ++ [mkInFlightOp op key None kLookingUpTablet seq]
     ∧ ops_ (batcher w') = ops_ (batcher w)
     ∧ ops_queue_ (batcher w') = ops_queue_ (batcher w)
     ∧ error_collector_ (batcher w')
       = error_collector_ (batcher w)
         ++ [(op, row_not_in_partition_status
                    (mkInFlightOp op key None kLookingUpTablet seq) t)]
     ∧ had_errors_ (batcher w') = true).
Proof.
  intros Ha Hkey Hrefresh Hst Htablet key h seq.
  apply Add_inv in Ha as [(? & _)|[(_ & ? & _)|[(_ & _ & Hr & _)|Hadded]]];
    [done|congruence|by rewrite Hr in Hrefresh|].
  destruct Hadded as (_ & _ & -> & refreshed & h' & w2 & _ & Hadd & Hlook).
  rewrite Htablet in Hlook.
  destruct (ingress_world_frame refreshed op key w) as (Hbi & Hhi & Hli & _ & Htri).
  apply AddInFlightOp_spec in Hadd as (_ & Hh' & Hfresh & Hw2).
  fold key in Hh', Hfresh, Hw2. rewrite Hhi in Hh'. fold h in Hh'. subst h'.
  rewrite Hbi in Hfresh. rewrite Hbi, Hhi in Hw2. simpl in Hw2. fold seq in Hw2.
  set (new := mkInFlightOp op key None kLookingUpTablet seq) in *.
  assert (Hb2 : batcher w2
                = set_outstanding_lookups_ (outstanding_lookups_ (batcher w) + 1)
                    (set_next_op_sequence_number_ (seq + 1)
                       (set_ops_ ({[h]} ∪ ops_ (batcher w)) (batcher w)))) by (by subst w2).
  assert (Hh2 : heap w2 = heap w ++ [new]) by (by subst w2).
  assert (Hl2 : lookups w2 = lookups w) by (by subst w2).
  assert (Hsl : started_lookups w2 = started_lookups w).
  { subst w2. unfold started_lookups. simpl. rewrite Htri, omap_app.
    destruct refreshed; simpl; by rewrite app_nil_r. }
  clear Hw2.
  assert (Hnew : heap w2 !! h = Some new).
  { rewrite Hh2. by rewrite lookup_app_r, Nat.sub_diag by done. }
  assert (Hst2 : state_ (batcher w2) = kGatheringOps) by (by rewrite Hb2).
  apply TabletLookupFinished_inv in Hlook
    as [(Hx & _)|[(_ & _ & Hx & _)|(_ & op' & Hop' & Hacc)]];
    [by rewrite Hst2 in Hx|by rewrite Hst2 in Hx|].
  assert (Some op' = Some new) as [= ->] by (rewrite <- Hop', <- Hnew; reflexivity).
  assert (Hfin : ∀ w3 w4, state_ (batcher w3) = kGatheringOps ->
                          finish_lookup o w2 w3 w4 -> w4 = w3).
  { intros w3 w4 Hst3 Hfin. unfold finish_lookup in Hfin.
    destruct (bool_decide _); [|done].
    rewrite FlushBuffersIfReady_not_resolving in Hfin by congruence. by simplify_eq. }
  assert (Hins : ∀ x y, <[h := x]> (heap w ++ [y]) = heap w ++ [x]).
  { intros x y. rewrite insert_app_r_alt by done. by rewrite Nat.sub_diag. }
  destruct Hacc as [(t' & Hv & Hfin')|(s & w3 & w4 & Hv & Hm & Hc & Hfin')].
  - (* the tablet holds the row *)
    simpl in Hv. destruct (negb _ || _) eqn:Hchk in Hv; [done|]. simplify_eq.
    apply orb_false_iff in Hchk as [Hck Hrand]. apply negb_false_iff in Hck.
    apply Hfin in Hfin'; [|unfold accept_world; simpl; by rewrite Hb2]. subst w'.
    unfold accept_world, started_lookups in *. simpl. rewrite Hh2, !Hins, Hl2, Hb2. simpl.
    split_and!; try done; try lia.
    intros Hno. fold key in Hck. rewrite Hck in Hno. done.
  - (* the tablet does not hold the row *)
    pose proof (MarkInFlightOpFailedUnlocked_spec _ _ _ _ Hm) as (Hs3 & _ & Ho3 & He3).
    pose proof (MarkInFlightOpFailedUnlocked_errors _ _ _ _ Hm) as (op3 & Hop3 & Herr3).
    simpl in Hop3.
    assert (Some op3 = Some new) as [= ->] by (rewrite <- Hop3, <- Hnew; reflexivity).
    pose proof (skel_rest _ _ Hs3) as (_ & Hseq3 & _).
    apply skel_eq in Hs3 as (Hst3 & Hq3 & _ & Hout3 & _ & Hheap3 & Hl3 & _ & _ & Htr3).
    assert (w4 = w3) as ->.
    { apply CheckForFinishedFlush_spec in Hc as [[_ ->]|([_ [Hx|Hx]] & _)]; [done|..];
        simpl in Hst3; rewrite Hst3, Hst2 in Hx; done. }
    apply Hfin in Hfin'; [|simpl in Hst3; by rewrite Hst3]. subst w'.
    simpl in *. unfold started_lookups in *.
    rewrite Hst3, Hl3, Hl2, Hout3, Htr3, Hheap3, Hh2, Hq3, Hseq3.
    rewrite Ho3, Herr3, Hb2. simpl.
    split_and!; try done; try lia.
    + intros Hck Hrand. fold key in Hv. rewrite Hck, Hrand in Hv. done.
    + intros Hck. fold key in Hv. rewrite Hck in Hv. simpl in Hv.
      split_and!; try done; [set_solver|by simplify_eq].
Qed.

End AddProps.

(** ** The order of the states *)

Section StateMachine.
Context `{Collaborators}.

Lemma forward_refl w : forward w w.
Proof. unfold forward. lia. Qed.

Lemma forward_trans w1 w2 w3 : forward w1 w2 -> forward w2 w3 -> forward w1 w3.
Proof. unfold forward. lia. Qed.

Lemma forward_same w w' : state_ (batcher w') = state_ (batcher w) -> forward w w'.
Proof. unfold forward. intros ->. lia. Qed.

Lemma forward_Aborted w w' : state_ (batcher w') = kAborted -> forward w w'.
Proof. unfold forward. intros ->. destruct (state_ (batcher w)); simpl; lia. Qed.

Lemma forward_Abort o status w w' : Abort o status w = Some w' -> forward w w'.
Proof. intros Ha. apply forward_Aborted. by eapply Abort_state. Qed.

Lemma forward_CheckForFinishedFlush o w w' :
  CheckForFinishedFlush o w = Some w' -> forward w w'.
Proof.
  intros Hc. apply CheckForFinishedFlush_spec in Hc as [[_ ->]|([_ Hst] & cb & _ & ->)].
  - apply forward_refl.
  - unfold forward, finish_world. destruct (session_alive o); simpl;
      destruct Hst as [-> | ->]; simpl; lia.
Qed.

Lemma forward_ExecuteOperations o initial w w' :
  ExecuteOperations o initial w = Some w' -> forward w w'.
Proof.
  intros He. apply ExecuteOperations_spec in He
    as (_ & _ & _ & [(_ & _ & _ & Hst & _)|[(_ & _ & Hst & _)|(Hst & _ & Hst' & _)]]).
  - by apply forward_same.
  - by apply forward_same.
  - unfold forward. rewrite Hst, Hst'. simpl. lia.
Qed.

Lemma forward_FlushBuffersIfReady o w w' :
  FlushBuffersIfReady o w = Some w' -> forward w w'.
Proof.
  intros Hf. apply FlushBuffersIfReady_inv in Hf
    as [[_ ->]|(_ & Hst & [[_ ->]|[(_ & _ & Ha)|(_ & _ & sorted & _ & Hg)]])].
  - apply forward_refl.
  - unfold forward. rewrite Hst. simpl. lia.
  - apply forward_Aborted. by eapply Abort_state.
  - destruct Hg as [(status & groups & _ & Ha)|(groups & n & _ & He)].
    + apply forward_Aborted. by eapply Abort_state.
    + apply forward_ExecuteOperations in He. unfold forward in *. simpl in He.
      rewrite Hst. simpl. lia.
Qed.

Lemma forward_finish_lookup o w0 w3 w' : finish_lookup o w0 w3 w' -> forward w3 w'.
Proof.
  unfold finish_lookup. destruct (bool_decide _).
  - apply forward_FlushBuffersIfReady.
  - intros ->. apply forward_refl.
Qed.

Lemma forward_TabletLookupFinished o h r w w' :
  TabletLookupFinished o h r w = Some w' -> forward w w'.
Proof.
  intros Ht. apply TabletLookupFinished_inv in Ht
    as [(_ & Hm)|[(_ & _ & _ & ->)|(_ & op & _ & Hacc)]].
  - apply MarkInFlightOpFailedUnlocked_spec in Hm as (Hs & _).
    apply skel_eq in Hs as (Hst & _). by apply forward_same.
  - by apply forward_same.
  - destruct Hacc as [(t & _ & Hfin)|(s & w2 & w3 & _ & Hm & Hc & Hfin)].
    + apply forward_finish_lookup in Hfin. eapply forward_trans; [|exact Hfin].
      apply forward_same. unfold accept_world. by destruct (bool_decide _).
    + apply MarkInFlightOpFailedUnlocked_spec in Hm as (Hs & _).
      apply skel_eq in Hs as (Hst & _).
      apply forward_CheckForFinishedFlush in Hc. apply forward_finish_lookup in Hfin.
      eapply forward_trans; [by apply forward_same|]. by eapply forward_trans.
Qed.

Lemma forward_Add o op w st w' : Add o op w = Some (st, w') -> forward w w'.
Proof.
  intros Ha. apply Add_inv in Ha
    as [(_ & _ & ->)|[(_ & _ & _ & ->)|[(_ & _ & _ & ->)|Hadded]]];
    try apply forward_refl.
  destruct Hadded as (Hst & _ & _ & refreshed & h & w2 & _ & Hadd & Hlook).
  apply AddInFlightOp_spec in Hadd as (_ & _ & _ & Hw2).
  assert (Hst2 : state_ (batcher w2) = state_ (batcher w)).
  { subst w2. simpl. by destruct (ingress_world_frame refreshed op (GetPartitionKey op).2 w)
      as (-> & _). }
  destruct (op_tablet op).
  - apply forward_TabletLookupFinished in Hlook. unfold forward in *. by rewrite <- Hst2.
  - subst w'. by apply forward_same.
Qed.

Lemma forward_FlushAsync o cb retry w w' : FlushAsync o cb retry w = Some w' -> forward w w'.
Proof.
  unfold FlushAsync. case_bool_decide as Hst; [done|].
  destruct (CheckForFinishedFlush _ _) as [w1|] eqn:Hc; [|done]. intros Hf.
  apply forward_CheckForFinishedFlush in Hc. apply forward_FlushBuffersIfReady in Hf.
  pose proof (forward_trans _ _ _ Hc Hf) as Hfw. unfold forward in *.
  rewrite Hst. simpl. lia.
Qed.

Lemma forward_RpcFinished o k s resp w w' :
  RpcFinished o k s resp w = Some w' -> forward w w'.
Proof.
  unfold RpcFinished. destruct (rpcs w !! k) as [rpc|]; [|done].
  destruct (match rpc_kind rpc with WriteRpc => _ | _ => _ end) as [w1|] eqn:Hp; [|done].
  destruct (RemoveInFlightOpsAfterFlushing _ _ _) as [w2|] eqn:Hr; [|done]. intros Hc.
  assert (Hst1 : state_ (batcher w1) = state_ (batcher w)).
  { assert (rpc_view w1 = rpc_view (set_rpcs (delete k (rpcs w)) w)) as Hv.
    { destruct (rpc_kind rpc);
        [by apply ProcessWriteResponse_view in Hp as [? _]
        |by apply ProcessRpcStatus_view in Hp as [? _]..]. }
    by apply rpc_view_eq in Hv as (? & _). }
  apply RemoveInFlightOpsAfterFlushing_view in Hr as (Hv & _).
  apply rpc_view_eq in Hv as (Hst2 & _).
  apply forward_CheckForFinishedFlush in Hc. unfold forward in *. congruence.
Qed.

Lemma forward_ReadyCallback o s w w' : ReadyCallback o s w = Some w' -> forward w w'.
Proof.
  unfold ReadyCallback, TransactionReady. destruct (prepare_waiting w); [|done].
  destruct (ok s); intros Hr.
  - by apply forward_ExecuteOperations in Hr.
  - by apply forward_Abort in Hr.
Qed.

Lemma forward_step w oe w' : step w oe = Some w' -> forward w w'.
Proof.
  unfold step. destruct oe as [o []]; simpl; intros Hs.
  - destruct (Add o op w) as [[st w1]|] eqn:Ha; [|done]. simpl in Hs. simplify_eq.
    by eapply forward_Add.
  - by eapply forward_FlushAsync.
  - unfold LookupCallback in Hs. case_bool_decide; [|done].
    by apply forward_TabletLookupFinished in Hs.
  - by eapply forward_ReadyCallback.
  - by eapply forward_RpcFinished.
  - by eapply forward_Abort.
  - simplify_eq. by apply forward_same.
  - simplify_eq. by apply forward_same.
Qed.

Lemma forward_run evs w w' : run w evs = Some w' -> forward w w'.
Proof.
  revert w. induction evs as [|oe evs IH]; simpl; intros w Hr.
  - simplify_eq. apply forward_refl.
  - destruct (step w oe) as [w1|] eqn:Hs; [|done].
    eapply forward_trans; [by eapply forward_step|by apply IH].
Qed.

(** X12: the state only moves forward in the order GatheringOps,
    ResolvingTablets, TransactionPrepare, TransactionReady, Complete,
    Aborted, whatever calls are made; so once the batcher has left
    GatheringOps it never returns: [CountBufferedOperations] is 0 and [Add]
    is refused from then on. *)
Theorem state_moves_forward evs w w' :
  run w evs = Some w' ->
  (BatcherState_rank (state_ (batcher w)) <= BatcherState_rank (state_ (batcher w')))%nat
  ∧ (state_ (batcher w) ≠ kGatheringOps ->
     state_ (batcher w') ≠ kGatheringOps
     ∧ CountBufferedOperations w' = 0%nat
     ∧ ∀ o op, Add o op w' = Some (wrong_state_status (state_ (batcher w')), w')).
Proof.
  intros Hr. apply forward_run in Hr. split; [done|]. intros Hst.
  assert (Hst' : state_ (batcher w') ≠ kGatheringOps).
  { intros Hg. unfold forward in Hr. rewrite Hg in Hr.
    destruct (state_ (batcher w)); simpl in Hr; done || lia. }
  split_and!; [done| |].
  - unfold CountBufferedOperations. by rewrite bool_decide_eq_false_2.
  - intros o op. unfold Add, Batcher_state. by rewrite bool_decide_eq_true_2.
Qed.

End StateMachine.

(** ** Sequence numbers *)

Section SequenceNumbers.
Context `{Collaborators}.

Lemma added_skel w w' : skel w' = skel w -> added w' = added w.
Proof.
  intros Hs. pose proof (skel_rest _ _ Hs) as (Hc & Hn & _).
  apply skel_eq in Hs as (_ & _ & _ & _ & _ & Hh & _). unfold added. congruence.
Qed.

Lemma op_id_op_data (l l' : list InFlightOp) :
  op_data <$> l' = op_data <$> l -> op_id <$> l' = op_id <$> l.
Proof.
  intros Hd. apply (f_equal (fmap (λ d : YBOperation * string * option RemoteTablet * Z,
                                     (d.1.1.1, d.1.1.2, d.2)))) in Hd.
  rewrite <- !list_fmap_compose in Hd. exact Hd.
Qed.

Lemma added_data w w' : data_view w' = data_view w -> added w' = added w.
Proof.
  intros Hd. destruct (data_view_heap _ _ Hd) as [Hh%op_id_op_data _].
  unfold data_view, added in *. simplify_eq. congruence.
Qed.

Lemma added_but_ops w w' : but_ops w' = but_ops w -> added w' = added w.
Proof. unfold but_ops, added. intros Hd. simplify_eq. congruence. Qed.

Lemma added_Abort o status w w' : Abort o status w = Some w' -> added w' = added w.
Proof.
  intros Ha. apply Abort_spec in Ha as [Hs _]. apply added_skel in Hs. rewrite Hs.
  unfold abort_skel. by destruct (flush_callback_ (batcher w)).
Qed.

Lemma added_CheckForFinishedFlush o w w' :
  CheckForFinishedFlush o w = Some w' -> added w' = added w.
Proof.
  intros Hc. apply CheckForFinishedFlush_spec in Hc as [[_ ->]|(_ & cb & _ & ->)]; [done|].
  unfold finish_world. by destruct (session_alive o).
Qed.

Lemma added_FlushBuffersIfReady o w w' :
  FlushBuffersIfReady o w = Some w' -> added w' = added w.
Proof.
  intros Hf. apply FlushBuffersIfReady_inv in Hf
    as [[_ ->]|(_ & _ & [[_ ->]|[(_ & _ & Ha)|(_ & _ & sorted & _ & Hg)]])]; [done|done|..].
  - by apply added_Abort in Ha.
  - destruct Hg as [(status & groups & _ & Ha)|(groups & n & _ & He)].
    + by apply added_Abort in Ha.
    + apply ExecuteOperations_spec in He as (Hd & _). by apply added_data in Hd.
Qed.

Lemma added_finish_lookup o w0 w3 w' : finish_lookup o w0 w3 w' -> added w' = added w3.
Proof.
  unfold finish_lookup. destruct (bool_decide _).
  - apply added_FlushBuffersIfReady.
  - by intros ->.
Qed.

Lemma op_id_insert (l : list InFlightOp) h x y :
  l !! h = Some x -> op_id y = op_id x -> op_id <$> <[h := y]> l = op_id <$> l.
Proof.
  intros Hl Hid. rewrite list_fmap_insert, Hid. apply list_insert_id.
  by rewrite list_lookup_fmap, Hl.
Qed.

Lemma added_accept_world h t op w :
  heap w !! h = Some op -> added (accept_world h t op w) = added w.
Proof.
  intros Hop. unfold accept_world, added.
  assert (op_id <$> <[h := set_op_tablet t op]> (heap w) = op_id <$> heap w) as Hi
    by (by apply (op_id_insert _ h op)).
  destruct (bool_decide _); simpl; [|by rewrite Hi].
  rewrite (op_id_insert _ h (set_op_tablet t op)); [by rewrite Hi| |done].
  rewrite list_lookup_insert_eq; [done|]. by eapply lookup_lt_Some.
Qed.

Lemma added_TabletLookupFinished o h r w w' :
  TabletLookupFinished o h r w = Some w' -> added w' = added w.
Proof.
  intros Ht. apply TabletLookupFinished_inv in Ht
    as [(_ & Hm)|[(_ & _ & _ & ->)|(_ & op & Hop & Hfin)]]; [|done|].
  - apply MarkInFlightOpFailedUnlocked_spec in Hm as (Hs & _). by apply added_skel in Hs.
  - destruct Hfin as [(t & _ & Hfin)|(s & w2 & w3 & _ & Hm & Hc & Hfin)].
    + apply added_finish_lookup in Hfin. rewrite Hfin.
      by rewrite (added_accept_world h t op (lookup_counted w)).
    + apply MarkInFlightOpFailedUnlocked_spec in Hm as (Hs & _). apply added_skel in Hs.
      apply added_CheckForFinishedFlush in Hc. apply added_finish_lookup in Hfin.
      by rewrite Hfin, Hc, Hs.
Qed.

Lemma added_Add o op w st w' :
  Add o op w = Some (st, w') ->
  added w'
  = (config (batcher w),
     next_op_sequence_number_ (batcher w) + (if accepts w op then 1 else 0),
     (op_id <$> heap w) ++ adds w (EvAdd op)).
Proof.
  intros Ha. unfold adds, accepts. apply Add_inv in Ha
    as [(Hst & _ & ->)|[(Hst & Hk & _ & ->)|[(Hst & Hk & Hr & ->)|Hadded]]].
  - rewrite bool_decide_eq_false_2 by done. simpl. unfold added.
    by rewrite Z.add_0_r, app_nil_r.
  - rewrite Hk, andb_false_r. simpl. unfold added. by rewrite Z.add_0_r, app_nil_r.
  - rewrite Hr, andb_false_r. unfold added. by rewrite Z.add_0_r, app_nil_r.
  - destruct Hadded as (Hst & Hk & _ & refreshed & h & w2 & Hr & Hadd & Hlook).
    rewrite bool_decide_eq_true_2, Hk, Hr by done. simpl.
    apply AddInFlightOp_spec in Hadd as (_ & _ & _ & Hw2).
    destruct (ingress_world_frame refreshed op (GetPartitionKey op).2 w)
      as (Hbi & Hhi & _).
    rewrite Hbi, Hhi in Hw2. simpl in Hw2.
    assert (added w' = added w2) as ->.
    { destruct (op_tablet op); [by apply added_TabletLookupFinished in Hlook|by subst w']. }
    subst w2. unfold added. simpl. by rewrite fmap_app.
Qed.

Lemma added_FlushAsync o cb retry w w' :
  FlushAsync o cb retry w = Some w' -> added w' = added w.
Proof.
  unfold FlushAsync. case_bool_decide as Hst; [done|].
  destruct (CheckForFinishedFlush _ _) as [w1|] eqn:Hc; [|done]. intros Hf.
  apply added_CheckForFinishedFlush in Hc. apply added_FlushBuffersIfReady in Hf.
  rewrite Hf, Hc. by destruct (session_alive o), (has_transaction _ && _).
Qed.

Lemma added_RpcFinished o k s resp w w' :
  RpcFinished o k s resp w = Some w' -> added w' = added w.
Proof.
  unfold RpcFinished. destruct (rpcs w !! k) as [rpc|]; [|done].
  destruct (match rpc_kind rpc with WriteRpc => _ | _ => _ end) as [w1|] eqn:Hp; [|done].
  destruct (RemoveInFlightOpsAfterFlushing _ _ _) as [w2|] eqn:Hr; [|done]. intros Hc.
  apply added_CheckForFinishedFlush in Hc.
  apply RemoveInFlightOpsAfterFlushing_frame in Hr as [Hbut _]. apply added_but_ops in Hbut.
  assert (added w1 = added w) as H1; [|congruence].
  assert (∀ v v', ProcessRpcStatus rpc s v = Some v' -> added v' = added v) as Hprs.
  { intros v v' Hv. apply ProcessRpcStatus_errors in Hv as [Hs _]. by apply added_skel. }
  destruct (rpc_kind rpc); [|by apply Hprs in Hp..].
  unfold ProcessWriteResponse in Hp.
  destruct (ProcessRpcStatus rpc s _) as [w0|] eqn:Hp0; [|done].
  apply Hprs in Hp0. apply row_errors_loop in Hp as (Hs & _). apply added_skel in Hs.
  rewrite Hs. change (added w) with (added (set_rpcs (delete k (rpcs w)) w)).
  rewrite <- Hp0. by destruct (propagated_hybrid_time resp); [destruct (ok s)|].
Qed.

Lemma added_ReadyCallback o s w w' : ReadyCallback o s w = Some w' -> added w' = added w.
Proof.
  unfold ReadyCallback, TransactionReady. destruct (prepare_waiting w); [|done].
  destruct (ok s); intros Hr.
  - apply ExecuteOperations_spec in Hr as (Hd & _). by apply added_data in Hd.
  - by apply added_Abort in Hr.
Qed.

Lemma added_step w oe w' :
  step w oe = Some w' ->
  added w'
  = (config (batcher w),
     next_op_sequence_number_ (batcher w) + Z.of_nat (length (adds w oe.2)),
     (op_id <$> heap w) ++ adds w oe.2).
Proof.
  assert (∀ v, added v = (config (batcher v), next_op_sequence_number_ (batcher v) + Z.of_nat 0,
                          (op_id <$> heap v) ++ [])) as Hsame.
  { intros v. unfold added. by rewrite Z.add_0_r, app_nil_r. }
  unfold step. destruct oe as [o []]; simpl; intros Hs.
  - destruct (Add o op w) as [[st w1]|] eqn:Ha; [|done]. simpl in Hs. simplify_eq.
    rewrite (added_Add _ _ _ _ _ Ha). simpl. by destruct (accepts w op).
  - rewrite <- Hsame. by eapply added_FlushAsync.
  - rewrite <- Hsame. unfold LookupCallback in Hs. case_bool_decide; [|done].
    by apply added_TabletLookupFinished in Hs.
  - rewrite <- Hsame. by eapply added_ReadyCallback.
  - rewrite <- Hsame. by eapply added_RpcFinished.
  - rewrite <- Hsame. by eapply added_Abort.
  - rewrite <- Hsame. by simplify_eq.
  - rewrite <- Hsame. by simplify_eq.
Qed.

Lemma config_run evs w w' : run w evs = Some w' -> config (batcher w') = config (batcher w).
Proof.
  revert w. induction evs as [|oe evs IH]; simpl; intros w Hr; [by simplify_eq|].
  destruct (step w oe) as [w1|] eqn:Hs; [|done].
  rewrite (IH _ Hr). apply added_step in Hs. unfold added in Hs. by simplify_eq.
Qed.

Lemma numbered_step w oe w' : step w oe = Some w' -> numbered w -> numbered w'.
Proof.
  intros Hs [Hnext Hnum]. apply added_step in Hs. unfold added in Hs.
  injection Hs as _ Hn Hh.
  assert (Hlen : length (heap w') = (length (heap w) + length (adds w oe.2))%nat).
  { apply (f_equal length) in Hh. by rewrite length_app, !length_fmap in Hh. }
  split; [lia|]. intros h x Hx.
  apply (f_equal (λ l, l !! h)) in Hh. rewrite list_lookup_fmap, Hx in Hh. simpl in Hh.
  destruct (decide (h < length (heap w))%nat) as [Hlt|Hge].
  - rewrite lookup_app_l, list_lookup_fmap in Hh by (by rewrite length_fmap).
    destruct (heap w !! h) as [y|] eqn:Hy; [|done]. simpl in Hh.
    unfold op_id in Hh. injection Hh as _ _ ->. by apply Hnum.
  - rewrite lookup_app_r, length_fmap in Hh by (rewrite length_fmap; lia).
    destruct oe as [o []]; simpl in *; try by rewrite lookup_nil in Hh.
    destruct (accepts w op); [|by rewrite lookup_nil in Hh].
    assert (h = length (heap w)) as ->
      by (apply lookup_lt_Some in Hx; simpl in Hlen; lia).
    rewrite Nat.sub_diag in Hh. simpl in Hh. unfold op_id in Hh.
    injection Hh as _ _ ->. lia.
Qed.

Lemma numbered_run evs w w' : run w evs = Some w' -> numbered w -> numbered w'.
Proof.
  revert w. induction evs as [|oe evs IH]; simpl; intros w Hr Hn; [by simplify_eq|].
  destruct (step w oe) as [w1|] eqn:Hs; [|done].
  apply (IH w1 Hr). by eapply numbered_step.
Qed.

(** X13: the in-flight operations, in the order [Add] accepted them, have
    the sequence numbers 0, 1, 2, ..., and [next_op_sequence_number_] is
    their number; a call changes neither the operation, nor the key, nor the
    sequence number of an in-flight operation, and adds one only if it is
    an [Add] that passes its three checks. *)
Theorem sequence_numbers_follow_Add cfg0 evs w :
  run (new_World cfg0) evs = Some w ->
  sequence_number_ <$> heap w = Z.of_nat <$> seq 0 (length (heap w))
  ∧ next_op_sequence_number_ (batcher w) = Z.of_nat (length (heap w))
  ∧ ∀ oe w', step w oe = Some w' ->
      op_id <$> heap w' = (op_id <$> heap w) ++ adds w oe.2.
Proof.
  intros Hr.
  assert (Hnew : numbered (new_World cfg0)).
  { split; [done|]. intros h x Hx. by destruct h. }
  destruct (numbered_run _ _ _ Hr Hnew) as [Hnext Hnum]. split_and!; [|done|].
  - apply list_eq. intros i. rewrite !list_lookup_fmap.
    destruct (heap w !! i) as [x|] eqn:Hx; simpl.
    + rewrite lookup_seq_lt by (by eapply lookup_lt_Some). simpl. f_equal. by apply Hnum.
    + by rewrite lookup_seq_ge by (by apply lookup_ge_None).
  - intros oe w' Hs. apply added_step in Hs. unfold added in Hs. by simplify_eq.
Qed.

End SequenceNumbers.

(** ** The errors and the status of a completed flush *)

Section ErrorAccounting.
Context `{Collaborators}.

Section Recording.
Variable past : list (YBOperation * Status).

Lemma errors_accounted_view w w' :
  errors_view w' = errors_view w -> errors_accounted past w -> errors_accounted past w'.
Proof.
  unfold errors_view, errors_accounted. intros Hv. simpl.
  injection Hv as -> -> -> ->. done.
Qed.

Lemma errors_accounted_Combine h s w w' :
  CombineErrorUnlocked h s w = Some w' -> errors_accounted past w -> errors_accounted past w'.
Proof.
  intros Hc (_ & _ & Hflag).
  pose proof (CombineErrorUnlocked_spec _ _ _ _ Hc) as (_ & _ & _ & He).
  pose proof (CombineErrorUnlocked_errors _ _ _ _ Hc) as (op & _ & Herr).
  pose proof (CombineErrorUnlocked_combined _ _ _ _ Hc) as (Hcfg & op' & _ & Hcomb).
  unfold errors_accounted. rewrite He, Herr, Hcfg. split_and!.
  - split; [|done]. intros _ Hnil.
    apply app_eq_nil in Hnil as [_ Hnil]. by apply app_eq_nil in Hnil as [_ ?].
  - done.
  - intros Hoff. rewrite Hcomb. unfold cfg. simpl. rewrite Hoff. auto.
Qed.

Lemma errors_accounted_Mark h s w w' :
  MarkInFlightOpFailedUnlocked h s w = Some w' -> errors_accounted past w -> errors_accounted past w'.
Proof.
  unfold MarkInFlightOpFailedUnlocked. case_bool_decide; [|done]. simpl.
  destruct (heap w !! h); [|done]. intros Hc Hacc.
  apply (errors_accounted_Combine _ _ _ _ Hc).
  by case_bool_decide; apply (errors_accounted_view w).
Qed.

Lemma errors_accounted_RunCallback o s w w' :
  RunCallback o s w = Some w' -> errors_accounted past w -> errors_accounted past w'.
Proof.
  unfold RunCallback. destruct (flush_callback_ (batcher w)); [|done].
  intros ?. simplify_eq. by apply errors_accounted_view.
Qed.

Lemma errors_accounted_Abort o status w w' :
  Abort o status w = Some w' -> errors_accounted past w -> errors_accounted past w'.
Proof.
  unfold Abort. intros Ha Hacc.
  destruct (for_each _ _ _) as [w1|] eqn:Hf; [|done].
  assert (errors_accounted past w1).
  { refine (for_each_inv (errors_accounted past) _ _ _ _ _ Hf _).
    - intros h v v'. apply errors_accounted_Mark.
    - by apply (errors_accounted_view w). }
  case_bool_decide; [by eapply errors_accounted_RunCallback|by simplify_eq].
Qed.

Lemma errors_accounted_CheckForFinishedFlush o w w' :
  CheckForFinishedFlush o w = Some w' -> errors_accounted past w -> errors_accounted past w'.
Proof.
  intros Hc. apply CheckForFinishedFlush_spec in Hc as [[_ ->]|(_ & cb & _ & ->)]; [done|].
  apply errors_accounted_view. unfold finish_world. by destruct (session_alive o).
Qed.

Lemma errors_view_data w w' : data_view w' = data_view w -> errors_view w' = errors_view w.
Proof. unfold data_view, errors_view. intros Hd. simplify_eq. congruence. Qed.

Lemma errors_accounted_ExecuteOperations o initial w w' :
  ExecuteOperations o initial w = Some w' -> errors_accounted past w -> errors_accounted past w'.
Proof.
  intros He. apply ExecuteOperations_spec in He as (Hd & _).
  apply errors_accounted_view. by apply errors_view_data.
Qed.

Lemma errors_accounted_FlushBuffersIfReady o w w' :
  FlushBuffersIfReady o w = Some w' -> errors_accounted past w -> errors_accounted past w'.
Proof.
  intros Hf Hacc. apply FlushBuffersIfReady_inv in Hf
    as [[_ ->]|(_ & _ & [[_ ->]|[(_ & _ & Ha)|(_ & _ & sorted & _ & Hg)]])].
  - done.
  - by apply (errors_accounted_view w).
  - apply (errors_accounted_Abort _ _ _ _ Ha). by apply (errors_accounted_view w).
  - destruct Hg as [(status & groups & _ & Ha)|(groups & n & _ & He)].
    + apply (errors_accounted_Abort _ _ _ _ Ha). by apply (errors_accounted_view w).
    + apply (errors_accounted_ExecuteOperations _ _ _ _ He).
      by apply (errors_accounted_view w).
Qed.

Lemma errors_accounted_finish_lookup o w0 w3 w' :
  finish_lookup o w0 w3 w' -> errors_accounted past w3 -> errors_accounted past w'.
Proof.
  unfold finish_lookup. destruct (bool_decide _).
  - apply errors_accounted_FlushBuffersIfReady.
  - by intros ->.
Qed.

Lemma errors_accounted_TabletLookupFinished o h r w w' :
  TabletLookupFinished o h r w = Some w' -> errors_accounted past w -> errors_accounted past w'.
Proof.
  intros Ht Hacc.
  assert (errors_accounted past (lookup_counted w)) by (by apply (errors_accounted_view w)).
  apply TabletLookupFinished_inv in Ht
    as [(_ & Hm)|[(_ & _ & _ & ->)|(_ & op & _ & Hfin)]].
  - by eapply errors_accounted_Mark.
  - done.
  - destruct Hfin as [(t & _ & Hfin)|(s & w2 & w3 & _ & Hm & Hc & Hfin)].
    + apply (errors_accounted_finish_lookup _ _ _ _ Hfin).
      apply (errors_accounted_view w); [|done]. unfold accept_world.
      by destruct (bool_decide _).
    + apply (errors_accounted_finish_lookup _ _ _ _ Hfin).
      apply (errors_accounted_CheckForFinishedFlush _ _ _ Hc).
      by eapply errors_accounted_Mark.
Qed.

Lemma errors_accounted_Add o op w st w' :
  Add o op w = Some (st, w') -> errors_accounted past w -> errors_accounted past w'.
Proof.
  intros Ha Hacc. apply Add_inv in Ha
    as [(_ & _ & ->)|[(_ & _ & _ & ->)|[(_ & _ & _ & ->)|Hadded]]]; try done.
  destruct Hadded as (Hst & _ & _ & refreshed & h & w2 & _ & Hadd & Hlook).
  apply AddInFlightOp_spec in Hadd as (_ & _ & _ & Hw2).
  assert (errors_accounted past w2).
  { apply (errors_accounted_view w); [|done]. subst w2. unfold errors_view. simpl.
    by destruct (ingress_world_frame refreshed op (GetPartitionKey op).2 w) as (-> & _). }
  destruct (op_tablet op).
  - by eapply errors_accounted_TabletLookupFinished.
  - subst w'. by apply (errors_accounted_view w2).
Qed.

Lemma errors_accounted_FlushAsync o cb retry w w' :
  FlushAsync o cb retry w = Some w' -> errors_accounted past w -> errors_accounted past w'.
Proof.
  unfold FlushAsync. case_bool_decide as Hst; [done|].
  destruct (CheckForFinishedFlush _ _) as [w1|] eqn:Hc; [|done]. intros Hf Hacc.
  apply (errors_accounted_FlushBuffersIfReady _ _ _ Hf).
  apply (errors_accounted_CheckForFinishedFlush _ _ _ Hc).
  apply (errors_accounted_view w); [|done].
  destruct (session_alive o), (has_transaction _ && _); done.
Qed.

Lemma errors_accounted_ProcessRpcStatus rpc s w w' :
  ProcessRpcStatus rpc s w = Some w' -> errors_accounted past w -> errors_accounted past w'.
Proof.
  unfold ProcessRpcStatus. case_bool_decide; [by intros; simplify_eq|].
  destruct (ok s); simpl; [by intros; simplify_eq|]. intros Hf Hacc.
  refine (for_each_inv (errors_accounted past) _ _ _ _ _ Hf Hacc).
  intros h v v' Hb. by eapply errors_accounted_Combine.
Qed.

Lemma errors_accounted_ProcessWriteResponse rpc s resp w w' :
  ProcessWriteResponse rpc s resp w = Some w' -> errors_accounted past w -> errors_accounted past w'.
Proof.
  unfold ProcessWriteResponse.
  destruct (ProcessRpcStatus rpc s w) as [w1|] eqn:Hp; [|done]. intros Hf Hacc.
  refine (for_each_inv (errors_accounted past) _ _ _ _ _ Hf _).
  - intros e v v' Hbody. simpl in Hbody. case_bool_decide; [by simplify_eq|].
    destruct (rpc_ops rpc !! e.1); [|done]. by eapply errors_accounted_Combine.
  - apply (errors_accounted_view w1); [|by eapply errors_accounted_ProcessRpcStatus].
    destruct (propagated_hybrid_time resp); [destruct (ok s)|]; done.
Qed.

Lemma errors_accounted_Remove ops status w w' :
  RemoveInFlightOpsAfterFlushing ops status w = Some w' ->
  errors_accounted past w -> errors_accounted past w'.
Proof.
  intros Hr. apply RemoveInFlightOpsAfterFlushing_frame in Hr as [Hbut _].
  apply errors_accounted_view.
  unfold but_ops, errors_view in *. simplify_eq. congruence.
Qed.


Lemma errors_accounted_RpcFinished o k s resp w w' :
  RpcFinished o k s resp w = Some w' -> errors_accounted past w -> errors_accounted past w'.
Proof.
  unfold RpcFinished. destruct (rpcs w !! k) as [rpc|]; [|done].
  destruct (match rpc_kind rpc with WriteRpc => _ | _ => _ end) as [w1|] eqn:Hp; [|done].
  destruct (RemoveInFlightOpsAfterFlushing _ _ _) as [w2|] eqn:Hr; [|done]. intros Hc Hacc.
  apply (errors_accounted_CheckForFinishedFlush _ _ _ Hc).
  apply (errors_accounted_Remove _ _ _ _ Hr).
  assert (errors_accounted past (set_rpcs (delete k (rpcs w)) w))
    by (by apply (errors_accounted_view w)).
  destruct (rpc_kind rpc);
    [by eapply errors_accounted_ProcessWriteResponse
    |by eapply errors_accounted_ProcessRpcStatus..].
Qed.

Lemma errors_accounted_ReadyCallback o s w w' :
  ReadyCallback o s w = Some w' -> errors_accounted past w -> errors_accounted past w'.
Proof.
  unfold ReadyCallback, TransactionReady. destruct (prepare_waiting w); [|done].
  intros Hr Hacc.
  assert (errors_accounted past (set_prepare_waiting false w))
    by (by apply (errors_accounted_view w)).
  destruct (ok s).
  - by eapply errors_accounted_ExecuteOperations.
  - by eapply errors_accounted_Abort.
Qed.

End Recording.

Lemma errors_accounted_step past w oe w' :
  step w oe = Some w' -> errors_accounted past w ->
  errors_accounted (past ++ errors_taken w oe.2) w'.
Proof.
  unfold step. destruct oe as [o []]; simpl; rewrite ?app_nil_r; intros Hs Hacc.
  - destruct (Add o op w) as [[st w1]|] eqn:Ha; [|done]. simpl in Hs. simplify_eq.
    by eapply errors_accounted_Add.
  - by eapply errors_accounted_FlushAsync.
  - unfold LookupCallback in Hs. case_bool_decide; [|done].
    apply (errors_accounted_TabletLookupFinished _ _ _ _ _ _ Hs).
    by apply (errors_accounted_view past w).
  - by eapply errors_accounted_ReadyCallback.
  - by eapply errors_accounted_RpcFinished.
  - by eapply errors_accounted_Abort.
  - simplify_eq. by apply (errors_accounted_view past w).
  - simplify_eq. unfold errors_accounted in *. simpl. by rewrite app_nil_r.
Qed.

Lemma errors_accounted_run past evs w w' :
  run w evs = Some w' -> errors_accounted past w ->
  errors_accounted (past ++ returned_errors w evs) w'.
Proof.
  revert past w. induction evs as [|oe evs IH]; simpl; intros past w Hr Hacc.
  - rewrite app_nil_r. by simplify_eq.
  - destruct (step w oe) as [w1|] eqn:Hs; [|done].
    rewrite app_assoc. apply (IH _ w1 Hr). by eapply errors_accounted_step.
Qed.

Lemma errors_accounted_new cfg0 : errors_accounted [] (new_World cfg0).
Proof. unfold errors_accounted. simpl. split_and!; done. Qed.

(** [had_errors_] is never reset. *)
Lemma had_errors_step past w oe w' :
  errors_accounted past w -> step w oe = Some w' ->
  had_errors_ (batcher w) = true -> had_errors_ (batcher w') = true.
Proof.
  intros (_ & Hcomb & Hflag) Hs He.
  set (d := (mkYBOperation 0 QL_READ kLeaderRead (Status_OK, "") (ROk false) false "" ""
               None None, Status_OK)).
  assert (Hacc : errors_accounted [d] w).
  { unfold errors_accounted. split_and!; [|done..]. split; [done|]. by intros _. }
  apply (errors_accounted_step _ _ _ _ Hs) in Hacc as (Hiff & _).
  apply Hiff. done.
Qed.

Lemma for_each_Combine_had_errors (f : Handle -> Status) l w w' :
  for_each (λ h, CombineErrorUnlocked h (f h)) l w = Some w' -> l ≠ [] ->
  had_errors_ (batcher w') = true.
Proof.
  destruct l as [|h l]; [done|]. simpl. intros Hf _.
  destruct (CombineErrorUnlocked h (f h) w) as [w1|] eqn:Hc; [|done].
  apply CombineErrorUnlocked_spec in Hc as (_ & _ & _ & He).
  refine (for_each_inv (λ v, had_errors_ (batcher v) = true) _ _ _ _ _ Hf He).
  intros x v v' Hx _. by apply CombineErrorUnlocked_spec in Hx as (_ & _ & _ & ?).
Qed.

Lemma ProcessWriteResponse_had_errors rpc s resp w w' :
  ProcessWriteResponse rpc s resp w = Some w' ->
  had_errors_ (batcher w) = true -> had_errors_ (batcher w') = true.
Proof.
  unfold ProcessWriteResponse, ProcessRpcStatus. intros Hp He.
  match type of Hp with
  | match ?x with _ => _ end = _ => destruct x as [w1|] eqn:Hp1; [|done]
  end.
  assert (He1 : had_errors_ (batcher w1) = true).
  { case_bool_decide; [by simplify_eq|]. destruct (ok s); simpl in Hp1; [by simplify_eq|].
    refine (for_each_inv (λ v, had_errors_ (batcher v) = true) _ _ _ _ _ Hp1 He).
    intros x v v' Hx _. by apply CombineErrorUnlocked_spec in Hx as (_ & _ & _ & ?). }
  refine (for_each_inv (λ v, had_errors_ (batcher v) = true) _ _ _ _ _ Hp _).
  - intros e v v' Hbody Hv. simpl in Hbody. case_bool_decide; [by simplify_eq|].
    destruct (rpc_ops rpc !! e.1); [|done].
    by apply CombineErrorUnlocked_spec in Hbody as (_ & _ & _ & ?).
  - by destruct (propagated_hybrid_time resp); [destruct (ok s)|].
Qed.

Lemma failures_recorded_step past f lf b w oe w' :
  Inv f lf w -> errors_accounted past w -> failures_recorded b w ->
  step w oe = Some w' ->
  failures_recorded (b || is_failed_lookup oe.2 || is_failed_rpc oe.2) w'.
Proof.
  intros HI Hacc Hb Hs Hst' Hfail.
  assert (Hst : state_ (batcher w) ≠ kAborted).
  { intros Ha. by destruct (step_Aborted _ _ _ Ha Hs). }
  destruct b; [by eapply had_errors_step; eauto|]. simpl in Hfail.
  destruct oe as [o e]. unfold step in Hs. simpl in *.
  destruct e as [op|cb retry|h r|s|k s resp|s|d|]; simpl in *; try done.
  - (* a lookup answered with a failure *)
    destruct r as [t|s]; [done|]. unfold LookupCallback in Hs.
    case_bool_decide as Hin; [|done].
    apply TabletLookupFinished_inv in Hs
      as [(? & _)|[(_ & Hs1 & Hs2 & _)|(Hgr & op & Hop & Hfin)]]; [done| |].
    { exfalso. simpl in *. unfold Inv in HI. destruct (state_ (batcher w)); try done.
      - destruct HI as (_ & _ & (_ & _ & _ & _ & _ & Hl & _) & _). rewrite Hl in Hin.
        by apply elem_of_nil in Hin.
      - destruct HI as (_ & _ & (_ & _ & _ & Hl & _)). rewrite Hl in Hin.
        by apply elem_of_nil in Hin.
      - destruct HI as (_ & _ & _ & (Hl & _) & _). rewrite Hl in Hin.
        by apply elem_of_nil in Hin. }
    destruct Hfin as [(t & Hv & _)|(s' & w2 & w3 & _ & Hm & Hc & Hfin)]; [done|].
    apply MarkInFlightOpFailedUnlocked_spec in Hm as (_ & _ & _ & He2).
    pose proof (settles_CheckForFinishedFlush _ _ _ Hc) as (_ & _ & _ & _ & He3).
    specialize (He3 He2).
    destruct (finish_lookup_settles _ _ _ _ Hfin He3) as (_ & _ & _ & _ & He').
    by apply He'.
  - (* an RPC answered with a failure *)
    unfold RpcFinished in Hs. destruct (rpcs w !! k) as [rpc|] eqn:Hk; [|done].
    assert (Hready : state_ (batcher w) = kTransactionReady ∧ rpc_ops rpc ≠ []).
    { assert (Hne : rpcs w ≠ []) by (intros Hnil; by rewrite Hnil in Hk).
      unfold Inv in HI. destruct (state_ (batcher w)); try done.
      - by destruct HI as (_ & _ & (_ & _ & _ & _ & _ & _ & ? & _) & _).
      - by destruct HI as (_ & _ & (_ & _ & _ & _ & _ & _ & ? & _) & _).
      - by destruct HI as (_ & _ & (_ & _ & _ & _ & ? & _) & _).
      - destruct HI as (_ & _ & (_ & _ & _ & _ & _ & Hall & _)). split; [done|].
        rewrite Forall_forall in Hall. apply Hall, list_elem_of_fmap.
        exists rpc. split; [done|]. by eapply list_elem_of_lookup_2.
      - by destruct HI as (_ & _ & _ & (_ & ? & _) & _). }
    destruct Hready as [Hrd Hops].
    set (w0 := set_rpcs (delete k (rpcs w)) w) in *.
    assert (He0 : ∀ v, ProcessRpcStatus rpc s w0 = Some v -> had_errors_ (batcher v) = true).
    { intros v. unfold ProcessRpcStatus. simpl.
      rewrite bool_decide_eq_false_2 by (by intros ?).
      apply negb_true_iff in Hfail. rewrite Hfail. simpl. intros Hv.
      by apply (for_each_Combine_had_errors (λ _, s)) in Hv. }
    match type of Hs with
    | match ?handled with _ => _ end = _ => destruct handled as [w1|] eqn:Hh; [|done]
    end.
    assert (He1 : had_errors_ (batcher w1) = true).
    { destruct (rpc_kind rpc); [|by apply He0..].
      unfold ProcessWriteResponse in Hh.
      destruct (ProcessRpcStatus rpc s w0) as [v|] eqn:Hv; [|done].
      specialize (He0 v eq_refl).
      refine (for_each_inv (λ x, had_errors_ (batcher x) = true) _ _ _ _ _ Hh _).
      - intros e x x' Hbody Hx. simpl in Hbody. case_bool_decide; [by simplify_eq|].
        destruct (rpc_ops rpc !! e.1); [|done].
        by apply CombineErrorUnlocked_spec in Hbody as (_ & _ & _ & ?).
      - by destruct (propagated_hybrid_time resp); [destruct (ok s)|]. }
    destruct (RemoveInFlightOpsAfterFlushing (rpc_ops rpc) s w1) as [w2|] eqn:Hrm; [|done].
    apply RemoveInFlightOpsAfterFlushing_view in Hrm as (_ & _ & He2 & _).
    pose proof (settles_CheckForFinishedFlush _ _ _ Hs) as (_ & _ & _ & _ & He3).
    apply He3. congruence.
Qed.

Lemma failures_recorded_run past f lf b evs w w' :
  Inv f lf w -> errors_accounted past w -> failures_recorded b w ->
  run w evs = Some w' ->
  failures_recorded (b || lookup_failed_in evs || rpc_failed_in evs) w'.
Proof.
  revert past f lf b w. induction evs as [|oe evs IH]; simpl; intros past f lf b w HI Hacc Hb Hr.
  - rewrite !orb_false_r. by simplify_eq.
  - destruct (step w oe) as [w1|] eqn:Hs; [|done].
    pose proof (IH _ _ _ _ _ (Inv_step _ _ _ _ _ HI Hs)
                  (errors_accounted_step _ _ _ _ Hs Hacc)
                  (failures_recorded_step _ _ _ _ _ _ _ HI Hacc Hb Hs) Hr) as Hrec.
    by replace (b || (is_failed_lookup oe.2 || lookup_failed_in evs)
                || (is_failed_rpc oe.2 || rpc_failed_in evs))
      with (b || is_failed_lookup oe.2 || is_failed_rpc oe.2
            || lookup_failed_in evs || rpc_failed_in evs)
      by (by destruct b, (is_failed_lookup oe.2), (is_failed_rpc oe.2),
               (lookup_failed_in evs)).
Qed.

(** X14: the errors are accounted for. In every life cycle [had_errors_]
    is set exactly when an error was recorded for an operation, whether the
    error is still in the collector or [GetAndClearPendingErrors] has
    returned it; a lookup or an RPC answered with a failure has set it,
    unless the batch is aborted; no call resets it; the combined error is
    set only when [had_errors_] is, and only under the test flag; and
    [GetAndClearPendingErrors] returns the collector, empties it, and leaves
    [had_errors_] and the state as they are. *)
Theorem errors_are_accounted cfg0 evs w :
  run (new_World cfg0) evs = Some w ->
  (had_errors_ (batcher w) = true
   ↔ returned_errors (new_World cfg0) evs ++ error_collector_ (batcher w) ≠ [])
  ∧ (lookup_failed_in evs || rpc_failed_in evs = true ->
     state_ (batcher w) ≠ kAborted -> had_errors_ (batcher w) = true)
  ∧ (∀ oe w', step w oe = Some w' -> had_errors_ (batcher w) = true ->
              had_errors_ (batcher w') = true)
  ∧ (ok (combined_error_ (batcher w)) = false -> had_errors_ (batcher w) = true)
  ∧ (FLAGS_TEST_combine_batcher_errors cfg0 = false ->
     combined_error_ (batcher w) = Status_OK)
  ∧ (∀ o, ∃ w', step w (o, EvGetAndClearPendingErrors) = Some w'
                ∧ errors_taken w EvGetAndClearPendingErrors = error_collector_ (batcher w)
                ∧ error_collector_ (batcher w') = []
                ∧ had_errors_ (batcher w') = had_errors_ (batcher w)
                ∧ state_ (batcher w') = state_ (batcher w)
                ∧ ops_ (batcher w') = ops_ (batcher w)).
Proof.
  intros Hr.
  pose proof (errors_accounted_run [] _ _ _ Hr (errors_accounted_new cfg0)) as Hacc.
  pose proof Hacc as (Hhad & Hcomb & Hflag).
  assert (Hrec : failures_recorded (lookup_failed_in evs || rpc_failed_in evs) w).
  { refine (failures_recorded_run [] false false false evs _ _ (Inv_new cfg0)
              (errors_accounted_new cfg0) _ Hr). by intros _ ?. }
  assert (Hcfg : config (batcher w) = cfg0) by (by rewrite (config_run _ _ _ Hr)).
  split_and!.
  - exact Hhad.
  - intros Hf Hst. by apply Hrec.
  - intros oe w' Hs. by eapply had_errors_step.
  - exact Hcomb.
  - by rewrite <- Hcfg.
  - intros o. eexists. split; [reflexivity|]. done.
Qed.


End ErrorAccounting.

(** ** Batches whose lookups fail *)

Section FailedLookups.
Context `{Collaborators}.







End FailedLookups.


(** ** The operations left in [ops_], and the destructor *)

Section Ownership.
Context `{Collaborators}.

Lemma owned_same skip w w' :
  owned_but skip w -> heap w' = heap w -> lookups w' = lookups w -> rpcs w' = rpcs w ->
  ops_ (batcher w') = ops_ (batcher w) ->
  state_ (batcher w') = state_ (batcher w)
  ∨ (state_ (batcher w') ≠ kComplete ∧ state_ (batcher w') ≠ kAborted) ->
  owned_but skip w'.
Proof.
  intros (A & G & B & C & D & E & F) Hh Hl Hr Ho Hst.
  unfold owned_but, in_flight in *. rewrite Hh, Hl, Hr, Ho.
  split_and!; try done.
  - intros Hc. destruct Hst as [Hst|[? _]]; [|done]. rewrite Hst in Hc. auto.
  - intros Ha. destruct Hst as [Hst|[_ ?]]; [|done]. rewrite Hst in Ha. auto.
Qed.

Lemma owned_skel skip w w' :
  owned_but skip w -> skel w' = skel w -> ops_ (batcher w') = ops_ (batcher w) ->
  owned_but skip w'.
Proof.
  intros Hp Hs Ho. apply skel_eq in Hs as (Hst & _ & _ & _ & _ & Hh & Hl & Hr & _).
  apply (owned_same skip w); auto.
Qed.

Lemma owned_Mark h s w w' :
  owned_but (Some h) w -> (h ∉ lookups w) -> (h ∉ in_flight w) ->
  MarkInFlightOpFailedUnlocked h s w = Some w' -> owned w'.
Proof.
  intros (A & G & B & C & D & E & F) Hnl Hnf Hm.
  apply MarkInFlightOpFailedUnlocked_spec in Hm as (Hs & _ & Ho & _).
  apply skel_eq in Hs as (Hst & _ & _ & _ & _ & Hh & Hl & Hr & _).
  unfold owned, owned_but, in_flight in *. rewrite Hst, Hh, Hl, Hr, Ho.
  split_and!; try done.
  - intros h' Hin. destruct (B h' Hin) as [? ?]. split; [|done].
    apply elem_of_difference. split; [done|]. intros ->%elem_of_singleton. done.
  - intros h' Hin. destruct (C h' Hin) as [? ?]. split; [|done].
    apply elem_of_difference. split; [done|]. intros ->%elem_of_singleton. done.
  - intros h' [Hin Hne]%elem_of_difference _. apply D; [done|].
    intros [= ->]. apply Hne. by apply elem_of_singleton.
  - intros Hc. rewrite (E Hc). set_solver.
  - intros Ha h' [Hin Hne]%elem_of_difference _. apply (F Ha); [done|].
    intros [= ->]. apply Hne. by apply elem_of_singleton.
Qed.

Lemma elem_of_buffered_ops o w h :
  h ∈ buffered_ops o w
  ↔ h ∈ ops_ (batcher w) ∧ state <$> heap w !! h = Some kBufferedToTabletServer.
Proof.
  unfold buffered_ops. rewrite list_elem_of_filter, elem_of_ops_in_order. tauto.
Qed.

Lemma owned_Abort o status w w' : owned w -> Abort o status w = Some w' -> owned w'.
Proof.
  intros (A & G & B & C & D & E & F) Ha.
  pose proof (Abort_state _ _ _ _ Ha) as Hst.
  pose proof (Abort_facts _ _ _ _ Ha) as (_ & _ & _ & _ & Hr & Hl & _).
  apply Abort_exact in Ha as (Hs & Ho & _).
  apply skel_eq in Hs as (_ & _ & _ & _ & _ & Hh & _).
  assert (Hh' : heap w' = heap w).
  { rewrite Hh. unfold abort_skel. by destruct (flush_callback_ (batcher w)). }
  assert (Hkeep : ∀ h, h ∈ ops_ (batcher w) ->
            state <$> heap w !! h ≠ Some kBufferedToTabletServer -> h ∈ ops_ (batcher w')).
  { intros h Hin Hnb. rewrite Ho. apply elem_of_difference. split; [done|].
    intros Hb%elem_of_list_to_set%elem_of_buffered_ops. by destruct Hb. }
  unfold owned, owned_but, in_flight in *. rewrite Hh', Hl, Hr, Hst.
  split_and!; try done.
  - intros h Hin. destruct (B h Hin) as [Hops Hs]. split; [|done].
    apply Hkeep; [done|]. by rewrite Hs.
  - intros h Hin. destruct (C h Hin) as [Hops Hs]. split; [|done].
    apply Hkeep; [done|]. by rewrite Hs.
  - intros h Hin _. rewrite Ho in Hin. apply elem_of_difference in Hin as [Hin _].
    by apply D.
  - intros _ h Hin _. rewrite Ho in Hin. apply elem_of_difference in Hin as [Hin Hnb].
    destruct (D h Hin) as [?|[?|Hb]]; [done|by left|by right|].
    destruct Hnb. apply elem_of_list_to_set, elem_of_buffered_ops. done.
Qed.

Lemma owned_CheckForFinishedFlush skip o w w' :
  owned_but skip w -> CheckForFinishedFlush o w = Some w' -> owned_but skip w'.
Proof.
  intros Hp Hc. apply CheckForFinishedFlush_spec in Hc as [[_ ->]|([Hemp _] & cb & _ & ->)].
  - done.
  - destruct Hp as (A & G & B & C & D & E & F).
    unfold owned_but, in_flight, finish_world in *.
    destruct (session_alive o); simpl; rewrite ?Hemp in *; split_and!; done.
Qed.

Lemma owned_ExecuteOperations o initial w w' :
  owned w -> (state_ (batcher w) = kTransactionPrepare -> preparing w) ->
  ExecuteOperations o initial w = Some w' -> owned w'.
Proof.
  intros Hp Hprep He.
  pose proof (ExecuteOperations_heap _ _ _ _ He) as Hheap.
  apply ExecuteOperations_spec in He as (Hd & _ & _ & Hcase).
  apply data_view_eq in Hd as (Ho & _ & _ & _ & _ & _ & Hl).
  destruct Hcase as [(_ & _ & _ & Hst & _ & Hr & _)|[(_ & _ & Hst & _ & Hr & _)
                    |(Hst & _ & Hst' & _ & new_rpcs & Hr & _ & _ & Hnew)]].
  - rewrite Hr, drop_all, take_ops_nil in Hheap. apply (owned_same None w); auto.
  - rewrite Hr, drop_all, take_ops_nil in Hheap. apply (owned_same None w); auto.
  - destruct (Hprep Hst) as (_ & _ & _ & _ & Hr0 & Hl0 & _ & Hq & Hnd & Hset & Ht).
    rewrite Hr0 in Hr, Hheap. simpl in Hr, Hheap. rewrite Hr, drop_0 in Hheap.
    assert (Ht' : tiles 0 (prepared_groups o w) (length (ops_queue_ (batcher w)))).
    { eapply tiles_bounds; [|exact Ht]. symmetry. apply prepared_groups_bounds. }
    destruct (Hnew Hq) as (w0 & need & Hq0 & _ & _ & Hcr).
    apply create_rpcs_ops in Hcr. rewrite Hq0 in Hcr.
    destruct (tiles_concat (ops_queue_ (batcher w)) 0 _ Ht') as [Hconcat Hne].
    rewrite <- Hcr in Hconcat, Hne. simpl in Hconcat. rewrite Hconcat in Hheap.
    destruct Hp as (A & G & B & C & D & E & F).
    assert (Hin_queue : ∀ h, h ∈ ops_queue_ (batcher w) ->
              state <$> heap w' !! h = Some kCompleted).
    { intros h Hin. rewrite Hheap, take_ops_lookup.
      destruct (D h) as [Hx|[Hx|Hx]]; [by rewrite Hset, elem_of_list_to_set|done|..].
      - rewrite Hl0 in Hx. by apply elem_of_nil in Hx.
      - unfold in_flight in Hx. rewrite Hr0 in Hx. by apply elem_of_nil in Hx.
      - unfold Handle in *. destruct (heap w !! h); [|done]. simpl.
        by rewrite bool_decide_eq_true_2. }
    unfold owned, owned_but, in_flight. rewrite Hr, Hconcat, Ho, Hl, Hl0, Hst', Hset.
    split_and!; try done.
    + intros h Hin. split; [by apply elem_of_list_to_set|by apply Hin_queue].
    + intros h Hin. by apply elem_of_nil in Hin.
    + intros h Hin%elem_of_list_to_set _. right. by left.
Qed.

Lemma resolving_grouped lf w sorted groups n :
  resolving lf w -> outstanding_lookups_ (batcher w) = 0 ->
  ops_queue_ (batcher w) ≠ [] ->
  sorted_items w = Some sorted ->
  make_groups (sorted.*2) (ops_info_groups (batcher w)) = LoopDone groups n ->
  had_errors_ (batcher w) = false ->
  preparing (grouped_world w sorted groups) ∧ prepare_waiting w = false.
Proof.
  intros (Hst & Hcb & Hg & Herr) Hout0 Hq Hsorted Hmk Herr0.
  pose proof Hg as (Hout & Hnd & Hset & Hlook & Hvalid & Hgroups & Hr & Hpw & Hsent & Hruns).
  pose proof (gathering_no_lookups _ Hg Hout0) as Hl.
  rewrite Hl in Hset, Hnd. simpl in Hset, Hnd.
  destruct (sorted_items_spec _ _ Hsorted) as (Hperm & _ & _).
  rewrite Hgroups in Hmk. apply make_groups_grouped, grouped_tiles in Hmk.
  rewrite !length_fmap in Hmk.
  split; [|done]. unfold preparing, grouped_world. simpl.
  rewrite length_fmap. split_and!; try done.
  - intros Hnil. rewrite Hnil in Hperm. by apply Permutation_nil_l in Hperm.
  - by rewrite Hperm.
  - rewrite Hset. apply list_to_set_perm_L. done.
Qed.

Lemma owned_FlushBuffersIfReady o w w' :
  owned w -> (state_ (batcher w) = kResolvingTablets -> resolving false w) ->
  FlushBuffersIfReady o w = Some w' -> owned w'.
Proof.
  intros Hp Hres Hf. apply FlushBuffersIfReady_inv in Hf
    as [[_ ->]|(Hout & Hst & [[_ ->]|[(_ & _ & Ha)|(Hq & Herr & sorted & Hsorted & Hg)]])].
  - done.
  - apply (owned_same None w); auto.
  - refine (owned_Abort _ _ _ _ _ Ha). apply (owned_same None w); auto.
  - assert (Hpg : ∀ groups, owned (grouped_world w sorted groups)).
    { intros groups. apply (owned_same None w); auto. }
    destruct Hg as [(status & groups & _ & Ha)|(groups & n & Hmk & He)].
    + exact (owned_Abort _ _ _ _ (Hpg groups) Ha).
    + refine (owned_ExecuteOperations _ _ _ _ (Hpg groups) _ He). intros _.
      by destruct (resolving_grouped _ _ _ _ _ (Hres Hst) Hout Hq Hsorted Hmk Herr).
Qed.

Lemma owned_finish_lookup o w0 w3 w' :
  owned w3 -> (state_ (batcher w3) = kResolvingTablets -> resolving false w3) ->
  finish_lookup o w0 w3 w' -> owned w'.
Proof.
  unfold finish_lookup. destruct (bool_decide _).
  - apply owned_FlushBuffersIfReady.
  - by intros ? _ ->.
Qed.

Lemma accept_world_frame h t op w :
  heap w !! h = Some op -> state op = kLookingUpTablet ->
  batcher (accept_world h t op w)
  = set_ops_queue_ (ops_queue_ (batcher w) ++ [h]) (batcher w)
  ∧ heap (accept_world h t op w)
    = <[h := set_op_state kBufferedToTabletServer (set_op_tablet t op)]> (heap w)
  ∧ lookups (accept_world h t op w) = lookups w
  ∧ trace (accept_world h t op w) = trace w
  ∧ rpcs (accept_world h t op w) = rpcs w
  ∧ prepare_waiting (accept_world h t op w) = prepare_waiting w.
Proof.
  intros Hop Hst. unfold accept_world. rewrite bool_decide_eq_true_2 by done. simpl.
  split_and!; try done. by rewrite list_insert_insert_eq.
Qed.

Lemma owned_accept h t op w :
  owned_but (Some h) w -> heap w !! h = Some op -> state op = kLookingUpTablet ->
  (h ∉ lookups w) ->
  state_ (batcher w) = kResolvingTablets ∨ state_ (batcher w) = kGatheringOps ->
  owned (accept_world h t op w).
Proof.
  intros (A & G & B & C & D & E & F) Hop Hlooking Hnl Hst.
  destruct (accept_world_frame h t op w Hop Hlooking) as (Hb & Hh & Hl & _ & Hr & _).
  assert (Hother : ∀ h' s, state <$> heap w !! h' = Some s -> s ≠ kLookingUpTablet ->
            state <$> heap (accept_world h t op w) !! h' = Some s).
  { intros h' s Hs Hne. rewrite Hh. destruct (decide (h' = h)) as [->|Hne'].
    - unfold Handle in *. rewrite Hop in Hs. simpl in Hs. congruence.
    - by rewrite list_lookup_insert_ne. }
  unfold owned, owned_but, in_flight in *. rewrite Hb, Hl, Hr. simpl. split_and!; try done.
  - intros h' Hin. destruct (B h' Hin) as [? Hs]. split; [done|]. by apply Hother.
  - intros h' Hin. destruct (C h' Hin) as [? Hs]. split; [done|].
    rewrite Hh, list_lookup_insert_ne; [done|]. by intros ->.
  - intros h' Hin _. destruct (decide (h' = h)) as [->|Hne].
    + right. right. rewrite Hh, list_lookup_insert_eq by (by eapply lookup_lt_Some). done.
    + destruct (D h' Hin) as [?|[?|Hs]]; [by intros [= ->]|by left|by right; left|].
      right. right. by apply Hother.
  - intros Ha. destruct Hst; congruence.
Qed.

Lemma owned_TabletLookupFinished f lf o h r w w' :
  Inv f lf w -> owned w -> h ∈ lookups w ->
  TabletLookupFinished o h r (set_lookups (filter (λ h', h' ≠ h) (lookups w)) w) = Some w' ->
  owned w'.
Proof.
  intros HI Hp Hin Ht. pose proof Hp as (A & G & B & C & D & E & F).
  destruct (C h Hin) as [Hops Hlooking].
  assert (Hnf : h ∉ in_flight w).
  { intros Hf. destruct (B h Hf) as [_ Hs]. congruence. }
  set (v := set_lookups (filter (λ h', h' ≠ h) (lookups w)) w) in *.
  assert (Hv : owned_but (Some h) (lookup_counted v)).
  { unfold owned_but, in_flight in *. simpl. split_and!; try done.
    - intros h' [_ Hin']%list_elem_of_filter. by apply C.
    - intros h' Hin' Hne. destruct (D h' Hin') as [?|[?|?]]; [done| |by right; left|by right; right].
      left. apply list_elem_of_filter. split; [|done]. by intros ->.
    - intros Hab h' Hin' Hne. destruct (F Hab h' Hin') as [?|?]; [done| |by right].
      left. apply list_elem_of_filter. split; [|done]. by intros ->. }
  assert (Hnl : h ∉ lookups (lookup_counted v)).
  { simpl. intros [Hne _]%list_elem_of_filter. done. }
  apply TabletLookupFinished_inv in Ht
    as [(_ & Hm)|[(Hs1 & Hs2 & Hs3 & _)|(Hst & op & Hop & Hfin)]].
  - by eapply owned_Mark.
  - exfalso. simpl in *. unfold Inv in HI. destruct (state_ (batcher w)); try done.
    + destruct HI as (_ & _ & (_ & _ & _ & _ & _ & Hl & _) & _). rewrite Hl in Hin.
      by apply elem_of_nil in Hin.
    + destruct HI as (_ & _ & (_ & _ & _ & Hl & _)). rewrite Hl in Hin.
      by apply elem_of_nil in Hin.
    + destruct HI as (_ & _ & _ & (Hl & _) & _). rewrite Hl in Hin.
      by apply elem_of_nil in Hin.
  - simpl in Hst, Hop.
    destruct (Inv_gathering _ _ _ HI Hst) as (Hg & _ & Hres & _).
    fold (answered h w) in Hfin.
    assert (Hstate : state op = kLookingUpTablet).
    { rewrite Hop in Hlooking. simpl in Hlooking. congruence. }
    destruct Hfin as [(t & _ & Hfin)|(s & w2 & w3 & _ & Hm & Hc & Hfin)].
    + destruct (gathering_accept w h t op Hg Hin Hop) as (Hg3 & _ & Hb3).
      refine (owned_finish_lookup _ _ _ _ _ _ Hfin).
      * apply owned_accept; done.
      * subst v. fold (answered h w).
        rewrite Hb3. simpl. intros Hst3. destruct (Hres Hst3) as [_ Hcb].
        unfold resolving. rewrite Hb3. simpl. split_and!; done.
    + destruct (gathering_reject w h s w2 Hg Hin Hm) as (Hg2 & _ & Hst2 & Hcb2 & _).
      assert (Hp2 : owned w2) by (by eapply owned_Mark).
      refine (owned_finish_lookup _ _ _ _ _ _ Hfin).
      * by eapply owned_CheckForFinishedFlush.
      * apply CheckForFinishedFlush_spec in Hc as [[_ ->]|(_ & cb & _ & ->)].
        -- rewrite Hst2. intros Hst3. destruct (Hres Hst3) as [_ Hcb].
           unfold resolving. rewrite Hst2, Hcb2. split_and!; done.
        -- unfold finish_world. by destruct (session_alive o).
Qed.

Lemma owned_LookupCallback f lf o h r w w' :
  Inv f lf w -> owned w -> LookupCallback o h r w = Some w' -> owned w'.
Proof.
  intros HI Hp. unfold LookupCallback. case_bool_decide as Hin; [|done].
  by apply (owned_TabletLookupFinished f lf).
Qed.

(** The world of an accepted [Add] when the lookup of the new operation is
    owed. *)
Lemma Inv_accepted f lf refreshed op w h w2 :
  Inv f lf w -> state_ (batcher w) = kGatheringOps ->
  AddInFlightOp (keyed_InFlightOp op (GetPartitionKey op).2)
    (ingress_world refreshed op (GetPartitionKey op).2 w) = Some (h, w2) ->
  let wl := set_lookups (lookups w2 ++ [h]) w2 in
  Inv f lf wl ∧ (h ∉ lookups w2)
  ∧ set_lookups (filter (λ h', h' ≠ h) (lookups wl)) wl = w2.
Proof.
  intros HI Hst Hadd wl.
  destruct (Inv_gathering _ _ _ HI (or_intror Hst)) as (Hg & Herr & _ & Hgath).
  destruct (Hgath Hst) as [-> Hcb].
  set (wi := ingress_world refreshed op (GetPartitionKey op).2 w) in *.
  assert (Hvi : inv_view wi = inv_view w).
  { subst wi. unfold ingress_world, stamp_hash_code, SetHashCode, inv_view.
    destruct refreshed, (IsHashPartitioning op), (type op); simpl;
      repeat case_bool_decide; trace_simpl; done. }
  assert (Hgi : gathering wi).
  { pose proof (Inv_view _ _ _ _ Hvi HI) as HIi. unfold Inv in HIi.
    apply inv_view_eq in Hvi as (E1 & _). rewrite E1, Hst in HIi. tauto. }
  apply inv_view_eq in Hvi as (_ & E2 & E3 & _).
  destruct (gathering_AddInFlightOp (keyed_InFlightOp op (GetPartitionKey op).2)
              wi h w2 Hgi eq_refl Hadd)
    as (Hgl & Hnotin & Hst2 & Hcb2 & Herr2).
  split_and!; [|done|].
  - unfold Inv. simpl. rewrite Hst2, Hcb2, Herr2, E2, E3. done.
  - subst wl. simpl. rewrite filter_app, filter_ne_id by done.
    rewrite filter_cons_False, filter_nil, app_nil_r by (by intros ?).
    by destruct w2.
Qed.

Lemma owned_Add f lf o op w st w' :
  Inv f lf w -> owned w -> Add o op w = Some (st, w') -> owned w'.
Proof.
  intros HI Hp Ha. apply Add_inv in Ha
    as [(_ & _ & ->)|[(_ & _ & _ & ->)|[(_ & _ & _ & ->)|Hadded]]]; try done.
  destruct Hadded as (Hst & _ & _ & refreshed & h & w2 & _ & Hadd & Hlook).
  destruct (Inv_accepted _ _ _ _ _ _ _ HI Hst Hadd) as (HIl & Hnotin & Hw2).
  apply AddInFlightOp_spec in Hadd as (_ & Hh & _ & Hw2').
  destruct (ingress_world_frame refreshed op (GetPartitionKey op).2 w)
    as (Hbi & Hhi & Hli & _).
  assert (Hri : rpcs (ingress_world refreshed op (GetPartitionKey op).2 w) = rpcs w).
  { unfold ingress_world, stamp_hash_code, SetHashCode.
    destruct refreshed, (IsHashPartitioning op), (type op); simpl; try done;
      by case_bool_decide. }
  rewrite Hhi in Hh. rewrite Hbi, Hhi in Hw2'. simpl in Hw2'.
  destruct Hp as (A & G & B & C & D & E & F).
  assert (Hold : ∀ h' s, state <$> heap w !! h' = Some s ->
                         state <$> heap w2 !! h' = Some s).
  { intros h' s Hs. subst w2. simpl.
    destruct (heap w !! h') as [x|] eqn:Hx; [|done].
    by rewrite (lookup_app_l_Some _ _ _ _ Hx). }
  assert (Hnew : state <$> heap w2 !! h = Some kLookingUpTablet).
  { subst w2 h. simpl. by rewrite lookup_app_r, Nat.sub_diag. }
  assert (Hpl : owned (set_lookups (lookups w2 ++ [h]) w2)).
  { unfold owned, owned_but, in_flight in *. subst w2. simpl in *.
    rewrite Hli, Hri, Hst. split_and!; try done.
    - intros h' Hin. destruct (B h' Hin) as [? Hs]. split; [set_solver|by apply Hold].
    - intros h' [Hin|Hin]%elem_of_app.
      + destruct (C h' Hin) as [? Hs]. split; [set_solver|by apply Hold].
      + apply list_elem_of_singleton in Hin as ->. split; [set_solver|done].
    - intros h' [Hin|Hin]%elem_of_union _.
      + apply elem_of_singleton in Hin as ->. left. set_solver.
      + destruct (D h' Hin) as [?|[?|Hs]]; [done|left; set_solver|by right; left|].
        right. right. by apply Hold. }
  destruct (op_tablet op) as [t|].
  - rewrite <- Hw2 in Hlook.
    refine (owned_TabletLookupFinished _ _ _ _ _ _ _ HIl Hpl _ Hlook).
    simpl. apply elem_of_app. right. by apply list_elem_of_singleton.
  - subst w'. apply (owned_same None (set_lookups (lookups w2 ++ [h]) w2)); auto.
Qed.

Lemma owned_FlushAsync f lf o cb retry w w' :
  Inv f lf w -> owned w -> FlushAsync o cb retry w = Some w' -> owned w'.
Proof.
  unfold FlushAsync. intros HI Hp. case_bool_decide as Hst; [done|].
  destruct (Inv_gathering _ _ _ HI (or_intror Hst)) as (Hg & _).
  match goal with
  | |- match CheckForFinishedFlush o ?x with _ => _ end = _ -> _ => set (w1 := x) in *
  end.
  destruct (CheckForFinishedFlush o w1) as [w2|] eqn:Hc; [|done]. intros Hf.
  assert (Hres : resolving false w1).
  { unfold resolving. split_and!; [| | |done].
    - subst w1. unfold cfg. simpl.
      by destruct (session_alive o); simpl;
        destruct (has_transaction (config (batcher w)) && negb retry).
    - subst w1. unfold cfg. simpl.
      destruct (session_alive o); simpl;
        destruct (has_transaction (config (batcher w)) && negb retry); simpl; eauto.
    - eapply gathering_same; [|exact Hg]. subst w1. unfold gathering_view, cfg. simpl.
      destruct (session_alive o); simpl;
        destruct (has_transaction (config (batcher w)) && negb retry); trace_simpl; done. }
  assert (Hp1 : owned w1).
  { apply (owned_same None w); [done|..|right]; subst w1; unfold cfg;
      destruct (session_alive o), (has_transaction _ && _); done. }
  refine (owned_FlushBuffersIfReady _ _ _ _ _ Hf).
  - by eapply owned_CheckForFinishedFlush.
  - apply CheckForFinishedFlush_spec in Hc as [[_ ->]|(_ & cb' & _ & ->)]; [done|].
    unfold finish_world. by destruct (session_alive o).
Qed.

Lemma owned_RpcFinished o k s resp w w' :
  owned w -> RpcFinished o k s resp w = Some w' -> owned w'.
Proof.
  unfold RpcFinished. intros Hp. destruct (rpcs w !! k) as [rpc|] eqn:Hk; [|done].
  destruct (match rpc_kind rpc with WriteRpc => _ | _ => _ end) as [w1|] eqn:Hp1; [|done].
  destruct (RemoveInFlightOpsAfterFlushing _ _ _) as [w2|] eqn:Hr; [|done]. intros Hc.
  refine (owned_CheckForFinishedFlush _ _ _ _ _ Hc).
  pose proof (RemoveInFlightOpsAfterFlushing_view _ _ _ _ Hr) as (Hv2 & Ho2 & _).
  apply RemoveInFlightOpsAfterFlushing_frame in Hr as [Hbut _].
  assert (Hh2 : heap w2 = heap w1) by (unfold but_ops in Hbut; by simplify_eq).
  assert (rpc_view w1 = rpc_view (set_rpcs (delete k (rpcs w)) w)
          ∧ ops_ (batcher w1) = ops_ (batcher w)) as [Hv1 Ho1].
  { destruct (rpc_kind rpc);
      [by apply ProcessWriteResponse_view in Hp1
      |by apply ProcessRpcStatus_view in Hp1..]. }
  assert (Hh1 : heap w1 = heap w) by (unfold rpc_view in Hv1; by simplify_eq).
  rewrite Hv1 in Hv2. apply rpc_view_eq in Hv2 as (Hst2 & _ & Hl2 & Hr2 & _).
  simpl in *. rewrite Ho1 in Ho2. rewrite Hh1 in Hh2.
  destruct Hp as (A & G & B & C & D & E & F). unfold in_flight in *.
  destruct (concat_delete (rpc_ops <$> rpcs w) k (rpc_ops rpc))
    as [Hnd' Hset']; [by rewrite list_lookup_fmap, Hk|done|].
  rewrite <- list_fmap_delete in Hnd', Hset'.
  assert (Hleft : ∀ h, h ∈ concat (rpc_ops <$> delete k (rpcs w))
                       ↔ h ∈ concat (rpc_ops <$> rpcs w) ∧ h ∉ rpc_ops rpc).
  { intros h. rewrite <- (elem_of_list_to_set (C := gset Handle)), <- Hset'.
    rewrite elem_of_difference, !elem_of_list_to_set. done. }
  assert (Hrpc : ∀ h, h ∈ rpc_ops rpc -> h ∈ concat (rpc_ops <$> rpcs w)).
  { intros h Hin. rewrite <- (take_drop_middle _ _ _ Hk), fmap_app, concat_app.
    rewrite fmap_cons, concat_cons, !elem_of_app. auto. }
  unfold owned_but, in_flight. rewrite Hst2, Hl2, Hr2, Ho2, Hh2. split_and!.
  - done.
  - rewrite list_fmap_delete, delete_take_drop. apply Forall_app.
    split; [by apply Forall_take|by apply Forall_drop].
  - intros h [Hin Hnot]%Hleft. destruct (B h Hin) as [? ?]. split; [|done].
    apply elem_of_difference. by rewrite elem_of_list_to_set.
  - intros h Hin. destruct (C h Hin) as [? Hs]. split; [|done].
    apply elem_of_difference. rewrite elem_of_list_to_set. split; [done|].
    intros Hx. destruct (B h (Hrpc h Hx)) as [_ Hs']. congruence.
  - intros h [Hin Hnot]%elem_of_difference _. rewrite elem_of_list_to_set in Hnot.
    destruct (D h Hin) as [?|[?|?]]; [done|by left| |by right; right].
    right. left. by apply Hleft.
  - intros Hc'. rewrite (E Hc'). set_solver.
  - intros Ha h [Hin Hnot]%elem_of_difference _. rewrite elem_of_list_to_set in Hnot.
    destruct (F Ha h Hin) as [?|?]; [done|by left|]. right. by apply Hleft.
Qed.

Lemma owned_ReadyCallback f lf o s w w' :
  Inv f lf w -> owned w -> ReadyCallback o s w = Some w' -> owned w'.
Proof.
  unfold ReadyCallback, TransactionReady. intros HI Hp.
  destruct (prepare_waiting w); [|done].
  assert (Hp0 : owned (set_prepare_waiting false w))
    by (by apply (owned_same None w); auto).
  destruct (ok s); intros Hr.
  - refine (owned_ExecuteOperations _ _ _ _ Hp0 _ Hr). simpl. intros Hst.
    unfold Inv in HI. rewrite Hst in HI. by destruct HI as (_ & _ & Hprep & _).
  - by eapply owned_Abort.
Qed.

Lemma owned_step f lf w oe w' :
  Inv f lf w -> owned w -> step w oe = Some w' -> owned w'.
Proof.
  unfold step. destruct oe as [o []]; simpl; intros HI Hp Hs.
  - destruct (Add o op w) as [[st w1]|] eqn:Ha; [|done]. simpl in Hs. simplify_eq.
    by eapply owned_Add.
  - by eapply owned_FlushAsync.
  - by eapply owned_LookupCallback.
  - by eapply owned_ReadyCallback.
  - by eapply owned_RpcFinished.
  - by eapply owned_Abort.
  - simplify_eq. by apply (owned_same None w); auto.
  - simplify_eq. by apply (owned_same None w); auto.
Qed.

Lemma owned_run evs f lf w w' :
  Inv f lf w -> owned w -> run w evs = Some w' -> owned w'.
Proof.
  revert f lf w. induction evs as [|oe evs IH]; simpl; intros f lf w HI Hp Hr.
  - by simplify_eq.
  - destruct (step w oe) as [w1|] eqn:Hs; [|done].
    eapply IH; [by eapply Inv_step|by eapply owned_step|done].
Qed.

Lemma owned_new cfg0 : owned (new_World cfg0).
Proof.
  unfold owned, owned_but, in_flight. simpl.
  split_and!; try done; try apply NoDup_nil_2; intros h Hin;
    (by apply elem_of_nil in Hin) || (by apply elem_of_empty in Hin).
Qed.


End Ownership.

(** ** Where the RPCs go *)

Section DispatchSafety.
Context `{Collaborators}.

Lemma placed_same w w' :
  placed w -> heap w' = heap w -> ops_queue_ (batcher w') = ops_queue_ (batcher w) ->
  sent_rpcs w' = sent_rpcs w -> placed w'.
Proof.
  intros [P1 P2] Hh Hq Hs. unfold placed, resolved, suits. by rewrite Hh, Hq, Hs.
Qed.

Lemma queue_grouped_bounds w w' :
  queue_grouped w -> heap w' = heap w -> ops_queue_ (batcher w') = ops_queue_ (batcher w) ->
  bounds <$> ops_info_groups (batcher w') = bounds <$> ops_info_groups (batcher w) ->
  queue_grouped w'.
Proof.
  intros (l & Hl & Hg) Hh Hq Hb. exists l. rewrite Hh, Hq. split; [done|].
  by apply (grouped_bounds _ _ (ops_info_groups (batcher w))).
Qed.

Lemma dispatchable_view w w' :
  dispatch_view w' = dispatch_view w -> dispatchable w -> dispatchable w'.
Proof.
  unfold dispatch_view. intros Hv [Hp Hg]. injection Hv as Hst Hq Hgr Hh Hs. split.
  - by apply (placed_same w).
  - rewrite Hst. intros Hprep. apply (queue_grouped_bounds w); auto. by rewrite Hgr.
Qed.

Lemma dispatchable_left w w' :
  placed w -> heap w' = heap w -> ops_queue_ (batcher w') = ops_queue_ (batcher w) ->
  sent_rpcs w' = sent_rpcs w -> state_ (batcher w') ≠ kTransactionPrepare ->
  dispatchable w'.
Proof. intros Hp Hh Hq Hs Hst. split; [by apply (placed_same w)|done]. Qed.

Lemma dispatch_view_skel w w' : skel w' = skel w -> dispatch_view w' = dispatch_view w.
Proof.
  intros Hs. apply skel_eq in Hs as (Hst & Hq & Hg & _ & _ & Hh & _ & _ & _ & Htr).
  unfold dispatch_view, sent_rpcs. by rewrite Hst, Hq, Hg, Hh, Htr.
Qed.

Lemma placed_Abort o status w w' : placed w -> Abort o status w = Some w' -> dispatchable w'.
Proof.
  intros Hp Ha.
  pose proof (Abort_facts _ _ _ _ Ha) as (Hst & _ & _ & Hsent & _).
  apply Abort_spec in Ha as [Hs _].
  apply skel_eq in Hs as (_ & Hq & _ & _ & _ & Hh & _).
  apply (dispatchable_left w); [done| | |done|by rewrite Hst].
  - rewrite Hh. unfold abort_skel. by destruct (flush_callback_ (batcher w)).
  - rewrite Hq. unfold abort_skel. by destruct (flush_callback_ (batcher w)).
Qed.

Lemma dispatchable_CheckForFinishedFlush o w w' :
  dispatchable w -> CheckForFinishedFlush o w = Some w' -> dispatchable w'.
Proof.
  intros Hd Hc. apply CheckForFinishedFlush_spec in Hc as [[_ ->]|(_ & cb & _ & ->)]; [done|].
  destruct Hd as [Hp _].
  apply (dispatchable_left w); [done|..]; unfold finish_world;
    destruct (session_alive o); trace_simpl; done.
Qed.

Lemma Forall2_heap_lookup (hp : list InFlightOp) (q : list Handle) l i h :
  Forall2 (λ h op, hp !! h = Some op) q l -> q !! i = Some h ->
  ∃ op, l !! i = Some op ∧ hp !! h = Some op.
Proof.
  intros HF Hi. destruct (Forall2_lookup_l _ _ _ _ _ HF Hi) as (op & Hl & Hop). eauto.
Qed.

Lemma new_rpcs_suit w w0 need (gs : list InFlightOpsGroup) new_rpcs :
  placed w -> ops_queue_ (batcher w0) = ops_queue_ (batcher w) -> heap w0 = heap w ->
  (∃ l, Forall2 (λ h op, heap w !! h = Some op) (ops_queue_ (batcher w)) l
        ∧ grouped l 0 gs) ->
  create_rpcs w0 need gs = Some new_rpcs ->
  ∀ rpc h, rpc ∈ new_rpcs -> h ∈ rpc_ops rpc -> suits w rpc h.
Proof.
  intros [P1 _] Hq0 Hh0 (l & HF & Hg) Hcr rpc h Hrpc Hin.
  apply list_elem_of_lookup in Hrpc as [i Hi].
  destruct (create_rpcs_each _ _ _ _ Hcr) as [_ Heach].
  destruct (Heach i rpc Hi)
    as (_ & _ & g & h0 & first & Hgi & Hh0' & Hfirst & _ & Htab & Hkind & Hops & _).
  rewrite Hq0 in Hh0', Hops. rewrite Hh0 in Hfirst.
  rewrite Hops in Hin. apply list_elem_of_lookup in Hin as [j Hj].
  apply slice_lookup in Hj as [Hj Hlt].
  assert (Hgin : g ∈ gs) by (by eapply list_elem_of_lookup_2).
  destruct (grouped_elem _ _ _ _ Hg Hgin) as (Hne & Hend & Hkey).
  destruct (Forall2_heap_lookup _ _ _ _ _ HF Hj) as (op & Hlj & Hop).
  destruct (Forall2_heap_lookup _ _ _ _ _ HF Hh0') as (first' & Hl0 & Hfirst').
  assert (first' = first) as -> by congruence.
  assert (Hk : op_key op = op_key first) by (apply (Hkey (g_begin g + j)%nat); [lia|done..]).
  destruct (P1 h) as (op' & t & Hop' & _ & Ht & Hck); [by eapply list_elem_of_lookup_2|].
  assert (op' = op) as -> by congruence.
  unfold op_key in Hk. injection Hk as Hk1 Hk2.
  exists op, t. split_and!; try done.
  - rewrite Htab, <- Hk1. unfold tablet_get. by rewrite Ht.
  - by rewrite Hkind, Hk2.
Qed.

Lemma suits_op_data w w' rpc h :
  op_data <$> heap w' = op_data <$> heap w -> suits w rpc h -> suits w' rpc h.
Proof.
  intros Hd (op & t & Hop & Ht & Haddr & Hck & Hkind). unfold Handle in *.
  apply (f_equal (λ l, l !! h)) in Hd. rewrite !list_lookup_fmap, Hop in Hd.
  destruct (heap w' !! h) as [op'|] eqn:Hop'; [|done]. simpl in Hd.
  unfold op_data in Hd. injection Hd as Hy Hk Ht' Hseq.
  exists op', t. rewrite Hy, Hk, Ht'. done.
Qed.

Lemma dispatchable_ExecuteOperations o initial w w' :
  dispatchable w -> ExecuteOperations o initial w = Some w' -> dispatchable w'.
Proof.
  intros [Hp Hg] He. pose proof (prepared_groups_bounds o w) as Hb.
  pose proof (ExecuteOperations_heap _ _ _ _ He) as Hh.
  apply ExecuteOperations_spec in He
    as (Hd & _ & Hgr & [(_ & _ & _ & Hst & Hq & Hr & Hs)|[(_ & _ & Hst & Hq & Hr & Hs)
                        |(Hst & _ & Hst' & Hq & new_rpcs & _ & Hs & Hemp & Hnew)]]);
    apply data_view_eq in Hd as (_ & _ & _ & _ & _ & Hdata & _).
  - rewrite Hr, drop_all, take_ops_nil in Hh.
    split; [by apply (placed_same w)|]. rewrite Hst. intros Hprep.
    apply (queue_grouped_bounds w); auto. by rewrite Hgr.
  - rewrite Hr, drop_all, take_ops_nil in Hh.
    split; [by apply (placed_same w)|]. rewrite Hst. intros Hprep.
    apply (queue_grouped_bounds w); auto. by rewrite Hgr.
  - split; [|by rewrite Hst'].
    unfold placed. rewrite Hq, Hs. split.
    + intros h Hin. by apply elem_of_nil in Hin.
    + assert (Hsame : ∀ rpc h, suits w rpc h -> suits w' rpc h).
      { intros rpc h. by apply suits_op_data. }
      intros rpc h Hrpc Hin. apply Hsame.
      apply elem_of_app in Hrpc as [Hrpc|Hrpc]; [destruct Hp as [_ P2]; by apply P2|].
      destruct (decide (ops_queue_ (batcher w) = [])) as [He|Hne].
      { rewrite (Hemp He) in Hrpc. by apply elem_of_nil in Hrpc. }
      destruct (Hnew Hne) as (w0 & need & Hq0 & Hh0 & _ & Hcr).
      destruct (Hg Hst) as (l & HF & Hgrouped).
      refine (new_rpcs_suit w w0 need _ new_rpcs Hp Hq0 Hh0 _ Hcr rpc h Hrpc Hin).
      exists l. split; [done|].
      by apply (grouped_bounds _ _ (ops_info_groups (batcher w))).
Qed.

Lemma placed_perm w w' :
  placed w -> heap w' = heap w -> ops_queue_ (batcher w') ≡ₚ ops_queue_ (batcher w) ->
  sent_rpcs w' = sent_rpcs w -> placed w'.
Proof.
  intros [P1 P2] Hh Hq Hs. unfold placed, resolved, suits. rewrite Hh, Hs. split; [|done].
  intros h Hin. rewrite Hq in Hin. by apply P1.
Qed.

Lemma dispatchable_FlushBuffersIfReady o w w' :
  dispatchable w ->
  (state_ (batcher w) = kResolvingTablets -> ops_info_groups (batcher w) = []) ->
  FlushBuffersIfReady o w = Some w' -> dispatchable w'.
Proof.
  intros [Hp Hg] Hnil Hf. apply FlushBuffersIfReady_inv in Hf
    as [[_ ->]|(_ & Hst & [[_ ->]|[(_ & _ & Ha)|(_ & _ & sorted & Hsorted & Hmk)]])].
  - done.
  - by apply (dispatchable_left w).
  - refine (placed_Abort _ _ _ _ _ Ha). by apply (placed_same w).
  - pose proof (sorted_items_spec _ _ Hsorted) as (Hperm & Hheap & _).
    assert (Hpg : ∀ groups, placed (grouped_world w sorted groups)).
    { intros groups. by apply (placed_perm w). }
    destruct Hmk as [(status & groups & _ & Ha)|(groups & n & Hmk & He)].
    + exact (placed_Abort _ _ _ _ (Hpg groups) Ha).
    + refine (dispatchable_ExecuteOperations _ _ _ _ _ He). split; [done|].
      intros _. exists (sorted.*2). simpl. split.
      * apply Forall2_fmap, Forall_Forall2_diag, Forall_forall.
        intros [h op] Hin. simpl. by apply Hheap.
      * rewrite (Hnil Hst) in Hmk. by apply make_groups_grouped in Hmk.
Qed.


Lemma lookup_verdict_holds o op r t :
  lookup_verdict o op r = ROk t -> ContainsKey (partition t) (partition_key op) = true.
Proof.
  destruct r as [t'|]; [|done]. simpl.
  destruct (ContainsKey (partition t') (partition_key op)) eqn:Hck; simpl; [|done].
  destruct (random_act o && _); [done|]. by intros [= <-].
Qed.

Lemma placed_accept h t op w :
  placed w -> heap w !! h = Some op -> (h ∉ ops_queue_ (batcher w)) -> sent_rpcs w = [] ->
  ContainsKey (partition t) (partition_key op) = true ->
  placed (accept_world h t op w)
  ∧ state_ (batcher (accept_world h t op w)) = state_ (batcher w)
  ∧ ops_info_groups (batcher (accept_world h t op w)) = ops_info_groups (batcher w).
Proof.
  intros [P1 _] Hop Hnq Hsent Hck.
  assert (Hlt : (h < length (heap w))%nat) by (by eapply lookup_lt_Some).
  assert (Hother : ∀ x y h', h' ∈ ops_queue_ (batcher w) ->
            ∃ op' t', <[h := x]> (<[h := y]> (heap w)) !! h' = Some op'
                      ∧ state op' = kBufferedToTabletServer ∧ tablet op' = Some t'
                      ∧ ContainsKey (partition t') (partition_key op') = true).
  { intros x y h' Hin. assert (h ≠ h') by (by intros ->).
    rewrite !list_lookup_insert_ne by done. by apply P1. }
  unfold accept_world. destruct (bool_decide (state op = kLookingUpTablet)); simpl.
  - split; [|done]. unfold placed, resolved, sent_rpcs in *. simpl. rewrite Hsent.
    split; [|by intros rpc h' ?%elem_of_nil].
    intros h' Hin. apply elem_of_app in Hin as [Hin|Hin]; [by apply Hother|].
    apply list_elem_of_singleton in Hin as ->.
    rewrite list_lookup_insert_eq by (by rewrite length_insert).
    eexists _, t. split_and!; done.
  - split; [|done]. unfold placed, resolved, sent_rpcs in *. simpl. rewrite Hsent.
    split; [|by intros rpc h' ?%elem_of_nil].
    intros h' Hin. assert (h ≠ h') by (by intros ->).
    rewrite list_lookup_insert_ne by done. by apply P1.
Qed.

Lemma dispatchable_finish_lookup o w0 w3 w' :
  dispatchable w3 ->
  (state_ (batcher w3) = kResolvingTablets -> ops_info_groups (batcher w3) = []) ->
  finish_lookup o w0 w3 w' -> dispatchable w'.
Proof.
  unfold finish_lookup. destruct (bool_decide _).
  - apply dispatchable_FlushBuffersIfReady.
  - by intros ? _ ->.
Qed.

Lemma dispatchable_TabletLookupFinished o h r w w' :
  dispatchable w ->
  (state_ (batcher w) = kResolvingTablets ∨ state_ (batcher w) = kGatheringOps ->
   (h ∉ ops_queue_ (batcher w)) ∧ sent_rpcs w = [] ∧ ops_info_groups (batcher w) = []) ->
  TabletLookupFinished o h r w = Some w' -> dispatchable w'.
Proof.
  intros Hd Hgr Ht.
  assert (Hdc : dispatchable (lookup_counted w)) by (by apply (dispatchable_view w)).
  apply TabletLookupFinished_inv in Ht
    as [(_ & Hm)|[(_ & _ & _ & ->)|(Hst & op & Hop & Hfin)]]; [|done|].
  - apply MarkInFlightOpFailedUnlocked_spec in Hm as (Hs & _).
    apply dispatch_view_skel in Hs. by apply (dispatchable_view (lookup_counted w)).
  - destruct (Hgr Hst) as (Hnq & Hsent & Hnil).
    destruct Hfin as [(t & Hv & Hfin)|(s & w2 & w3 & _ & Hm & Hc & Hfin)].
    + destruct Hdc as [Hpc _].
      destruct (placed_accept h t op (lookup_counted w) Hpc Hop Hnq Hsent
                  (lookup_verdict_holds _ _ _ _ Hv)) as (Hpa & Hsta & Hga).
      refine (dispatchable_finish_lookup _ _ _ _ _ _ Hfin).
      * split; [done|]. rewrite Hsta. simpl. destruct Hst as [-> | ->]; done.
      * intros _. by rewrite Hga.
    + apply MarkInFlightOpFailedUnlocked_spec in Hm as (Hs & _).
      pose proof (skel_eq _ _ Hs) as (Hst2 & _ & Hg2 & _).
      apply dispatch_view_skel in Hs.
      assert (Hd2 : dispatchable w2) by (by apply (dispatchable_view (lookup_counted w))).
      pose proof (dispatchable_CheckForFinishedFlush _ _ _ Hd2 Hc) as Hd3.
      refine (dispatchable_finish_lookup _ _ _ _ Hd3 _ Hfin).
      apply CheckForFinishedFlush_spec in Hc as [[_ ->]|(_ & cb & _ & ->)].
      * intros _. by rewrite Hg2.
      * unfold finish_world. by destruct (session_alive o).
Qed.

Lemma dispatchable_LookupCallback f lf o h r w w' :
  Inv f lf w -> dispatchable w -> LookupCallback o h r w = Some w' -> dispatchable w'.
Proof.
  intros HI Hd. unfold LookupCallback. case_bool_decide as Hin; [|done].
  apply dispatchable_TabletLookupFinished; [by apply (dispatchable_view w)|].
  simpl. intros Hst.
  destruct (Inv_gathering _ _ _ HI Hst)
    as ((_ & Hnd & _ & _ & _ & Hg & _ & _ & Hsent & _) & _).
  split_and!; [|done..]. intros Hq.
  apply NoDup_app in Hnd as (_ & Hdisj & _). by apply (Hdisj h).
Qed.

Lemma dispatchable_Add f lf o op w st w' :
  Inv f lf w -> dispatchable w -> Add o op w = Some (st, w') -> dispatchable w'.
Proof.
  intros HI Hd Ha. apply Add_inv in Ha
    as [(_ & _ & ->)|[(_ & _ & _ & ->)|[(_ & _ & _ & ->)|Hadded]]]; try done.
  destruct Hadded as (Hst & _ & _ & refreshed & h & w2 & _ & Hadd & Hlook).
  apply AddInFlightOp_spec in Hadd as (_ & Hh & _ & Hw2).
  destruct (ingress_world_frame refreshed op (GetPartitionKey op).2 w)
    as (Hbi & Hhi & Hli & _ & Htri).
  rewrite Hhi in Hh. rewrite Hbi, Hhi in Hw2. simpl in Hw2.
  destruct (Inv_gathering _ _ _ HI (or_intror Hst))
    as ((_ & _ & _ & _ & _ & Hg & _ & _ & Hsent & _) & _).
  destruct Hd as [[P1 _] _].
  assert (Hsent2 : sent_rpcs w2 = []).
  { subst w2. unfold sent_rpcs in *. simpl. rewrite Htri, omap_app, Hsent.
    by destruct refreshed. }
  assert (Hd2 : dispatchable w2).
  { split; [|subst w2; simpl; by rewrite Hst].
    split; [|rewrite Hsent2; by intros rpc h' ?%elem_of_nil].
    intros h' Hin. subst w2. simpl in *.
    destruct (P1 h' Hin) as (x & t & Hx & ?). exists x, t. simpl.
    by rewrite (lookup_app_l_Some _ _ _ _ Hx). }
  destruct (op_tablet op) as [t|].
  - refine (dispatchable_TabletLookupFinished _ _ _ _ _ Hd2 _ Hlook).
    intros _. split_and!; [|done|by subst w2].
    intros Hin. assert (Hin' : h ∈ ops_queue_ (batcher w)) by (by subst w2).
    destruct (P1 h Hin') as (x & _ & Hx & _). apply lookup_lt_Some in Hx. lia.
  - subst w'. apply (dispatchable_view w2); [|done].
    unfold dispatch_view, lookup_started, sent_rpcs. simpl. by rewrite omap_app, app_nil_r.
Qed.

Lemma dispatchable_FlushAsync f lf o cb retry w w' :
  Inv f lf w -> dispatchable w -> FlushAsync o cb retry w = Some w' -> dispatchable w'.
Proof.
  unfold FlushAsync. intros HI [Hp _]. case_bool_decide as Hst; [done|].
  destruct (Inv_gathering _ _ _ HI (or_intror Hst)) as ((_ & _ & _ & _ & _ & Hg & _) & _).
  destruct (CheckForFinishedFlush _ _) as [w1|] eqn:Hc; [|done]. intros Hf.
  match type of Hc with CheckForFinishedFlush _ ?v = _ => set (w0 := v) in * end.
  assert (Hd0 : dispatchable w0).
  { apply (dispatchable_left w); [done|..]; subst w0;
      destruct (session_alive o), (has_transaction _ && _); trace_simpl; done. }
  assert (Hg0 : ops_info_groups (batcher w0) = []).
  { subst w0. by destruct (session_alive o), (has_transaction _ && _). }
  refine (dispatchable_FlushBuffersIfReady _ _ _ _ _ Hf).
  - by eapply dispatchable_CheckForFinishedFlush.
  - apply CheckForFinishedFlush_spec in Hc as [[_ ->]|(_ & cb' & _ & ->)]; [done|].
    unfold finish_world. by destruct (session_alive o).
Qed.

Lemma dispatch_view_rpc w w' : rpc_view w' = rpc_view w -> dispatch_view w' = dispatch_view w.
Proof.
  unfold rpc_view, dispatch_view. intros Hv.
  injection Hv as Hst _ Hq Hg _ Hh _ _ _ _ Hs. by rewrite Hst, Hq, Hg, Hh, Hs.
Qed.

Lemma dispatchable_RpcFinished o k s resp w w' :
  dispatchable w -> RpcFinished o k s resp w = Some w' -> dispatchable w'.
Proof.
  unfold RpcFinished. intros Hd. destruct (rpcs w !! k) as [rpc|]; [|done].
  destruct (match rpc_kind rpc with WriteRpc => _ | _ => _ end) as [w1|] eqn:Hp1; [|done].
  destruct (RemoveInFlightOpsAfterFlushing _ _ _) as [w2|] eqn:Hr; [|done]. intros Hc.
  refine (dispatchable_CheckForFinishedFlush _ _ _ _ Hc).
  apply RemoveInFlightOpsAfterFlushing_view in Hr as (Hv2 & _).
  assert (Hv1 : rpc_view w1 = rpc_view (set_rpcs (delete k (rpcs w)) w)).
  { destruct (rpc_kind rpc);
      [by apply ProcessWriteResponse_view in Hp1 as [? _]
      |by apply ProcessRpcStatus_view in Hp1 as [? _]..]. }
  apply dispatch_view_rpc in Hv1, Hv2.
  apply (dispatchable_view w); [|done]. by rewrite Hv2, Hv1.
Qed.

Lemma dispatchable_ReadyCallback o s w w' :
  dispatchable w -> ReadyCallback o s w = Some w' -> dispatchable w'.
Proof.
  unfold ReadyCallback, TransactionReady. intros Hd. destruct (prepare_waiting w); [|done].
  assert (Hd' : dispatchable (set_prepare_waiting false w))
    by (by apply (dispatchable_view w)).
  destruct (ok s); intros Hr.
  - by eapply dispatchable_ExecuteOperations.
  - destruct Hd' as [Hp' _]. by eapply placed_Abort.
Qed.

Lemma dispatchable_step f lf w oe w' :
  Inv f lf w -> dispatchable w -> step w oe = Some w' -> dispatchable w'.
Proof.
  unfold step. destruct oe as [o []]; simpl; intros HI Hd Hs.
  - destruct (Add o op w) as [[st w1]|] eqn:Ha; [|done]. simpl in Hs. simplify_eq.
    by eapply dispatchable_Add.
  - by eapply dispatchable_FlushAsync.
  - by eapply dispatchable_LookupCallback.
  - by eapply dispatchable_ReadyCallback.
  - by eapply dispatchable_RpcFinished.
  - destruct Hd as [Hp _]. by eapply placed_Abort.
  - simplify_eq. by apply (dispatchable_view w).
  - simplify_eq. by apply (dispatchable_view w).
Qed.

Lemma dispatchable_run evs f lf w w' :
  Inv f lf w -> dispatchable w -> run w evs = Some w' -> dispatchable w'.
Proof.
  revert f lf w. induction evs as [|oe evs IH]; simpl; intros f lf w HI Hd Hr.
  - by simplify_eq.
  - destruct (step w oe) as [w1|] eqn:Hs; [|done].
    eapply IH; [by eapply Inv_step|by eapply dispatchable_step|done].
Qed.

(** X16: in every life cycle, every RPC sent goes to the tablet of each
    operation it carries, that tablet's partition holds the operation's
    partition key, and the RPC is a write, a strong read or a consistent
    prefix read according to the group of its operations; every queued
    operation is buffered and has a tablet whose partition holds its key;
    and no RPC is sent while a lookup is outstanding. *)
Theorem rpcs_suit_their_operations cfg0 evs w :
  run (new_World cfg0) evs = Some w ->
  (∀ rpc h, rpc ∈ sent_rpcs w -> h ∈ rpc_ops rpc ->
     ∃ op t, heap w !! h = Some op ∧ tablet op = Some t
             ∧ tablet_addr t = rpc_tablet rpc
             ∧ ContainsKey (partition t) (partition_key op) = true
             ∧ rpc_kind rpc = rpc_kind_of (group (yb_op op)))
  ∧ (∀ h, h ∈ ops_queue_ (batcher w) ->
       ∃ op t, heap w !! h = Some op ∧ state op = kBufferedToTabletServer
               ∧ tablet op = Some t
               ∧ ContainsKey (partition t) (partition_key op) = true)
  ∧ (lookups w ≠ [] -> sent_rpcs w = []).
Proof.
  intros Hr.
  assert (Hnew : dispatchable (new_World cfg0)).
  { split; [|done]. split; [by intros h ?%elem_of_nil|by intros rpc h ?%elem_of_nil]. }
  destruct (dispatchable_run _ _ _ _ _ (Inv_new cfg0) Hnew Hr) as [[P1 P2] _].
  split_and!; [exact P2|exact P1|].
  pose proof (Inv_run evs false false _ _ (Inv_new cfg0) Hr) as HI.
  intros Hl. unfold Inv in HI. destruct (state_ (batcher w)).
  - by destruct HI as (_ & _ & (_ & _ & _ & _ & _ & _ & _ & _ & ? & _) & _).
  - by destruct HI as (_ & _ & (_ & _ & _ & _ & _ & _ & _ & _ & ? & _) & _).
  - by destruct HI as (_ & _ & (_ & _ & _ & _ & _ & ? & _) & _).
  - by destruct HI as (_ & _ & (_ & _ & _ & ? & _)).
  - by destruct HI as (_ & _ & _ & (? & _) & _).
  - destruct HI as (_ & _ & Hs). apply Hs. by right.
Qed.

End DispatchSafety.

(** ** Dispatch happens *)

Section DispatchTotal.
Context `{Collaborators}.

Lemma group_loop_runs its it gs cg ct acc :
  Forall (λ op, is_Some (tablet op) ∧ ¬ version_mismatch op) its ->
  ∃ groups gs', group_loop its it gs cg ct acc = LoopDone groups gs'.
Proof.
  revert it gs cg ct acc. induction its as [|op rest IH]; intros it gs cg ct acc Hall.
  { simpl. eauto. }
  apply Forall_cons in Hall as [[[t Ht] Hnm] Hall].
  rewrite group_loop_step, Ht.
  assert (Hnext : ∃ groups gs',
            (if bool_decide (op_key op = (ct, cg))
             then group_loop rest (S it) gs cg ct acc
             else group_loop rest (S it) it (group (yb_op op)) (tablet_get op)
                    (acc ++ [mkGroup gs it false])) = LoopDone groups gs').
  { destruct (bool_decide _); by apply IH. }
  destruct (partition_list_version (yb_op op)) as [requested|] eqn:Hv; [|done].
  rewrite bool_decide_eq_false_2; [done|].
  intros Hne. apply Hnm. by exists requested, t.
Qed.

Lemma make_groups_runs l acc :
  l ≠ [] -> Forall (λ op, is_Some (tablet op) ∧ ¬ version_mismatch op) l ->
  ∃ groups n, make_groups l acc = LoopDone groups n.
Proof.
  intros Hne Hall. unfold make_groups. destruct l as [|first l]; [done|].
  destruct (group_loop_runs (first :: l) 0 0 (group (yb_op first)) (tablet_get first) acc Hall)
    as (groups & gs' & ->). eauto.
Qed.

Lemma create_rpcs_ext w1 w2 need gs :
  ops_queue_ (batcher w1) = ops_queue_ (batcher w2) -> heap w1 = heap w2 ->
  cfg w1 = cfg w2 -> create_rpcs w1 need gs = create_rpcs w2 need gs.
Proof.
  intros Hq Hh Hc. induction gs as [|g gs IH]; [done|]. simpl.
  unfold CreateRpc. by rewrite Hq, Hh, Hc, IH.
Qed.

Lemma create_rpcs_total w need l start gs :
  Forall2 (λ h op, heap w !! h = Some op) (ops_queue_ (batcher w)) l ->
  grouped l start gs -> is_Some (create_rpcs w need gs).
Proof.
  intros HF. revert start. induction gs as [|g gs IH]; intros start Hg; [by eexists|].
  simpl in Hg. destruct Hg as (Hb & Hlt & Hle & _ & _ & Hrest).
  destruct (IH _ Hrest) as [rest Hr]. simpl. rewrite Hr.
  pose proof (Forall2_length _ _ _ HF) as Hlen.
  destruct (lookup_lt_is_Some_2 (ops_queue_ (batcher w)) (g_begin g)) as [h Hh]; [lia|].
  destruct (Forall2_heap_lookup _ _ _ _ _ HF Hh) as (first & _ & Hfirst).
  unfold CreateRpc. rewrite Hh, Hfirst, bool_decide_eq_false_2 by lia. by eexists.
Qed.

Lemma ExecuteOperations_total o initial w l :
  state_ (batcher w) = kTransactionPrepare ->
  has_transaction (cfg w) = false ∨ prepare_ready o = true ->
  Forall2 (λ h op, heap w !! h = Some op) (ops_queue_ (batcher w)) l ->
  grouped l 0 (ops_info_groups (batcher w)) ->
  is_Some (ExecuteOperations o initial w).
Proof.
  intros Hst Hready HF Hg.
  assert (Hgp : grouped l 0 (prepared_groups o w)).
  { apply (grouped_bounds _ _ (ops_info_groups (batcher w))); [|done].
    by rewrite prepared_groups_bounds. }
  assert (Hcr : ∀ need, is_Some (create_rpcs w need (prepared_groups o w))).
  { intros need. by eapply create_rpcs_total. }
  unfold ExecuteOperations, prepared_groups, cfg in *.
  destruct (has_transaction (config (batcher w))) eqn:Htx; simpl.
  - destruct Hready as [?|Hready]; [done|]. rewrite Hready. simpl.
    rewrite bool_decide_eq_false_2 by (by intros ?). simpl.
    destruct (bool_decide (ops_queue_ (batcher w) = [])); [by eexists|].
    match goal with
    | |- is_Some (match create_rpcs ?w0 ?need ?gs with _ => _ end) =>
        destruct (Hcr need) as [new_rpcs Hn];
        rewrite (create_rpcs_ext w0 w need gs) by done
    end.
    rewrite Hn. by eexists.
  - rewrite bool_decide_eq_false_2 by (by intros ?). simpl.
    destruct (bool_decide (ops_queue_ (batcher w) = [])); [by eexists|].
    match goal with
    | |- is_Some (match create_rpcs ?w0 ?need ?gs with _ => _ end) =>
        destruct (Hcr need) as [new_rpcs Hn];
        rewrite (create_rpcs_ext w0 w need gs) by done
    end.
    rewrite Hn. by eexists.
Qed.


Lemma FlushBuffersIfReady_sorted o w sorted :
  state_ (batcher w) = kResolvingTablets -> outstanding_lookups_ (batcher w) = 0 ->
  ops_queue_ (batcher w) ≠ [] -> had_errors_ (batcher w) = false ->
  sorted_items w = Some sorted ->
  FlushBuffersIfReady o w
  = match make_groups (sorted.*2) (ops_info_groups (batcher w)) with
    | LoopFault => None
    | LoopAbort status groups => Abort o status (grouped_world w sorted groups)
    | LoopDone groups _ => ExecuteOperations o true (grouped_world w sorted groups)
    end.
Proof.
  intros Hst Hout Hq Herr Hsorted. unfold FlushBuffersIfReady, sorted_items in *.
  rewrite bool_decide_eq_false_2 by (by intros ?).
  rewrite bool_decide_eq_false_2 by (by intros ?).
  rewrite bool_decide_eq_false_2 by done. simpl. rewrite Herr.
  destruct (mapM _ (ops_queue_ (batcher w))) as [items|]; [|done].
  simpl in Hsorted. by simplify_eq.
Qed.

(** X11: the readiness check dispatches a batch that has no failure and no
    stale version: when all lookups are answered, the queue is not empty, no
    error was recorded, every queued operation has its tablet and none
    records a version other than its tablet's, and the transaction, if any,
    is ready, then [FlushBuffersIfReady] returns, the state is
    TransactionReady, at least one RPC is sent, the RPCs carry the queued
    operations, each once, and the callback is not run. *)
Theorem FlushBuffersIfReady_dispatches o w :
  state_ (batcher w) = kResolvingTablets ->
  outstanding_lookups_ (batcher w) = 0 ->
  ops_queue_ (batcher w) ≠ [] ->
  had_errors_ (batcher w) = false ->
  ops_info_groups (batcher w) = [] ->
  has_transaction (cfg w) = false ∨ prepare_ready o = true ->
  Forall (λ h, ∃ op, heap w !! h = Some op ∧ is_Some (tablet op) ∧ ¬ version_mismatch op)
         (ops_queue_ (batcher w)) ->
  ∃ w' new_rpcs,
    FlushBuffersIfReady o w = Some w'
    ∧ state_ (batcher w') = kTransactionReady
    ∧ sent_rpcs w' = sent_rpcs w ++ new_rpcs
    ∧ new_rpcs ≠ []
    ∧ concat (rpc_ops <$> new_rpcs) ≡ₚ ops_queue_ (batcher w)
    ∧ ops_queue_ (batcher w') = []
    ∧ callback_runs w' = callback_runs w.
Proof.
  intros Hst Hout Hq Herr Hnil Hready Hall.
  assert (Hitems : is_Some (mapM (λ h, pair h <$> heap w !! h) (ops_queue_ (batcher w)))).
  { apply mapM_is_Some. eapply Forall_impl; [exact Hall|].
    intros h (op & Hop & _). simpl. rewrite Hop. by eexists. }
  destruct Hitems as [items Hitems].
  set (sorted := std_sort (λ lhs rhs : Handle * InFlightOp, InFlightOp_less lhs.2 rhs.2) items).
  assert (Hsorted : sorted_items w = Some sorted).
  { unfold sorted_items. by rewrite Hitems. }
  pose proof (sorted_items_spec _ _ Hsorted) as (Hperm & Hheap & _).
  assert (Hne : sorted.*2 ≠ []).
  { intros He. apply (f_equal length) in He. rewrite length_fmap in He.
    apply Permutation_length in Hperm. rewrite length_fmap in Hperm.
    destruct (ops_queue_ (batcher w)); [done|]. simpl in *. lia. }
  assert (Hgood : Forall (λ op, is_Some (tablet op) ∧ ¬ version_mismatch op) (sorted.*2)).
  { apply Forall_forall. intros op Hin.
    apply list_elem_of_fmap in Hin as ([h op'] & -> & Hin). simpl.
    pose proof (Hheap _ _ Hin) as Hop.
    assert (Hh : h ∈ ops_queue_ (batcher w)).
    { rewrite <- Hperm. apply list_elem_of_fmap. by exists (h, op'). }
    rewrite Forall_forall in Hall. destruct (Hall h Hh) as (op2 & Hop2 & ?).
    by assert (op2 = op') as -> by congruence. }
  destruct (make_groups_runs (sorted.*2) [] Hne Hgood) as (groups & n & Hmk).
  pose proof (make_groups_grouped _ _ _ Hmk) as Hgrouped.
  set (gw := grouped_world w sorted groups).
  assert (HF : Forall2 (λ h op, heap gw !! h = Some op) (ops_queue_ (batcher gw)) (sorted.*2)).
  { subst gw. simpl. apply Forall2_fmap, Forall_Forall2_diag, Forall_forall.
    intros [h op] Hin. simpl. by apply Hheap. }
  destruct (ExecuteOperations_total o true gw (sorted.*2)) as [w' He]; [done|done|done|done|].
  exists w'.
  assert (Hqg : ops_queue_ (batcher gw) ≠ []).
  { subst gw. simpl. intros He'. apply Hne. apply (f_equal length) in He'.
    rewrite length_fmap in He'. apply length_zero_iff_nil. by rewrite length_fmap. }
  destruct (ExecuteOperations_dispatch _ _ _ _ He eq_refl Hready Hqg)
    as (w0 & new_rpcs & Hq0 & Hh0 & _ & Hcr & Hsent & _ & Hst' & Hq').
  exists new_rpcs.
  pose proof (create_rpcs_ops _ _ _ _ Hcr) as Hops.
  destruct (create_rpcs_each _ _ _ _ Hcr) as [Hlen _].
  assert (Htiles : tiles 0 (prepared_groups o gw) (length (sorted.*1))).
  { apply (tiles_bounds _ _ groups); [by rewrite prepared_groups_bounds|].
    apply grouped_tiles in Hgrouped. by rewrite !length_fmap in *. }
  destruct (tiles_concat (sorted.*1) 0 _ Htiles) as [Hconcat _].
  split_and!.
  - rewrite (FlushBuffersIfReady_sorted o w sorted) by done. by rewrite Hnil, Hmk.
  - done.
  - done.
  - intros ->. simpl in Hlen. rewrite prepared_groups_length in Hlen.
    subst gw. simpl in Hlen. destruct groups; [|done]. simpl in Hgrouped.
    apply Hne. by apply length_zero_iff_nil.
  - rewrite Hops, Hq0. subst gw. simpl. rewrite Hconcat. simpl. done.
  - done.
  - by apply ExecuteOperations_spec in He as (_ & -> & _).
Qed.

End DispatchTotal.

(** ** The transaction, and batchers that are owed nothing *)

Section TransactionPath.
Context `{Collaborators}.

(** X10: [TransactionReady] with a failure aborts the batch with that
    status: the callback gets it and no RPC is sent, then or later. With OK,
    when the batcher is no longer in TransactionPrepare (it was aborted), or
    when the transaction answers "not yet" again, nothing is sent and the
    state stays. *)
Theorem TransactionReady_outcomes o status w :
  (ok status = false ->
   ∃ w', TransactionReady o status w = Some w'
         ∧ state_ (batcher w') = kAborted
         ∧ callback_runs w'
           = callback_runs w
             ++ match flush_callback_ (batcher w) with Some _ => [status] | None => [] end
         ∧ sent_rpcs w' = sent_rpcs w
         ∧ ∀ evs w'', run w' evs = Some w'' -> sent_rpcs w'' = sent_rpcs w)
  ∧ (ok status = true -> state_ (batcher w) ≠ kTransactionPrepare ->
     ∀ w', TransactionReady o status w = Some w' ->
           state_ (batcher w') = state_ (batcher w)
           ∧ sent_rpcs w' = sent_rpcs w ∧ callback_runs w' = callback_runs w)
  ∧ (ok status = true -> has_transaction (cfg w) = true -> prepare_ready o = false ->
     ∀ w', TransactionReady o status w = Some w' ->
           state_ (batcher w') = state_ (batcher w) ∧ prepare_waiting w' = true
           ∧ sent_rpcs w' = sent_rpcs w ∧ callback_runs w' = callback_runs w).
Proof.
  unfold TransactionReady. split_and!.
  - intros ->. destruct (Abort_total o status w) as [w' Ha]. exists w'.
    pose proof (Abort_facts _ _ _ _ Ha) as (Hst & _ & Hruns & Hsent & _).
    split_and!; try done.
    intros evs w'' Hr. apply run_Aborted in Hr as [_ ->]; done.
  - intros -> Hst w' He. apply ExecuteOperations_spec in He
      as (_ & Hruns & _ & [(_ & _ & _ & ? & _ & _ & ?)|[(_ & _ & ? & _ & _ & ?)|(? & _)]]);
      done.
  - intros -> Htx Hready w' He. unfold ExecuteOperations in He. unfold cfg in *.
    rewrite Htx, Hready in He. simpl in He. simplify_eq. trace_simpl. done.
Qed.

(** X17: a flushed batcher that is owed nothing (no lookup, no RPC answer,
    no call from the transaction) is Complete or Aborted; and a batcher in
    TransactionReady is owed the answer of an RPC, one in TransactionPrepare
    the call of the transaction, one in ResolvingTablets a lookup. *)
Theorem flushed_and_quiescent_is_finished cfg0 evs w :
  run (new_World cfg0) evs = Some w ->
  (flushed_in evs = true -> quiescent w ->
   state_ (batcher w) = kComplete ∨ state_ (batcher w) = kAborted)
  ∧ (state_ (batcher w) = kComplete -> flushed_in evs = true ∧ quiescent w)
  ∧ (state_ (batcher w) = kTransactionReady -> rpcs w ≠ [])
  ∧ (state_ (batcher w) = kTransactionPrepare -> prepare_waiting w = true)
  ∧ (state_ (batcher w) = kResolvingTablets -> lookups w ≠ []).
Proof.
  intros Hr. pose proof (Inv_run evs false false _ _ (Inv_new cfg0) Hr) as HI.
  simpl in HI. unfold Inv in HI. split_and!.
  - intros Hf (Hl & Hrp & Hw). rewrite Hf in HI.
    destruct (state_ (batcher w)); auto.
    + by destruct HI as (? & _).
    + by destruct HI as (_ & _ & _ & _ & ?).
    + destruct HI as (_ & _ & _ & ?). congruence.
    + by destruct HI as (_ & _ & (_ & _ & _ & _ & ? & _)).
  - intros Hst. rewrite Hst in HI. by destruct HI as (? & _ & _ & ? & _).
  - intros Hst. rewrite Hst in HI. by destruct HI as (_ & _ & (_ & _ & _ & _ & ? & _)).
  - intros Hst. rewrite Hst in HI. by destruct HI as (_ & _ & _ & ?).
  - intros Hst. rewrite Hst in HI. by destruct HI as (_ & _ & _ & _ & ?).
Qed.

End TransactionPath.

(** ** Counting the buffered operations *)

Section Counting.
Context `{Collaborators}.







End Counting.

(** ** No check fails *)

Section Progress.
Context `{Collaborators}.

Lemma group_loop_no_fault its it gs cg ct acc :
  Forall (λ op, is_Some (tablet op)) its -> group_loop its it gs cg ct acc ≠ LoopFault.
Proof.
  revert it gs cg ct acc. induction its as [|op rest IH]; intros it gs cg ct acc Hall.
  { simpl. done. }
  apply Forall_cons in Hall as [[t Ht] Hall].
  rewrite group_loop_step, Ht.
  assert (Hnext : (if bool_decide (op_key op = (ct, cg))
                   then group_loop rest (S it) gs cg ct acc
                   else group_loop rest (S it) it (group (yb_op op)) (tablet_get op)
                          (acc ++ [mkGroup gs it false])) ≠ LoopFault).
  { destruct (bool_decide _); by apply IH. }
  destruct (partition_list_version (yb_op op)) as [requested|]; [|done].
  destruct (bool_decide (requested ≠ tablet_partition_list_version t)); done.
Qed.

Lemma make_groups_no_fault l acc :
  l ≠ [] -> Forall (λ op, is_Some (tablet op)) l -> make_groups l acc ≠ LoopFault.
Proof.
  intros Hne Hall. unfold make_groups. destruct l as [|first l]; [done|].
  pose proof (group_loop_no_fault (first :: l) 0 0 (group (yb_op first)) (tablet_get first)
                acc Hall) as Hnf.
  by destruct (group_loop (first :: l) 0 0 (group (yb_op first)) (tablet_get first) acc).
Qed.

Lemma ExecuteOperations_runs o initial w :
  (state_ (batcher w) = kTransactionPrepare -> queue_grouped w) ->
  is_Some (ExecuteOperations o initial w).
Proof.
  intros Hg. destruct (decide (state_ (batcher w) = kTransactionPrepare)) as [Hst|Hst].
  - destruct (Hg Hst) as (l & HF & Hgr).
    destruct (has_transaction (cfg w)) eqn:Htx; [|by eapply ExecuteOperations_total; eauto].
    destruct (prepare_ready o) eqn:Hrd; [by eapply ExecuteOperations_total; eauto|].
    unfold ExecuteOperations. rewrite Htx, Hrd. simpl. by eexists.
  - unfold ExecuteOperations.
    destruct (has_transaction (cfg w)); [destruct (prepare_ready o)|]; simpl;
      try (by eexists); rewrite bool_decide_eq_true_2 by done; by eexists.
Qed.

Lemma for_each_Combine_total (f : Handle -> Status) l w :
  (∀ h, h ∈ l -> is_Some (heap w !! h)) ->
  is_Some (for_each (λ h, CombineErrorUnlocked h (f h)) l w).
Proof.
  revert w. induction l as [|h l IH]; simpl; intros w Hall; [by eexists|].
  destruct (Hall h) as [op Hop]; [by left|].
  destruct (CombineErrorUnlocked h (f h) w) as [w1|] eqn:Hc.
  - apply IH. intros h' Hin.
    apply CombineErrorUnlocked_spec in Hc as (Hs & _).
    apply skel_eq in Hs as (_ & _ & _ & _ & _ & -> & _). apply Hall. by right.
  - unfold CombineErrorUnlocked in Hc. by rewrite Hop in Hc.
Qed.

Lemma CheckForFinishedFlush_total o w :
  (finishes w -> is_Some (flush_callback_ (batcher w))) ->
  is_Some (CheckForFinishedFlush o w).
Proof.
  intros Hcb. destruct (CheckForFinishedFlush o w) as [w'|] eqn:Hc; [by eexists|].
  exfalso. unfold CheckForFinishedFlush in Hc.
  destruct (decide (ops_ (batcher w) = ∅)) as [Hops|Hops].
  2:{ by rewrite bool_decide_eq_false_2 in Hc by done. }
  rewrite bool_decide_eq_true_2 in Hc by done. simpl in Hc.
  unfold finishes in Hcb.
  destruct (state_ (batcher w)) eqn:Hst; simpl in Hc; try done.
  - destruct Hcb as [cb Hcb]; [auto|]. unfold RunCallback in Hc.
    by destruct (session_alive o); simpl in Hc; rewrite Hcb in Hc.
  - destruct Hcb as [cb Hcb]; [auto|]. unfold RunCallback in Hc.
    by destruct (session_alive o); simpl in Hc; rewrite Hcb in Hc.
Qed.

(** The readiness check returns when the queued operations are resolved
    and no group is left from before. *)
Lemma FlushBuffersIfReady_total o w :
  (state_ (batcher w) = kResolvingTablets -> had_errors_ (batcher w) = false ->
   (∀ h, h ∈ ops_queue_ (batcher w) -> resolved w h)
   ∧ ops_info_groups (batcher w) = []) ->
  is_Some (FlushBuffersIfReady o w).
Proof.
  intros Hpre.
  destruct (decide (outstanding_lookups_ (batcher w) = 0)) as [Hout|Hout].
  2:{ unfold FlushBuffersIfReady. rewrite bool_decide_eq_true_2 by done. by eexists. }
  destruct (decide (state_ (batcher w) = kResolvingTablets)) as [Hst|Hst].
  2:{ rewrite FlushBuffersIfReady_not_resolving by done. by eexists. }
  destruct (decide (ops_queue_ (batcher w) = [])) as [Hq|Hq].
  { unfold FlushBuffersIfReady.
    rewrite bool_decide_eq_false_2 by (by intros ?).
    rewrite bool_decide_eq_false_2 by (by intros ?).
    rewrite bool_decide_eq_true_2 by done. by eexists. }
  destruct (had_errors_ (batcher w)) eqn:Herr.
  { unfold FlushBuffersIfReady.
    rewrite bool_decide_eq_false_2 by (by intros ?).
    rewrite bool_decide_eq_false_2 by (by intros ?).
    rewrite bool_decide_eq_false_2 by done. simpl. rewrite Herr. apply Abort_total. }
  destruct (Hpre Hst eq_refl) as [Hres Hnil].
  assert (Hitems : is_Some (mapM (λ h, pair h <$> heap w !! h) (ops_queue_ (batcher w)))).
  { apply mapM_is_Some, Forall_forall. intros h Hin.
    destruct (Hres h Hin) as (op & t & Hop & _). simpl.
    unfold Handle in *. rewrite Hop. by eexists. }
  destruct Hitems as [items Hitems].
  set (sorted := std_sort (λ lhs rhs : Handle * InFlightOp, InFlightOp_less lhs.2 rhs.2) items).
  assert (Hsorted : sorted_items w = Some sorted).
  { unfold sorted_items. by rewrite Hitems. }
  pose proof (sorted_items_spec _ _ Hsorted) as (Hperm & Hheap & _).
  assert (Hne : sorted.*2 ≠ []).
  { intros He. apply (f_equal length) in He. rewrite length_fmap in He.
    apply Permutation_length in Hperm. rewrite length_fmap in Hperm.
    destruct (ops_queue_ (batcher w)); [done|]. simpl in *. lia. }
  assert (Hgood : Forall (λ op, is_Some (tablet op)) (sorted.*2)).
  { apply Forall_forall. intros op Hin.
    apply list_elem_of_fmap in Hin as ([h op'] & -> & Hin). simpl.
    pose proof (Hheap _ _ Hin) as Hop.
    assert (Hh : h ∈ ops_queue_ (batcher w)).
    { rewrite <- Hperm. apply list_elem_of_fmap. by exists (h, op'). }
    destruct (Hres h Hh) as (op2 & t & Hop2 & _ & Ht & _).
    assert (op2 = op') as -> by (unfold Handle in *; congruence). by eexists. }
  rewrite (FlushBuffersIfReady_sorted o w sorted) by done. rewrite Hnil.
  pose proof (make_groups_no_fault (sorted.*2) [] Hne Hgood) as Hnf.
  destruct (make_groups (sorted.*2) []) as [|status groups|groups n] eqn:Hmk; [done| |].
  - apply Abort_total.
  - apply ExecuteOperations_runs. intros _. exists (sorted.*2). split.
    + simpl. apply Forall2_fmap, Forall_Forall2_diag, Forall_forall.
      intros [h op] Hin. simpl. by apply Hheap.
    + simpl. by eapply make_groups_grouped.
Qed.

Lemma TabletLookupFinished_eq o h r w op :
  state_ (batcher w) = kResolvingTablets ∨ state_ (batcher w) = kGatheringOps ->
  heap w !! h = Some op ->
  TabletLookupFinished o h r w
  = match lookup_verdict o op r with
    | ROk t =>
        if bool_decide (outstanding_lookups_ (batcher w) - 1 = 0)
        then FlushBuffersIfReady o (accept_world h t op (lookup_counted w))
        else Some (accept_world h t op (lookup_counted w))
    | RErr s =>
        match MarkInFlightOpFailedUnlocked h s (lookup_counted w) with
        | None => None
        | Some w2 =>
            match CheckForFinishedFlush o w2 with
            | None => None
            | Some w3 =>
                if bool_decide (outstanding_lookups_ (batcher w) - 1 = 0)
                then FlushBuffersIfReady o w3 else Some w3
            end
        end
    end.
Proof.
  intros Hst Hop.
  unfold TabletLookupFinished. fold (lookup_counted w).
  change (state_ (batcher (lookup_counted w))) with (state_ (batcher w)).
  change (heap (lookup_counted w)) with (heap w).
  change (outstanding_lookups_ (batcher (lookup_counted w)))
    with (outstanding_lookups_ (batcher w) - 1).
  rewrite bool_decide_eq_false_2 by (destruct Hst as [-> | ->]; done).
  replace (bool_decide (state_ (batcher w) ≠ kResolvingTablets)
           && bool_decide (state_ (batcher w) ≠ kGatheringOps)) with false
    by (symmetry; apply andb_false_iff; rewrite !bool_decide_eq_false; tauto).
  rewrite Hop. unfold lookup_verdict, accept_world.
  destruct r as [t|s]; simpl; [|done].
  destruct (negb (ContainsKey (partition t) (partition_key op))
            || random_act o && bool_decide (namespace_name (yb_op op) = "yb_test"));
    simpl; [done|].
  rewrite list_lookup_insert_eq by (by eapply lookup_lt_Some). simpl.
  by destruct (bool_decide (state op = kLookingUpTablet)).
Qed.

(** [TabletLookupFinished] returns for an operation of [ops_] that is not
    queued. *)
Lemma TabletLookupFinished_total o h r w :
  h ∈ ops_ (batcher w) -> is_Some (heap w !! h) ->
  (state_ (batcher w) = kResolvingTablets ->
   is_Some (flush_callback_ (batcher w)) ∧ placed w ∧ sent_rpcs w = []
   ∧ ops_info_groups (batcher w) = [] ∧ h ∉ ops_queue_ (batcher w)) ->
  is_Some (TabletLookupFinished o h r w).
Proof.
  intros Hin [op Hop] Hres.
  destruct (decide (state_ (batcher w) = kAborted)) as [Hab|Hab].
  { unfold TabletLookupFinished. simpl. rewrite bool_decide_eq_true_2 by done.
    by apply MarkInFlightOpFailedUnlocked_total; [|eexists]. }
  destruct (decide (state_ (batcher w) = kResolvingTablets
                    ∨ state_ (batcher w) = kGatheringOps)) as [Hst|Hst].
  2:{ unfold TabletLookupFinished. simpl. rewrite bool_decide_eq_false_2 by done.
      rewrite !bool_decide_eq_true_2 by tauto. simpl. by eexists. }
  rewrite (TabletLookupFinished_eq o h r w op) by done.
  destruct (lookup_verdict o op r) as [t|s] eqn:Hv.
  - case_bool_decide; [|by eexists]. apply FlushBuffersIfReady_total. intros Hst' _.
    assert (Hpl : placed (lookup_counted w)) by (destruct (Hres ltac:(
      unfold accept_world in Hst'; by destruct (bool_decide _))) as (_ & ? & _);
      by apply (placed_same w)).
    assert (Hstw : state_ (batcher w) = kResolvingTablets).
    { unfold accept_world in Hst'. by destruct (bool_decide _). }
    destruct (Hres Hstw) as (_ & _ & Hsent & Hnil & Hnq).
    destruct (placed_accept h t op (lookup_counted w) Hpl Hop Hnq Hsent) as ([Hq _] & _ & Hg).
    { by eapply lookup_verdict_holds. }
    split; [done|]. by rewrite Hg.
  - destruct (MarkInFlightOpFailedUnlocked_total h s (lookup_counted w)) as [w2 Hm];
      [done|by eexists|].
    rewrite Hm.
    pose proof (MarkInFlightOpFailedUnlocked_spec _ _ _ _ Hm) as (Hs & _ & _ & He2).
    apply skel_eq in Hs as (Hst2 & _ & _ & _ & Hcb2 & _).
    destruct (CheckForFinishedFlush_total o w2) as [w3 Hc].
    { intros [_ [Hr|Hr]]; rewrite Hst2 in Hr; simpl in Hr.
      - rewrite Hcb2. simpl. by destruct (Hres Hr) as (? & _).
      - destruct Hst as [Hst|Hst]; congruence. }
    rewrite Hc. case_bool_decide; [|by eexists].
    apply FlushBuffersIfReady_total. intros _ He3.
    pose proof (settles_CheckForFinishedFlush _ _ _ Hc) as (_ & _ & _ & _ & Hk).
    rewrite Hk in He3 by done. done.
Qed.

Lemma LookupCallback_total f lf o h r w :
  Inv f lf w -> owned w -> dispatchable w -> h ∈ lookups w ->
  is_Some (LookupCallback o h r w).
Proof.
  intros HI Ho [Hpl _] Hin. unfold LookupCallback. rewrite bool_decide_eq_true_2 by done.
  destruct Ho as (_ & _ & _ & Hl & _). destruct (Hl h Hin) as [Hops Hstate].
  apply TabletLookupFinished_total; simpl.
  - done.
  - unfold Handle in *. destruct (heap w !! h); [by eexists|done].
  - intros Hst.
    destruct (Inv_gathering _ _ _ HI (or_introl Hst))
      as ((_ & Hnd & _ & _ & _ & Hg & _ & _ & Hsent & _) & _ & Hcb & _).
    split_and!.
    + by apply Hcb.
    + by apply (placed_same w).
    + done.
    + done.
    + intros Hq. apply NoDup_app in Hnd as (_ & Hdisj & _). by apply (Hdisj h).
Qed.

Lemma Add_total f lf o op w : Inv f lf w -> dispatchable w -> is_Some (Add o op w).
Proof.
  intros HI Hd. unfold Add, Batcher_state.
  case_bool_decide as Hst; [by eexists|].
  assert (Hga : state_ (batcher w) = kGatheringOps).
  { by destruct (decide (state_ (batcher w) = kGatheringOps)). }
  destruct (GetPartitionKey op) as [s key]. destruct (ok s); simpl; [|by eexists].
  destruct (MaybeRefreshTablePartitionList op) as [refreshed|s']; [|by eexists].
  fold (ingress_world refreshed op key w).
  destruct (ingress_world_frame refreshed op key w) as (Hb & Hh & Hl & _ & Htr).
  destruct (Inv_gathering _ _ _ HI (or_intror Hga))
    as ((_ & _ & Hops & Hlk & Hqu & _) & _).
  unfold AddInFlightOp. rewrite Hb, Hh.
  rewrite bool_decide_eq_false_2 by (by intros ?).
  rewrite bool_decide_eq_false_2.
  2:{ rewrite Hops, elem_of_list_to_set, elem_of_app. intros [Hin|Hin].
      - destruct (Hlk _ Hin) as (x & Hx & _). apply lookup_lt_Some in Hx. lia.
      - apply Hqu in Hin. lia. }
  destruct (op_tablet op) as [t|]; [|by eexists].
  match goal with
  | |- is_Some (match TabletLookupFinished o ?h ?r ?w2 with _ => _ end) =>
      destruct (TabletLookupFinished_total o h r w2) as [w3 Hw3]
  end.
  - simpl. set_solver.
  - simpl. rewrite lookup_app_r by done. rewrite Nat.sub_diag. simpl. by eexists.
  - simpl. rewrite Hga. done.
  - rewrite Hw3. by eexists.
Qed.

Lemma FlushAsync_total f lf o cb retry w :
  Inv f lf w -> dispatchable w -> state_ (batcher w) = kGatheringOps ->
  is_Some (FlushAsync o cb retry w).
Proof.
  intros HI [Hpl _] Hst. unfold FlushAsync.
  rewrite bool_decide_eq_false_2 by (by intros ?).
  destruct (Inv_gathering _ _ _ HI (or_intror Hst)) as ((_ & _ & _ & _ & _ & Hg & _) & _).
  match goal with
  | |- is_Some (match CheckForFinishedFlush o ?w1 with _ => _ end) =>
      set (wf := w1);
      assert (Hv : dispatch_view
                     (upd_batcher (set_state_ (state_ (batcher w))) wf)
                   = dispatch_view w ∧ flush_callback_ (batcher wf) = Some cb
                     ∧ ops_info_groups (batcher wf) = ops_info_groups (batcher w)
                     ∧ ops_queue_ (batcher wf) = ops_queue_ (batcher w)
                     ∧ heap wf = heap w)
  end.
  { subst wf. unfold dispatch_view, cfg. simpl.
    destruct (session_alive o); simpl;
      destruct (has_transaction (config (batcher w)) && negb retry); trace_simpl;
      rewrite ?Hst; done. }
  destruct Hv as (_ & Hcb & Hgw & Hqw & Hhw).
  destruct (CheckForFinishedFlush_total o wf) as [w2 Hc].
  { intros _. rewrite Hcb. by eexists. }
  rewrite Hc. apply FlushBuffersIfReady_total. intros Hst2 _.
  apply CheckForFinishedFlush_spec in Hc as [[_ ->]|(_ & cb' & _ & ->)].
  - rewrite Hgw, Hqw, Hg. split; [|done]. intros h Hin.
    destruct Hpl as [Hq _]. destruct (Hq h Hin) as (x & t & ? & ? & ? & ?).
    exists x, t. by rewrite Hhw.
  - unfold finish_world in Hst2. by destruct (session_alive o).
Qed.

Lemma for_each_total {A S} (P : S -> Prop) (body : A -> S -> option S) l s :
  (∀ x s, x ∈ l -> P s -> ∃ s', body x s = Some s' ∧ P s') -> P s ->
  is_Some (for_each body l s).
Proof.
  revert s. induction l as [|x l IH]; simpl; intros s Hbody HP; [by eexists|].
  destruct (Hbody x s) as (s' & -> & HP'); [by left|done|].
  apply IH; [|done]. intros y s0 Hy. apply Hbody. by right.
Qed.

Lemma ProcessRpcStatus_total rpc s w :
  (∀ h, h ∈ rpc_ops rpc -> is_Some (heap w !! h)) ->
  is_Some (ProcessRpcStatus rpc s w).
Proof.
  intros Hall. unfold ProcessRpcStatus. case_bool_decide; [by eexists|].
  destruct (ok s); simpl; [by eexists|].
  by apply (for_each_Combine_total (λ _, s)).
Qed.

Lemma ProcessWriteResponse_total rpc s resp w :
  (∀ h, h ∈ rpc_ops rpc -> is_Some (heap w !! h)) ->
  is_Some (ProcessWriteResponse rpc s resp w).
Proof.
  intros Hall. unfold ProcessWriteResponse.
  destruct (ProcessRpcStatus_total rpc s w Hall) as [w1 Hp]. rewrite Hp.
  apply ProcessRpcStatus_view in Hp as [Hv _].
  assert (Hh1 : heap w1 = heap w) by (unfold rpc_view in Hv; by simplify_eq).
  apply (for_each_total (λ v, heap v = heap w)).
  - intros [i st] v _ Hhv. simpl. case_bool_decide as Hlen; [eauto|].
    destruct (lookup_lt_is_Some_2 (rpc_ops rpc) i) as [h Hh]; [lia|]. rewrite Hh.
    destruct (Hall h) as [x Hx]; [by eapply list_elem_of_lookup_2|].
    destruct (CombineErrorUnlocked h st v) as [v'|] eqn:Hc.
    + exists v'. split; [done|].
      apply CombineErrorUnlocked_spec in Hc as (Hs & _).
      apply skel_eq in Hs as (_ & _ & _ & _ & _ & -> & _). done.
    + unfold CombineErrorUnlocked in Hc. rewrite Hhv in Hc.
      unfold Handle in *. by rewrite Hx in Hc.
  - by destruct (propagated_hybrid_time resp); [destruct (ok s)|].
Qed.

(** The answer of an RPC that is owed one is accepted, also after [Abort]. *)
Lemma RpcFinished_total f lf o k s resp w :
  Inv f lf w -> owned w -> (k < length (rpcs w))%nat ->
  is_Some (RpcFinished o k s resp w).
Proof.
  intros HI Ho Hk. unfold RpcFinished.
  destruct (lookup_lt_is_Some_2 (rpcs w) k Hk) as [rpc Hrpc]. rewrite Hrpc.
  destruct Ho as (Hnd & _ & Hfl & _).
  assert (Hmem : ∀ h, h ∈ rpc_ops rpc -> h ∈ in_flight w).
  { intros h Hh. unfold in_flight.
    rewrite <- (take_drop_middle _ _ _ Hrpc), fmap_app, concat_app. simpl.
    rewrite !elem_of_app. auto. }
  assert (Hndr : NoDup (rpc_ops rpc)).
  { unfold in_flight in Hnd.
    rewrite <- (take_drop_middle _ _ _ Hrpc), fmap_app, concat_app in Hnd. simpl in Hnd.
    apply NoDup_app in Hnd as (_ & _ & Hnd). by apply NoDup_app in Hnd as (? & _). }
  set (w0 := set_rpcs (delete k (rpcs w)) w).
  assert (Hheap : ∀ h, h ∈ rpc_ops rpc -> is_Some (heap w0 !! h)).
  { intros h Hh. destruct (Hfl h (Hmem h Hh)) as [_ Hst]. simpl.
    unfold Handle in *. destruct (heap w !! h); [by eexists|done]. }
  assert (Hhandled : ∃ w1, (match rpc_kind rpc with
                            | WriteRpc => ProcessWriteResponse rpc s resp w0
                            | _ => ProcessReadResponse rpc s w0
                            end) = Some w1
                           ∧ rpc_view w1 = rpc_view w0
                           ∧ ops_ (batcher w1) = ops_ (batcher w0)).
  { destruct (rpc_kind rpc).
    - destruct (ProcessWriteResponse_total rpc s resp w0 Hheap) as [w1 Hw1].
      exists w1. split; [done|]. by apply ProcessWriteResponse_view in Hw1.
    - destruct (ProcessRpcStatus_total rpc s w0 Hheap) as [w1 Hw1].
      exists w1. split; [done|]. by apply ProcessRpcStatus_view in Hw1.
    - destruct (ProcessRpcStatus_total rpc s w0 Hheap) as [w1 Hw1].
      exists w1. split; [done|]. by apply ProcessRpcStatus_view in Hw1. }
  destruct Hhandled as (w1 & -> & Hv1 & Ho1).
  destruct (RemoveInFlightOpsAfterFlushing (rpc_ops rpc) s w1) as [w2|] eqn:Hrm.
  2:{ exfalso.
      destruct (RemoveInFlightOpsAfterFlushing_pre (rpc_ops rpc) s w1)
        as (wx & Hbx & _ & _ & Heq).
      rewrite Heq in Hrm.
      assert (Hsome : is_Some (for_each
                 (λ h w, if bool_decide (h ∈ ops_ (batcher w))
                         then Some (upd_batcher (set_ops_ (ops_ (batcher w) ∖ {[h]})) w)
                         else None) (rpc_ops rpc) wx)).
      { apply remove_loop_checks. split; [done|]. intros h Hh.
        rewrite Hbx, Ho1. simpl. by apply Hfl, Hmem. }
      rewrite Hrm in Hsome. by destruct Hsome. }
  apply RemoveInFlightOpsAfterFlushing_view in Hrm as (Hv2 & _).
  apply CheckForFinishedFlush_total. intros [_ Hst].
  apply rpc_view_eq in Hv2 as (Hst2 & Hcb2 & _).
  apply rpc_view_eq in Hv1 as (Hst1 & Hcb1 & _).
  rewrite Hcb2, Hcb1. rewrite Hst2, Hst1 in Hst. simpl in *.
  assert (Hne : rpcs w ≠ []) by (intros Hnil; by rewrite Hnil in Hrpc).
  unfold Inv in HI. destruct Hst as [Hst|Hst]; rewrite Hst in HI.
  - by destruct HI as (_ & ? & _).
  - by destruct HI as (_ & _ & ? & _).
Qed.

Lemma ReadyCallback_total o s w :
  dispatchable w -> prepare_waiting w = true -> is_Some (ReadyCallback o s w).
Proof.
  intros [_ Hg] Hw. unfold ReadyCallback, TransactionReady. rewrite Hw.
  destruct (ok s); [|apply Abort_total].
  apply ExecuteOperations_runs. simpl. intros Hst.
  destruct (Hg Hst) as (l & HF & Hgr). by exists l.
Qed.

(** No check fails: in a world that the invariants hold of, every call
    that can be made returns. *)
Lemma step_total f lf w oe :
  Inv f lf w -> owned w -> dispatchable w -> enabled w oe.2 = true ->
  is_Some (step w oe).
Proof.
  intros HI Ho Hd He. destruct oe as [o e]. unfold step. simpl in *.
  destruct e as [op|cb retry|h r|s|k s resp|s|d|]; simpl in *.
  - destruct (Add_total f lf o op w HI Hd) as [[st w'] ->]. by eexists.
  - apply bool_decide_eq_true in He. by eapply FlushAsync_total.
  - apply bool_decide_eq_true in He. by eapply LookupCallback_total.
  - by apply ReadyCallback_total.
  - apply bool_decide_eq_true in He. by eapply RpcFinished_total.
  - apply Abort_total.
  - by eexists.
  - by eexists.
Qed.

Lemma dispatchable_new cfg0 : dispatchable (new_World cfg0).
Proof.
  split; [split|done].
  - intros h Hin. by apply elem_of_nil in Hin.
  - intros rpc h Hin. by apply elem_of_nil in Hin.
Qed.

Lemma run_app w evs1 evs2 :
  run w (evs1 ++ evs2)
  = match run w evs1 with Some w1 => run w1 evs2 | None => None end.
Proof.
  revert w. induction evs1 as [|oe evs1 IH]; simpl; intros w; [done|].
  by destruct (step w oe).
Qed.

Lemma invariants_run cfg0 evs w :
  run (new_World cfg0) evs = Some w ->
  Inv (flushed_in evs) (lookup_failed_in evs) w ∧ owned w ∧ dispatchable w.
Proof.
  intros Hr. split_and!.
  - exact (Inv_run evs false false _ _ (Inv_new cfg0) Hr).
  - exact (owned_run evs false false _ _ (Inv_new cfg0) (owned_new cfg0) Hr).
  - exact (dispatchable_run evs false false _ _ (Inv_new cfg0) (dispatchable_new cfg0) Hr).
Qed.

(** C1: in every life cycle of a batcher the flush callback is run at most
    once; it is not run before [FlushAsync]; once [FlushAsync] was called,
    it has been run exactly once when nothing is owed to the batcher any
    more (no lookup, no RPC answer, no ready callback) and as soon as the
    batcher is aborted, whatever the number of calls of [Abort] and whether
    they come before completion, after it, or while lookups and RPCs are
    owed an answer; after completion its status is the one the finish check
    computes. And no life cycle is cut short by a check: after every life
    cycle each call that can be made returns, among them [Abort] and, also
    after an [Abort], the answer of every lookup and of every RPC that is
    owed one. *)
Theorem callback_run_exactly_once cfg0 evs w :
  run (new_World cfg0) evs = Some w ->
  (length (callback_runs w) <= 1)%nat
  ∧ (flushed_in evs = false -> callback_runs w = [])
  ∧ (flushed_in evs = true ->
     quiescent w ∨ state_ (batcher w) = kAborted ∨ state_ (batcher w) = kComplete ->
     ∃ status, callback_runs w = [status])
  ∧ (state_ (batcher w) = kComplete -> callback_runs w = [final_status (batcher w)])
  ∧ (flushed_in evs = true -> abort_in evs = true -> ∃ status, callback_runs w = [status])
  ∧ (∀ oe, enabled w oe.2 = true ->
       ∃ w', step w oe = Some w' ∧ run (new_World cfg0) (evs ++ [oe]) = Some w')
  ∧ (∀ o status, ∃ w', step w (o, EvAbort status) = Some w'
                       ∧ state_ (batcher w') = kAborted
                       ∧ (flushed_in evs = true -> ∃ st, callback_runs w' = [st]))
  ∧ (∀ o k s resp, (k < length (rpcs w))%nat -> is_Some (step w (o, EvRpc k s resp)))
  ∧ (∀ o h r, h ∈ lookups w -> is_Some (step w (o, EvLookup h r))).
Proof.
  intros Hr.
  assert (Hab : abort_in evs = true -> state_ (batcher w) = kAborted).
  { revert Hr. generalize (new_World cfg0). induction evs as [|oe evs IH]; [done|].
    simpl. intros w0 Hr. destruct (step w0 oe) as [w1|] eqn:Hs; [|done].
    intros [Ho|Hrest]%orb_true_iff; [|by eapply IH].
    destruct oe as [o [| | | | |s| |]]; try done. simpl in Hs.
    apply Abort_state in Hs. by apply (run_Aborted w1 evs). }
  destruct (invariants_run _ _ _ Hr) as (HI0 & Ho & Hd).
  assert (Hstep : ∀ oe, enabled w oe.2 = true -> is_Some (step w oe)).
  { intros oe He. by eapply step_total. }
  assert (Hone : ∀ l : list Status, length l = 1%nat -> ∃ status, l = [status]).
  { intros [|x [|? ?]]; try done. eauto. }
  assert (Hrun : ∀ oe w', step w oe = Some w' ->
                          run (new_World cfg0) (evs ++ [oe]) = Some w').
  { intros oe w' Hs. rewrite run_app, Hr. simpl. by rewrite Hs. }
  assert (Hprogress :
    (∀ oe, enabled w oe.2 = true ->
       ∃ w', step w oe = Some w' ∧ run (new_World cfg0) (evs ++ [oe]) = Some w')
    ∧ (∀ o status, ∃ w', step w (o, EvAbort status) = Some w'
                         ∧ state_ (batcher w') = kAborted
                         ∧ (flushed_in evs = true -> ∃ st, callback_runs w' = [st]))
    ∧ (∀ o k s resp, (k < length (rpcs w))%nat -> is_Some (step w (o, EvRpc k s resp)))
    ∧ (∀ o h r, h ∈ lookups w -> is_Some (step w (o, EvLookup h r)))).
  { split_and!.
    - intros oe He. destruct (Hstep oe He) as [w' Hs]. eauto.
    - intros o status. destruct (Hstep (o, EvAbort status) eq_refl) as [w' Hs].
      exists w'. split; [done|].
      pose proof (Inv_step _ _ _ _ _ HI0 Hs) as HI'. simpl in Hs.
      pose proof (Abort_state _ _ _ _ Hs) as Hst'. split; [done|].
      intros Hfl. unfold Inv in HI'. rewrite Hst' in HI'. simpl in HI'.
      rewrite Hfl in HI'. destruct HI' as (_ & Hlen & _). simpl in Hlen. auto.
    - intros o k s resp Hk. apply Hstep. simpl. by apply bool_decide_eq_true.
    - intros o h r Hin. apply Hstep. simpl. by apply bool_decide_eq_true. }
  destruct Hprogress as (P1 & P2 & P3 & P4).
  assert (Hmain :
    (length (callback_runs w) <= 1)%nat
    ∧ (flushed_in evs = false -> callback_runs w = [])
    ∧ (flushed_in evs = true ->
       quiescent w ∨ state_ (batcher w) = kAborted ∨ state_ (batcher w) = kComplete ->
       ∃ status, callback_runs w = [status])
    ∧ (state_ (batcher w) = kComplete -> callback_runs w = [final_status (batcher w)])
    ∧ (flushed_in evs = true -> abort_in evs = true ->
       ∃ status, callback_runs w = [status]));
    [|by destruct Hmain as (? & ? & ? & ? & ?)].
  pose proof HI0 as HI. clear Hstep Hrun P1 P2 P3 P4.
  unfold Inv in HI. destruct (state_ (batcher w)) eqn:Hst.
  - destruct HI as (-> & _ & (_ & _ & _ & _ & _ & _ & _ & _ & _ & ->) & _).
    split_and!; try done. simpl. lia.
  - destruct HI as (-> & _ & (_ & _ & _ & _ & _ & _ & _ & _ & _ & ->) & _ & Hl).
    split_and!; try done; [simpl; lia| |].
    + intros _ [(? & _)|[?|?]]; done.
    + intros _ Ha. apply Hab in Ha. done.
  - destruct HI as (-> & _ & (_ & _ & -> & _) & Hp).
    split_and!; try done; [simpl; lia| |].
    + intros _ [(_ & _ & ?)|[?|?]]; congruence.
    + intros _ Ha. apply Hab in Ha. done.
  - destruct HI as (-> & _ & (_ & -> & _ & _ & Hne & _)).
    split_and!; try done; [simpl; lia| |].
    + intros _ [(_ & ? & _)|[?|?]]; done.
    + intros _ Ha. apply Hab in Ha. done.
  - destruct HI as (-> & _ & -> & _). split_and!; try done; eauto.
  - destruct HI as (_ & Hlen & _). destruct (flushed_in evs).
    + split_and!; try done; [lia|auto..].
    + destruct (callback_runs w); [|done]. split_and!; try done. simpl. lia.
Qed.

End Progress.


(** ** The further theorems at concrete inputs *)

Lemma combined_error_code_witness :
  ∃ w', for_each (λ e : Handle * Status, CombineErrorUnlocked e.1 e.2)
          [(0%nat, not_found); (1%nat, timed_out)] two_added_combining = Some w'
        ∧ code (combined_error_ (batcher w')) = Combined.
Proof.
  destruct (for_each (λ e : Handle * Status, CombineErrorUnlocked e.1 e.2)
              [(0%nat, not_found); (1%nat, timed_out)] two_added_combining)
    as [w'|] eqn:Hf; [|vm_compute in Hf; discriminate Hf].
  exists w'. split; [reflexivity|].
  destruct (combined_error_code _ _ _ Hf ltac:(vm_compute; reflexivity)) as [_ Hon].
  destruct (Hon ltac:(vm_compute; reflexivity) 0%nat not_found [(1%nat, timed_out)]
              eq_refl ltac:(vm_compute; reflexivity)) as [_ Hex].
  apply Hex. apply Exists_cons_hd. vm_compute. discriminate.
Defined.

Lemma failed_lookup_fails_the_op_witness :
  ∃ w', TabletLookupFinished oracle0 0%nat (ROk tabletB) two_added = Some w'
        ∧ had_errors_ (batcher w') = true
        ∧ sent_rpcs w' = sent_rpcs two_added.
Proof.
  destruct (TabletLookupFinished oracle0 0%nat (ROk tabletB) two_added)
    as [w'|] eqn:Ht; [|vm_compute in Ht; discriminate Ht].
  exists w'. split; [reflexivity|].
  destruct (failed_lookup_fails_the_op oracle0 0%nat (ROk tabletB)
              (row_not_in_partition_status
                 (mkInFlightOp (write_op 1 "a") "a" None kLookingUpTablet 0) tabletB)
              two_added w' (mkInFlightOp (write_op 1 "a") "a" None kLookingUpTablet 0)
              Ht ltac:(left; vm_compute; reflexivity) ltac:(vm_compute; reflexivity)
              ltac:(vm_compute; reflexivity))
    as (_ & _ & _ & Herr & _ & Hsent & _).
  split; [exact Herr|exact Hsent].
Defined.

Lemma late_lookup_witness :
  ∃ w', TabletLookupFinished oracle0 0%nat (ROk tabletA) (after aborted_early) = Some w'
        ∧ ops_ (batcher w') = ops_ (batcher (after aborted_early)) ∖ {[0%nat]}
        ∧ state_ (batcher w') = kAborted.
Proof.
  destruct (late_lookup oracle0 0%nat (ROk tabletA) (after aborted_early)) as [Hab _].
  destruct (Hab ltac:(vm_compute; reflexivity) ltac:(compute_done)
              (mkInFlightOp (write_op 1 "a") "a" None kLookingUpTablet 0)
              ltac:(vm_compute; reflexivity))
    as (w' & Ht & Hops & _ & _ & Hst & _).
  exists w'. split; [exact Ht|]. split; [exact Hops|exact Hst].
Defined.

Lemma Add_with_tablet_witness :
  ∃ st w', Add oracle0 placed_op (new_World cfg0) = Some (st, w')
           ∧ st = Status_OK
           ∧ started_lookups w' = started_lookups (new_World cfg0)
           ∧ ops_queue_ (batcher w')
             = ops_queue_ (batcher (new_World cfg0)) ++ [length (heap (new_World cfg0))].
Proof.
  destruct (Add oracle0 placed_op (new_World cfg0)) as [[st w']|] eqn:Ha;
    [|vm_compute in Ha; discriminate Ha].
  exists st, w'. split; [reflexivity|].
  destruct (Add_with_tablet oracle0 placed_op tabletA (new_World cfg0) st w' Ha
              ltac:(vm_compute; reflexivity) ltac:(vm_compute; reflexivity)
              ltac:(vm_compute; reflexivity) ltac:(vm_compute; reflexivity))
    as (Hst & _ & Hsl & _ & _ & _ & Hacc & _).
  destruct (Hacc ltac:(vm_compute; reflexivity) ltac:(vm_compute; reflexivity))
    as (_ & _ & Hq & _).
  split; [exact Hst|]. split; [exact Hsl|exact Hq].
Defined.

Lemma ProcessWriteResponse_records_witness :
  ∃ w', ProcessWriteResponse (first_rpc (after dispatched3)) Status_OK row_response
          (after dispatched3) = Some w'
        ∧ error_collector_ (batcher w') = [(write_op 3 "c", not_found)]
        ∧ trace w' = trace (after dispatched3) ++ [UpdateLatestObservedHybridTime 9].
Proof.
  destruct (ProcessWriteResponse (first_rpc (after dispatched3)) Status_OK row_response
              (after dispatched3)) as [w'|] eqn:Hp; [|vm_compute in Hp; discriminate Hp].
  exists w'. split; [reflexivity|].
  destruct (ProcessWriteResponse_records _ _ _ _ _ Hp) as (Herr & _ & _ & _ & _ & _ & Htr).
  split; [rewrite Herr; vm_compute; reflexivity|exact Htr].
Defined.

Lemma RemoveInFlightOpsAfterFlushing_checks_witness :
  ∃ w', RemoveInFlightOpsAfterFlushing [0; 2]%nat Status_OK (after dispatched3) = Some w'
        ∧ ops_ (batcher w') = ops_ (batcher (after dispatched3)) ∖ list_to_set [0; 2]%nat.
Proof.
  destruct (RemoveInFlightOpsAfterFlushing_checks [0; 2]%nat Status_OK (after dispatched3))
    as [Hsome Hres].
  destruct (proj2 Hsome) as [w' Hr].
  - split; [compute_done|]. intros h Hh.
    apply elem_of_cons in Hh as [->|Hh]; [compute_done|].
    apply list_elem_of_singleton in Hh as ->. compute_done.
  - exists w'. split; [exact Hr|]. exact (proj1 (Hres w' Hr)).
Defined.

Lemma ExecuteOperations_rpc_flags_witness :
  ∃ w' r1 r2,
    ExecuteOperations oracle0 true prepared3 = Some w'
    ∧ sent_rpcs w' = sent_rpcs prepared3 ++ [r1; r2]
    ∧ need_consistent_read r1 = true
    ∧ allow_local_calls_in_curr_thread r1 = false
    ∧ allow_local_calls_in_curr_thread r2 = true.
Proof.
  destruct (ExecuteOperations oracle0 true prepared3) as [w'|] eqn:He;
    [|vm_compute in He; discriminate He].
  destruct (ExecuteOperations_rpc_flags oracle0 true prepared3 w' He
              ltac:(vm_compute; reflexivity) ltac:(left; vm_compute; reflexivity)
              ltac:(vm_compute; discriminate))
    as (new_rpcs & Hsent & Hlen & Hflags).
  vm_compute in Hlen.
  destruct new_rpcs as [|r1 [|r2 [|r3 rest]]]; try discriminate Hlen.
  destruct (Hflags 0%nat r1 eq_refl) as (Hn1 & Ha1 & _).
  destruct (Hflags 1%nat r2 eq_refl) as (_ & Ha2 & _).
  vm_compute in Hn1, Ha1, Ha2.
  exists w', r1, r2. split; [reflexivity|]. split; [exact Hsent|].
  split; [exact Hn1|]. split; [exact Ha1|exact Ha2].
Defined.

Lemma TransactionReady_outcomes_witness :
  ∃ w', TransactionReady oracle0 (STATUS Aborted "conflict") waiting_for_transaction
        = Some w'
        ∧ state_ (batcher w') = kAborted
        ∧ sent_rpcs w' = sent_rpcs waiting_for_transaction.
Proof.
  destruct (TransactionReady_outcomes oracle0 (STATUS Aborted "conflict")
              waiting_for_transaction) as [Hfail _].
  destruct (Hfail ltac:(vm_compute; reflexivity)) as (w' & Ht & Hst & _ & Hsent & _).
  exists w'. split; [exact Ht|]. split; [exact Hst|exact Hsent].
Defined.

Lemma FlushBuffersIfReady_dispatches_witness :
  ∃ w' new_rpcs,
    FlushBuffersIfReady oracle0 (mid_flush (after three_resolved)) = Some w'
    ∧ state_ (batcher w') = kTransactionReady
    ∧ sent_rpcs w' = sent_rpcs (mid_flush (after three_resolved)) ++ new_rpcs
    ∧ concat (rpc_ops <$> new_rpcs)
      ≡ₚ ops_queue_ (batcher (mid_flush (after three_resolved))).
Proof.
  destruct (FlushBuffersIfReady_dispatches oracle0 (mid_flush (after three_resolved))
              ltac:(vm_compute; reflexivity) ltac:(vm_compute; reflexivity)
              ltac:(vm_compute; discriminate) ltac:(vm_compute; reflexivity)
              ltac:(vm_compute; reflexivity) ltac:(left; vm_compute; reflexivity))
    as (w' & new_rpcs & Hf & Hst & Hsent & _ & Hperm & _).
  - vm_compute. repeat constructor; eexists; (split; [reflexivity|]);
      (split; [by eexists|]); intros (requested & t & Hv & _); discriminate Hv.
  - exists w', new_rpcs. split; [exact Hf|]. split; [exact Hst|].
    split; [exact Hsent|exact Hperm].
Defined.

Lemma state_moves_forward_witness :
  CountBufferedOperations (after [EvFlushAsync 7%nat false; EvAdd (write_op 1 "a")]) = 0%nat.
Proof.
  assert (Hr : run flushed_empty (at_oracle0 [EvAdd (write_op 1 "a")])
               = Some (after [EvFlushAsync 7%nat false; EvAdd (write_op 1 "a")]))
    by (vm_compute; reflexivity).
  destruct (state_moves_forward _ _ _ Hr) as [_ Hlater].
  destruct (Hlater ltac:(vm_compute; discriminate)) as (_ & Hcount & _).
  exact Hcount.
Defined.

Lemma sequence_numbers_follow_Add_witness :
  sequence_number_ <$> heap (after three_resolved)
  = Z.of_nat <$> seq 0 (length (heap (after three_resolved))).
Proof.
  assert (Hr : run (new_World cfg0) (at_oracle0 three_resolved)
               = Some (after three_resolved)) by (vm_compute; reflexivity).
  destruct (sequence_numbers_follow_Add cfg0 _ _ Hr) as (Hseq & _).
  exact Hseq.
Defined.

Lemma errors_are_accounted_witness :
  had_errors_ (batcher (after failed_then_drained)) = true
  ∧ error_collector_ (batcher (after failed_then_drained)) = [].
Proof.
  assert (Hr : run (new_World cfg0) (at_oracle0 failed_then_drained)
               = Some (after failed_then_drained)) by (vm_compute; reflexivity).
  destruct (errors_are_accounted cfg0 _ _ Hr) as (_ & Hfailed & _).
  split; [|vm_compute; reflexivity].
  apply Hfailed; [vm_compute; reflexivity|vm_compute; discriminate].
Defined.


Lemma rpcs_suit_their_operations_witness :
  ∃ op t, heap (after dispatched3) !! 2%nat = Some op ∧ tablet op = Some t
          ∧ tablet_addr t = rpc_tablet (first_rpc (after dispatched3))
          ∧ ContainsKey (partition t) (partition_key op) = true.
Proof.
  assert (Hr : run (new_World cfg0) (at_oracle0 dispatched3) = Some (after dispatched3))
    by (vm_compute; reflexivity).
  destruct (rpcs_suit_their_operations cfg0 _ _ Hr) as (Hsuit & _).
  destruct (Hsuit (first_rpc (after dispatched3)) 2%nat
              ltac:(vm_compute; apply list_elem_of_here)
              ltac:(vm_compute; apply list_elem_of_further, list_elem_of_here))
    as (op & t & Hop & Ht & Haddr & Hck & _).
  exists op, t. split; [exact Hop|]. split; [exact Ht|]. split; [exact Haddr|exact Hck].
Defined.

Lemma flushed_and_quiescent_is_finished_witness :
  state_ (batcher (after only_lookup_fails)) = kComplete
  ∨ state_ (batcher (after only_lookup_fails)) = kAborted.
Proof.
  assert (Hr : run (new_World cfg0) (at_oracle0 only_lookup_fails)
               = Some (after only_lookup_fails)) by (vm_compute; reflexivity).
  destruct (flushed_and_quiescent_is_finished cfg0 _ _ Hr) as (Hfin & _).
  apply Hfin; [vm_compute; reflexivity|]. repeat split; vm_compute; reflexivity.
Defined.


(** ** The life cycle theorems at concrete inputs *)

Lemma callback_run_exactly_once_witness :
  (∃ status, callback_runs (after abort_in_flight) = [status])
  ∧ is_Some (step (after aborted_in_flight) (oracle0, EvRpc 0%nat timed_out ok_response)).
Proof.
  assert (Hr1 : run (new_World cfg0) (at_oracle0 abort_in_flight)
                = Some (after abort_in_flight)) by (vm_compute; reflexivity).
  assert (Hr2 : run (new_World cfg0) (at_oracle0 aborted_in_flight)
                = Some (after aborted_in_flight)) by (vm_compute; reflexivity).
  split.
  - destruct (callback_run_exactly_once cfg0 _ _ Hr1) as (_ & _ & _ & _ & Hab & _).
    apply Hab; vm_compute; reflexivity.
  - destruct (callback_run_exactly_once cfg0 _ _ Hr2) as (_ & _ & _ & _ & _ & _ & _ & Hrpc & _).
    apply Hrpc. vm_compute. lia.
Defined.



